(** * island.c: a shallow embedding and its checked properties

    The program animates an island in a terminal: a cloud drifts and lets
    drips fall, the drips hit a row of water columns, and the water is a
    chain of damped springs coupled to their neighbours.  This file embeds
    the functions of [island.c] as Rocq functions and proves properties of
    them.

    Conventions of the embedding.
    - [size_t] values are [Z] in [[0, 2^64)]; every [size_t] operation writes
      its wrap-around out ([SizeT.add], [SizeT.sub], [SizeT.mul]).
    - C [float] and [double] arithmetic is taken through the interface
      [FloatModel], with two instances: [IEEE.model] (binary32 and binary64,
      round to nearest even, built on the standard library's [SpecFloat]) and
      [Exact.model] (both types are the rationals, nothing is rounded).
    - A C array is a [list]; reading or writing a cell out of range is
      undefined behaviour in C, and is [None] here.  Functions that index
      arrays therefore return an [option].
    - The [termsize_t] that [water_t], [drips_t] and [cloud_t] all point to
      is one value passed to every function that reads it. *)

From Stdlib Require Import ZArith QArith Qabs Qpower Qminmax Lia Lqa List Bool.
From Stdlib Require Import Floats.SpecFloat.
From stdpp Require Import base option list.

Local Open Scope Z_scope.

(** ** [size_t]: unsigned 64-bit arithmetic *)

Module SizeT.
Definition modulus : Z := 2 ^ 64.
Definition wrap (z : Z) : Z := z mod modulus.
Definition add (a b : Z) : Z := wrap (a + b).
Definition sub (a b : Z) : Z := wrap (a - b).
Definition mul (a b : Z) : Z := wrap (a * b).
Definition div (a b : Z) : Z := a / b.
Definition in_range (z : Z) : Prop := 0 <= z < modulus.
End SizeT.

(** ** The arithmetic of [float] and [double] *)

Class FloatModel := {
  float : Type;
  double : Type;
  (* conversions *)
  f2d : float -> double;          (* promotion of a float operand *)
  d2f : double -> float;          (* a double stored into a float *)
  z2f : Z -> float;               (* an integer operand converted to float *)
  z2d : Z -> double;              (* an integer operand converted to double *)
  f2z : float -> option Z;        (* truncation toward zero; no value for NaN, inf *)
  d2z : double -> option Z;
  dlit : Q -> double;             (* a decimal literal such as 9.8 or 0.025 *)
  (* float arithmetic *)
  f_add : float -> float -> float;
  f_sub : float -> float -> float;
  f_mul : float -> float -> float;
  f_div : float -> float -> float;
  f_lt : float -> float -> bool;
  f_le : float -> float -> bool;
  (* double arithmetic *)
  d_add : double -> double -> double;
  d_sub : double -> double -> double;
  d_mul : double -> double -> double;
  d_div : double -> double -> double;
  d_neg : double -> double;
}.

(** [(size_t)f] and [(int)f]: the truncated value when it fits the target
    type, undefined otherwise. *)
Definition f2sz `{FloatModel} (f : float) : option Z :=
  z ← f2z f; if (0 <=? z) && (z <? SizeT.modulus) then Some z else None.

Definition f2int `{FloatModel} (f : float) : option Z :=
  z ← f2z f; if (- 2 ^ 31 <=? z) && (z <? 2 ^ 31) then Some z else None.

Definition d2int `{FloatModel} (d : double) : option Z :=
  z ← d2z d; if (- 2 ^ 31 <=? z) && (z <? 2 ^ 31) then Some z else None.

(** *** IEEE 754 instance: [float] is binary32, [double] is binary64 *)

Module IEEE.
Definition prec32 : Z := 24.
Definition emax32 : Z := 128.
Definition prec64 : Z := 53.
Definition emax64 : Z := 1024.

(** Rounding of the value of [x] into the format [(prec, emax)]. *)
Definition round_to (prec emax : Z) (x : spec_float) : spec_float :=
  match x with
  | S754_finite s m e => binary_normalize prec emax (cond_Zopp s (Zpos m)) e s
  | _ => x
  end.

Definition of_Z (prec emax : Z) (z : Z) : spec_float :=
  binary_normalize prec emax z 0 false.

Definition trunc (x : spec_float) : option Z :=
  match x with
  | S754_zero _ => Some 0
  | S754_finite s m e => Some (cond_Zopp s (Z.shiftl (Zpos m) e))
  | S754_infinity _ | S754_nan => None
  end.

Definition literal (q : Q) : spec_float :=
  SFdiv prec64 emax64 (of_Z prec64 emax64 (Qnum q)) (of_Z prec64 emax64 (Zpos (Qden q))).

(** The rational value of a finite float, for stating how far a computed
    float is from a decimal number. *)
Definition to_Q (x : spec_float) : option Q :=
  match x with
  | S754_zero _ => Some 0%Q
  | S754_finite s m e =>
      Some (match e with
            | Zneg p => cond_Zopp s (Zpos m) # (2 ^ p)
            | _ => inject_Z (cond_Zopp s (Zpos m) * 2 ^ e)
            end)
  | S754_infinity _ | S754_nan => None
  end.

(** [y] is the opposite of [x], up to the sign of a zero. *)
Definition mirror (x y : spec_float) : Prop :=
  y = SFopp x \/ (exists s s', x = S754_zero s /\ y = S754_zero s').

(** The rational value of a float; an infinity or a NaN counts for [0]. *)
Definition value (x : spec_float) : Q :=
  match to_Q x with Some q => q | None => 0%Q end.

(** The zeros and the finite numbers. *)
Definition is_finite (x : spec_float) : bool :=
  match x with S754_zero _ | S754_finite _ _ _ => true | _ => false end.

(** The exponent of [x], when it has one, is at most [L]. *)
Definition exp_le (L : Z) (x : spec_float) : Prop :=
  match x with S754_finite _ _ e => e <= L | _ => True end.

(** [r] is finite and within [2^L] of the rational [v]. *)
Definition close (L : Z) (r : spec_float) (v : Q) : Prop :=
  is_finite r = true /\ (Qabs (value r - v) <= 2 ^ L)%Q.

#[export] Instance model : FloatModel := {|
  float := spec_float;
  double := spec_float;
  f2d := round_to prec64 emax64;
  d2f := round_to prec32 emax32;
  z2f := of_Z prec32 emax32;
  z2d := of_Z prec64 emax64;
  f2z := trunc;
  d2z := trunc;
  dlit := literal;
  f_add := SFadd prec32 emax32;
  f_sub := SFsub prec32 emax32;
  f_mul := SFmul prec32 emax32;
  f_div := SFdiv prec32 emax32;
  f_lt := SFltb;
  f_le := SFleb;
  d_add := SFadd prec64 emax64;
  d_sub := SFsub prec64 emax64;
  d_mul := SFmul prec64 emax64;
  d_div := SFdiv prec64 emax64;
  d_neg := SFopp;
|}.
End IEEE.

(** *** Exact instance: both types are the rationals *)

Module Exact.
Definition trunc (q : Q) : option Z := Some (Z.quot (Qnum q) (Zpos (Qden q))).

Definition ltb (a b : Q) : bool := negb (Qle_bool b a).

#[export] Instance model : FloatModel := {|
  float := Q;
  double := Q;
  f2d := fun q => q;
  d2f := fun q => q;
  z2f := inject_Z;
  z2d := inject_Z;
  f2z := trunc;
  d2z := trunc;
  dlit := fun q => q;
  f_add := Qplus;
  f_sub := Qminus;
  f_mul := Qmult;
  f_div := Qdiv;
  f_lt := ltb;
  f_le := Qle_bool;
  d_add := Qplus;
  d_sub := Qminus;
  d_mul := Qmult;
  d_div := Qdiv;
  d_neg := Qopp;
|}.
End Exact.

(** ** Loops *)

(** [for (i = lo; i < lo + n; i++) body] over a state that the body may
    leave undefined. *)
Fixpoint for_range {S : Type} (body : nat -> S -> option S) (lo n : nat) (s : S)
  : option S :=
  match n with
  | O => Some s
  | Datatypes.S n' => s' ← body lo s; for_range body (Datatypes.S lo) n' s'
  end.

Definition for_loop {S : Type} (n : nat) (body : nat -> S -> option S) (s : S)
  : option S :=
  for_range body 0 n s.

(** [a[i] = f(a[i])] on a C array. *)
Definition upd {A : Type} (i : nat) (f : A -> A) (a : list A) : option (list A) :=
  c ← a !! i; Some (<[i := f c]> a).

(** ** Terminal output *)

Inductive glyph :=
  | drip_char
  | cloud_char (row : Z)
  | blank
  | water_chars (level : Z).

Inductive op :=
  | MoveCursor (row col : Z)
  | SetColor (sgr : list Z)
  | WriteGlyph (g : glyph).

Definition fgcolors : list Z := [30; 31; 32; 33; 34; 35; 36; 37; 90; 91; 92; 93; 94; 95; 96; 97].
Definition bgcolors : list Z := [40; 41; 42; 43; 44; 45; 46; 47; 100; 101; 102; 103; 104; 105; 106; 107].
Definition fg (i : nat) : Z := nth i fgcolors 0.
Definition bg (i : nat) : Z := nth i bgcolors 0.

Inductive cmode := CM_UNKNOWN | CM_CLOUD | CM_ISLAND | CM_WATER_FG | CM_WATER_BG.

Definition cmode_eqb (a b : cmode) : bool :=
  match a, b with
  | CM_UNKNOWN, CM_UNKNOWN | CM_CLOUD, CM_CLOUD | CM_ISLAND, CM_ISLAND
  | CM_WATER_FG, CM_WATER_FG | CM_WATER_BG, CM_WATER_BG => true
  | _, _ => false
  end.

Definition is_SetColor (o : op) : bool :=
  match o with SetColor _ => true | _ => false end.

(** ** The terminal size *)

Record termsize_t := {
  term_width : Z;
  term_height : Z;
  term_updated : bool;
}.

(** [ioctl(STDIN_FILENO, TIOCGWINSZ, &ws)]: [None] when the call fails,
    otherwise [(ws_col, ws_row)]. *)
Definition winsize := option (Z * Z).

Definition termsize_update (ws : winsize) (term : termsize_t) : Z * termsize_t :=
  match ws with
  | None => (-2, term)
  | Some (ws_col, ws_row) =>
      if negb (ws_col =? term_width term) || negb (ws_row =? term_height term)
      then (0, {| term_width := ws_col; term_height := ws_row; term_updated := true |})
      else (0, {| term_width := term_width term; term_height := term_height term;
                  term_updated := false |})
  end.

(** [term->updated] is not written before the query; [updated0] is the
    value the uninitialised field holds. *)
Definition termsize_init (ws : winsize) (updated0 : bool) : Z * termsize_t :=
  let term := {| term_width := 0; term_height := 0; term_updated := updated0 |} in
  let '(rc, term') := termsize_update ws term in
  if rc =? 0 then (0, term') else (-2, term').

Section Island.
Context {FM : FloatModel}.

Definition FRAME_RATE : Z := 10.
Definition GRAVITY : double := d_div (dlit (98 # 10)) (z2d FRAME_RATE).
Definition WATER_TENSION : double := dlit (25 # 1000).
Definition WATER_DAMPENING : double := dlit (25 # 1000).
Definition WATER_SPREAD : double := dlit (25 # 100).
Definition CLOUD_SPEED : double := d_div (dlit 10) (z2d FRAME_RATE).

(** ** Data *)

Record drip_t := {
  drip_active : bool;
  drip_x : Z;
  drip_y : Z;
  drip_speed : float;
}.

Record cloud_t := {
  cloud_pos : float;
  cloud_speed : float;
  drop_delay : Z;
  drop_count : Z;
}.

Record water_column_t := {
  col_height : float;
  col_speed : float;
  col_ldelta : float;
  col_rdelta : float;
}.

Record water_t := {
  cols : list water_column_t;
  target_height : float;
  island_y : Z;
}.

Definition set_height (h : float) (c : water_column_t) : water_column_t :=
  {| col_height := h; col_speed := col_speed c;
     col_ldelta := col_ldelta c; col_rdelta := col_rdelta c |}.
Definition set_speed (v : float) (c : water_column_t) : water_column_t :=
  {| col_height := col_height c; col_speed := v;
     col_ldelta := col_ldelta c; col_rdelta := col_rdelta c |}.
Definition set_ldelta (d : float) (c : water_column_t) : water_column_t :=
  {| col_height := col_height c; col_speed := col_speed c;
     col_ldelta := d; col_rdelta := col_rdelta c |}.
Definition set_rdelta (d : float) (c : water_column_t) : water_column_t :=
  {| col_height := col_height c; col_speed := col_speed c;
     col_ldelta := col_ldelta c; col_rdelta := d |}.

Definition set_cols (cs : list water_column_t) (w : water_t) : water_t :=
  {| cols := cs; target_height := target_height w; island_y := island_y w |}.
Definition set_target (t : float) (w : water_t) : water_t :=
  {| cols := cols w; target_height := t; island_y := island_y w |}.

(** ** The water *)

(** The block of [water_update] guarded by [water->term->updated].
    [realloc] keeps the cells the old and the new array share; a cell it
    adds holds [junk].  The loop then writes [height] and [speed] of every
    cell and leaves [ldelta] and [rdelta] as they are. *)
Definition water_reset_body (target : float) (i : nat) (cs : list water_column_t)
  : option (list water_column_t) :=
  cs1 ← upd i (set_height target) cs;
  upd i (set_speed (d2f (dlit 0))) cs1.

Definition water_resize (junk : water_column_t) (term : termsize_t) (water : water_t)
  : option water_t :=
  let n := Z.to_nat (term_width term) in
  let tmp := resize n junk (cols water) in
  let target := z2f 8 in
  cs ← for_loop n (water_reset_body target) tmp;
  Some {| cols := cs; target_height := target;
          island_y := SizeT.sub (SizeT.div (SizeT.mul (term_height term) 3) 4) 1 |}.

(** The restoring force on one column. *)
Definition restore_col (target : float) (c : water_column_t) : water_column_t :=
  let v := d2f (d_add (f2d (col_speed c))
                  (d_sub (d_mul WATER_TENSION (f2d (f_sub target (col_height c))))
                         (d_mul (f2d (col_speed c)) WATER_DAMPENING))) in
  set_height (f_add (col_height c) v) (set_speed v c).

Definition restore_body (target : float) (i : nat) (cs : list water_column_t)
  : option (list water_column_t) :=
  upd i (restore_col target) cs.

Definition restore_pass (term : termsize_t) (water : water_t) : option water_t :=
  cs ← for_loop (Z.to_nat (term_width term)) (restore_body (target_height water)) (cols water);
  Some (set_cols cs water).

(** [WATER_SPREAD * (a - b)] stored into a [float]. *)
Definition spread_delta (a b : float) : float :=
  d2f (d_mul WATER_SPREAD (f2d (f_sub a b))).

(** First inner loop of a spread pass: the deltas are stored and added to
    the neighbours' speeds. *)
Definition spread_delta_body (width : Z) (i : nat) (cs : list water_column_t)
  : option (list water_column_t) :=
  cs1 ← (if (0 <? i)%nat then
           ci ← cs !! i;
           cl ← cs !! (i - 1)%nat;
           let d := spread_delta (col_height ci) (col_height cl) in
           cs' ← upd i (set_ldelta d) cs;
           upd (i - 1)%nat (fun c => set_speed (f_add (col_speed c) d) c) cs'
         else Some cs);
  if Z.of_nat i <? SizeT.sub width 1 then
    ci ← cs1 !! i;
    cr ← cs1 !! (i + 1)%nat;
    let d := spread_delta (col_height ci) (col_height cr) in
    cs' ← upd i (set_rdelta d) cs1;
    upd (i + 1)%nat (fun c => set_speed (f_add (col_speed c) d) c) cs'
  else Some cs1.

(** Second inner loop: the stored deltas are added to the neighbours'
    heights. *)
Definition spread_apply_body (width : Z) (i : nat) (cs : list water_column_t)
  : option (list water_column_t) :=
  cs1 ← (if (0 <? i)%nat then
           ci ← cs !! i;
           upd (i - 1)%nat (fun c => set_height (f_add (col_height c) (col_ldelta ci)) c) cs
         else Some cs);
  if Z.of_nat i <? SizeT.sub width 1 then
    ci ← cs1 !! i;
    upd (i + 1)%nat (fun c => set_height (f_add (col_height c) (col_rdelta ci)) c) cs1
  else Some cs1.

(** One iteration of the [j] loop. *)
Definition spread_pass (width : Z) (cs : list water_column_t)
  : option (list water_column_t) :=
  cs1 ← for_loop (Z.to_nat width) (spread_delta_body width) cs;
  for_loop (Z.to_nat width) (spread_apply_body width) cs1.

Definition spread_passes (term : termsize_t) (water : water_t) : option water_t :=
  cs ← for_loop 8 (fun _ => spread_pass (term_width term)) (cols water);
  Some (set_cols cs water).

(** The array after iteration [i] of each inner loop when every index the
    iteration touches is in range, written with total lookups. *)
#[export] Instance water_column_inhabited : Inhabited water_column_t :=
  populate {| col_height := z2f 0; col_speed := z2f 0;
              col_ldelta := z2f 0; col_rdelta := z2f 0 |}.

Definition add_speed (d : float) (c : water_column_t) : water_column_t :=
  set_speed (f_add (col_speed c) d) c.
Definition add_height (d : float) (c : water_column_t) : water_column_t :=
  set_height (f_add (col_height c) d) c.

Definition spread_delta_cells (width : Z) (i : nat) (cs : list water_column_t)
  : list water_column_t :=
  let cs1 :=
    if (0 <? i)%nat then
      let d := spread_delta (col_height (cs !!! i)) (col_height (cs !!! (i - 1)%nat)) in
      alter (add_speed d) (i - 1)%nat (alter (set_ldelta d) i cs)
    else cs in
  if Z.of_nat i <? SizeT.sub width 1 then
    let d := spread_delta (col_height (cs1 !!! i)) (col_height (cs1 !!! (i + 1)%nat)) in
    alter (add_speed d) (i + 1)%nat (alter (set_rdelta d) i cs1)
  else cs1.

Definition spread_apply_cells (width : Z) (i : nat) (cs : list water_column_t)
  : list water_column_t :=
  let cs1 :=
    if (0 <? i)%nat then alter (add_height (col_ldelta (cs !!! i))) (i - 1)%nat cs
    else cs in
  if Z.of_nat i <? SizeT.sub width 1
  then alter (add_height (col_rdelta (cs1 !!! i))) (i + 1)%nat cs1
  else cs1.

Definition heights (cs : list water_column_t) : list float :=
  map col_height cs.

(** The sum of the heights of all columns. *)
Definition total_height (cs : list water_column_t) : float :=
  fold_right f_add (z2f 0) (heights cs).

(** A column at rest at level [T]; [zero] is the speed of rest. *)
Definition calm (T zero : float) (c : water_column_t) : Prop :=
  col_height c = T /\ col_speed c = zero.

(** What iterations [0 .. k-1] of the second inner loop add to heights:
    the stored [ldelta] of every cell but the first and the stored [rdelta]
    of every cell [i < width - 1]. *)
Fixpoint delta_sum (width : Z) (cs : list water_column_t) (k : nat) : float :=
  match k with
  | O => z2f 0
  | Datatypes.S k' =>
      f_add (f_add (delta_sum width cs k')
                   (if (0 <? k')%nat then col_ldelta (cs !!! k') else z2f 0))
            (if Z.of_nat k' <? SizeT.sub width 1 then col_rdelta (cs !!! k') else z2f 0)
  end.

Definition all_calm (T zero : float) (cs : list water_column_t) : Prop :=
  forall j, (j < length cs)%nat -> calm T zero (cs !!! j).

(** [water_update]; [alloc] is what [realloc] does when it is called:
    [None] when it fails, [Some junk] when it succeeds.  The result is the
    return code and the water. *)
Definition water_update (alloc : option water_column_t) (term : termsize_t)
  (water : water_t) : option (Z * water_t) :=
  if term_updated term then
    match alloc with
    | None => Some (-2, water)
    | Some junk =>
        w1 ← water_resize junk term water;
        w2 ← restore_pass term w1;
        w3 ← spread_passes term w2;
        Some (0, w3)
    end
  else
    w2 ← restore_pass term water;
    w3 ← spread_passes term w2;
    Some (0, w3).

(** [water_init]: [cols] is the null pointer, [target_height] and
    [island_y] hold whatever the uninitialised struct holds. *)
Definition water_init (alloc : option water_column_t) (term : termsize_t)
  (target0 : float) (island0 : Z) : option (Z * water_t) :=
  water_update alloc term {| cols := []; target_height := target0; island_y := island0 |}.

(** ** The drips *)

Definition set_drip_active (a : bool) (d : drip_t) : drip_t :=
  {| drip_active := a; drip_x := drip_x d; drip_y := drip_y d; drip_speed := drip_speed d |}.
Definition set_drip_y (v : Z) (d : drip_t) : drip_t :=
  {| drip_active := drip_active d; drip_x := drip_x d; drip_y := v; drip_speed := drip_speed d |}.
Definition set_drip_speed (v : float) (d : drip_t) : drip_t :=
  {| drip_active := drip_active d; drip_x := drip_x d; drip_y := drip_y d; drip_speed := v |}.
Definition set_drip_x (v : Z) (d : drip_t) : drip_t :=
  {| drip_active := drip_active d; drip_x := v; drip_y := drip_y d; drip_speed := drip_speed d |}.

Definition drips_init : list drip_t := [].

(** The index at which the search loop of [drips_generate] stops: the first
    inactive slot, or the size of the pool. *)
Fixpoint first_inactive (ds : list drip_t) : nat :=
  match ds with
  | [] => O
  | d :: ds' => if drip_active d then Datatypes.S (first_inactive ds') else O
  end.

Definition spawned (term : termsize_t) (x : Z) : drip_t :=
  {| drip_active := true; drip_x := x;
     drip_y := SizeT.mul (SizeT.sub (term_height term) 2) 8;
     drip_speed := z2f 0 |}.

(** [drips_generate]; [alloc_ok] tells whether [realloc] succeeds when the
    pool has to grow. *)
Definition drips_generate (alloc_ok : bool) (term : termsize_t) (ds : list drip_t) (x : Z)
  : Z * list drip_t :=
  let i := first_inactive ds in
  if (i =? length ds)%nat then
    if alloc_ok then (0, ds ++ [spawned term x]) else (-2, ds)
  else (0, <[i := spawned term x]> ds).

(** The [if] on [water->target_height] at the end of the contact branch. *)
Definition raise_target (term : termsize_t) (water : water_t) : water_t :=
  if f_lt (target_height water) (z2f (SizeT.mul (SizeT.sub (term_height term) 3) 8))
  then set_target (d2f (d_add (f2d (target_height water))
                              (d_div (dlit 8) (z2d (term_width term))))) water
  else water.

(** The gravity step of one active drip: the new speed and the new [y]. *)
Definition drip_fall (d : drip_t) : option drip_t :=
  let v := d2f (d_sub (f2d (drip_speed d)) GRAVITY) in
  y' ← (if f_lt (z2f (drip_y d)) v then Some 0
        else f2sz (f_add (z2f (drip_y d)) v));
  Some (set_drip_y y' (set_drip_speed v d)).

(** The body of the loop of [drips_update].  [drips->drips->x] is the [x] of
    slot 0 of the pool. *)
Definition drips_update_body (term : termsize_t) (i : nat)
  (st : list drip_t * water_t) : option (list drip_t * water_t) :=
  let '(ds, water) := st in
  d ← ds !! i;
  if drip_active d then
    d1 ← drip_fall d;
    let ds1 := <[i := d1]> ds in
    d0 ← ds1 !! 0%nat;
    let x0 := Z.to_nat (drip_x d0) in
    c ← cols water !! x0;
    if f_le (z2f (drip_y d1)) (col_height c) then
      cs ← upd x0 (fun c => set_speed (f_add (col_speed c) (drip_speed d1)) c) (cols water);
      Some (<[i := set_drip_active false d1]> ds1, raise_target term (set_cols cs water))
    else Some (ds1, water)
  else Some (ds, water).

Definition drips_update (term : termsize_t) (ds : list drip_t) (water : water_t)
  : option (list drip_t * water_t) :=
  for_loop (length ds) (drips_update_body term) (ds, water).

(** ** The cloud *)

Definition set_cloud_pos (p : float) (c : cloud_t) : cloud_t :=
  {| cloud_pos := p; cloud_speed := cloud_speed c;
     drop_delay := drop_delay c; drop_count := drop_count c |}.
Definition set_cloud_speed (v : float) (c : cloud_t) : cloud_t :=
  {| cloud_pos := cloud_pos c; cloud_speed := v;
     drop_delay := drop_delay c; drop_count := drop_count c |}.
Definition set_drop_count (n : Z) (c : cloud_t) : cloud_t :=
  {| cloud_pos := cloud_pos c; cloud_speed := cloud_speed c;
     drop_delay := drop_delay c; drop_count := n |}.

Definition cloud_init (term : termsize_t) : cloud_t :=
  {| cloud_pos := z2f (SizeT.sub (SizeT.div (SizeT.mul (term_width term) 8) 2) 2);
     cloud_speed := d2f CLOUD_SPEED;
     drop_delay := 30;
     drop_count := 0 |}.

(** The right end of the cloud's track, [(width-5)*8] as a [float]. *)
Definition cloud_limit (term : termsize_t) : float :=
  z2f (SizeT.mul (SizeT.sub (term_width term) 5) 8).

(** [cloud_update]; [rnd] is the value of [random()].  [random() % 0] is
    undefined. *)
Definition cloud_update (rnd : Z) (alloc_ok : bool) (term : termsize_t)
  (cloud : cloud_t) (ds : list drip_t) : option (cloud_t * list drip_t) :=
  let c1 :=
    if term_updated term then
      if term_width term <? 5 then set_cloud_pos (z2f 0) cloud
      else if f_le (cloud_limit term) (cloud_pos cloud)
           then set_cloud_pos (cloud_limit term) cloud
           else cloud
    else cloud in
  let m := SizeT.mul (term_width term) 8 in
  if m =? 0 then None else
  let c2 := if SizeT.wrap rnd mod m =? 0
            then set_cloud_speed (f_mul (z2f (-1)) (cloud_speed c1)) c1 else c1 in
  let c3 := set_cloud_pos (f_add (cloud_pos c2) (cloud_speed c2)) c2 in
  let c4 := if f_le (cloud_limit term) (cloud_pos c3)
            then set_cloud_speed (d2f (d_neg CLOUD_SPEED)) (set_cloud_pos (cloud_limit term) c3)
            else c3 in
  let c5 := if f_le (cloud_pos c4) (z2f 0)
            then set_cloud_speed (d2f CLOUD_SPEED) (set_cloud_pos (z2f 0) c4)
            else c4 in
  let c6 := set_drop_count (SizeT.add (drop_count c5) 1) c5 in
  if drop_delay c6 <=? drop_count c6 then
    col ← d2int (d_div (f2d (cloud_pos c6)) (dlit 8));
    Some (set_drop_count 0 c6,
          snd (drips_generate alloc_ok term ds (SizeT.wrap (col + 2))))
  else Some (c6, ds).

(** ** The renderer *)

(** The two variables [render] keeps across cells. *)
Record rstate := {
  move : bool;
  color_mode : cmode;
}.

(** The colours of an island cell, if [(y, x)] is one: the first six
    branches of the [if] chain, in order. *)
Definition island_colors (term : termsize_t) (water : water_t) (y x : Z)
  : option (list Z) :=
  let half := SizeT.div (term_width term) 2 in
  let iy := island_y water in
  if (y =? SizeT.sub iy 5) &&
     ((x =? SizeT.sub half 3) || (x =? SizeT.sub half 1) || (x =? SizeT.add half 1))
  then Some [fg 4; bg 2]
  else if (y =? SizeT.sub iy 4) && ((SizeT.sub half 2 <=? x) && (x <=? half))
  then Some [fg 4; bg 2]
  else if (y =? SizeT.sub iy 3) && ((x =? SizeT.sub half 3) || (x =? SizeT.add half 1))
  then Some [fg 4; bg 2]
  else if (y =? SizeT.sub iy 3) && (x =? SizeT.sub half 1)
  then Some [fg 4; bg 3]
  else if ((y =? SizeT.sub iy 2) || (y =? SizeT.sub iy 1)) && (x =? half)
  then Some [fg 4; bg 3]
  else if (iy <=? y) &&
          (SizeT.sub half (SizeT.add 1 (SizeT.mul 2 (SizeT.sub y iy))) <=? x) &&
          (x <=? SizeT.add half (SizeT.add 1 (SizeT.mul 2 (SizeT.sub y iy))))
  then Some [fg 4; bg 11]
  else None.

Definition island_stage (term : termsize_t) (water : water_t) (y x : Z) (st : rstate)
  : list op * rstate :=
  match island_colors term water y x with
  | Some sgr => ([SetColor sgr], {| move := move st; color_mode := CM_ISLAND |})
  | None =>
      if cmode_eqb (color_mode st) CM_ISLAND
      then ([SetColor [fg 0; bg 0]], {| move := move st; color_mode := CM_UNKNOWN |})
      else ([], st)
  end.

(** Whether drip [d] is drawn in cell [(y, x)]. *)
Definition drip_at (term : termsize_t) (y x : Z) (d : drip_t) : bool :=
  drip_active d &&
  (y =? SizeT.div (SizeT.sub (SizeT.mul (term_height term) 8) (drip_y d)) 8) &&
  (x =? drip_x d).

(** The loop over the pool; its [continue] goes to the next drip. *)
Definition drip_stage_body (term : termsize_t) (y x : Z) (acc : list op * rstate)
  (d : drip_t) : list op * rstate :=
  let '(out, st) := acc in
  if drip_at term y x d then
    let o1 := if cmode_eqb (color_mode st) CM_WATER_FG then [] else [SetColor [fg 4]] in
    let o2 := if move st then [MoveCursor (SizeT.add y 1) (SizeT.add x 1)] else [] in
    (out ++ o1 ++ o2 ++ [WriteGlyph drip_char],
     {| move := move st; color_mode := CM_WATER_FG |})
  else acc.

Definition drip_stage (term : termsize_t) (ds : list drip_t) (y x : Z) (st : rstate)
  : list op * rstate :=
  fold_left (drip_stage_body term y x) ds ([], st).

(** The test of the cloud branch; [(int)(cloud->pos/8)] is evaluated only
    in rows 0 to 2. *)
Definition cloud_at (cloud : cloud_t) (y x : Z) : option bool :=
  if (0 <=? y) && (y <=? 2) then
    c ← f2int (f_div (cloud_pos cloud) (z2f 8));
    Some (x =? SizeT.wrap c)
  else Some false.

(** The last part of a cell that is not the cloud's: dry or water. *)
Definition water_stage (term : termsize_t) (y x : Z) (c : water_column_t) (st : rstate)
  : option (list op * rstate) :=
  let y_water_height := z2f (SizeT.mul (SizeT.sub (term_height term) y) 8) in
  let mv := if move st then [MoveCursor (SizeT.add y 1) (SizeT.add x 1)] else [] in
  if f_lt (col_height c) (f_sub y_water_height (z2f 8)) then
    if cmode_eqb (color_mode st) CM_ISLAND
    then Some (mv ++ [WriteGlyph blank], {| move := false; color_mode := color_mode st |})
    else Some ([], {| move := true; color_mode := color_mode st |})
  else if f_le y_water_height (col_height c) then
    let o := if cmode_eqb (color_mode st) CM_WATER_BG then [] else [SetColor [bg 4]] in
    Some (mv ++ o ++ [WriteGlyph blank], {| move := false; color_mode := CM_WATER_BG |})
  else
    h ← f2int (col_height c);
    let level := Z.rem h 8 in
    if level <? 0 then None else
    if cmode_eqb (color_mode st) CM_WATER_FG || cmode_eqb (color_mode st) CM_ISLAND
    then Some (mv ++ [WriteGlyph (water_chars level)],
               {| move := false; color_mode := color_mode st |})
    else Some (mv ++ [SetColor [fg 4; bg 0]; WriteGlyph (water_chars level)],
               {| move := false; color_mode := CM_WATER_FG |}).

(** One iteration of the [x] loop: what it prints and the state it leaves. *)
Definition render_cell (term : termsize_t) (water : water_t) (ds : list drip_t)
  (cloud : cloud_t) (y x : Z) (st : rstate) : option (list op * rstate) :=
  let '(o1, s1) := island_stage term water y x st in
  let '(o2, s2) := drip_stage term ds y x s1 in
  hit ← cloud_at cloud y x;
  if (hit : bool) then
    let mv := if move s2 then [MoveCursor (SizeT.add y 1) (SizeT.add x 1)] else [] in
    let o := if cmode_eqb (color_mode s2) CM_CLOUD then [] else [SetColor [fg 15; bg 0]] in
    Some (o1 ++ o2 ++ mv ++ o ++ [WriteGlyph (cloud_char y)],
          {| move := true; color_mode := CM_CLOUD |})
  else
    c ← cols water !! Z.to_nat x;
    r ← water_stage term y x c s2;
    Some (o1 ++ o2 ++ fst r, snd r).

(** The [x] loop from column [x] on, for [n] columns: for every cell, what
    it printed and the state after it. *)
Fixpoint render_cells (term : termsize_t) (water : water_t) (ds : list drip_t)
  (cloud : cloud_t) (y : Z) (x n : nat) (st : rstate)
  : option (list (list op * rstate)) :=
  match n with
  | O => Some []
  | Datatypes.S n' =>
      r ← render_cell term water ds cloud y (Z.of_nat x) st;
      rest ← render_cells term water ds cloud y (Datatypes.S x) n' (snd r);
      Some (r :: rest)
  end.

(** One iteration of the [y] loop; [color_mode] starts as [CM_UNKNOWN],
    [move] is kept from the row before. *)
Definition render_row (term : termsize_t) (water : water_t) (ds : list drip_t)
  (cloud : cloud_t) (y : Z) (mv : bool) : option (list (list op * rstate)) :=
  render_cells term water ds cloud y 0 (Z.to_nat (term_width term))
    {| move := mv; color_mode := CM_UNKNOWN |}.

Definition row_output (cells : list (list op * rstate)) : list op :=
  concat (map fst cells).

Definition row_move (mv : bool) (cells : list (list op * rstate)) : bool :=
  match last cells with Some r => move (snd r) | None => mv end.

Definition render_body (term : termsize_t) (water : water_t) (ds : list drip_t)
  (cloud : cloud_t) (y : nat) (acc : list op * bool) : option (list op * bool) :=
  cells ← render_row term water ds cloud (Z.of_nat y) (snd acc);
  Some (fst acc ++ row_output cells, row_move (snd acc) cells).

Definition render (term : termsize_t) (water : water_t) (ds : list drip_t)
  (cloud : cloud_t) : option (list op) :=
  r ← for_loop (Z.to_nat (term_height term)) (render_body term water ds cloud) ([], true);
  Some (fst r).

(** ** One frame of [main] *)

Record world := {
  w_term : termsize_t;
  w_drips : list drip_t;
  w_cloud : cloud_t;
  w_water : water_t;
}.

(** What the environment does during one frame. *)
Record frame_env := {
  env_winsize : winsize;
  env_random : Z;
  env_drip_alloc : bool;
  env_water_alloc : option water_column_t;
}.

(** The body of the [for(;;)] loop; the return codes are not looked at. *)
Definition frame (env : frame_env) (w : world) : option (world * list op) :=
  let term := snd (termsize_update (env_winsize env) (w_term w)) in
  '(ds1, water1) ← drips_update term (w_drips w) (w_water w);
  '(cloud2, ds2) ← cloud_update (env_random env) (env_drip_alloc env) term (w_cloud w) ds1;
  '(_, water3) ← water_update (env_water_alloc env) term water1;
  out ← render term water3 ds2 cloud2;
  Some ({| w_term := term; w_drips := ds2; w_cloud := cloud2; w_water := water3 |}, out).

(** The frames of a run, one per entry of [envs]; the output is dropped. *)
Fixpoint run (envs : list frame_env) (w : world) : option world :=
  match envs with
  | [] => Some w
  | env :: envs' => r ← frame env w; run envs' (fst r)
  end.

(** [n] successive calls of [drips_update]. *)
Fixpoint drips_steps (term : termsize_t) (n : nat) (ds : list drip_t) (water : water_t)
  : option (list drip_t * water_t) :=
  match n with
  | O => Some (ds, water)
  | Datatypes.S n' =>
      '(ds', water') ← drips_update term ds water;
      drips_steps term n' ds' water'
  end.

(** Successive calls of [cloud_update] on the same terminal, one per entry
    of [rnds] (the values of [random()]). *)
Fixpoint cloud_steps (rnds : list Z) (alloc_ok : bool)
  (term : termsize_t) (cloud : cloud_t) (ds : list drip_t)
  : option (cloud_t * list drip_t) :=
  match rnds with
  | [] => Some (cloud, ds)
  | rnd :: rnds' =>
      r ← cloud_update rnd alloc_ok term cloud ds;
      cloud_steps rnds' alloc_ok term (fst r) (snd r)
  end.

(** ** The initialisation of [main] *)

(** The part of [main] before its loop: [BootFailed] is its [return 1],
    [Booted] the state with which the loop is entered.  [drips_init] and
    [cloud_init] return 0 for the addresses [main] passes them.  [updated0],
    [target0] and [island0] are what the fields [term.updated],
    [water.target_height] and [water.island_y] hold before anything is
    stored in them. *)
Inductive boot_result :=
  | BootFailed
  | Booted (w : world).

Definition boot (ws : winsize) (alloc : option water_column_t)
  (updated0 : bool) (target0 : float) (island0 : Z) : option boot_result :=
  let '(rc, term) := termsize_init ws updated0 in
  if negb (rc =? 0) then Some BootFailed else
  let ds := drips_init in
  let cloud := cloud_init term in
  r ← water_init alloc term target0 island0;
  if negb (fst r =? 0) then Some BootFailed
  else Some (Booted {| w_term := term; w_drips := ds; w_cloud := cloud; w_water := snd r |}).

End Island.

(** ** Quantities used in the statements *)

(** A column of height [h] (an integer number of sub-rows) that does not
    move. *)
Definition still_column {FM : FloatModel} (h : Z) : water_column_t :=
  {| col_height := z2f h; col_speed := z2f 0; col_ldelta := z2f 0; col_rdelta := z2f 0 |}.

(** A water of [n] still columns of height [h] with target height [t]. *)
Definition still_water {FM : FloatModel} (n : nat) (h t : Z) (iy : Z) : water_t :=
  {| cols := replicate n (still_column h); target_height := z2f t; island_y := iy |}.

(** The energy of a column as a spring pulled toward [T], in exact
    arithmetic: [39 * speed^2 + (height - T)^2]. *)
Definition energy (T : Q) (c : water_column_t (FM := Exact.model)) : Q :=
  (39 * (col_speed c * col_speed c) + (col_height c - T) * (col_height c - T))%Q.

(** The closed form of free fall from [y0] after [n] steps of gravity
    [98/100]. *)
Definition free_fall (y0 : Z) (n : nat) : Q :=
  (inject_Z y0 - (98 # 100) * (inject_Z (Z.of_nat n) * (inject_Z (Z.of_nat n) + 1) / 2))%Q.

(** The cap [(height-3)*8] and the increment [8.0/width], as rationals. *)
Definition target_cap (term : termsize_t) : Q :=
  inject_Z (SizeT.mul (SizeT.sub (term_height term) 3) 8).
Definition target_step (term : termsize_t) : Q :=
  (8 / inject_Z (term_width term))%Q.

(** The invariant of the target height relative to where it started. *)
Definition target_bounded (term : termsize_t) (t0 t : Q) : Prop :=
  (t0 <= t)%Q
  /\ ((t0 < target_cap term + target_step term)%Q ->
      (t < target_cap term + target_step term)%Q)
  /\ ((target_cap term <= t0)%Q -> t = t0).

(** The guarded raise of the target height, on rationals. *)
Definition target_raise (term : termsize_t) (t : Q) : Q :=
  if Exact.ltb t (target_cap term) then (t + target_step term)%Q else t.

(** The fields of a drip, as a tuple. *)
Definition drip_view {FM : FloatModel} (d : drip_t) : bool * Z * Z * float :=
  (drip_active d, drip_x d, drip_y d, drip_speed d).

(** A terminal of 40 columns and 20 rows, between resizes. *)
Definition term_40x20 : termsize_t :=
  {| term_width := 40; term_height := 20; term_updated := false |}.

(** [n] impacts, each by a call of [drips_update] on a pool that holds one
    active drip at height [y] over column [x]. *)
Fixpoint impacts {FM : FloatModel} (term : termsize_t) (x y : Z) (n : nat)
  (water : water_t) : option water_t :=
  match n with
  | O => Some water
  | Datatypes.S n' =>
      r ← drips_update term
            [{| drip_active := true; drip_x := x; drip_y := y; drip_speed := z2f 0 |}]
            water;
      impacts term x y n' (snd r)
  end.

(** What a call of [drips_update] does to one slot when the column it tests
    has height [h]: an inactive drip is skipped; an active one takes its
    gravity step and is switched off if its new [y] is at most [h]. *)
Definition drip_step {FM : FloatModel} (h : float) (d : drip_t) : drip_t :=
  if drip_active d then
    match drip_fall d with
    | Some d1 => if f_le (z2f (drip_y d1)) h then set_drip_active false d1 else d1
    | None => d
    end
  else d.

(** The impacts of a call, in slot order: the active drips, after their
    gravity step, whose [y] is at most [h]. *)
Definition landed {FM : FloatModel} (h : float) (ds : list drip_t) : list drip_t :=
  omap (fun d => if drip_active d then
                   d1 ← drip_fall d;
                   if f_le (z2f (drip_y d1)) h then Some d1 else None
                 else None) ds.

(** What the contact branch does to the water for the drip [d1] when the
    column tested is column [x0]. *)
Definition impact {FM : FloatModel} (term : termsize_t) (x0 : nat) (water : water_t)
  (d1 : drip_t) : water_t :=
  raise_target term (set_cols (alter (add_speed (drip_speed d1)) x0 (cols water)) water).

(** Names for the types of the exact instance. *)
Abbreviation qfloat := (@float Exact.model).
Abbreviation qcol := (water_column_t (FM := Exact.model)).
Abbreviation qdrip := (drip_t (FM := Exact.model)).
Abbreviation qwater := (water_t (FM := Exact.model)).
Abbreviation qcloud := (cloud_t (FM := Exact.model)).

(** The number of active drips of a pool. *)
Fixpoint active_count {FM : FloatModel} (ds : list drip_t) : nat :=
  match ds with
  | [] => O
  | d :: ds' => ((if drip_active d then 1 else 0) + active_count ds')%nat
  end.

(** The right end of the cloud's track as an integer, [(width-5)*8]. *)
Definition track_end (term : termsize_t) : Z := 8 * (term_width term - 5).

(** The sum of the speeds of all columns. *)
Definition total_speed {FM : FloatModel} (cs : list water_column_t) : float :=
  fold_right f_add (z2f 0) (map col_speed cs).

(** A column of the IEEE instance. *)
Abbreviation icol := (water_column_t (FM := IEEE.model)).

(** The sum of the heights of all columns in IEEE arithmetic, as a rational
    number: every [float] height counts for its value. *)
Definition real_total_height (cs : list icol) : Q :=
  fold_right Qplus 0%Q (map IEEE.value (heights cs)).

(** After [k] iterations of the second inner loop of a spread pass, the
    delta that has been added to a height while its opposite has not: the
    [rdelta] of cell [k - 1], added to cell [k]. *)
Definition pending_delta (cs : list icol) (k : nat) : Q :=
  if decide (1 <= k < length cs)%nat
  then IEEE.value (@col_rdelta IEEE.model (cs !!! (k - 1)%nat)) else 0%Q.

(** *** What the renderer prints *)

(** The glyphs written by a sequence of operations, in order. *)
Definition glyphs (out : list op) : list glyph :=
  omap (fun o => match o with WriteGlyph g => Some g | _ => None end) out.

(** Whether an operation writes the glyph of a drip. *)
Definition is_drip_glyph (o : op) : bool :=
  match o with WriteGlyph drip_char => true | _ => false end.

(** What a cell may print when it is the cell of row [y] and column [x]: a
    colour change, the cursor moved onto the cell, or a glyph. *)
Definition cell_op (y x : Z) (o : op) : Prop :=
  match o with
  | MoveCursor r c => r = SizeT.add y 1 /\ c = SizeT.add x 1
  | SetColor _ | WriteGlyph _ => True
  end.

(** Whether a sequence of operations writes no glyph before its first colour
    change. *)
Fixpoint colour_first (out : list op) : bool :=
  match out with
  | [] => true
  | SetColor _ :: _ => true
  | WriteGlyph _ :: _ => false
  | MoveCursor _ _ :: rest => colour_first rest
  end.

(** A part of a cell, from the state [st] to the state [st'] with output
    [out]: it writes no glyph in an unknown colour, and it prints a colour
    change if it changes the colour mode. *)
Definition colour_kept (st : rstate) (out : list op) (st' : rstate) : Prop :=
  (color_mode st = CM_UNKNOWN -> colour_first out = true)
  /\ (color_mode st' = color_mode st \/ existsb is_SetColor out = true).

(** *** Concrete inputs *)

(** A pool of three slots, the second and third free. *)
Definition pool_3 : list qdrip :=
  [@Build_drip_t Exact.model true 3 50 0%Q;
   @Build_drip_t Exact.model false 4 7 0%Q;
   @Build_drip_t Exact.model false 9 7 0%Q].

(** Two active drips over a water of three columns: both reach the water in
    the call. *)
Definition pool_2 : list qdrip :=
  [@Build_drip_t Exact.model true 2 8 0%Q; @Build_drip_t Exact.model true 0 8 0%Q].

Definition pool_2_after : list qdrip :=
  [@Build_drip_t Exact.model false 2 7 (- 98 # 100)%Q;
   @Build_drip_t Exact.model false 0 7 (- 98 # 100)%Q].

Definition water_3_after : qwater :=
  @Build_water_t Exact.model
    [still_column 8; still_column 8;
     @Build_water_column_t Exact.model 8%Q (- 19600 # 10000)%Q 0%Q 0%Q]
    (13440 # 1600)%Q 14.

(** The world in which [main] enters its loop on a terminal of 40 columns
    and 20 rows, and a frame in which the terminal keeps its size. *)
Definition world_40x20 : world (FM := IEEE.model) :=
  {| w_term := {| term_width := 40; term_height := 20; term_updated := true |};
     w_drips := [];
     w_cloud := cloud_init term_40x20;
     w_water := still_water 40 8 8 14 |}.

Definition env_40x20 : frame_env (FM := IEEE.model) :=
  {| env_winsize := Some (40, 20);
     env_random := 1;
     env_drip_alloc := true;
     env_water_alloc := Some (still_column 0) |}.

(** A terminal of two columns and one row: the cloud is in the first cell,
    the second one is under water. *)
Definition term_2x1 : termsize_t :=
  {| term_width := 2; term_height := 1; term_updated := false |}.

(** Two columns and twenty rows; of the three drips of the pool one is
    active and in the cell of row 19 and column 1. *)
Definition term_2x20 : termsize_t :=
  {| term_width := 2; term_height := 20; term_updated := false |}.

Definition pool_row_19 : list qdrip :=
  [@Build_drip_t Exact.model true 1 8 0%Q;
   @Build_drip_t Exact.model false 1 8 0%Q;
   @Build_drip_t Exact.model true 1 9 0%Q].

(** Three columns at rest at height 8, in IEEE arithmetic. *)
Definition ieee_level_8 : list (water_column_t (FM := IEEE.model)) :=
  [still_column 8; still_column 8; still_column 8].

(** A column of height [h] that does not move. *)
Definition column_at {FM : FloatModel} (h : float) : water_column_t :=
  {| col_height := h; col_speed := z2f 0; col_ldelta := z2f 0; col_rdelta := z2f 0 |}.

(** Three columns of heights 8.1, 135.9 and 83/7, as floats. *)
Definition uneven_3 : list icol :=
  [column_at (d2f (dlit (81 # 10))); column_at (d2f (dlit (1359 # 10)));
   column_at (d2f (dlit (83 # 7)))].

(** A pool of one active drip at [y = 8] over column 20, in IEEE
    arithmetic: its gravity step brings it to [y = 7]. *)
Definition pool_1 : list (drip_t (FM := IEEE.model)) :=
  [{| drip_active := true; drip_x := 20; drip_y := 8; drip_speed := z2f 0 |}].

(** A pool of four slots over a water of three columns of height 8: the
    drips of slots 0 and 3 reach the water in the call, the drip of slot 1
    does not, slot 2 is free. *)
Definition pool_4 : list qdrip :=
  [@Build_drip_t Exact.model true 2 8 0%Q;
   @Build_drip_t Exact.model true 0 50 0%Q;
   @Build_drip_t Exact.model false 1 3 0%Q;
   @Build_drip_t Exact.model true 1 8 (- 2)%Q].

(** A terminal of 5 columns that shrinks to 3 in a frame in which [realloc]
    fails, and two frames after it in which it keeps that size. *)
Definition term_3x20_resized : termsize_t :=
  {| term_width := 3; term_height := 20; term_updated := true |}.
Definition term_3x20 : termsize_t :=
  {| term_width := 3; term_height := 20; term_updated := false |}.

Definition world_5x20 : world (FM := IEEE.model) :=
  {| w_term := {| term_width := 5; term_height := 20; term_updated := false |};
     w_drips := [];
     w_cloud := cloud_init {| term_width := 5; term_height := 20; term_updated := false |};
     w_water := still_water 5 8 20 14 |}.

Definition env_3x20_failing : frame_env (FM := IEEE.model) :=
  {| env_winsize := Some (3, 20); env_random := 1; env_drip_alloc := true;
     env_water_alloc := None |}.

(** A frame that finds the terminal [c] columns wide and [r] rows high, in
    which every [realloc] succeeds. *)
Definition env_of (c r : Z) : frame_env (FM := IEEE.model) :=
  {| env_winsize := Some (c, r); env_random := 1; env_drip_alloc := true;
     env_water_alloc := Some (still_column 0) |}.

(** The world in which [main] enters its loop on a terminal of 8 columns
    and 8 rows. *)
Definition world_8x8 : world (FM := IEEE.model) :=
  {| w_term := {| term_width := 8; term_height := 8; term_updated := true |};
     w_drips := [];
     w_cloud := cloud_init {| term_width := 8; term_height := 8; term_updated := true |};
     w_water := still_water 8 8 8 5 |}.

(** 65 frames on that terminal. *)
Definition frames_8x8 : list (frame_env (FM := IEEE.model)) :=
  replicate 65 (env_of 8 8).

(** 31 frames on that terminal, then a resize to 12 by 6 and one to 5 by
    9. *)
Definition frames_resized : list (frame_env (FM := IEEE.model)) :=
  replicate 31 (env_of 8 8) ++ [env_of 12 6; env_of 12 6; env_of 5 9; env_of 5 9; env_of 5 9].

(** Three rows and two columns: a new drip over column 1 is in the cell of
    row 2 and column 1. *)
Definition term_2x3 : termsize_t :=
  {| term_width := 2; term_height := 3; term_updated := false |}.

(** ** Tactics *)

(** Boolean comparisons in the hypotheses, as propositions. *)
Ltac ltb_hyps :=
  repeat match goal with
    | H : (_ <? _)%nat = true |- _ => apply Nat.ltb_lt in H
    | H : (_ <? _)%nat = false |- _ => apply Nat.ltb_ge in H
    | H : (_ <? _)%Z = true |- _ => apply Z.ltb_lt in H
    | H : (_ <? _)%Z = false |- _ => apply Z.ltb_ge in H
    end.

Ltac cells_cases :=
  ltb_hyps;
  repeat (rewrite list_lookup_total_alter || rewrite length_alter);
  repeat case_decide; simpl;
  try solve [reflexivity | exfalso; lia | repeat f_equal; lia].

(** Comparisons of rationals in the hypotheses, as propositions. *)
Ltac qle_hyps :=
  repeat match goal with
    | H : Qle_bool _ _ = true |- _ => apply Qle_bool_iff in H
    | H : Qle_bool ?a ?b = false |- _ =>
        assert (b < a)%Q
          by (apply Qnot_le_lt; intros Hle; apply Qle_bool_iff in Hle; congruence);
        clear H
    end.

(** The cases of the tests of [cloud_update], outermost first. *)
Ltac cloud_cases :=
  repeat (cbn [cloud_pos cloud_speed drop_delay drop_count
               set_cloud_pos set_cloud_speed set_drop_count];
          match goal with
          | |- context [if ?b then _ else _] =>
              lazymatch b with
              | context [if _ then _ else _] => fail
              | _ => destruct b eqn:?
              end
          end);
  cbn [cloud_pos cloud_speed drop_delay drop_count
       set_cloud_pos set_cloud_speed set_drop_count].

(** * Properties *)

(** [ring] finds the rationals from the head of the left-hand side of an
    equation; [qring] gives it one when the head is a field of a record. *)
Lemma Qeq_plus0 (a b : Q) : (0 + a == b)%Q -> (a == b)%Q.
Proof. intros H. rewrite <- H. ring. Qed.

Ltac qring := first [ring | apply Qeq_plus0; ring].


(** ** Loops and array cells *)

Section LoopFacts.
Context {S : Type}.
Implicit Types (body : nat -> S -> option S).

Lemma for_range_snoc body lo n s :
  for_range body lo (n + 1) s = s' ← for_range body lo n s; body (lo + n)%nat s'.
Proof.
  revert lo s. induction n as [|n IH]; intros lo s; simpl.
  - rewrite Nat.add_0_r. destruct (body lo s); reflexivity.
  - destruct (body lo s) as [s1|]; simpl; [|reflexivity].
    rewrite IH. replace (Datatypes.S lo + n)%nat with (lo + Datatypes.S n)%nat by lia.
    reflexivity.
Qed.

(** A loop invariant indexed by the loop counter, with progress: every
    iteration is defined and re-establishes the invariant. *)
Lemma for_range_invariant (I : nat -> S -> Prop) body lo n s :
  I lo s ->
  (forall i t, (lo <= i < lo + n)%nat -> I i t ->
     exists t', body i t = Some t' /\ I (Datatypes.S i) t') ->
  exists s', for_range body lo n s = Some s' /\ I (lo + n)%nat s'.
Proof.
  revert lo s. induction n as [|n IH]; intros lo s H0 Hstep; simpl.
  - exists s. rewrite Nat.add_0_r. auto.
  - destruct (Hstep lo s) as (t & Hb & Ht); [lia | assumption |].
    rewrite Hb. simpl.
    destruct (IH (Datatypes.S lo) t Ht) as (s' & Hr & Hs').
    + intros i u Hi Hu. apply Hstep; [lia | assumption].
    + exists s'. split; [assumption|].
      replace (lo + Datatypes.S n)%nat with (Datatypes.S lo + n)%nat by lia. assumption.
Qed.

(** The partial-correctness form: whatever the loop returns satisfies the
    invariant. *)
Lemma for_range_preserves (I : nat -> S -> Prop) body lo n s s' :
  I lo s ->
  (forall i t t', (lo <= i < lo + n)%nat -> I i t -> body i t = Some t' ->
     I (Datatypes.S i) t') ->
  for_range body lo n s = Some s' -> I (lo + n)%nat s'.
Proof.
  revert lo s. induction n as [|n IH]; intros lo s H0 Hstep Hrun; simpl in Hrun.
  - inversion Hrun; subst. rewrite Nat.add_0_r. assumption.
  - destruct (body lo s) as [t|] eqn:Hb; simpl in Hrun; [|discriminate].
    replace (lo + Datatypes.S n)%nat with (Datatypes.S lo + n)%nat by lia.
    apply (IH (Datatypes.S lo) t); [| |assumption].
    + apply (Hstep lo s t); [lia|assumption|assumption].
    + intros i u u' Hi Hu Hbu. apply (Hstep i u u'); [lia|assumption|assumption].
Qed.

Lemma for_range_ext body1 body2 lo n s :
  (forall i t, (lo <= i < lo + n)%nat -> body1 i t = body2 i t) ->
  for_range body1 lo n s = for_range body2 lo n s.
Proof.
  revert lo s. induction n as [|n IH]; intros lo s Hext; simpl; [reflexivity|].
  rewrite Hext by lia. destruct (body2 lo s) as [t|]; simpl; [|reflexivity].
  apply IH. intros i u Hi. apply Hext. lia.
Qed.
End LoopFacts.

Section LoopFailure.
Context {S : Type}.

(** A loop whose iteration [k] is undefined on every state the iterations
    before it can reach is undefined. *)
Lemma for_range_undefined (I : nat -> S -> Prop) (body : nat -> S -> option S) k :
  forall n lo s,
  (lo <= k < lo + n)%nat -> I lo s ->
  (forall i t, (lo <= i < k)%nat -> I i t ->
     exists t', body i t = Some t' /\ I (Datatypes.S i) t') ->
  (forall t, I k t -> body k t = None) ->
  for_range body lo n s = None.
Proof.
  induction n as [|n IH]; intros lo s Hk H0 Hstep Hfail; [lia|]. simpl.
  destruct (decide (lo = k)) as [->|Hne].
  - rewrite (Hfail s H0). reflexivity.
  - destruct (Hstep lo s ltac:(lia) H0) as (t & -> & Ht). simpl.
    apply IH; [lia | assumption | | assumption].
    intros i u Hi Hu. apply Hstep; [lia | assumption].
Qed.
End LoopFailure.

Section CellFacts.
Context {A : Type}.
Implicit Types (a : list A) (f : A -> A).

Lemma upd_Some i f a c : a !! i = Some c -> upd i f a = Some (<[i := f c]> a).
Proof. intros H. unfold upd. rewrite H. reflexivity. Qed.

Lemma upd_inv i f a a' :
  upd i f a = Some a' -> exists c, a !! i = Some c /\ a' = <[i := f c]> a.
Proof.
  unfold upd. destruct (a !! i) as [c|]; simpl; intros H; [|discriminate].
  inversion H. eauto.
Qed.

Lemma upd_length i f a a' : upd i f a = Some a' -> length a' = length a.
Proof. intros H. apply upd_inv in H as (c & _ & ->). apply length_insert. Qed.

Lemma upd_lookup i f a a' j :
  upd i f a = Some a' ->
  a' !! j = if decide (i = j) then f <$> a !! j else a !! j.
Proof.
  intros H. apply upd_inv in H as (c & Hc & ->).
  destruct (decide (i = j)) as [->|Hne].
  - rewrite list_lookup_insert_eq by (eapply lookup_lt_Some; eassumption).
    rewrite Hc. reflexivity.
  - apply list_lookup_insert_ne. assumption.
Qed.

Lemma upd_total i f a : (i < length a)%nat -> exists a', upd i f a = Some a'.
Proof.
  intros H. destruct (lookup_lt_is_Some_2 a i H) as [c Hc].
  exists (<[i := f c]> a). apply upd_Some. assumption.
Qed.

(** A loop that rewrites cell [i] with [f] at iteration [i] maps [f] over
    the cells it visits. *)
Lemma for_range_upd_map f pre mid post :
  for_range (fun i => upd i f) (length pre) (length mid) (pre ++ mid ++ post)
  = Some (pre ++ map f mid ++ post).
Proof.
  revert pre. induction mid as [|c mid IH]; intros pre; simpl; [reflexivity|].
  rewrite (upd_Some _ _ _ c).
  2:{ rewrite lookup_app_r by lia. rewrite Nat.sub_diag. reflexivity. }
  simpl.
  replace (<[length pre := f c]> (pre ++ c :: mid ++ post))
    with ((pre ++ [f c]) ++ mid ++ post).
  2:{ rewrite insert_app_r_alt by lia. rewrite Nat.sub_diag. simpl.
      rewrite <- app_assoc. reflexivity. }
  replace (Datatypes.S (length pre)) with (length (pre ++ [f c])).
  2:{ rewrite length_app. simpl. lia. }
  rewrite IH. rewrite <- app_assoc. reflexivity.
Qed.

Lemma for_loop_upd_map f a :
  for_loop (length a) (fun i => upd i f) a = Some (map f a).
Proof.
  unfold for_loop.
  pose proof (for_range_upd_map f [] a []) as H. simpl in H.
  rewrite !app_nil_r in H. exact H.
Qed.
Lemma insert_alter_eq f k e a : <[k := f e]> (alter f k a) = alter f k (<[k := e]> a).
Proof. revert k. induction a as [|c a IH]; intros [|k]; simpl; f_equal; auto. Qed.

Lemma insert_alter_ne f i k e a :
  i <> k -> <[k := e]> (alter f i a) = alter f i (<[k := e]> a).
Proof.
  revert i k. induction a as [|c a IH]; intros [|i] [|k] H; simpl; f_equal; auto;
    first [congruence | apply IH; lia].
Qed.
End CellFacts.

(** ** The water: sizes and definedness *)

Section WaterFacts.
Context {FM : FloatModel}.
Implicit Types (cs : list water_column_t) (c : water_column_t).

Lemma upd_alter {A : Type} (f : A -> A) (i : nat) (a : list A) :
  (i < length a)%nat -> upd i f a = Some (alter f i a).
Proof.
  intros H. destruct (lookup_lt_is_Some_2 a i H) as [c Hc].
  rewrite (upd_Some _ _ _ c Hc). f_equal.
  apply list_eq. intros j. rewrite list_lookup_alter.
  destruct (decide (i = j)) as [->|Hne].
  - rewrite list_lookup_insert_eq by assumption. rewrite Hc. reflexivity.
  - rewrite list_lookup_insert_ne by assumption. reflexivity.
Qed.

(** [i < width - 1] in [size_t] arithmetic leaves room for cell [i + 1]. *)
Lemma sub1_bound (width : Z) (i : nat) :
  (i < Z.to_nat width)%nat -> Z.of_nat i < SizeT.sub width 1 ->
  (i + 1 < Z.to_nat width)%nat.
Proof.
  intros Hi Hlt. unfold SizeT.sub, SizeT.wrap, SizeT.modulus in Hlt.
  assert (1 <= width) by lia.
  pose proof (Z.mod_le (width - 1) (2 ^ 64) ltac:(lia) ltac:(lia)). lia.
Qed.

Lemma sub1_exact (width : Z) :
  1 <= width -> SizeT.in_range width -> SizeT.sub width 1 = width - 1.
Proof.
  intros H1 [H0 Hm]. unfold SizeT.sub, SizeT.wrap.
  apply Z.mod_small. unfold SizeT.modulus in *. lia.
Qed.

Lemma spread_delta_body_cells width i cs :
  (i < length cs)%nat ->
  (Z.of_nat i < SizeT.sub width 1 -> (i + 1 < length cs)%nat) ->
  spread_delta_body width i cs = Some (spread_delta_cells width i cs).
Proof.
  intros Hi Hr. unfold spread_delta_body, spread_delta_cells.
  destruct (lookup_lt_is_Some_2 cs i Hi) as [ci Hci].
  assert (Hti : cs !!! i = ci) by (apply list_lookup_total_correct; assumption).
  destruct (0 <? i)%nat eqn:H0.
  - apply Nat.ltb_lt in H0.
    destruct (lookup_lt_is_Some_2 cs (i - 1)%nat ltac:(lia)) as [cl Hcl].
    assert (Htl : cs !!! (i - 1)%nat = cl) by (apply list_lookup_total_correct; assumption).
    rewrite Hci, Hcl, Hti, Htl. simpl.
    rewrite upd_alter by assumption. simpl.
    rewrite upd_alter by (rewrite length_alter; lia). simpl.
    set (cs1 := alter _ (i - 1)%nat _).
    assert (Hl1 : length cs1 = length cs) by (unfold cs1; rewrite !length_alter; reflexivity).
    destruct (Z.of_nat i <? SizeT.sub width 1) eqn:Hm; [|reflexivity].
    apply Z.ltb_lt in Hm. specialize (Hr Hm).
    destruct (lookup_lt_is_Some_2 cs1 i ltac:(lia)) as [ci1 Hci1].
    destruct (lookup_lt_is_Some_2 cs1 (i + 1)%nat ltac:(lia)) as [cr1 Hcr1].
    rewrite Hci1, Hcr1. simpl.
    rewrite (list_lookup_total_correct _ _ _ Hci1), (list_lookup_total_correct _ _ _ Hcr1).
    rewrite upd_alter by lia. simpl.
    rewrite upd_alter by (rewrite length_alter; lia). reflexivity.
  - simpl.
    destruct (Z.of_nat i <? SizeT.sub width 1) eqn:Hm; [|reflexivity].
    apply Z.ltb_lt in Hm. specialize (Hr Hm).
    destruct (lookup_lt_is_Some_2 cs (i + 1)%nat ltac:(lia)) as [cr Hcr].
    rewrite Hci, Hcr. simpl.
    rewrite Hti, (list_lookup_total_correct _ _ _ Hcr).
    rewrite upd_alter by lia. simpl.
    rewrite upd_alter by (rewrite length_alter; lia). reflexivity.
Qed.

Lemma spread_apply_body_cells width i cs :
  (i < length cs)%nat ->
  (Z.of_nat i < SizeT.sub width 1 -> (i + 1 < length cs)%nat) ->
  spread_apply_body width i cs = Some (spread_apply_cells width i cs).
Proof.
  intros Hi Hr. unfold spread_apply_body, spread_apply_cells.
  destruct (lookup_lt_is_Some_2 cs i Hi) as [ci Hci].
  assert (Hti : cs !!! i = ci) by (apply list_lookup_total_correct; assumption).
  destruct (0 <? i)%nat eqn:H0.
  - apply Nat.ltb_lt in H0.
    rewrite Hci, Hti. simpl.
    rewrite upd_alter by lia. simpl.
    set (cs1 := alter _ (i - 1)%nat _).
    assert (Hl1 : length cs1 = length cs) by (unfold cs1; rewrite !length_alter; reflexivity).
    destruct (Z.of_nat i <? SizeT.sub width 1) eqn:Hm; [|reflexivity].
    apply Z.ltb_lt in Hm. specialize (Hr Hm).
    destruct (lookup_lt_is_Some_2 cs1 i ltac:(lia)) as [ci1 Hci1].
    rewrite Hci1. simpl. rewrite (list_lookup_total_correct _ _ _ Hci1).
    rewrite upd_alter by lia. reflexivity.
  - simpl.
    destruct (Z.of_nat i <? SizeT.sub width 1) eqn:Hm; [|reflexivity].
    apply Z.ltb_lt in Hm. specialize (Hr Hm).
    rewrite Hci, Hti. simpl.
    rewrite upd_alter by lia. reflexivity.
Qed.

Lemma spread_delta_cells_length width i cs :
  length (spread_delta_cells width i cs) = length cs.
Proof.
  unfold spread_delta_cells.
  destruct (0 <? i)%nat; destruct (Z.of_nat i <? SizeT.sub width 1);
    rewrite ?length_alter; reflexivity.
Qed.

Lemma spread_apply_cells_length width i cs :
  length (spread_apply_cells width i cs) = length cs.
Proof.
  unfold spread_apply_cells.
  destruct (0 <? i)%nat; destruct (Z.of_nat i <? SizeT.sub width 1);
    rewrite ?length_alter; reflexivity.
Qed.
End WaterFacts.

Section WaterSizes.
Context {FM : FloatModel}.
Implicit Types (cs : list water_column_t) (c : water_column_t).

Lemma spread_delta_loop_total width cs :
  length cs = Z.to_nat width ->
  exists cs', for_loop (Z.to_nat width) (spread_delta_body width) cs = Some cs'
              /\ length cs' = length cs.
Proof.
  intros Hlen. unfold for_loop.
  destruct (for_range_invariant (fun _ t => length t = length cs)
              (spread_delta_body width) 0 (Z.to_nat width) cs eq_refl)
    as (cs' & Hrun & Hl); [|eauto].
  intros i t Hi Ht.
  exists (spread_delta_cells width i t). split.
  - apply spread_delta_body_cells; [lia|].
    intros Hm. rewrite Ht, Hlen. apply sub1_bound; [lia|assumption].
  - rewrite spread_delta_cells_length. assumption.
Qed.

Lemma spread_apply_loop_total width cs :
  length cs = Z.to_nat width ->
  exists cs', for_loop (Z.to_nat width) (spread_apply_body width) cs = Some cs'
              /\ length cs' = length cs.
Proof.
  intros Hlen. unfold for_loop.
  destruct (for_range_invariant (fun _ t => length t = length cs)
              (spread_apply_body width) 0 (Z.to_nat width) cs eq_refl)
    as (cs' & Hrun & Hl); [|eauto].
  intros i t Hi Ht.
  exists (spread_apply_cells width i t). split.
  - apply spread_apply_body_cells; [lia|].
    intros Hm. rewrite Ht, Hlen. apply sub1_bound; [lia|assumption].
  - rewrite spread_apply_cells_length. assumption.
Qed.

Lemma spread_pass_total width cs :
  length cs = Z.to_nat width ->
  exists cs', spread_pass width cs = Some cs' /\ length cs' = length cs.
Proof.
  intros Hlen. unfold spread_pass.
  destruct (spread_delta_loop_total width cs Hlen) as (cs1 & -> & Hl1). simpl.
  destruct (spread_apply_loop_total width cs1 ltac:(congruence)) as (cs2 & -> & Hl2).
  exists cs2. split; [reflexivity | congruence].
Qed.

Lemma spread_passes_total term water :
  length (cols water) = Z.to_nat (term_width term) ->
  exists cs', spread_passes term water = Some (set_cols cs' water)
              /\ length cs' = length (cols water).
Proof.
  intros Hlen. unfold spread_passes, for_loop.
  destruct (for_range_invariant (fun _ t => length t = length (cols water))
              (fun _ => spread_pass (term_width term)) 0 8 (cols water) eq_refl)
    as (cs' & Hrun & Hl).
  - intros i t _ Ht.
    destruct (spread_pass_total (term_width term) t ltac:(congruence)) as (t' & Hp & Hl).
    exists t'. split; [assumption | congruence].
  - rewrite Hrun. simpl. eauto.
Qed.

Lemma restore_pass_map term water :
  length (cols water) = Z.to_nat (term_width term) ->
  restore_pass term water
  = Some (set_cols (map (restore_col (target_height water)) (cols water)) water).
Proof.
  intros Hlen. unfold restore_pass, restore_body. rewrite <- Hlen.
  rewrite for_loop_upd_map. reflexivity.
Qed.

Lemma water_reset_body_upd target i cs :
  water_reset_body target i cs
  = upd i (fun c => set_speed (d2f (dlit 0)) (set_height target c)) cs.
Proof.
  unfold water_reset_body, upd.
  destruct (cs !! i) as [c|] eqn:Hc; simpl; [|reflexivity].
  rewrite list_lookup_insert_eq by (eapply lookup_lt_Some; eassumption). simpl.
  rewrite list_insert_insert_eq. reflexivity.
Qed.

(** What the resize block leaves: the reallocated array with [height] and
    [speed] of every cell overwritten. *)
Lemma water_resize_eq junk term water :
  water_resize junk term water
  = Some {| cols := map (fun c => set_speed (d2f (dlit 0)) (set_height (z2f 8) c))
                        (resize (Z.to_nat (term_width term)) junk (cols water));
            target_height := z2f 8;
            island_y := SizeT.sub (SizeT.div (SizeT.mul (term_height term) 3) 4) 1 |}.
Proof.
  unfold water_resize, for_loop.
  rewrite (for_range_ext _ (fun i => upd i (fun c => set_speed (d2f (dlit 0)) (set_height (z2f 8) c))))
    by (intros; apply water_reset_body_upd).
  set (tmp := resize _ junk (cols water)).
  assert (Hl : length tmp = Z.to_nat (term_width term)) by apply length_resize.
  rewrite <- Hl. fold (for_loop (length tmp) (fun i => upd i (fun c => set_speed (d2f (dlit 0)) (set_height (z2f 8) c))) tmp).
  rewrite for_loop_upd_map. reflexivity.
Qed.

(** The two physics passes are defined on an array of the right size and
    keep its size. *)
Lemma water_physics_total term water :
  length (cols water) = Z.to_nat (term_width term) ->
  exists w2 w3, restore_pass term water = Some w2 /\ spread_passes term w2 = Some w3
                /\ length (cols w3) = Z.to_nat (term_width term)
                /\ target_height w3 = target_height water
                /\ island_y w3 = island_y water.
Proof.
  intros Hlen. rewrite (restore_pass_map term water Hlen).
  set (w2 := set_cols _ water).
  assert (Hl2 : length (cols w2) = Z.to_nat (term_width term)).
  { unfold w2. simpl. rewrite length_map. assumption. }
  destruct (spread_passes_total term w2 Hl2) as (cs' & Hsp & Hl').
  exists w2, (set_cols cs' w2). repeat split; try assumption.
  simpl. congruence.
Qed.

(** [water_update] is defined and returns 0 when the terminal was resized
    and [realloc] succeeded, and when there was no resize and the array had
    the right size; the array then has [term->width] cells. *)
Lemma water_update_total alloc term water :
  (term_updated term = true /\ is_Some alloc) \/
  (term_updated term = false /\ length (cols water) = Z.to_nat (term_width term)) ->
  exists water', water_update alloc term water = Some (0, water')
                 /\ length (cols water') = Z.to_nat (term_width term).
Proof.
  intros [[Hu [junk ->]] | [Hu Hlen]]; unfold water_update; rewrite Hu.
  - rewrite water_resize_eq. simpl.
    set (w1 := Build_water_t _ _ _).
    assert (Hl1 : length (cols w1) = Z.to_nat (term_width term)).
    { unfold w1. simpl. rewrite length_map. apply length_resize. }
    destruct (water_physics_total term w1 Hl1) as (w2 & w3 & -> & Hs & Hl3 & _). simpl.
    rewrite Hs. simpl. eauto.
  - destruct (water_physics_total term water Hlen) as (w2 & w3 & -> & Hs & Hl3 & _). simpl.
    rewrite Hs. simpl. eauto.
Qed.

(** The only other outcome: the terminal was resized and [realloc] failed;
    the call returns -2 and the water is as it was. *)
Lemma water_update_alloc_failure term water :
  term_updated term = true -> water_update None term water = Some (-2, water).
Proof. intros Hu. unfold water_update. rewrite Hu. reflexivity. Qed.

End WaterSizes.

Section WaterLengths.
Context {FM : FloatModel}.
Implicit Types (cs : list water_column_t) (c : water_column_t).

(** The loops of [water_update] run over the first [width] cells: they are
    defined on any array that has at least that many and keep its length. *)
Lemma spread_delta_loop_defined width cs :
  (Z.to_nat width <= length cs)%nat ->
  exists cs', for_loop (Z.to_nat width) (spread_delta_body width) cs = Some cs'
              /\ length cs' = length cs.
Proof.
  intros Hlen. unfold for_loop.
  destruct (for_range_invariant (fun _ t => length t = length cs)
              (spread_delta_body width) 0 (Z.to_nat width) cs eq_refl)
    as (cs' & Hrun & Hl); [|eauto].
  intros i t Hi Ht.
  exists (spread_delta_cells width i t). split.
  - apply spread_delta_body_cells; [lia|].
    intros Hm. pose proof (sub1_bound width i ltac:(lia) Hm). lia.
  - rewrite spread_delta_cells_length. assumption.
Qed.

Lemma spread_apply_loop_defined width cs :
  (Z.to_nat width <= length cs)%nat ->
  exists cs', for_loop (Z.to_nat width) (spread_apply_body width) cs = Some cs'
              /\ length cs' = length cs.
Proof.
  intros Hlen. unfold for_loop.
  destruct (for_range_invariant (fun _ t => length t = length cs)
              (spread_apply_body width) 0 (Z.to_nat width) cs eq_refl)
    as (cs' & Hrun & Hl); [|eauto].
  intros i t Hi Ht.
  exists (spread_apply_cells width i t). split.
  - apply spread_apply_body_cells; [lia|].
    intros Hm. pose proof (sub1_bound width i ltac:(lia) Hm). lia.
  - rewrite spread_apply_cells_length. assumption.
Qed.

Lemma spread_passes_defined term water :
  (Z.to_nat (term_width term) <= length (cols water))%nat ->
  exists cs', spread_passes term water = Some (set_cols cs' water)
              /\ length cs' = length (cols water).
Proof.
  intros Hlen. unfold spread_passes, for_loop.
  destruct (for_range_invariant (fun _ t => length t = length (cols water))
              (fun _ => spread_pass (term_width term)) 0 8 (cols water) eq_refl)
    as (cs' & Hrun & Hl).
  - intros i t _ Ht. unfold spread_pass.
    destruct (spread_delta_loop_defined (term_width term) t ltac:(lia)) as (t1 & -> & Hl1).
    cbn [mbind option_bind].
    destruct (spread_apply_loop_defined (term_width term) t1 ltac:(lia)) as (t2 & -> & Hl2).
    exists t2. split; [reflexivity | congruence].
  - rewrite Hrun. simpl. eauto.
Qed.

Lemma restore_pass_defined term water :
  (Z.to_nat (term_width term) <= length (cols water))%nat ->
  exists cs', restore_pass term water = Some (set_cols cs' water)
              /\ length cs' = length (cols water).
Proof.
  intros Hlen. unfold restore_pass, for_loop.
  set (n := Z.to_nat (term_width term)) in *.
  pose proof (for_range_upd_map (restore_col (target_height water)) []
                (take n (cols water)) (drop n (cols water))) as H.
  simpl in H. rewrite take_drop, length_take, Nat.min_l in H by assumption.
  change (for_range (restore_body (target_height water)) 0 n (cols water)
          = Some (map (restore_col (target_height water)) (take n (cols water))
                  ++ drop n (cols water))) in H.
  rewrite H. cbn [mbind option_bind]. eexists. split; [reflexivity|].
  rewrite length_app, length_map, length_take, length_drop. lia.
Qed.

(** With fewer than [width] cells the restoring loop reads outside the
    array. *)
Lemma restore_pass_short term water :
  (length (cols water) < Z.to_nat (term_width term))%nat ->
  restore_pass term water = None.
Proof.
  intros Hlen. unfold restore_pass, for_loop.
  rewrite (for_range_undefined (fun _ t => length t = length (cols water))
             (restore_body (target_height water)) (length (cols water))
             (Z.to_nat (term_width term)) 0 (cols water)); [reflexivity | lia | reflexivity | |].
  - intros i t Hi Ht. unfold restore_body.
    destruct (upd_total i (restore_col (target_height water)) t ltac:(lia)) as [t' Ht'].
    exists t'. split; [assumption|]. rewrite (upd_length _ _ _ _ Ht'). assumption.
  - intros t Ht. unfold restore_body, upd.
    rewrite (lookup_ge_None_2 t) by lia. reflexivity.
Qed.

(** C1, as the code has it.  A call of [water_update] on a frame with a
    resize returns 0 and leaves exactly [width] cells when [realloc]
    succeeds; when [realloc] fails it returns -2 and leaves the water, the
    array included, as it was.  On a frame without a resize the call does
    not change the length of the array, whatever it is: it is defined, and
    returns 0, exactly when the array has at least [width] cells. *)
Theorem water_update_cols_length alloc term water :
  if term_updated term then
    match alloc with
    | Some _ =>
        exists water', water_update alloc term water = Some (0, water')
                       /\ length (cols water') = Z.to_nat (term_width term)
    | None => water_update alloc term water = Some (-2, water)
    end
  else
    if decide (Z.to_nat (term_width term) <= length (cols water))%nat then
      exists water', water_update alloc term water = Some (0, water')
                     /\ length (cols water') = length (cols water)
    else water_update alloc term water = None.
Proof.
  destruct (term_updated term) eqn:Hu.
  - destruct alloc as [junk|].
    + apply water_update_total. left. split; [assumption | eauto].
    + apply water_update_alloc_failure. assumption.
  - unfold water_update. rewrite Hu. case_decide as Hlen.
    + destruct (restore_pass_defined term water Hlen) as (cs2 & -> & Hl2).
      cbn [mbind option_bind].
      destruct (spread_passes_defined term (set_cols cs2 water)) as (cs3 & -> & Hl3).
      { simpl. lia. }
      cbn [mbind option_bind]. eexists. split; [reflexivity|]. simpl in *. lia.
    + rewrite restore_pass_short by lia. reflexivity.
Qed.
End WaterLengths.

(** C1, as stated, fails.  A terminal of 5 columns shrinks to 3 and
    [realloc] fails in that frame: [water_update] returns -2 and the array
    keeps its 5 cells.  [main] does not look at the return value: after
    that frame, and after two more frames without a resize (in which
    [water_update] returns 0), the array still has 5 cells for a width of
    3. *)
Lemma water_update_failed_realloc_keeps_length :
  let water := still_water (FM := IEEE.model) 5 8 20 14 in
  water_update None term_3x20_resized water = Some (-2, water)
  /\ length (cols water) = 5%nat
  /\ Z.to_nat (term_width term_3x20_resized) = 3%nat
  /\ (fun r => (fst r, length (cols (snd r)))) <$> water_update None term_3x20 water
     = Some (0, 5%nat)
  /\ (fun w => (length (cols (w_water w)), term_width (w_term w)))
       <$> run [env_3x20_failing] world_5x20
     = Some (5%nat, 3)
  /\ (fun w => (length (cols (w_water w)), term_width (w_term w)))
       <$> run [env_3x20_failing; env_of 3 20; env_of 3 20] world_5x20
     = Some (5%nat, 3).
Proof.
  intros water. split; [reflexivity|]. split; [reflexivity|]. split; [reflexivity|].
  split; [vm_compute; reflexivity|]. split; vm_compute; reflexivity.
Qed.

(** ** The cells after one iteration of the inner loops, field by field *)

Section SpreadCells.
Context {FM : FloatModel}.
Implicit Types (cs : list water_column_t) (c : water_column_t).

Lemma delta_cells_height width i cs j :
  col_height (spread_delta_cells width i cs !!! j) = col_height (cs !!! j).
Proof.
  unfold spread_delta_cells.
  destruct (0 <? i)%nat eqn:H0; destruct (Z.of_nat i <? SizeT.sub width 1) eqn:Hm;
    cells_cases.
Qed.

Lemma delta_cells_ldelta width i cs j :
  (i < length cs)%nat ->
  col_ldelta (spread_delta_cells width i cs !!! j)
  = if decide (j = i /\ (0 < i)%nat)
    then spread_delta (col_height (cs !!! i)) (col_height (cs !!! (i - 1)%nat))
    else col_ldelta (cs !!! j).
Proof.
  intros Hi. unfold spread_delta_cells.
  destruct (0 <? i)%nat eqn:H0; destruct (Z.of_nat i <? SizeT.sub width 1) eqn:Hm;
    cells_cases.
Qed.

Lemma delta_cells_rdelta width i cs j :
  (i < length cs)%nat ->
  col_rdelta (spread_delta_cells width i cs !!! j)
  = if decide (j = i /\ Z.of_nat i < SizeT.sub width 1)
    then spread_delta (col_height (cs !!! i)) (col_height (cs !!! (i + 1)%nat))
    else col_rdelta (cs !!! j).
Proof.
  intros Hi. unfold spread_delta_cells.
  destruct (0 <? i)%nat eqn:H0; destruct (Z.of_nat i <? SizeT.sub width 1) eqn:Hm;
    cells_cases.
Qed.
Lemma delta_cells_speed width i cs j :
  (i < length cs)%nat ->
  (Z.of_nat i < SizeT.sub width 1 -> (i + 1 < length cs)%nat) ->
  col_speed (spread_delta_cells width i cs !!! j)
  = if decide (j + 1 = i)%nat
    then f_add (col_speed (cs !!! j))
               (spread_delta (col_height (cs !!! i)) (col_height (cs !!! j)))
    else if decide (j = (i + 1)%nat /\ Z.of_nat i < SizeT.sub width 1)
    then f_add (col_speed (cs !!! j))
               (spread_delta (col_height (cs !!! i)) (col_height (cs !!! j)))
    else col_speed (cs !!! j).
Proof.
  intros Hi Hr. unfold spread_delta_cells.
  destruct (0 <? i)%nat eqn:H0; destruct (Z.of_nat i <? SizeT.sub width 1) eqn:Hm;
    cells_cases.
Qed.

Lemma apply_cells_speed width i cs j :
  col_speed (spread_apply_cells width i cs !!! j) = col_speed (cs !!! j).
Proof.
  unfold spread_apply_cells.
  destruct (0 <? i)%nat eqn:H0; destruct (Z.of_nat i <? SizeT.sub width 1) eqn:Hm;
    cells_cases.
Qed.

Lemma apply_cells_ldelta width i cs j :
  col_ldelta (spread_apply_cells width i cs !!! j) = col_ldelta (cs !!! j).
Proof.
  unfold spread_apply_cells.
  destruct (0 <? i)%nat eqn:H0; destruct (Z.of_nat i <? SizeT.sub width 1) eqn:Hm;
    cells_cases.
Qed.

Lemma apply_cells_rdelta width i cs j :
  col_rdelta (spread_apply_cells width i cs !!! j) = col_rdelta (cs !!! j).
Proof.
  unfold spread_apply_cells.
  destruct (0 <? i)%nat eqn:H0; destruct (Z.of_nat i <? SizeT.sub width 1) eqn:Hm;
    cells_cases.
Qed.

Lemma apply_cells_height width i cs j :
  (i < length cs)%nat ->
  (Z.of_nat i < SizeT.sub width 1 -> (i + 1 < length cs)%nat) ->
  col_height (spread_apply_cells width i cs !!! j)
  = if decide (j + 1 = i)%nat
    then f_add (col_height (cs !!! j)) (col_ldelta (cs !!! i))
    else if decide (j = (i + 1)%nat /\ Z.of_nat i < SizeT.sub width 1)
    then f_add (col_height (cs !!! j)) (col_rdelta (cs !!! i))
    else col_height (cs !!! j).
Proof.
  intros Hi Hr. unfold spread_apply_cells.
  destruct (0 <? i)%nat eqn:H0; destruct (Z.of_nat i <? SizeT.sub width 1) eqn:Hm;
    cells_cases.
Qed.
End SpreadCells.

(** ** Water at rest stays at rest *)

Section Calm.
Context {FM : FloatModel}.
Variables (T zero : float).
Hypothesis restore_rest :
  d2f (d_add (f2d zero)
         (d_sub (d_mul WATER_TENSION (f2d (f_sub T T)))
                (d_mul (f2d zero) WATER_DAMPENING))) = zero.
Hypothesis level_rest : f_add T zero = T.
Hypothesis delta_rest : spread_delta T T = zero.
Hypothesis speed_rest : f_add zero zero = zero.
Implicit Types (cs : list water_column_t) (c : water_column_t).

Lemma restore_col_calm c : calm T zero c -> calm T zero (restore_col T c).
Proof.
  intros [Hh Hv]. unfold calm, restore_col. simpl.
  rewrite Hh, Hv, restore_rest, level_rest. split; reflexivity.
Qed.

Lemma restore_map_calm cs : all_calm T zero cs -> all_calm T zero (map (restore_col T) cs).
Proof.
  intros H j Hj. rewrite length_map in Hj.
  rewrite (list_lookup_total_correct (map (restore_col T) cs) j (restore_col T (cs !!! j))).
  - apply restore_col_calm, H, Hj.
  - change (map (restore_col T) cs) with (restore_col T <$> cs).
    rewrite list_lookup_fmap, (list_lookup_lookup_total_lt cs j Hj). reflexivity.
Qed.

Lemma spread_delta_loop_calm width cs :
  length cs = Z.to_nat width -> all_calm T zero cs ->
  exists cs', for_loop (Z.to_nat width) (spread_delta_body width) cs = Some cs'
    /\ length cs' = length cs /\ all_calm T zero cs'
    /\ (forall j, (0 < j < length cs)%nat -> col_ldelta (cs' !!! j) = zero)
    /\ (forall j, (j < length cs)%nat -> Z.of_nat j < SizeT.sub width 1 ->
                  col_rdelta (cs' !!! j) = zero).
Proof.
  intros Hlen Hcalm. unfold for_loop.
  set (n := Z.to_nat width) in *.
  destruct (for_range_invariant
              (fun k t => length t = n /\ all_calm T zero t
                 /\ (forall j, (0 < j < k)%nat -> col_ldelta (t !!! j) = zero)
                 /\ (forall j, (j < k)%nat -> Z.of_nat j < SizeT.sub width 1 ->
                               col_rdelta (t !!! j) = zero))
              (spread_delta_body width) 0 n cs) as (cs' & Hrun & Hl & Hc & Hld & Hrd).
  - split; [assumption|]. split; [assumption|]. split; intros; lia.
  - intros i t Hi (Hl & Hc & Hld & Hrd).
    assert (Hb : Z.of_nat i < SizeT.sub width 1 -> (i + 1 < length t)%nat).
    { intros Hm. rewrite Hl. apply sub1_bound; [lia|assumption]. }
    exists (spread_delta_cells width i t). split.
    { apply spread_delta_body_cells; [lia|assumption]. }
    assert (Hci : calm T zero (t !!! i)) by (apply Hc; lia).
    split; [rewrite spread_delta_cells_length; assumption|]. split; [|split].
    + intros j Hj. rewrite spread_delta_cells_length in Hj.
      destruct (Hc j Hj) as [Hh Hv]. destruct Hci as [Hhi _]. split.
      * rewrite delta_cells_height. assumption.
      * rewrite delta_cells_speed by (assumption || lia).
        repeat case_decide; rewrite ?Hhi, ?Hh, ?Hv, ?delta_rest, ?speed_rest; reflexivity.
    + intros j Hj. rewrite delta_cells_ldelta by lia.
      destruct Hci as [Hhi _].
      case_decide as Hd.
      * destruct (Hc (i - 1)%nat ltac:(lia)) as [Hh' _]. rewrite Hhi, Hh'. apply delta_rest.
      * apply Hld. lia.
    + intros j Hj Hm. rewrite delta_cells_rdelta by lia.
      destruct Hci as [Hhi _].
      case_decide as Hd.
      * destruct Hd as [-> Hm'].
        destruct (Hc (i + 1)%nat ltac:(specialize (Hb Hm'); lia)) as [Hh' _].
        rewrite Hhi, Hh'. apply delta_rest.
      * apply Hrd; [lia|assumption].
  - exists cs'. rewrite Hlen. split; [assumption|]. split; [assumption|].
    split; [assumption|]. split; intros; [apply Hld | apply Hrd]; simpl; (lia || assumption).
Qed.

Lemma spread_apply_loop_calm width cs :
  length cs = Z.to_nat width -> all_calm T zero cs ->
  (forall j, (0 < j < length cs)%nat -> col_ldelta (cs !!! j) = zero) ->
  (forall j, (j < length cs)%nat -> Z.of_nat j < SizeT.sub width 1 ->
             col_rdelta (cs !!! j) = zero) ->
  exists cs', for_loop (Z.to_nat width) (spread_apply_body width) cs = Some cs'
    /\ length cs' = length cs /\ all_calm T zero cs'.
Proof.
  intros Hlen Hcalm Hld Hrd. unfold for_loop.
  set (n := Z.to_nat width) in *.
  destruct (for_range_invariant
              (fun k t => length t = n /\ all_calm T zero t
                 /\ (forall j, (0 < j < n)%nat -> col_ldelta (t !!! j) = zero)
                 /\ (forall j, (j < n)%nat -> Z.of_nat j < SizeT.sub width 1 ->
                               col_rdelta (t !!! j) = zero))
              (spread_apply_body width) 0 n cs) as (cs' & Hrun & Hl & Hc & _).
  - rewrite Hlen in Hld, Hrd. auto.
  - intros i t Hi (Hl & Hc & Hld' & Hrd').
    assert (Hb : Z.of_nat i < SizeT.sub width 1 -> (i + 1 < length t)%nat).
    { intros Hm. rewrite Hl. apply sub1_bound; [lia|assumption]. }
    exists (spread_apply_cells width i t). split.
    { apply spread_apply_body_cells; [lia|assumption]. }
    split; [rewrite spread_apply_cells_length; assumption|]. split; [|split].
    + intros j Hj. rewrite spread_apply_cells_length in Hj.
      destruct (Hc j Hj) as [Hh Hv]. split.
      * rewrite apply_cells_height by (assumption || lia).
        repeat case_decide; rewrite ?Hh; try reflexivity.
        -- rewrite Hld' by lia. apply level_rest.
        -- rewrite Hrd' by (lia || tauto). apply level_rest.
      * rewrite apply_cells_speed. assumption.
    + intros j Hj. rewrite apply_cells_ldelta. apply Hld'. assumption.
    + intros j Hj Hm. rewrite apply_cells_rdelta. apply Hrd'; assumption.
  - exists cs'. rewrite Hlen. auto.
Qed.

Lemma spread_pass_calm width cs :
  length cs = Z.to_nat width -> all_calm T zero cs ->
  exists cs', spread_pass width cs = Some cs' /\ length cs' = length cs /\ all_calm T zero cs'.
Proof.
  intros Hlen Hcalm. unfold spread_pass.
  destruct (spread_delta_loop_calm width cs Hlen Hcalm) as (cs1 & -> & Hl1 & Hc1 & Hld & Hrd).
  simpl. rewrite <- Hl1 in Hld, Hrd.
  destruct (spread_apply_loop_calm width cs1 ltac:(congruence) Hc1 Hld Hrd)
    as (cs2 & -> & Hl2 & Hc2).
  exists cs2. split; [reflexivity|]. split; [congruence | assumption].
Qed.

(** Both physics passes leave water at rest at its target level as it is,
    up to the scratch fields. *)
Lemma water_physics_calm term water :
  length (cols water) = Z.to_nat (term_width term) ->
  target_height water = T -> all_calm T zero (cols water) ->
  exists w2 w3, restore_pass term water = Some w2 /\ spread_passes term w2 = Some w3
    /\ length (cols w3) = Z.to_nat (term_width term) /\ all_calm T zero (cols w3)
    /\ target_height w3 = T /\ island_y w3 = island_y water.
Proof.
  intros Hlen HT Hcalm. rewrite (restore_pass_map term water Hlen). rewrite HT.
  set (w2 := set_cols _ water).
  assert (Hl2 : length (cols w2) = Z.to_nat (term_width term)).
  { unfold w2. simpl. rewrite length_map. assumption. }
  assert (Hc2 : all_calm T zero (cols w2)) by (apply restore_map_calm; assumption).
  exists w2. unfold spread_passes, for_loop.
  destruct (for_range_invariant
              (fun _ t => length t = Z.to_nat (term_width term) /\ all_calm T zero t)
              (fun _ => spread_pass (term_width term)) 0 8 (cols w2))
    as (cs' & Hrun & Hl & Hc).
  - auto.
  - intros i t _ [Hl Hc].
    destruct (spread_pass_calm (term_width term) t Hl Hc) as (t' & Hp & Hl' & Hc').
    exists t'. split; [assumption|]. split; [congruence|assumption].
  - rewrite Hrun. simpl. exists (set_cols cs' w2).
    split; [reflexivity|]. split; [reflexivity|]. split; [assumption|].
    split; [assumption|]. split; [assumption|reflexivity].
Qed.
End Calm.

(** ** A resize *)

Section Resize.
Context {FM : FloatModel}.
Hypothesis restore_rest :
  d2f (d_add (f2d (d2f (dlit 0)))
         (d_sub (d_mul WATER_TENSION (f2d (f_sub (z2f 8) (z2f 8))))
                (d_mul (f2d (d2f (dlit 0))) WATER_DAMPENING))) = d2f (dlit 0).
Hypothesis level_rest : f_add (z2f 8) (d2f (dlit 0)) = z2f 8.
Hypothesis delta_rest : spread_delta (z2f 8) (z2f 8) = d2f (dlit 0).
Hypothesis speed_rest : f_add (d2f (dlit 0)) (d2f (dlit 0)) = d2f (dlit 0).

(** On a resize whose [realloc] succeeds, [water_update] returns 0 and
    leaves the water at rest at level 8, whatever it was before. *)
Lemma water_update_resized junk term water :
  term_updated term = true ->
  exists water', water_update (Some junk) term water = Some (0, water')
    /\ length (cols water') = Z.to_nat (term_width term)
    /\ all_calm (z2f 8) (d2f (dlit 0)) (cols water')
    /\ target_height water' = z2f 8
    /\ island_y water' = SizeT.sub (SizeT.div (SizeT.mul (term_height term) 3) 4) 1.
Proof.
  intros Hu. unfold water_update. rewrite Hu, water_resize_eq. simpl.
  set (w1 := Build_water_t _ _ _).
  assert (Hl1 : length (cols w1) = Z.to_nat (term_width term)).
  { unfold w1. simpl. rewrite length_map. apply length_resize. }
  assert (Hc1 : all_calm (z2f 8) (d2f (dlit 0)) (cols w1)).
  { intros j Hj. unfold w1 in *. simpl in *. rewrite length_map in Hj.
    set (l := resize _ junk (cols water)) in *.
    erewrite list_lookup_total_correct.
    2:{ change (map ?f l) with (f <$> l). rewrite list_lookup_fmap.
        rewrite (list_lookup_lookup_total_lt l j Hj). reflexivity. }
    split; reflexivity. }
  destruct (water_physics_calm (z2f 8) (d2f (dlit 0)) restore_rest level_rest delta_rest
              speed_rest term w1 Hl1 eq_refl Hc1)
    as (w2 & w3 & -> & Hs & Hl3 & Hc3 & Ht3 & Hi3).
  simpl. rewrite Hs. simpl. exists w3. repeat (split; [assumption || reflexivity|]).
  assumption.
Qed.

Lemma water_update_resized_any_target junk term water t0 :
  term_updated term = true ->
  water_update (Some junk) term (set_target t0 water)
  = water_update (Some junk) term water.
Proof.
  intros Hu. unfold water_update. rewrite Hu, !water_resize_eq. reflexivity.
Qed.
End Resize.


Lemma all_calm_elem_of {FM : FloatModel} (T zero : float) (cs : list water_column_t) c :
  all_calm T zero cs -> c ∈ cs -> col_height c = T /\ col_speed c = zero.
Proof.
  intros H Hin. apply list_elem_of_lookup_total in Hin as (j & Hj & <-).
  apply H. assumption.
Qed.

(** The four facts of rest, in IEEE arithmetic. *)
Lemma ieee_restore_rest :
  d2f (FloatModel := IEEE.model)
    (d_add (f2d (d2f (dlit 0)))
       (d_sub (d_mul WATER_TENSION (f2d (f_sub (z2f 8) (z2f 8))))
              (d_mul (f2d (d2f (dlit 0))) WATER_DAMPENING))) = d2f (dlit 0).
Proof. vm_compute. reflexivity. Qed.

Lemma ieee_level_rest :
  f_add (FloatModel := IEEE.model) (z2f 8) (d2f (dlit 0)) = z2f 8.
Proof. vm_compute. reflexivity. Qed.

Lemma ieee_delta_rest :
  spread_delta (FM := IEEE.model) (z2f 8) (z2f 8) = d2f (dlit 0).
Proof. vm_compute. reflexivity. Qed.

Lemma ieee_speed_rest :
  f_add (FloatModel := IEEE.model) (d2f (dlit 0)) (d2f (dlit 0)) = d2f (dlit 0).
Proof. vm_compute. reflexivity. Qed.


(** C10, as the code has it.  On a frame with a resize whose [realloc]
    succeeds, [water_update] returns 0, the array has [width] cells,
    [target_height] is the constant 8 and every column has height 8 and
    speed 0: the result does not depend on the target height the water had
    before, so what drip impacts had added to it is gone.  When [realloc]
    fails the call returns -2 before [target_height] is written, and the
    water keeps the target height it had. *)
Theorem water_update_resize_discards_target
  (alloc : option (water_column_t (FM := IEEE.model))) term water :
  term_updated term = true ->
  match alloc with
  | Some junk =>
      exists water', water_update (Some junk) term water = Some (0, water')
        /\ length (cols water') = Z.to_nat (term_width term)
        /\ target_height water' = z2f 8
        /\ (forall c, c ∈ cols water' -> col_height c = z2f 8 /\ col_speed c = d2f (dlit 0))
        /\ (forall t0, water_update (Some junk) term (set_target t0 water)
                       = Some (0, water'))
  | None =>
      forall t0, water_update None term (set_target t0 water)
                 = Some (-2, set_target t0 water)
  end.
Proof.
  intros Hu. destruct alloc as [junk|].
  - destruct (water_update_resized ieee_restore_rest ieee_level_rest ieee_delta_rest
                ieee_speed_rest junk term water Hu) as (w' & Hr & Hl & Hc & Ht & Hi).
    exists w'. split; [assumption|]. split; [assumption|]. split; [assumption|]. split.
    + intros c Hin. eapply all_calm_elem_of; eassumption.
    + intros t0. rewrite water_update_resized_any_target; assumption.
  - intros t0. apply water_update_alloc_failure. assumption.
Qed.

(** C10, as stated, fails.  The resized flag is set, the target height is
    20 after drip impacts, and [realloc] fails: [water_update] returns -2
    and the target height is still 20, not 8; the next call, without a
    resize, returns 0 and leaves it at 20. *)
Lemma water_update_failed_realloc_keeps_target :
  let water := still_water (FM := IEEE.model) 5 8 20 14 in
  water_update None term_3x20_resized water = Some (-2, water)
  /\ IEEE.to_Q (target_height water) = Some (10485760 # 524288)%Q
  /\ (10485760 # 524288 == 20)%Q
  /\ IEEE.to_Q (z2f (FloatModel := IEEE.model) 8) = Some (8388608 # 1048576)%Q
  /\ (8388608 # 1048576 == 8)%Q
  /\ (fun r => (fst r, IEEE.to_Q (@target_height IEEE.model (snd r))))
       <$> water_update None term_3x20 water
     = Some (0, Some (10485760 # 524288)%Q).
Proof.
  intros water. split; [reflexivity|]. split; [vm_compute; reflexivity|].
  split; [reflexivity|]. split; [vm_compute; reflexivity|]. split; [reflexivity|].
  vm_compute. reflexivity.
Qed.

(** ** The terminal size when the query fails *)

(** C5, as the code has it.  A failed query returns -2 and leaves the whole
    [termsize_t] as it was: width, height and the resized flag.  The flag
    is false after the failed refresh exactly when it was false before. *)
Theorem termsize_update_failure_keeps_all (term : termsize_t) :
  termsize_update None term = (-2, term)
  /\ (term_updated (snd (termsize_update None term)) = false
      <-> term_updated term = false).
Proof. split; [reflexivity | simpl; tauto]. Qed.

(** C5, as stated, fails: after a start-up on an 80x24 terminal the flag is
    set, and a failing query in the next refresh leaves it set. *)
Lemma termsize_update_failure_flag_stays_set :
  let term := snd (termsize_init (Some (80, 24)) false) in
  term = {| term_width := 80; term_height := 24; term_updated := true |}
  /\ term_width (snd (termsize_update None term)) = term_width term
  /\ term_height (snd (termsize_update None term)) = term_height term
  /\ term_updated (snd (termsize_update None term)) = true
  /\ term_updated (snd (termsize_update None term)) <> false.
Proof. vm_compute. repeat split; discriminate. Qed.

(** ** The drips *)

Section LoopSimulation.
Context {S1 S2 : Type}.

Lemma for_range_simulation (g : S1 -> S2) (body1 : nat -> S1 -> option S1)
  (body2 : nat -> S2 -> option S2) lo n s :
  (forall i t, body2 i (g t) = g <$> body1 i t) ->
  for_range body2 lo n (g s) = g <$> for_range body1 lo n s.
Proof.
  intros Hsim. revert lo s. induction n as [|n IH]; intros lo s; simpl; [reflexivity|].
  rewrite Hsim. destruct (body1 lo s) as [t|]; simpl; [apply IH | reflexivity].
Qed.
End LoopSimulation.

Section DripFacts.
Context {FM : FloatModel}.
Implicit Types (ds : list drip_t) (d : drip_t) (water : water_t).

(** The iteration of [drips_update] for an active drip, written out: the
    column read for the contact test and the column that receives the
    drip's speed are both the one at the [x] of slot 0. *)
Lemma drips_update_body_active term i ds water d d1 d0 c :
  ds !! i = Some d -> drip_active d = true -> drip_fall d = Some d1 ->
  <[i := d1]> ds !! 0%nat = Some d0 ->
  cols water !! Z.to_nat (drip_x d0) = Some c ->
  drips_update_body term i (ds, water)
  = Some (if f_le (z2f (drip_y d1)) (col_height c)
          then (<[i := set_drip_active false d1]> ds,
                raise_target term
                  (set_cols (<[Z.to_nat (drip_x d0) :=
                               set_speed (f_add (col_speed c) (drip_speed d1)) c]>
                               (cols water)) water))
          else (<[i := d1]> ds, water)).
Proof.
  intros Hd Ha Hf H0 Hc. unfold drips_update_body.
  rewrite Hd. simpl. rewrite Ha, Hf. simpl. rewrite H0. simpl. rewrite Hc. simpl.
  destruct (f_le (z2f (drip_y d1)) (col_height c)); [|reflexivity].
  rewrite (upd_Some _ _ _ c Hc). simpl. rewrite list_insert_insert_eq. reflexivity.
Qed.

Lemma drip_fall_x d d1 : drip_fall d = Some d1 -> drip_x d1 = drip_x d.
Proof.
  unfold drip_fall. intros H.
  destruct (if f_lt _ _ then _ else _) as [y'|]; simpl in H; [|discriminate].
  inversion H. reflexivity.
Qed.

Lemma drip_fall_set_x x' d :
  drip_fall (set_drip_x x' d) = set_drip_x x' <$> drip_fall d.
Proof.
  unfold drip_fall. simpl.
  destruct (if f_lt _ _ then _ else _) as [y'|]; reflexivity.
Qed.

Lemma raise_target_cols term water : cols (raise_target term water) = cols water.
Proof. unfold raise_target. destruct (f_lt _ _); reflexivity. Qed.

(** Giving another [x] to a slot other than slot 0 changes nothing but that
    [x]. *)
Lemma drips_update_body_set_x term k i x' ds water :
  (0 < i)%nat ->
  drips_update_body term k (alter (set_drip_x x') i ds, water)
  = (fun st => (alter (set_drip_x x') i (fst st), snd st))
      <$> drips_update_body term k (ds, water).
Proof.
  intros Hi. unfold drips_update_body.
  rewrite list_lookup_alter.
  destruct (decide (i = k)) as [->|Hne].
  - destruct (ds !! k) as [d|] eqn:Hd; simpl; [|reflexivity].
    destruct (drip_active d); [|reflexivity].
    rewrite drip_fall_set_x.
    destruct (drip_fall d) as [d1|]; simpl; [|reflexivity].
    rewrite !list_lookup_insert_ne by lia.
    rewrite list_lookup_alter_ne by lia.
    destruct (ds !! 0%nat) as [d0|]; simpl; [|reflexivity].
    destruct (cols water !! Z.to_nat (drip_x d0)) as [c|]; simpl; [|reflexivity].
    pose proof (insert_alter_eq (set_drip_x x') k) as Hins.
    destruct (f_le _ _); simpl.
    + destruct (upd _ _ (cols water)) as [cs|]; simpl; [|reflexivity].
      rewrite !list_insert_insert_eq.
      rewrite <- Hins. reflexivity.
    + rewrite <- Hins. reflexivity.
  - destruct (ds !! k) as [d|] eqn:Hd; simpl; [|reflexivity].
    destruct (drip_active d); [|reflexivity].
    destruct (drip_fall d) as [d1|]; simpl; [|reflexivity].
    pose proof (fun e => insert_alter_ne (set_drip_x x') i k e ds Hne) as Hins.
    assert (H0 : <[k := d1]> (alter (set_drip_x x') i ds) !! 0%nat
                 = <[k := d1]> ds !! 0%nat).
    { rewrite Hins. rewrite list_lookup_alter_ne by lia. reflexivity. }
    rewrite H0.
    destruct (<[k := d1]> ds !! 0%nat) as [d0|]; simpl; [|reflexivity].
    destruct (cols water !! Z.to_nat (drip_x d0)) as [c|]; simpl; [|reflexivity].
    destruct (f_le _ _); simpl.
    + destruct (upd _ _ (cols water)) as [cs|]; simpl; [|reflexivity].
      rewrite !list_insert_insert_eq. rewrite Hins. reflexivity.
    + rewrite Hins. reflexivity.
Qed.
End DripFacts.

(** *** A whole call of [drips_update] *)

Section DripCall.
Context {FM : FloatModel}.
Implicit Types (ds pre suf : list drip_t) (d : drip_t) (water : water_t).

Lemma drip_step_x h d : drip_x (drip_step h d) = drip_x d.
Proof.
  unfold drip_step. destruct (drip_active d); [|reflexivity].
  destruct (drip_fall d) as [d1|] eqn:Hf; [|reflexivity].
  destruct (f_le _ _); simpl; eapply drip_fall_x; eassumption.
Qed.

Lemma impact_column term x0 water d1 c :
  cols water !! x0 = Some c ->
  cols (impact term x0 water d1) !! x0 = Some (add_speed (drip_speed d1) c).
Proof.
  intros Hc. unfold impact. rewrite raise_target_cols. simpl.
  rewrite list_lookup_alter_eq, Hc. reflexivity.
Qed.

Lemma impact_other term x0 water d1 j :
  j <> x0 -> cols (impact term x0 water d1) !! j = cols water !! j.
Proof.
  intros Hj. unfold impact. rewrite raise_target_cols. simpl.
  apply list_lookup_alter_ne. congruence.
Qed.

(** The loop of [drips_update] from slot [length pre] on, when the slots
    before it have been visited. *)
Lemma drips_update_range term x0 h suf : forall pre water,
  (forall e, (pre ++ suf) !! 0%nat = Some e -> drip_x e = x0) ->
  (exists c, cols water !! Z.to_nat x0 = Some c /\ col_height c = h) ->
  Forall (fun d => drip_active d = true -> is_Some (drip_fall d)) suf ->
  for_range (drips_update_body term) (length pre) (length suf) (pre ++ suf, water)
  = Some (pre ++ map (drip_step h) suf,
          fold_left (impact term (Z.to_nat x0)) (landed h suf) water).
Proof.
  induction suf as [|d suf IH]; intros pre water Hx0 Hcol Hfall; [reflexivity|].
  inversion Hfall as [|? ? Hd Hrest]; subst.
  assert (Hnext : forall d' w',
    drip_x d' = drip_x d ->
    (exists c, cols w' !! Z.to_nat x0 = Some c /\ col_height c = h) ->
    for_range (drips_update_body term) (Datatypes.S (length pre)) (length suf)
      (pre ++ d' :: suf, w')
    = Some (pre ++ d' :: map (drip_step h) suf,
            fold_left (impact term (Z.to_nat x0)) (landed h suf) w')).
  { intros d' w' Hxd Hc'.
    replace (Datatypes.S (length pre)) with (length (pre ++ [d']))
      by (rewrite length_app; simpl; lia).
    replace (pre ++ d' :: suf) with ((pre ++ [d']) ++ suf)
      by (rewrite <- app_assoc; reflexivity).
    rewrite IH; [rewrite <- app_assoc; reflexivity | | assumption | assumption].
    intros e He. destruct pre as [|p pre]; simpl in *.
    - inversion He; subst e. rewrite Hxd. apply Hx0. reflexivity.
    - apply Hx0. assumption. }
  assert (Hi : (pre ++ d :: suf) !! length pre = Some d)
    by (apply list_lookup_middle; reflexivity).
  assert (Hins : forall e e', <[length pre := e]> (pre ++ e' :: suf) = pre ++ e :: suf).
  { intros e e'. rewrite insert_app_r_alt by lia. rewrite Nat.sub_diag. reflexivity. }
  cbn [for_range length map].
  destruct (drip_active d) eqn:Ha.
  - destruct (Hd eq_refl) as [d1 Hf].
    pose proof (drip_fall_x d d1 Hf) as Hx1.
    assert (Hs : drip_step h d
                 = if f_le (z2f (drip_y d1)) h then set_drip_active false d1 else d1)
      by (unfold drip_step; rewrite Ha, Hf; reflexivity).
    assert (Hl : landed h (d :: suf)
                 = if f_le (z2f (drip_y d1)) h then d1 :: landed h suf else landed h suf).
    { unfold landed. cbn [omap list_omap]. rewrite Ha, Hf. cbn [mbind option_bind].
      destruct (f_le _ _); reflexivity. }
    rewrite Hs, Hl. clear Hs Hl.
    assert (H0 : exists e, <[length pre := d1]> (pre ++ d :: suf) !! 0%nat = Some e
                           /\ drip_x e = x0).
    { rewrite Hins. destruct pre as [|p pre]; simpl.
      - exists d1. split; [reflexivity|]. rewrite Hx1. apply Hx0. reflexivity.
      - exists p. split; [reflexivity|]. apply Hx0. reflexivity. }
    destruct H0 as (e & He & Hxe).
    destruct Hcol as (c & Hc & Hh).
    rewrite (drips_update_body_active term _ _ water d d1 e c Hi Ha Hf He)
      by (rewrite Hxe; assumption).
    rewrite Hxe, Hh, !Hins.
    destruct (f_le (z2f (drip_y d1)) h) eqn:Hle; cbn [mbind option_bind].
    + replace (<[Z.to_nat x0 := set_speed (f_add (col_speed c) (drip_speed d1)) c]>
                 (cols water))
        with (alter (add_speed (drip_speed d1)) (Z.to_nat x0) (cols water)).
      2:{ apply list_eq. intros j. rewrite list_lookup_alter.
          destruct (decide (Z.to_nat x0 = j)) as [<-|Hne].
          - rewrite list_lookup_insert_eq by (eapply lookup_lt_Some; eassumption).
            rewrite Hc. reflexivity.
          - rewrite list_lookup_insert_ne by assumption. reflexivity. }
      fold (impact term (Z.to_nat x0) water d1).
      rewrite Hnext; [reflexivity | simpl; assumption |].
      exists (add_speed (drip_speed d1) c). split; [|assumption].
      apply impact_column. assumption.
    + rewrite Hnext; [reflexivity | assumption | eauto].
  - assert (Hb : drips_update_body term (length pre) (pre ++ d :: suf, water)
                 = Some (pre ++ d :: suf, water)).
    { unfold drips_update_body. rewrite Hi. cbn [mbind option_bind]. rewrite Ha.
      reflexivity. }
    assert (Hs : drip_step h d = d) by (unfold drip_step; rewrite Ha; reflexivity).
    assert (Hl : landed h (d :: suf) = landed h suf)
      by (unfold landed; cbn [omap list_omap]; rewrite Ha; reflexivity).
    rewrite Hb, Hs, Hl. cbn [mbind option_bind].
    rewrite Hnext; [reflexivity | reflexivity | assumption].
Qed.

(** A whole call, in closed form: every slot takes [drip_step] against the
    height of the column at the [x] of slot 0, and the water takes the
    impacts in slot order, all of them on that column. *)
Lemma drips_update_closed term ds water d0 c0 :
  ds !! 0%nat = Some d0 ->
  cols water !! Z.to_nat (drip_x d0) = Some c0 ->
  Forall (fun d => drip_active d = true -> is_Some (drip_fall d)) ds ->
  drips_update term ds water
  = Some (map (drip_step (col_height c0)) ds,
          fold_left (impact term (Z.to_nat (drip_x d0))) (landed (col_height c0) ds) water).
Proof.
  intros H0 Hc Hfall. unfold drips_update, for_loop.
  apply (drips_update_range term (drip_x d0) (col_height c0) ds [] water).
  - simpl. intros e He. congruence.
  - eauto.
  - assumption.
Qed.

Lemma raise_target_set_cols term cs water :
  raise_target term (set_cols cs water) = set_cols cs (raise_target term water).
Proof. unfold raise_target. simpl. destruct (f_lt _ _); reflexivity. Qed.

Lemma impacts_column term x0 l : forall water c,
  cols water !! x0 = Some c ->
  cols (fold_left (impact term x0) l water) !! x0
  = Some (set_speed (fold_left (fun v d1 => f_add v (drip_speed d1)) l (col_speed c)) c).
Proof.
  induction l as [|d1 l IH]; intros water c Hc; simpl.
  - rewrite Hc. destruct c; reflexivity.
  - rewrite (IH _ _ (impact_column term x0 water d1 c Hc)).
    destruct c; reflexivity.
Qed.

Lemma impacts_other term x0 l j : forall water,
  j <> x0 -> cols (fold_left (impact term x0) l water) !! j = cols water !! j.
Proof.
  induction l as [|d1 l IH]; intros water Hj; simpl; [reflexivity|].
  rewrite IH by assumption. apply impact_other. assumption.
Qed.

Lemma impacts_target term x0 l : forall water,
  target_height (fold_left (impact term x0) l water)
  = target_height (Nat.iter (length l) (raise_target term) water).
Proof.
  assert (Hiter : forall n cs w,
    Nat.iter n (raise_target term) (set_cols cs w)
    = set_cols cs (Nat.iter n (raise_target term) w)).
  { induction n as [|n IHn]; intros cs w; simpl; [reflexivity|].
    rewrite IHn. apply raise_target_set_cols. }
  assert (Hcomm : forall n w,
    Nat.iter n (raise_target term) (raise_target term w)
    = raise_target term (Nat.iter n (raise_target term) w)).
  { induction n as [|n IHn]; intros w; simpl; [reflexivity|]. rewrite IHn. reflexivity. }
  induction l as [|d1 l IH]; intros water; [reflexivity|].
  cbn [fold_left length]. rewrite IH. unfold impact.
  rewrite raise_target_set_cols, Hiter. cbn [Nat.iter]. rewrite Hcomm. reflexivity.
Qed.

(** A whole call applies [raise_target] once for every impact. *)
Lemma drips_update_raises term ds water d0 c0 :
  ds !! 0%nat = Some d0 ->
  cols water !! Z.to_nat (drip_x d0) = Some c0 ->
  Forall (fun d => drip_active d = true -> is_Some (drip_fall d)) ds ->
  exists ds' water',
    drips_update term ds water = Some (ds', water')
    /\ target_height water'
       = target_height (Nat.iter (length (landed (col_height c0) ds))
                          (raise_target term) water).
Proof.
  intros H0 Hc Hfall.
  pose proof (drips_update_closed term ds water d0 c0 H0 Hc Hfall) as Hrun.
  eexists. eexists. split; [exact Hrun|]. apply impacts_target.
Qed.
End DripCall.

(** C3.  A call of [drips_update] on a pool whose slot 0 has its [x] inside
    the column array, every active drip having a defined gravity step.  The
    call is defined.  Every inactive slot is left alone.  Every active
    drip, whatever its own [x], takes its gravity step and is tested
    against the height of the column at the [x] of slot 0: it is switched
    off exactly when its new [y] is at most that height.  That column's
    speed receives the speeds of the drips that made contact, added one
    after the other in slot order; every other column is as it was; and
    the [x] of any slot other than slot 0 has no influence on the result. *)
Theorem drips_update_first_slot_column {FM : FloatModel} term
  (ds : list drip_t) (water : water_t) (d0 : drip_t) (c0 : water_column_t) :
  ds !! 0%nat = Some d0 ->
  cols water !! Z.to_nat (drip_x d0) = Some c0 ->
  Forall (fun d => drip_active d = true -> is_Some (drip_fall d)) ds ->
  exists ds' water',
    drips_update term ds water = Some (ds', water')
    /\ length ds' = length ds
    /\ (forall i d, ds !! i = Some d -> drip_active d = false -> ds' !! i = Some d)
    /\ (forall i d, ds !! i = Some d -> drip_active d = true ->
          exists d1, drip_fall d = Some d1
            /\ ds' !! i = Some (if f_le (z2f (drip_y d1)) (col_height c0)
                                then set_drip_active false d1 else d1))
    /\ cols water' !! Z.to_nat (drip_x d0)
       = Some (set_speed (fold_left (fun v d1 => f_add v (drip_speed d1))
                            (landed (col_height c0) ds) (col_speed c0)) c0)
    /\ (forall j, j <> Z.to_nat (drip_x d0) -> cols water' !! j = cols water !! j)
    /\ (forall i x', (0 < i)%nat ->
          drips_update term (alter (set_drip_x x') i ds) water
          = Some (alter (set_drip_x x') i ds', water')).
Proof.
  intros H0 Hc Hfall.
  pose proof (drips_update_closed term ds water d0 c0 H0 Hc Hfall) as Hrun.
  eexists. eexists. split; [exact Hrun|].
  split; [apply length_map|]. split; [|split; [|split; [|split]]].
  - intros i d Hd Ha.
    change (map ?f ds) with (f <$> ds). rewrite list_lookup_fmap, Hd. simpl.
    unfold drip_step. rewrite Ha. reflexivity.
  - intros i d Hd Ha. rewrite Forall_lookup in Hfall.
    destruct (Hfall i d Hd Ha) as [d1 Hf]. exists d1. split; [assumption|].
    change (map ?f ds) with (f <$> ds). rewrite list_lookup_fmap, Hd. simpl.
    unfold drip_step. rewrite Ha, Hf. reflexivity.
  - apply impacts_column. assumption.
  - intros j Hj. apply impacts_other. assumption.
  - intros i x' Hi. unfold drips_update, for_loop in *. rewrite length_alter.
    pose proof (for_range_simulation
      (fun st : list drip_t * water_t => (alter (set_drip_x x') i (fst st), snd st))
      (drips_update_body term) (drips_update_body term) 0 (length ds) (ds, water)) as Hsim.
    simpl in Hsim. rewrite Hsim.
    + rewrite Hrun. reflexivity.
    + intros k [dsk wk]. simpl. apply drips_update_body_set_x. assumption.
Qed.

(** ** One spread pass *)

Section SpreadLoops.
Context {FM : FloatModel}.
Implicit Types (cs : list water_column_t).

(** The first inner loop leaves the heights alone and stores, for every
    cell, the deltas computed from the heights the pass started with. *)
Lemma spread_delta_loop_spec width cs :
  length cs = Z.to_nat width ->
  exists cs1, for_loop (Z.to_nat width) (spread_delta_body width) cs = Some cs1
    /\ length cs1 = length cs
    /\ (forall j, col_height (cs1 !!! j) = col_height (cs !!! j))
    /\ (forall j, (0 < j < length cs)%nat ->
          col_ldelta (cs1 !!! j)
          = spread_delta (col_height (cs !!! j)) (col_height (cs !!! (j - 1)%nat)))
    /\ (forall j, (j < length cs)%nat -> Z.of_nat j < SizeT.sub width 1 ->
          col_rdelta (cs1 !!! j)
          = spread_delta (col_height (cs !!! j)) (col_height (cs !!! (j + 1)%nat))).
Proof.
  intros Hlen. unfold for_loop. set (n := Z.to_nat width) in *.
  destruct (for_range_invariant
    (fun k t => length t = n
       /\ (forall j, col_height (t !!! j) = col_height (cs !!! j))
       /\ (forall j, (0 < j < k)%nat ->
             col_ldelta (t !!! j)
             = spread_delta (col_height (cs !!! j)) (col_height (cs !!! (j - 1)%nat)))
       /\ (forall j, (j < k)%nat -> Z.of_nat j < SizeT.sub width 1 ->
             col_rdelta (t !!! j)
             = spread_delta (col_height (cs !!! j)) (col_height (cs !!! (j + 1)%nat))))
    (spread_delta_body width) 0 n cs) as (cs1 & Hrun & Hl & Hh & Hld & Hrd).
  - split; [assumption|]. split; [reflexivity|]. split; intros; lia.
  - intros i t Hi (Hl & Hh & Hld & Hrd).
    assert (Hb : Z.of_nat i < SizeT.sub width 1 -> (i + 1 < length t)%nat).
    { intros Hm. rewrite Hl. apply sub1_bound; [lia|assumption]. }
    exists (spread_delta_cells width i t). split.
    { apply spread_delta_body_cells; [lia|assumption]. }
    split; [rewrite spread_delta_cells_length; assumption|]. split; [|split].
    + intros j. rewrite delta_cells_height. apply Hh.
    + intros j Hj. rewrite delta_cells_ldelta by lia. case_decide as Hd.
      * destruct Hd as [-> _]. rewrite !Hh. reflexivity.
      * apply Hld. lia.
    + intros j Hj Hm. rewrite delta_cells_rdelta by lia. case_decide as Hd.
      * destruct Hd as [-> _]. rewrite !Hh. reflexivity.
      * apply Hrd; [lia|assumption].
  - exists cs1. rewrite Hlen. simpl in *. auto.
Qed.
End SpreadLoops.

(** ** One spread pass in exact arithmetic *)

Section ExactSpread.
Implicit Types (cs ds : list qcol).


Lemma exact_total_cons (c : qcol) cs :
  total_height (c :: cs) = (col_height c + total_height cs)%Q.
Proof. reflexivity. Qed.

Lemma exact_total_alter (d : qfloat) j cs :
  (j < length cs)%nat ->
  (total_height (alter (add_height d) j cs) == total_height cs + d)%Q.
Proof.
  revert j. induction cs as [|c cs IH]; intros [|j] H; simpl in H; try lia.
  - change (alter (add_height d) 0%nat (c :: cs)) with (add_height d c :: cs).
    rewrite !exact_total_cons. change (@col_height Exact.model (add_height d c)) with (col_height c + d)%Q.
    qring.
  - change (alter (add_height d) (Datatypes.S j) (c :: cs))
      with (c :: alter (add_height d) j cs).
    rewrite !exact_total_cons, IH by lia. qring.
Qed.

(** What one iteration of the second inner loop adds to the total. *)
Lemma exact_apply_cells_total width i cs :
  (i < length cs)%nat ->
  (Z.of_nat i < SizeT.sub width 1 -> (i + 1 < length cs)%nat) ->
  (total_height (spread_apply_cells width i cs)
   == total_height cs
      + (if (0 <? i)%nat then @col_ldelta Exact.model (cs !!! i) else 0)
      + (if Z.of_nat i <? SizeT.sub width 1 then @col_rdelta Exact.model (cs !!! i) else 0))%Q.
Proof.
  intros Hi Hb. unfold spread_apply_cells.
  destruct (0 <? i)%nat eqn:H0; destruct (Z.of_nat i <? SizeT.sub width 1) eqn:Hm;
    ltb_hyps.
  - rewrite exact_total_alter by (rewrite length_alter; lia).
    rewrite exact_total_alter by lia.
    rewrite list_lookup_total_alter_ne by lia. reflexivity.
  - rewrite exact_total_alter by lia. qring.
  - rewrite exact_total_alter by lia. qring.
  - qring.
Qed.

Lemma exact_spread_apply_loop width cs :
  length cs = Z.to_nat width ->
  exists cs', for_loop (Z.to_nat width) (spread_apply_body width) cs = Some cs'
    /\ (total_height cs' == total_height cs + delta_sum width cs (Z.to_nat width))%Q.
Proof.
  intros Hlen. unfold for_loop. set (n := Z.to_nat width) in *.
  destruct (for_range_invariant
    (fun k (t : list qcol) => length t = n
       /\ (forall j : nat, @col_ldelta Exact.model (t !!! j) = @col_ldelta Exact.model (cs !!! j))
       /\ (forall j : nat, @col_rdelta Exact.model (t !!! j) = @col_rdelta Exact.model (cs !!! j))
       /\ (total_height t == total_height cs + delta_sum width cs k)%Q)
    (spread_apply_body width) 0 n cs) as (cs' & Hrun & _ & _ & _ & Hsum).
  - split; [assumption|]. split; [reflexivity|]. split; [reflexivity|].
    simpl. change (z2f 0) with 0%Q. qring.
  - intros i t Hi (Hl & Hld & Hrd & Hsum).
    assert (Hb : Z.of_nat i < SizeT.sub width 1 -> (i + 1 < length t)%nat).
    { intros Hm. rewrite Hl. apply sub1_bound; [lia|assumption]. }
    exists (spread_apply_cells width i t). split.
    { apply spread_apply_body_cells; [lia|assumption]. }
    split; [rewrite spread_apply_cells_length; assumption|].
    split; [intros j; rewrite apply_cells_ldelta; apply Hld|].
    split; [intros j; rewrite apply_cells_rdelta; apply Hrd|].
    rewrite exact_apply_cells_total by (lia || assumption).
    rewrite Hsum, Hld, Hrd. simpl delta_sum.
    change (inject_Z 0) with 0%Q.
    destruct (0 <? i)%nat; destruct (Z.of_nat i <? SizeT.sub width 1); qring.
  - exists cs'. split; assumption.
Qed.

Lemma exact_spread_delta (a b : qfloat) :
  spread_delta (FM := Exact.model) a b = ((25 # 100) * (a - b))%Q.
Proof. reflexivity. Qed.

(** The stored deltas telescope. *)
Lemma exact_delta_sum_telescope width cs ds k :
  SizeT.in_range width -> length cs = Z.to_nat width ->
  (forall j, (0 < j < length cs)%nat ->
     @col_ldelta Exact.model (ds !!! j)
     = spread_delta (@col_height Exact.model (cs !!! j)) (@col_height Exact.model (cs !!! (j - 1)%nat))) ->
  (forall j, (j < length cs)%nat -> Z.of_nat j < SizeT.sub width 1 ->
     @col_rdelta Exact.model (ds !!! j)
     = spread_delta (@col_height Exact.model (cs !!! j)) (@col_height Exact.model (cs !!! (j + 1)%nat))) ->
  (k + 2 <= length cs)%nat ->
  (delta_sum width ds (Datatypes.S k)
   == (25 # 100) * (@col_height Exact.model (cs !!! k) - @col_height Exact.model (cs !!! Datatypes.S k)))%Q.
Proof.
  intros Hr Hlen Hld Hrd Hk.
  assert (Hm : SizeT.sub width 1 = width - 1) by (apply sub1_exact; [lia|assumption]).
  induction k as [|k IH].
  - cbn [delta_sum]. rewrite Hm.
    replace (Z.of_nat 0 <? width - 1) with true by (symmetry; apply Z.ltb_lt; lia).
    change (0 <? 0)%nat with false. cbv iota.
    rewrite Hrd by (rewrite ?Hm; lia). rewrite exact_spread_delta.
    change (0 + 1)%nat with 1%nat.
    change (z2f 0) with 0%Q. change (@f_add Exact.model) with Qplus. qring.
  - change (delta_sum width ds (Datatypes.S (Datatypes.S k)))
      with (f_add (f_add (delta_sum width ds (Datatypes.S k))
                         (if (0 <? Datatypes.S k)%nat
                          then @col_ldelta Exact.model (ds !!! Datatypes.S k) else z2f 0))
                  (if Z.of_nat (Datatypes.S k) <? SizeT.sub width 1
                   then @col_rdelta Exact.model (ds !!! Datatypes.S k) else z2f 0)).
    change (@f_add Exact.model) with Qplus.
    rewrite IH by lia. rewrite Hm.
    replace (Z.of_nat (Datatypes.S k) <? width - 1) with true
      by (symmetry; apply Z.ltb_lt; lia).
    change (0 <? Datatypes.S k)%nat with true. cbv iota.
    rewrite Hld by lia. rewrite Hrd by (rewrite ?Hm; lia).
    rewrite !exact_spread_delta.
    replace (Datatypes.S k - 1)%nat with k by lia.
    replace (Datatypes.S k + 1)%nat with (Datatypes.S (Datatypes.S k)) by lia.
    qring.
Qed.

Lemma exact_delta_sum_zero width cs ds :
  SizeT.in_range width -> length cs = Z.to_nat width ->
  (forall j, (0 < j < length cs)%nat ->
     @col_ldelta Exact.model (ds !!! j)
     = spread_delta (@col_height Exact.model (cs !!! j)) (@col_height Exact.model (cs !!! (j - 1)%nat))) ->
  (forall j, (j < length cs)%nat -> Z.of_nat j < SizeT.sub width 1 ->
     @col_rdelta Exact.model (ds !!! j)
     = spread_delta (@col_height Exact.model (cs !!! j)) (@col_height Exact.model (cs !!! (j + 1)%nat))) ->
  (delta_sum width ds (Z.to_nat width) == 0)%Q.
Proof.
  intros Hr Hlen Hld Hrd.
  assert (Hcases : Z.to_nat width = 0%nat \/ Z.to_nat width = 1%nat
                   \/ exists k, Z.to_nat width = Datatypes.S (Datatypes.S k)).
  { destruct (Z.to_nat width) as [|[|k]]; eauto. }
  destruct Hcases as [E | [E | [k E]]]; rewrite E.
  - reflexivity.
  - assert (width = 1) by (destruct Hr; lia). subst width.
    reflexivity.
  - assert (Hm : SizeT.sub width 1 = width - 1) by (apply sub1_exact; [lia|assumption]).
    change (delta_sum width ds (Datatypes.S (Datatypes.S k)))
      with (f_add (f_add (delta_sum width ds (Datatypes.S k))
                         (if (0 <? Datatypes.S k)%nat
                          then @col_ldelta Exact.model (ds !!! Datatypes.S k) else z2f 0))
                  (if Z.of_nat (Datatypes.S k) <? SizeT.sub width 1
                   then @col_rdelta Exact.model (ds !!! Datatypes.S k) else z2f 0)).
    change (@f_add Exact.model) with Qplus.
    rewrite (exact_delta_sum_telescope width cs ds k Hr Hlen) by (assumption || lia).
    rewrite Hm.
    replace (Z.of_nat (Datatypes.S k) <? width - 1) with false
      by (symmetry; apply Z.ltb_ge; lia).
    change (0 <? Datatypes.S k)%nat with true. cbv iota.
    rewrite Hld by lia. rewrite exact_spread_delta.
    replace (Datatypes.S k - 1)%nat with k by lia.
    change (z2f 0) with 0%Q. qring.
Qed.

(** One spread pass is defined on an array of [width] columns and, in
    exact arithmetic, leaves the sum of the heights as it was. *)
Lemma exact_spread_pass_total_height width cs :
  SizeT.in_range width -> length cs = Z.to_nat width ->
  exists cs', spread_pass width cs = Some cs'
              /\ (total_height cs' == total_height cs)%Q.
Proof.
  intros Hr Hlen. unfold spread_pass.
  destruct (spread_delta_loop_spec width cs Hlen) as (cs1 & -> & Hl1 & Hh & Hld & Hrd).
  simpl.
  destruct (exact_spread_apply_loop width cs1 ltac:(congruence)) as (cs2 & -> & Hsum).
  exists cs2. split; [reflexivity|].
  rewrite Hsum, (exact_delta_sum_zero width cs cs1 Hr Hlen Hld Hrd).
  assert (Heq : heights cs1 = heights cs).
  { apply list_eq. intros j. unfold heights.
    change (map col_height ?l) with (col_height <$> l). rewrite !list_lookup_fmap.
    destruct (decide (j < length cs)%nat) as [Hj|Hj].
    - rewrite (list_lookup_lookup_total_lt cs j Hj).
      rewrite (list_lookup_lookup_total_lt cs1 j ltac:(lia)). simpl. rewrite Hh. reflexivity.
    - rewrite (lookup_ge_None_2 cs j) by lia. rewrite (lookup_ge_None_2 cs1 j) by lia.
      reflexivity. }
  unfold total_height. rewrite Heq. qring.
Qed.
End ExactSpread.

(** ** The restoring force alone *)

Section ExactRestore.

Lemma exact_restore_col_speed (T : Q) (c : qcol) :
  @col_speed Exact.model (@restore_col Exact.model T c)
  = (@col_speed Exact.model c + ((25 # 1000) * (T - @col_height Exact.model c) - @col_speed Exact.model c * (25 # 1000)))%Q.
Proof. reflexivity. Qed.

Lemma exact_restore_col_height (T : Q) (c : qcol) :
  @col_height Exact.model (@restore_col Exact.model T c) = (@col_height Exact.model c + @col_speed Exact.model (@restore_col Exact.model T c))%Q.
Proof. reflexivity. Qed.

Lemma energy_restore_col (T : Q) (c : qcol) :
  (energy T (@restore_col Exact.model T c) == (39 # 40) * energy T c)%Q.
Proof.
  unfold energy. rewrite exact_restore_col_height, exact_restore_col_speed.
  generalize (@col_speed Exact.model c), (@col_height Exact.model c). intros v h.
  change (@float Exact.model) with Q in *. field.
Qed.

Lemma energy_height_bound (T : Q) (c : qcol) :
  ((@col_height Exact.model c - T) * (@col_height Exact.model c - T) <= energy T c)%Q.
Proof.
  unfold energy.
  generalize (@col_speed Exact.model c), (@col_height Exact.model c). intros v h.
  change (@float Exact.model) with Q in *.
  set (e := ((h - T) * (h - T))%Q).
  assert (Hv : (0 <= 39 * (v * v))%Q).
  { apply Qmult_le_0_compat; [discriminate|].
    destruct (Qlt_le_dec v 0) as [Hn|Hp].
    - assert (Hsq : (v * v == (- v) * (- v))%Q) by ring.
      rewrite Hsq. apply Qmult_le_0_compat; lra.
    - apply Qmult_le_0_compat; assumption. }
  lra.
Qed.

(** C9, as the code has it.  Under the restoring pass alone a column is a
    damped oscillator: in exact arithmetic its energy
    [39*speed^2 + (height - target)^2] is multiplied by 39/40 in every
    frame, so the squared distance of the height to the target stays under
    [(39/40)^n] times the initial energy and the height converges to the
    target.  The distance itself is not monotone. *)
Theorem restore_col_energy_decay (T : Q) (c : qcol) (n : nat) :
  (energy T (Nat.iter n (@restore_col Exact.model T) c) == (39 # 40) ^ Z.of_nat n * energy T c)%Q
  /\ ((@col_height Exact.model (Nat.iter n (@restore_col Exact.model T) c) - T)
      * (@col_height Exact.model (Nat.iter n (@restore_col Exact.model T) c) - T)
      <= (39 # 40) ^ Z.of_nat n * energy T c)%Q.
Proof.
  assert (He : (energy T (Nat.iter n (@restore_col Exact.model T) c)
                == (39 # 40) ^ Z.of_nat n * energy T c)%Q).
  { induction n as [|n IH].
    - simpl. ring.
    - rewrite Nat2Z.inj_succ. unfold Z.succ.
      rewrite Qpower_plus by discriminate.
      simpl Nat.iter. rewrite energy_restore_col, IH.
      change ((39 # 40) ^ 1)%Q with (39 # 40)%Q. ring. }
  split; [exact He|].
  rewrite <- He. apply energy_height_bound.
Qed.
End ExactRestore.

(** C9, as stated, fails.  A column at rest at height 8 under a target
    height of 16 (IEEE arithmetic): after 10 restoring passes its height is
    about 16.12, after 11 about 17.22; the distance to the target has grown
    from one frame to the next. *)
Lemma restore_col_overshoots_target :
  let T := z2f (FloatModel := IEEE.model) 16 in
  let c10 := Nat.iter 10 (restore_col T) (still_column 8) in
  IEEE.to_Q (col_height c10) = Some (8451451 # 524288)%Q
  /\ IEEE.to_Q (col_height (restore_col T c10)) = Some (9026769 # 524288)%Q
  /\ (Qabs ((8451451 # 524288) - 16) < Qabs ((9026769 # 524288) - 16))%Q.
Proof. vm_compute. repeat split; reflexivity. Qed.

(** ** A drip in free fall *)

Section SingleDrip.
Context {FM : FloatModel}.

Lemma drips_update_single term (d : drip_t) water :
  drips_update term [d] water = drips_update_body term 0 ([d], water).
Proof.
  unfold drips_update, for_loop.
  change (for_range (drips_update_body term) 0 (length [d]) ([d], water))
    with (s' ← drips_update_body term 0 ([d], water); Some s').
  destruct (drips_update_body term 0 ([d], water)); reflexivity.
Qed.

Lemma drips_steps_single_inactive term n (d : drip_t) water :
  drip_active d = false -> drips_steps term n [d] water = Some ([d], water).
Proof.
  intros Hd. induction n as [|n IH]; [reflexivity|].
  simpl. rewrite drips_update_single. unfold drips_update_body. simpl.
  rewrite Hd. simpl. exact IH.
Qed.

(** What a call does to a pool of one active drip. *)
Lemma drips_update_single_active term (d d1 : drip_t) water c :
  drip_active d = true -> drip_fall d = Some d1 ->
  cols water !! Z.to_nat (drip_x d) = Some c ->
  drips_update term [d] water
  = Some (if f_le (z2f (drip_y d1)) (col_height c)
          then ([set_drip_active false d1],
                raise_target term
                  (set_cols (<[Z.to_nat (drip_x d) :=
                               set_speed (f_add (col_speed c) (drip_speed d1)) c]>
                               (cols water)) water))
          else ([d1], water)).
Proof.
  intros Ha Hf Hc. rewrite drips_update_single.
  pose proof (drip_fall_x d d1 Hf) as Hx.
  rewrite (drips_update_body_active term 0 [d] water d d1 d1 c);
    try reflexivity; try assumption.
  - rewrite Hx. reflexivity.
  - rewrite Hx. assumption.
Qed.
End SingleDrip.

Section ExactDrip.

Lemma exact_gravity : (@GRAVITY Exact.model == 98 # 100)%Q.
Proof. reflexivity. Qed.

(** Truncation toward zero of a rational of integer part at least 1 is its
    floor. *)
Lemma exact_trunc_floor (q : Q) (z : Z) :
  Exact.trunc q = Some z -> 1 <= z ->
  (inject_Z z <= q)%Q /\ (q < inject_Z z + 1)%Q.
Proof.
  unfold Exact.trunc. intros H Hz. inversion H as [Hq]. clear H.
  destruct q as [n d]. simpl in *.
  assert (Hn : 0 <= n).
  { destruct (Z.lt_ge_cases n 0) as [Hneg|]; [|assumption]. exfalso.
    assert (Ho : Z.quot n (Zpos d) = - Z.quot (- n) (Zpos d)).
    { rewrite Z.quot_opp_l by discriminate. lia. }
    pose proof (Z.quot_pos (- n) (Zpos d) ltac:(lia) ltac:(lia)). lia. }
  rewrite Z.quot_div_nonneg in * by lia.
  pose proof (Z.mul_div_le n (Zpos d) ltac:(lia)).
  pose proof (Z.mul_succ_div_gt n (Zpos d) ltac:(lia)).
  unfold Qle, Qlt. simpl. subst z. split; lia.
Qed.

Lemma exact_fall_step term (d : qdrip) (water : qwater) (c : qcol) ds' water' d' :
  drip_active d = true ->
  cols water !! Z.to_nat (drip_x d) = Some c -> (0 <= @col_height Exact.model c)%Q ->
  drips_update term [d] water = Some (ds', water') ->
  ds' !! 0%nat = Some d' -> drip_active d' = true ->
  water' = water /\ ds' = [d'] /\ drip_x d' = drip_x d
  /\ @drip_speed Exact.model d' = (@drip_speed Exact.model d - @GRAVITY Exact.model)%Q
  /\ (inject_Z (drip_y d) + @drip_speed Exact.model d' - 1 <= inject_Z (drip_y d'))%Q
  /\ (inject_Z (drip_y d') <= inject_Z (drip_y d) + @drip_speed Exact.model d')%Q.
Proof.
  intros Ha Hc Hh Hrun Hd' Ha'.
  destruct (drip_fall d) as [d1|] eqn:Hf.
  2:{ rewrite drips_update_single in Hrun. unfold drips_update_body in Hrun.
      simpl in Hrun. rewrite Ha, Hf in Hrun. discriminate. }
  rewrite (drips_update_single_active term d d1 water c Ha Hf Hc) in Hrun.
  destruct (f_le (z2f (drip_y d1)) (col_height c)) eqn:Hle.
  { inversion Hrun; subst. simpl in Hd'. inversion Hd'; subst. discriminate. }
  inversion Hrun; subst. simpl in Hd'. inversion Hd'; subst d1. clear Hd' Hrun.
  split; [reflexivity|]. split; [reflexivity|].
  split; [eapply drip_fall_x; eassumption|].
  assert (Hpos : 1 <= drip_y d').
  { change (Qle_bool (inject_Z (drip_y d')) (@col_height Exact.model c) = false) in Hle.
    destruct (Z.lt_ge_cases (drip_y d') 1) as [Hlt|]; [|assumption]. exfalso.
    assert (Htrue : Qle_bool (inject_Z (drip_y d')) (@col_height Exact.model c) = true).
    { apply Qle_bool_iff. apply Qle_trans with 0%Q; [|assumption].
      unfold Qle. simpl. lia. }
    congruence. }
  unfold drip_fall in Hf.
  set (v := d2f (d_sub (f2d (drip_speed d)) GRAVITY)) in *.
  destruct (f_lt (z2f (drip_y d)) v).
  { simpl in Hf. inversion Hf; subst d'. simpl in Hpos. lia. }
  destruct (f2sz (f_add (z2f (drip_y d)) v)) as [y'|] eqn:Hy; simpl in Hf; [|discriminate].
  inversion Hf; subst d'. simpl in *. clear Hf.
  unfold f2sz in Hy.
  destruct (@f2z Exact.model (inject_Z (drip_y d) + v)%Q) as [z|] eqn:Hz; simpl in Hy;
    [|discriminate].
  destruct ((0 <=? z) && (z <? SizeT.modulus)); [|discriminate].
  inversion Hy; subst z. clear Hy.
  split; [reflexivity|].
  change (Exact.trunc (inject_Z (drip_y d) + v)%Q = Some y') in Hz.
  destruct (exact_trunc_floor _ _ Hz Hpos) as [Hlo Hhi].
  change (@float Exact.model) with Q in *.
  split; lra.
Qed.

Lemma exact_fall_steps term n :
  forall (d : qdrip) (water : qwater) (c : qcol) ds' water' d',
  drip_active d = true ->
  cols water !! Z.to_nat (drip_x d) = Some c -> (0 <= @col_height Exact.model c)%Q ->
  drips_steps term n [d] water = Some (ds', water') ->
  ds' !! 0%nat = Some d' -> drip_active d' = true ->
  water' = water
  /\ (@drip_speed Exact.model d'
      == @drip_speed Exact.model d - inject_Z (Z.of_nat n) * (98 # 100))%Q
  /\ (inject_Z (drip_y d) + inject_Z (Z.of_nat n) * @drip_speed Exact.model d
      - (98 # 100) * (inject_Z (Z.of_nat n) * (inject_Z (Z.of_nat n) + 1) / 2)
      - inject_Z (Z.of_nat n) <= inject_Z (drip_y d'))%Q
  /\ (inject_Z (drip_y d')
      <= inject_Z (drip_y d) + inject_Z (Z.of_nat n) * @drip_speed Exact.model d
         - (98 # 100) * (inject_Z (Z.of_nat n) * (inject_Z (Z.of_nat n) + 1) / 2))%Q.
Proof.
  induction n as [|n IH]; intros d water c ds' water' d' Ha Hc Hh Hrun Hd' Ha'.
  - simpl in Hrun. inversion Hrun; subst. simpl in Hd'. inversion Hd'; subst.
    change (inject_Z (Z.of_nat 0)) with 0%Q.
    generalize (@drip_speed Exact.model d'). intros v.
    change (@float Exact.model) with Q in *.
    split; [reflexivity|]. split; [ring|].
    split; apply Qle_lteq; right; field.
  - simpl in Hrun.
    destruct (drips_update term [d] water) as [[ds1 w1]|] eqn:Hup; simpl in Hrun;
      [|discriminate].
    destruct (drip_fall d) as [d1|] eqn:Hf.
    2:{ rewrite drips_update_single in Hup. unfold drips_update_body in Hup.
        simpl in Hup. rewrite Ha, Hf in Hup. discriminate. }
    pose proof Hup as Hup'.
    rewrite (drips_update_single_active term d d1 water c Ha Hf Hc) in Hup'.
    destruct (f_le (z2f (drip_y d1)) (col_height c)) eqn:Hle.
    { inversion Hup'; subst.
      rewrite drips_steps_single_inactive in Hrun by reflexivity.
      inversion Hrun; subst. simpl in Hd'. inversion Hd'; subst. discriminate. }
    inversion Hup'; subst ds1 w1. clear Hup'.
    destruct (exact_fall_step term d water c [d1] water d1 Ha Hc Hh Hup eq_refl)
      as (_ & _ & Hx & Hv & Hlo & Hhi).
    { unfold drip_fall in Hf.
      destruct (if f_lt _ _ then _ else _); simpl in Hf; [|discriminate].
      inversion Hf. simpl. assumption. }
    assert (Ha1 : drip_active d1 = true).
    { unfold drip_fall in Hf.
      destruct (if f_lt _ _ then _ else _); simpl in Hf; [|discriminate].
      inversion Hf. simpl. assumption. }
    rewrite <- Hx in Hc.
    destruct (IH d1 water c ds' water' d' Ha1 Hc Hh Hrun Hd' Ha')
      as (Hw & Hs & Hl & Hu).
    split; [assumption|].
    rewrite Nat2Z.inj_succ. unfold Z.succ. rewrite inject_Z_plus.
    change (inject_Z 1) with 1%Q.
    rewrite Hv in Hs, Hl, Hu, Hlo, Hhi.
    pose proof exact_gravity as Hg.
    revert Hs Hl Hu Hlo Hhi Hg.
    generalize (@drip_speed Exact.model d') (@drip_speed Exact.model d)
               (@GRAVITY Exact.model) (inject_Z (Z.of_nat n))
               (inject_Z (drip_y d)) (inject_Z (drip_y d1)) (inject_Z (drip_y d')).
    change (@float Exact.model) with Q. change (@double Exact.model) with Q.
    intros v' v g N y y1 y' Hs Hl Hu Hlo Hhi Hg.
    rewrite Hg in *.
    split; [rewrite Hs; ring|].
    split.
    + apply Qle_trans with (y1 + N * (v - (98 # 100))
                            - (98 # 100) * (N * (N + 1) / 2) - N)%Q; [|assumption].
      apply Qle_trans with ((y + (v - (98 # 100)) - 1) + N * (v - (98 # 100))
                            - (98 # 100) * (N * (N + 1) / 2) - N)%Q; [|lra].
      apply Qle_lteq. right. field.
    + apply Qle_trans with (y1 + N * (v - (98 # 100))
                            - (98 # 100) * (N * (N + 1) / 2))%Q; [assumption|].
      apply Qle_trans with ((y + (v - (98 # 100))) + N * (v - (98 # 100))
                            - (98 # 100) * (N * (N + 1) / 2))%Q; [lra|].
      apply Qle_lteq. right. field.
Qed.
End ExactDrip.

(** C4, as the code has it.  [drip_t.y] is a [size_t]: every step stores
    [y + speed] truncated toward zero.  In exact arithmetic a drip spawned
    at [y0 = (height-2)*8] with speed 0 that is still active after [n] calls
    of [drips_update] (no contact with a water column of non-negative
    height) has speed [-0.98*n] and a [y] between the closed form
    [y0 - 0.98*n*(n+1)/2] minus [n] and the closed form.  For height 20 and
    5 steps, in exact and in IEEE arithmetic, [y] is 129; the IEEE speed is
    the float next to -4.9. *)
Theorem drip_free_fall_truncated :
  (forall term x (water : water_t (FM := Exact.model)) c n ds' water' d',
      cols water !! Z.to_nat x = Some c -> (0 <= @col_height Exact.model c)%Q ->
      drips_steps term n [spawned term x] water = Some (ds', water') ->
      ds' !! 0%nat = Some d' -> drip_active d' = true ->
      let y0 := SizeT.mul (SizeT.sub (term_height term) 2) 8 in
      water' = water
      /\ (@drip_speed Exact.model d' == - (98 # 100) * inject_Z (Z.of_nat n))%Q
      /\ (free_fall y0 n - inject_Z (Z.of_nat n) <= inject_Z (drip_y d'))%Q
      /\ (inject_Z (drip_y d') <= free_fall y0 n)%Q)
  /\ (exists v : Q,
        (fun r => map drip_view (fst r))
          <$> drips_steps (FM := Exact.model) term_40x20 5 [spawned term_40x20 20]
                (still_water 40 8 8 14)
        = Some [(true, 20, 129, v)]
        /\ (v == - (49 # 10))%Q)
  /\ ((fun r => map drip_view (fst r))
        <$> drips_steps (FM := IEEE.model) term_40x20 5 [spawned term_40x20 20]
              (still_water 40 8 8 14)
      = Some [(true, 20, 129, S754_finite true 10276045 (-21))]
      /\ IEEE.to_Q (S754_finite true 10276045 (-21)) = Some (- 10276045 # 2097152)%Q
      /\ (Qabs ((- 10276045 # 2097152) - - (49 # 10)) < 1 # 1000000)%Q).
Proof.
  split; [|split].
  - intros term x water c n ds' water' d' Hc Hh Hrun Hd' Ha' y0.
    destruct (exact_fall_steps term n (spawned term x) water c ds' water' d'
                eq_refl Hc Hh Hrun Hd' Ha') as (Hw & Hs & Hl & Hu).
    change (@drip_speed Exact.model (spawned term x)) with (inject_Z 0) in Hs, Hl, Hu.
    change (drip_y (spawned term x)) with y0 in Hl, Hu.
    change (inject_Z 0) with 0%Q in Hs, Hl, Hu.
    unfold free_fall.
    revert Hs Hl Hu.
    generalize (@drip_speed Exact.model d') (inject_Z (Z.of_nat n))
               (inject_Z y0) (inject_Z (drip_y d')).
    change (@float Exact.model) with Q. intros v N y y' Hs Hl Hu.
    split; [assumption|]. split; [rewrite Hs; ring|].
    split.
    + apply Qle_trans with (y + N * 0 - (98 # 100) * (N * (N + 1) / 2) - N)%Q;
        [|assumption].
      apply Qle_lteq. right. field.
    + apply Qle_trans with (y + N * 0 - (98 # 100) * (N * (N + 1) / 2))%Q;
        [assumption|].
      apply Qle_lteq. right. field.
  - eexists. split; [vm_compute; reflexivity | reflexivity].
  - split; [vm_compute; reflexivity|]. split; [reflexivity|].
    vm_compute. reflexivity.
Qed.

(** C4, as stated, fails.  Height 20, drip spawned at [y = 144]: after 5
    steps without contact the closed form gives 129.3, the code (IEEE
    arithmetic) has [y = 129], three tenths below. *)
Lemma drip_five_steps_below_closed_form :
  (fun r => map drip_view (fst r))
    <$> drips_steps (FM := IEEE.model) term_40x20 5 [spawned term_40x20 20]
          (still_water 40 8 8 14)
  = Some [(true, 20, 129, S754_finite true 10276045 (-21))]
  /\ drip_y (spawned (FM := IEEE.model) term_40x20 20) = 144
  /\ (free_fall 144 5 == 1293 # 10)%Q
  /\ (Qmax 0 (free_fall 144 5) - inject_Z 129 == 3 # 10)%Q.
Proof.
  split; [vm_compute; reflexivity|].
  split; [reflexivity|]. split; vm_compute; reflexivity.
Qed.

(** ** The target height under impacts *)

Section ExactTarget.

Lemma exact_raise_target term (water : qwater) :
  @target_height Exact.model (raise_target term water)
  = if Exact.ltb (@target_height Exact.model water) (target_cap term)
    then (@target_height Exact.model water + target_step term)%Q
    else @target_height Exact.model water.
Proof.
  unfold raise_target.
  change (f_lt (target_height water)
               (z2f (SizeT.mul (SizeT.sub (term_height term) 3) 8)))
    with (Exact.ltb (@target_height Exact.model water) (target_cap term)).
  destruct (Exact.ltb _ _); reflexivity.
Qed.

Lemma exact_ltb_spec (a b : Q) :
  (Exact.ltb a b = true /\ (a < b)%Q) \/ (Exact.ltb a b = false /\ (b <= a)%Q).
Proof.
  unfold Exact.ltb. destruct (Qle_bool b a) eqn:E; simpl.
  - right. split; [reflexivity|]. apply Qle_bool_iff. assumption.
  - left. split; [reflexivity|]. apply Qnot_le_lt. intros H.
    apply Qle_bool_iff in H. congruence.
Qed.

Lemma target_step_pos term : 0 < term_width term -> (0 < target_step term)%Q.
Proof.
  intros H. unfold target_step. apply Qlt_shift_div_l.
  - unfold Qlt. simpl. lia.
  - rewrite Qmult_0_l. reflexivity.
Qed.

Lemma exact_raise_iter term n (water : qwater) :
  @target_height Exact.model (Nat.iter n (raise_target term) water)
  = Nat.iter n (target_raise term) (@target_height Exact.model water).
Proof.
  induction n as [|n IH]; [reflexivity|].
  rewrite !Nat.iter_succ, exact_raise_target, IH. reflexivity.
Qed.

Lemma target_raise_bounded term t0 n :
  0 < term_width term ->
  target_bounded term t0 (Nat.iter n (target_raise term) t0).
Proof.
  intros Hw. pose proof (target_step_pos term Hw) as Hs.
  induction n as [|n (H1 & H2 & H3)]; [|rewrite Nat.iter_succ].
  - simpl. split; [lra|]. split; auto.
  - unfold target_raise at 1.
    destruct (exact_ltb_spec (Nat.iter n (target_raise term) t0) (target_cap term))
      as [[-> Hlt] | [-> Hge]].
    + split; [lra|]. split; [intros; lra|].
      intros Hc. rewrite (H3 Hc) in Hlt. lra.
    + split; [assumption|]. split; assumption.
Qed.

(** A call of [drips_update] in exact arithmetic: the target height after
    it is the guarded raise applied once for every impact. *)
Lemma exact_drips_update_target term (ds : list qdrip) (water : qwater)
  (d0 : qdrip) (c0 : qcol) :
  0 < term_width term ->
  ds !! 0%nat = Some d0 ->
  cols water !! Z.to_nat (drip_x d0) = Some c0 ->
  Forall (fun d => drip_active d = true -> is_Some (drip_fall d)) ds ->
  exists ds' water',
    drips_update term ds water = Some (ds', water')
    /\ @target_height Exact.model water'
       = Nat.iter (length (landed (@col_height Exact.model c0) ds)) (target_raise term)
           (@target_height Exact.model water)
    /\ (forall t : Q,
          ((t < target_cap term)%Q -> target_raise term t = (t + target_step term)%Q)
          /\ ((target_cap term <= t)%Q -> target_raise term t = t))
    /\ (@target_height Exact.model water <= @target_height Exact.model water')%Q
    /\ ((@target_height Exact.model water < target_cap term + target_step term)%Q ->
        (@target_height Exact.model water' < target_cap term + target_step term)%Q)
    /\ ((target_cap term <= @target_height Exact.model water)%Q ->
        @target_height Exact.model water' = @target_height Exact.model water).
Proof.
  intros Hw H0 Hc Hfall.
  pose proof (drips_update_closed term ds water d0 c0 H0 Hc Hfall) as Hrun.
  eexists. eexists. split; [exact Hrun|].
  assert (Ht : @target_height Exact.model
                 (fold_left (impact term (Z.to_nat (drip_x d0)))
                    (landed (@col_height Exact.model c0) ds) water)
               = Nat.iter (length (landed (@col_height Exact.model c0) ds))
                   (target_raise term) (@target_height Exact.model water)).
  { rewrite impacts_target. apply exact_raise_iter. }
  split; [exact Ht|]. split.
  - intros t. unfold target_raise.
    destruct (exact_ltb_spec t (target_cap term)) as [[-> Hlt] | [-> Hge]];
      split; intros; try reflexivity; exfalso; lra.
  - rewrite Ht. apply target_raise_bounded. assumption.
Qed.

(** C7, as the code has it.  An impact raises [target_height] by
    [8/width] only while it is below the cap [(height-3)*8]; at or above
    the cap it leaves it as it is, and nothing clamps the result.  In any
    arithmetic a call of [drips_update] applies this guarded raise
    ([raise_target], the sum taken in [double] and stored in a [float])
    once for every impact, that is, for every active drip whose [y] after
    its gravity step is at most the height of the tested column.  In exact
    arithmetic the raise is [t + 8/width] below the cap and [t] from the
    cap on; a call therefore never lowers the target height, keeps it
    below cap + 8/width if it was, and does not touch it if it had reached
    the cap. *)
Theorem drips_update_target_height :
  (forall (FM : FloatModel) term (ds : list drip_t) (water : water_t)
          (d0 : drip_t) (c0 : water_column_t),
      ds !! 0%nat = Some d0 ->
      cols water !! Z.to_nat (drip_x d0) = Some c0 ->
      Forall (fun d => drip_active d = true -> is_Some (drip_fall d)) ds ->
      exists ds' water',
        drips_update term ds water = Some (ds', water')
        /\ target_height water'
           = target_height (Nat.iter (length (landed (col_height c0) ds))
                              (raise_target term) water)
        /\ (forall w,
              target_height (raise_target term w)
              = if f_lt (target_height w)
                        (z2f (SizeT.mul (SizeT.sub (term_height term) 3) 8))
                then d2f (d_add (f2d (target_height w))
                                (d_div (dlit 8) (z2d (term_width term))))
                else target_height w))
  /\ (forall term (ds : list qdrip) (water : qwater) (d0 : qdrip) (c0 : qcol),
        0 < term_width term ->
        ds !! 0%nat = Some d0 ->
        cols water !! Z.to_nat (drip_x d0) = Some c0 ->
        Forall (fun d => drip_active d = true -> is_Some (drip_fall d)) ds ->
        exists ds' water',
          drips_update term ds water = Some (ds', water')
          /\ @target_height Exact.model water'
             = Nat.iter (length (landed (@col_height Exact.model c0) ds)) (target_raise term)
                 (@target_height Exact.model water)
          /\ (forall t : Q,
                ((t < target_cap term)%Q -> target_raise term t = (t + target_step term)%Q)
                /\ ((target_cap term <= t)%Q -> target_raise term t = t))
          /\ (@target_height Exact.model water <= @target_height Exact.model water')%Q
          /\ ((@target_height Exact.model water < target_cap term + target_step term)%Q ->
              (@target_height Exact.model water' < target_cap term + target_step term)%Q)
          /\ ((target_cap term <= @target_height Exact.model water)%Q ->
              @target_height Exact.model water' = @target_height Exact.model water)).
Proof.
  split.
  - intros FM term ds water d0 c0 H0 Hc Hfall.
    destruct (drips_update_raises term ds water d0 c0 H0 Hc Hfall) as (ds' & water' & Hrun & Ht).
    exists ds', water'. split; [exact Hrun|]. split; [exact Ht|].
    intros w. unfold raise_target. destruct (f_lt _ _); reflexivity.
  - exact exact_drips_update_target.
Qed.
End ExactTarget.

(** C7, as stated, fails.  Terminal of 40 columns and 20 rows, cap 136,
    IEEE arithmetic, target height 8 at the start: after 640 impacts the
    target height is 135.99908..., still below the cap; the 641st impact
    raises it to 136.19908..., above the cap; the 642nd impact does not
    raise it. *)
Lemma target_height_exceeds_cap :
  z2f (FloatModel := IEEE.model) (SizeT.mul (SizeT.sub (term_height term_40x20) 3) 8)
  = S754_finite false 8912896 (-16)
  /\ @target_height IEEE.model <$> impacts term_40x20 20 8 640 (still_water 40 8 8 14)
     = Some (S754_finite false 8912836 (-16))
  /\ @target_height IEEE.model <$> impacts term_40x20 20 8 641 (still_water 40 8 8 14)
     = Some (S754_finite false 8925943 (-16))
  /\ @target_height IEEE.model <$> impacts term_40x20 20 8 642 (still_water 40 8 8 14)
     = Some (S754_finite false 8925943 (-16))
  /\ f_lt (FloatModel := IEEE.model) (S754_finite false 8912896 (-16))
          (S754_finite false 8925943 (-16)) = true
  /\ IEEE.to_Q (S754_finite false 8912896 (-16)) = Some (8912896 # 65536)%Q
  /\ (8912896 # 65536 == 136)%Q
  /\ IEEE.to_Q (S754_finite false 8925943 (-16)) = Some (8925943 # 65536)%Q
  /\ (136 < 8925943 # 65536)%Q.
Proof. vm_compute. repeat split; reflexivity. Qed.

(** ** The renderer's colour changes *)

Section RenderFacts.
Context {FM : FloatModel}.

Lemma drip_stage_none term (ds : list drip_t) y x acc :
  Forall (fun d => drip_at term y x d = false) ds ->
  fold_left (drip_stage_body term y x) ds acc = acc.
Proof.
  intros H. revert acc. induction H as [|d ds Hd _ IH]; intros acc; simpl; [reflexivity|].
  rewrite IH. unfold drip_stage_body. destruct acc as [out st]. rewrite Hd. reflexivity.
Qed.

Lemma Forall_no_color_app (a b : list op) :
  Forall (fun o => is_SetColor o = false) a ->
  Forall (fun o => is_SetColor o = false) b ->
  Forall (fun o => is_SetColor o = false) (a ++ b).
Proof. intros Ha Hb. apply Forall_app. split; assumption. Qed.

Lemma move_no_color (b : bool) y x :
  Forall (fun o => is_SetColor o = false)
         (if b then [MoveCursor (SizeT.add y 1) (SizeT.add x 1)] else []).
Proof. destruct b; repeat constructor. Qed.

(** A cell that is neither an island cell nor a drip's cell prints a
    colour change only when it changes the colour mode. *)
Lemma render_cell_color_change term water (ds : list drip_t) cloud y x st out st' :
  render_cell term water ds cloud y x st = Some (out, st') ->
  island_colors term water y x = None ->
  Forall (fun d => drip_at term y x d = false) ds ->
  color_mode st' = color_mode st ->
  Forall (fun o => is_SetColor o = false) out.
Proof.
  intros Hcell Hisl Hdrip Hmode. unfold render_cell in Hcell.
  unfold island_stage in Hcell. rewrite Hisl in Hcell.
  unfold drip_stage in Hcell.
  destruct st as [mv cm]. cbn [color_mode move] in *.
  destruct (cmode_eqb cm CM_ISLAND) eqn:Heq; cbv beta iota zeta in Hcell;
    rewrite drip_stage_none in Hcell by assumption; cbv beta iota zeta in Hcell;
    (destruct (cloud_at cloud y x) as [[|]|]; simpl in Hcell; [| |discriminate]);
    try (destruct (cols water !! Z.to_nat x) as [c|]; simpl in Hcell; [|discriminate];
         unfold water_stage in Hcell; simpl in Hcell;
         destruct (f_lt _ _);
         [|destruct (f_le _ _);
           [|destruct (f2int (col_height c)) as [h|]; simpl in Hcell; [|discriminate];
             destruct (Z.rem h 8 <? 0); [discriminate|]]]);
    destruct cm; simpl in *; try discriminate;
    inversion Hcell; subst; simpl in *; try discriminate;
    repeat (apply Forall_no_color_app || apply move_no_color
            || (constructor; [reflexivity|]) || constructor).
Qed.

(** An island cell prints its colours whatever the colour mode is. *)
Lemma render_cell_island_color term water (ds : list drip_t) cloud y x st out st' sgr :
  render_cell term water ds cloud y x st = Some (out, st') ->
  island_colors term water y x = Some sgr ->
  exists rest, out = SetColor sgr :: rest.
Proof.
  intros Hcell Hisl. unfold render_cell in Hcell.
  unfold island_stage in Hcell. rewrite Hisl in Hcell.
  destruct (drip_stage term ds y x _) as [o2 s2].
  destruct (cloud_at cloud y x) as [[|]|]; simpl in Hcell; [| |discriminate].
  - inversion Hcell. simpl. eauto.
  - destruct (cols water !! Z.to_nat x) as [c|]; simpl in Hcell; [|discriminate].
    destruct (water_stage term y x c s2) as [[o3 s3]|]; simpl in Hcell; [|discriminate].
    inversion Hcell. simpl. eauto.
Qed.

(** In the list [render_cells] builds, a cell is rendered from the state
    its left neighbour left. *)
Lemma render_cells_step term water (ds : list drip_t) cloud y n :
  forall x0 st cells k r1 r2,
  render_cells term water ds cloud y x0 n st = Some cells ->
  cells !! k = Some r1 -> cells !! Datatypes.S k = Some r2 ->
  render_cell term water ds cloud y (Z.of_nat (x0 + Datatypes.S k)) (snd r1) = Some r2.
Proof.
  induction n as [|n IH]; intros x0 st cells k r1 r2 Hrun H1 H2; simpl in Hrun.
  - inversion Hrun; subst. discriminate.
  - destruct (render_cell term water ds cloud y (Z.of_nat x0) st) as [r|] eqn:Hr;
      simpl in Hrun; [|discriminate].
    destruct (render_cells term water ds cloud y (Datatypes.S x0) n (snd r))
      as [rest|] eqn:Hrest; simpl in Hrun; [|discriminate].
    inversion Hrun; subst cells. clear Hrun.
    destruct k as [|k].
    + simpl in H1. inversion H1; subst r1. simpl in H2.
      destruct n as [|n]; simpl in Hrest.
      * inversion Hrest; subst. discriminate.
      * destruct (render_cell term water ds cloud y (Z.of_nat (Datatypes.S x0)) (snd r))
          as [r'|] eqn:Hr'; simpl in Hrest; [|discriminate].
        destruct (render_cells term water ds cloud y (Datatypes.S (Datatypes.S x0)) n (snd r'));
          simpl in Hrest; [|discriminate].
        inversion Hrest; subst rest. simpl in H2. inversion H2; subst r2.
        replace (x0 + 1)%nat with (Datatypes.S x0) by lia. assumption.
    + simpl in H1, H2.
      replace (x0 + Datatypes.S (Datatypes.S k))%nat
        with (Datatypes.S x0 + Datatypes.S k)%nat by lia.
      eapply IH; eassumption.
Qed.

(** C6, as the code has it.  In a row, take a cell and its right
    neighbour.  If the neighbour is an island cell, it prints its colours
    first, whatever the colour mode.  If it is neither an island cell nor
    the cell of an active drip and its colour mode is the one the left cell
    left, it prints no colour change. *)
Theorem render_row_color_changes term water (ds : list drip_t) cloud y mv cells
  x o1 s1 o2 s2 :
  render_row term water ds cloud y mv = Some cells ->
  cells !! x = Some (o1, s1) -> cells !! Datatypes.S x = Some (o2, s2) ->
  (forall sgr, island_colors term water y (Z.of_nat (Datatypes.S x)) = Some sgr ->
               exists rest, o2 = SetColor sgr :: rest)
  /\ (island_colors term water y (Z.of_nat (Datatypes.S x)) = None ->
      Forall (fun d => drip_at term y (Z.of_nat (Datatypes.S x)) d = false) ds ->
      color_mode s1 = color_mode s2 ->
      Forall (fun o => is_SetColor o = false) o2).
Proof.
  intros Hrow H1 H2. unfold render_row in Hrow.
  pose proof (render_cells_step term water ds cloud y _ 0%nat _ cells x _ _ Hrow H1 H2)
    as Hcell. simpl in Hcell.
  split.
  - intros sgr Hisl. eapply render_cell_island_color; eassumption.
  - intros Hisl Hdrip Hmode.
    eapply render_cell_color_change; try eassumption. symmetry. assumption.
Qed.
End RenderFacts.

(** C6, as stated, fails.  First frame on a 40x20 terminal (water at rest
    at height 8, island row 14, no drip): in row 10 the cells of columns 18
    and 19 are island cells; both leave the colour mode [CM_ISLAND], and
    the cell of column 19 begins with a colour change all the same. *)
Lemma render_row_island_repeats_color :
  (fun cells : list (list op * rstate) => (cells !! 18%nat, cells !! 19%nat))
    <$> render_row (FM := IEEE.model) term_40x20 (still_water 40 8 8 14) []
          (cloud_init term_40x20) 10 true
  = Some (Some ([SetColor [34; 42]; MoveCursor 11 19; WriteGlyph blank],
                {| move := false; color_mode := CM_ISLAND |}),
          Some ([SetColor [34; 42]; WriteGlyph blank],
                {| move := false; color_mode := CM_ISLAND |})).
Proof. vm_compute. reflexivity. Qed.

(** The cell of an active drip is the other exception: under water of
    height 100, a drip drawn in row 10 over column 6 makes that cell print
    two colour changes although it leaves the colour mode of column 5. *)
Lemma render_row_drip_repeats_color :
  (fun cells : list (list op * rstate) => (cells !! 5%nat, cells !! 6%nat))
    <$> render_row (FM := IEEE.model) term_40x20 (still_water 40 100 100 14)
          [{| drip_active := true; drip_x := 6; drip_y := 80; drip_speed := z2f 0 |}]
          (cloud_init term_40x20) 10 true
  = Some (Some ([WriteGlyph blank], {| move := false; color_mode := CM_WATER_BG |}),
          Some ([SetColor [34]; WriteGlyph drip_char; SetColor [44]; WriteGlyph blank],
                {| move := false; color_mode := CM_WATER_BG |})).
Proof. vm_compute. reflexivity. Qed.

(** ** The size of the column array from frame to frame *)

Section FrameFacts.
Context {FM : FloatModel}.

Lemma drips_update_cols_length term (ds ds' : list drip_t) water water' :
  drips_update term ds water = Some (ds', water') ->
  length (cols water') = length (cols water).
Proof.
  intros Hrun. unfold drips_update, for_loop in Hrun.
  pose proof (for_range_preserves
    (fun _ (st : list drip_t * water_t) => length (cols (snd st)) = length (cols water))
    (drips_update_body term) 0 (length ds) (ds, water) (ds', water')) as Hinv.
  simpl in Hinv. apply Hinv; [reflexivity| |assumption].
  intros i [dsi wi] [dsi' wi'] _ Hl Hbody. simpl in *.
  unfold drips_update_body in Hbody.
  destruct (dsi !! i) as [d|]; simpl in Hbody; [|discriminate].
  destruct (drip_active d); [|inversion Hbody; subst; assumption].
  destruct (drip_fall d) as [d1|]; simpl in Hbody; [|discriminate].
  destruct (<[i:=d1]> dsi !! 0%nat) as [d0|]; simpl in Hbody; [|discriminate].
  destruct (cols wi !! Z.to_nat (drip_x d0)) as [c|]; simpl in Hbody; [|discriminate].
  destruct (f_le _ _).
  - destruct (upd _ _ (cols wi)) as [cs|] eqn:Hupd; simpl in Hbody; [|discriminate].
    inversion Hbody; subst. rewrite raise_target_cols. simpl.
    rewrite (upd_length _ _ _ _ Hupd). assumption.
  - inversion Hbody; subst. assumption.
Qed.

Lemma termsize_update_width ws term :
  term_updated (snd (termsize_update ws term)) = false ->
  term_width (snd (termsize_update ws term)) = term_width term.
Proof.
  unfold termsize_update. destruct ws as [[c r]|]; [|reflexivity].
  destruct (negb (c =? term_width term) || negb (r =? term_height term)); simpl;
    [discriminate | reflexivity].
Qed.

(** Across a frame of [main] in which [realloc] does not fail, the column
    array has [width] cells after the frame if it had before, whether the
    terminal was resized in the frame or not. *)
Lemma frame_cols_length env w w' out :
  frame env w = Some (w', out) ->
  is_Some (env_water_alloc env) ->
  length (cols (w_water w)) = Z.to_nat (term_width (w_term w)) ->
  length (cols (w_water w')) = Z.to_nat (term_width (w_term w')).
Proof.
  intros Hf Halloc Hinv. unfold frame in Hf.
  set (term := snd (termsize_update (env_winsize env) (w_term w))) in *.
  destruct (drips_update term (w_drips w) (w_water w)) as [[ds1 water1]|] eqn:Hd;
    simpl in Hf; [|discriminate].
  destruct (cloud_update _ _ term (w_cloud w) ds1) as [[cloud2 ds2]|];
    simpl in Hf; [|discriminate].
  pose proof (drips_update_cols_length _ _ _ _ _ Hd) as Hl1.
  destruct (water_update_total (env_water_alloc env) term water1) as (w3 & Hw & Hl3).
  { destruct (term_updated term) eqn:Hu; [left; auto|].
    right. split; [reflexivity|]. rewrite Hl1, Hinv.
    unfold term in *. rewrite termsize_update_width by assumption. reflexivity. }
  rewrite Hw in Hf. simpl in Hf.
  destruct (render term w3 ds2 cloud2); simpl in Hf; [|discriminate].
  inversion Hf; subst. simpl. assumption.
Qed.
(** X17. Along a run of frames of [main] that is defined (no frame has
    undefined behaviour) and in which [realloc] does not fail in
    [water_update]: if the column array has [width] cells before the run it
    has [width] cells after it, whatever resizes of the terminal the frames
    saw. *)
Lemma run_cols_length envs : forall w w',
  Forall (fun env => is_Some (env_water_alloc env)) envs ->
  run envs w = Some w' ->
  length (cols (w_water w)) = Z.to_nat (term_width (w_term w)) ->
  length (cols (w_water w')) = Z.to_nat (term_width (w_term w')).
Proof.
  induction envs as [|env envs IH]; intros w w' Hall Hrun Hinv; simpl in Hrun.
  - inversion Hrun; subst. assumption.
  - destruct (frame env w) as [[w1 out]|] eqn:Hf; simpl in Hrun; [|discriminate].
    inversion Hall as [|? ? Halloc Hrest]; subst.
    apply (IH w1 w' Hrest Hrun).
    eapply frame_cols_length; eassumption.
Qed.
End FrameFacts.

(** One spread pass in IEEE arithmetic on heights 8, 9, 13: the new heights
    are 8.25, 9.75 and 12, of the same sum 30. *)
Lemma spread_pass_ieee_example :
  (fun cs => map (fun c => IEEE.to_Q (@col_height IEEE.model c)) cs)
    <$> spread_pass 3 [still_column 8; still_column 9; still_column 13]
  = Some [Some (8650752 # 1048576)%Q; Some (10223616 # 1048576)%Q;
          Some (12582912 # 1048576)%Q]
  /\ ((8650752 # 1048576) + (10223616 # 1048576) + (12582912 # 1048576) == 30)%Q.
Proof. split; [vm_compute; reflexivity | reflexivity]. Qed.

(** ** The deltas of a spread pass in IEEE arithmetic

    Rounding to nearest is symmetric under a change of sign, so the delta a
    column stores for its right neighbour and the delta that neighbour
    stores for it are opposite floats: the drift of the sum of heights in
    IEEE arithmetic comes only from the additions into the heights. *)

Lemma binary_round_aux_opp p em s m e l :
  binary_round_aux p em (negb s) m e l = SFopp (binary_round_aux p em s m e l).
Proof.
  unfold binary_round_aux.
  destruct (shr_fexp p em m e l) as [mrs' e'].
  destruct (shr_fexp p em _ e' loc_Exact) as [mrs'' e''].
  destruct (shr_m mrs''); simpl; try reflexivity.
  destruct (e'' <=? em - p); reflexivity.
Qed.

Lemma binary_round_opp p em s m e :
  binary_round p em (negb s) m e = SFopp (binary_round p em s m e).
Proof.
  unfold binary_round. destruct (shl_align m e _) as [mz ez].
  apply binary_round_aux_opp.
Qed.

Lemma binary_normalize_opp p em z e :
  IEEE.mirror (binary_normalize p em z e false) (binary_normalize p em (- z) e false).
Proof.
  destruct z as [|m|m]; simpl.
  - right. eauto.
  - left. apply (binary_round_opp p em false).
  - left. change false with (negb true) at 1.
    rewrite (binary_round_opp p em true). reflexivity.
Qed.

Lemma SFsub_mirror p em x y : IEEE.mirror (SFsub p em x y) (SFsub p em y x).
Proof.
  destruct x as [sx|sx| |sx mx ex], y as [sy|sy| |sy my ey]; simpl;
    try solve [left; reflexivity];
    try solve [destruct sx; destruct sy; simpl; first [left; reflexivity | right; eauto]];
    try solve [destruct sx; simpl; first [left; reflexivity | right; eauto]];
    try solve [destruct sy; simpl; first [left; reflexivity | right; eauto]].
  rewrite (Z.min_comm ey ex).
  set (ez := Z.min ex ey).
  set (a := cond_Zopp sx _). set (b := cond_Zopp sy _).
  replace (b - a) with (- (a - b)) by lia.
  apply binary_normalize_opp.
Qed.

Lemma SFopp_involutive x : SFopp (SFopp x) = x.
Proof. destruct x as [s|s| |s m e]; simpl; rewrite ?negb_involutive; reflexivity. Qed.

Lemma SFmul_mirror p em c x y :
  IEEE.mirror x y -> IEEE.mirror (SFmul p em c x) (SFmul p em c y).
Proof.
  intros [-> | (s & s' & -> & ->)].
  - left. destruct c as [sc|sc| |sc mc ec], x as [sx|sx| |sx mx ex]; simpl;
      try reflexivity; try solve [destruct sc, sx; reflexivity].
    destruct sc, sx; simpl;
      first [apply (binary_round_aux_opp p em false)
            | rewrite <- (SFopp_involutive (binary_round_aux p em false _ _ _));
              f_equal; symmetry; apply (binary_round_aux_opp p em false) ].
  - destruct c as [sc|sc| |sc mc ec]; simpl;
      first [solve [right; eauto] | left; reflexivity].
Qed.

Lemma round_to_mirror p em x y :
  IEEE.mirror x y -> IEEE.mirror (IEEE.round_to p em x) (IEEE.round_to p em y).
Proof.
  intros [-> | (s & s' & -> & ->)].
  - destruct x as [s|s| |s m e]; simpl; try (left; reflexivity).
    destruct s; simpl.
    + left. change false with (negb true) at 1. apply binary_round_opp.
    + left. apply (binary_round_opp p em false).
  - right. simpl. eauto.
Qed.

Lemma to_Q_mirror x y : IEEE.mirror x y -> IEEE.to_Q y = Qopp <$> IEEE.to_Q x.
Proof.
  intros [-> | (s & s' & -> & ->)]; [|reflexivity].
  destruct x as [s|s| |s m e]; simpl; try reflexivity.
  destruct e as [|e|e]; destruct s; simpl; try reflexivity;
    unfold Qopp, inject_Z; simpl; do 2 f_equal; lia.
Qed.

Lemma spread_delta_mirror (a b : spec_float) :
  IEEE.mirror (spread_delta (FM := IEEE.model) a b) (spread_delta (FM := IEEE.model) b a).
Proof.
  unfold spread_delta.
  apply (round_to_mirror IEEE.prec32 IEEE.emax32).
  apply (SFmul_mirror IEEE.prec64 IEEE.emax64).
  apply (round_to_mirror IEEE.prec64 IEEE.emax64).
  apply (SFsub_mirror IEEE.prec32 IEEE.emax32).
Qed.

Lemma ieee_delta_loop_mirror width (cs : list (water_column_t (FM := IEEE.model))) :
  SizeT.in_range width -> length cs = Z.to_nat width ->
  exists cs1, for_loop (Z.to_nat width) (spread_delta_body width) cs = Some cs1
    /\ forall i, (i + 1 < length cs)%nat ->
         IEEE.mirror (@col_rdelta IEEE.model (cs1 !!! i))
                     (@col_ldelta IEEE.model (cs1 !!! (i + 1)%nat))
         /\ IEEE.to_Q (@col_ldelta IEEE.model (cs1 !!! (i + 1)%nat))
            = Qopp <$> IEEE.to_Q (@col_rdelta IEEE.model (cs1 !!! i)).
Proof.
  intros Hr Hlen.
  destruct (spread_delta_loop_spec width cs Hlen) as (cs1 & Hrun & Hl1 & Hh & Hld & Hrd).
  exists cs1. split; [assumption|]. intros i Hi.
  assert (Hm : SizeT.sub width 1 = width - 1) by (apply sub1_exact; [lia|assumption]).
  assert (Hmir : IEEE.mirror (@col_rdelta IEEE.model (cs1 !!! i))
                             (@col_ldelta IEEE.model (cs1 !!! (i + 1)%nat))).
  { rewrite Hrd by (rewrite ?Hm; lia). rewrite Hld by lia.
    replace (i + 1 - 1)%nat with i by lia. apply spread_delta_mirror. }
  split; [exact Hmir | apply to_Q_mirror; exact Hmir].
Qed.

(** ** Rounding in IEEE arithmetic: how far a result is from the exact one

    [SpecFloat] rounds a mantissa in two shifts to the right with a
    round-to-nearest-even in between.  The lemmas below bound the result:
    when no overflow is possible the rounded float is finite and within
    two units of the last place kept of the number that was rounded. *)

(** *** Number of binary digits *)

(** [digits2_pos m] is the number of binary digits of [m]. *)
Lemma digits2_pos_spec (m : positive) :
  2 ^ (Zpos (digits2_pos m) - 1) <= Zpos m < 2 ^ Zpos (digits2_pos m).
Proof.
  induction m as [m IH|m IH|]; cbn [digits2_pos]; [| |simpl; lia].
  - rewrite Pos2Z.inj_succ, Z.pow_succ_r by lia.
    replace (Z.succ (Zpos (digits2_pos m)) - 1) with (Z.succ (Zpos (digits2_pos m) - 1)) by lia.
    rewrite Z.pow_succ_r by lia. rewrite (Pos2Z.inj_xI m).
    revert IH. generalize (2 ^ (Zpos (digits2_pos m) - 1)) (2 ^ Zpos (digits2_pos m)).
    intros a b H. split; lia.
  - rewrite Pos2Z.inj_succ, Z.pow_succ_r by lia.
    replace (Z.succ (Zpos (digits2_pos m)) - 1) with (Z.succ (Zpos (digits2_pos m) - 1)) by lia.
    rewrite Z.pow_succ_r by lia. rewrite (Pos2Z.inj_xO m).
    revert IH. generalize (2 ^ (Zpos (digits2_pos m) - 1)) (2 ^ Zpos (digits2_pos m)).
    intros a b H. split; lia.
Qed.

Lemma Zdigits2_nonneg (m : Z) : 0 <= Zdigits2 m.
Proof. destruct m; simpl; lia. Qed.

Lemma Zdigits2_spec (m : Z) :
  0 < m -> 2 ^ (Zdigits2 m - 1) <= m < 2 ^ Zdigits2 m.
Proof. destruct m as [|p|p]; try lia. intros _. apply digits2_pos_spec. Qed.

(** A number below [2^k] has at most [k] digits. *)
Lemma Zdigits2_le (m k : Z) : 0 <= m < 2 ^ k -> 0 <= k -> Zdigits2 m <= k.
Proof.
  intros [H0 Hk] Hk0. destruct (Z.eq_dec m 0) as [->|Hne]; [simpl; lia|].
  pose proof (Zdigits2_spec m ltac:(lia)) as [Hlo _].
  destruct (Z.le_gt_cases (Zdigits2 m) k) as [|Hgt]; [assumption|exfalso].
  assert (2 ^ k <= 2 ^ (Zdigits2 m - 1)) by (apply Z.pow_le_mono_r; lia).
  lia.
Qed.

(** *** Shifting right *)

(** [SpecFloat.iter_pos] iterates [Pos.to_nat n] times. *)
Lemma iter_pos_nat {A : Type} (f : A -> A) (n : positive) (x : A) :
  SpecFloat.iter_pos f n x = Nat.iter (Pos.to_nat n) f x.
Proof.
  revert x. induction n as [n IH|n IH|]; intros x; cbn [SpecFloat.iter_pos].
  - rewrite !IH, Pos2Nat.inj_xI.
    replace (Datatypes.S (2 * Pos.to_nat n)) with (Pos.to_nat n + (Pos.to_nat n + 1))%nat by lia.
    rewrite !Nat.iter_add. reflexivity.
  - rewrite !IH, Pos2Nat.inj_xO.
    replace (2 * Pos.to_nat n)%nat with (Pos.to_nat n + Pos.to_nat n)%nat by lia.
    rewrite Nat.iter_add. reflexivity.
  - reflexivity.
Qed.

(** One shift halves the mantissa. *)
Lemma shr_1_m (mrs : shr_record) :
  0 <= shr_m mrs -> shr_m (shr_1 mrs) = shr_m mrs / 2.
Proof.
  destruct mrs as [m r s]. cbn [shr_m]. intros Hm.
  rewrite <- Z.div2_div.
  destruct m as [|[p|p|]|p]; try lia; reflexivity.
Qed.

Lemma shr_iter_m (n : nat) (mrs : shr_record) :
  0 <= shr_m mrs ->
  shr_m (Nat.iter n shr_1 mrs) = shr_m mrs / 2 ^ Z.of_nat n.
Proof.
  intros Hm. induction n as [|n IH].
  - simpl. rewrite Z.div_1_r. reflexivity.
  - rewrite Nat.iter_succ, shr_1_m.
    + rewrite IH, Z.div_div by lia.
      rewrite Nat2Z.inj_succ, Z.pow_succ_r by lia. f_equal. lia.
    + rewrite IH. apply Z.div_pos; lia.
Qed.

(** [shr] by [n] places: the mantissa is divided by [2^n] and the exponent
    raised by [n]; for [n <= 0] nothing moves. *)
Lemma shr_spec (mrs : shr_record) (e n : Z) :
  0 <= shr_m mrs ->
  shr_m (fst (shr mrs e n)) = shr_m mrs / 2 ^ Z.max n 0
  /\ snd (shr mrs e n) = e + Z.max n 0.
Proof.
  intros Hm. destruct n as [|p|p]; cbn [shr fst snd].
  - simpl. rewrite Z.div_1_r. split; [reflexivity | lia].
  - rewrite iter_pos_nat, shr_iter_m by assumption.
    rewrite positive_nat_Z. rewrite Z.max_l by lia. split; reflexivity.
  - simpl. rewrite Z.div_1_r. split; [reflexivity | lia].
Qed.

Lemma round_nearest_even_cases (q : Z) (l : location) :
  round_nearest_even q l = q \/ round_nearest_even q l = q + 1.
Proof.
  destruct l as [|[| |]]; simpl; auto. destruct (Z.even q); auto.
Qed.


(** *** Rounding an integer mantissa *)

Section IeeeRoundAux.
Variables prec emax : Z.
Hypothesis prec_pos : 0 < prec.

Lemma fexp_ge_emin (k : Z) : emin prec emax <= fexp prec emax k.
Proof. unfold fexp. lia. Qed.

Lemma fexp_ge (k : Z) : k - prec <= fexp prec emax k.
Proof. unfold fexp. lia. Qed.

Lemma fexp_mono (j k : Z) : j <= k -> fexp prec emax j <= fexp prec emax k.
Proof. unfold fexp. lia. Qed.

(** [shr_fexp] brings the exponent up to [fexp (digits + e)] when that is
    above [e], and leaves the number alone otherwise. *)
Lemma shr_fexp_spec (m e : Z) :
  0 <= m ->
  shr_m (fst (shr_fexp prec emax m e loc_Exact))
  = m / 2 ^ Z.max (fexp prec emax (Zdigits2 m + e) - e) 0
  /\ snd (shr_fexp prec emax m e loc_Exact)
     = e + Z.max (fexp prec emax (Zdigits2 m + e) - e) 0.
Proof. intros Hm. unfold shr_fexp. apply (shr_spec (shr_record_of_loc m loc_Exact)). exact Hm. Qed.

(** Rounding [m * 2^e]: with [u] the larger of [e] and the exponent the
    format gives a number of that size, and [u] below the largest exponent,
    the result is a zero or a finite float [m2 * 2^e2] of the sign asked
    for, [e <= e2 <= u + 1], and [m2 * 2^e2] is within [2 * 2^u] of
    [m * 2^e] (here in units of [2^e]). *)
Lemma binary_round_aux_spec (s : bool) (m : positive) (e : Z) :
  let u := Z.max e (fexp prec emax (Zpos (digits2_pos m) + e)) in
  u + 1 <= emax - prec ->
  exists m2 e2,
    binary_round_aux prec emax s (Zpos m) e loc_Exact
    = match m2 with
      | Z0 => S754_zero s
      | Zpos p => S754_finite s p e2
      | Zneg _ => S754_nan
      end
    /\ 0 <= m2 /\ e <= e2 <= u + 1
    /\ Z.abs (m2 * 2 ^ (e2 - e) - Zpos m) <= 2 * 2 ^ (u - e).
Proof.
  intros u Hu. unfold binary_round_aux.
  destruct (shr_fexp_spec (Zpos m) e ltac:(lia)) as [Hm1 He1].
  destruct (shr_fexp prec emax (Zpos m) e loc_Exact) as [mrs1 e1]. cbn [fst snd] in Hm1, He1.
  change (Zdigits2 (Zpos m)) with (Zpos (digits2_pos m)) in Hm1, He1.
  set (f := fexp prec emax (Zpos (digits2_pos m) + e)) in *.
  set (n := Z.max (f - e) 0) in *.
  assert (Hn0 : 0 <= n) by lia.
  assert (Hue : u - e = n) by lia.
  assert (He1u : e1 = u) by lia.
  pose proof (round_nearest_even_cases (shr_m mrs1) (loc_of_shr_record mrs1)) as Hm1'.
  set (m1 := round_nearest_even (shr_m mrs1) (loc_of_shr_record mrs1)) in *.
  rewrite Hm1 in Hm1'. clear Hm1.
  set (q := Zpos m / 2 ^ n) in *.
  assert (HP : 0 < 2 ^ n) by (apply Z.pow_pos_nonneg; lia).
  assert (Hq : q * 2 ^ n <= Zpos m < q * 2 ^ n + 2 ^ n).
  { unfold q. pose proof (Z.div_mod (Zpos m) (2 ^ n) ltac:(lia)) as Hdm.
    pose proof (Z.mod_pos_bound (Zpos m) (2 ^ n) HP) as Hmod.
    rewrite (Z.mul_comm (Zpos m / 2 ^ n)). lia. }
  assert (Hq0 : 0 <= q) by (apply Z.div_pos; lia).
  assert (Hqp : q < 2 ^ prec).
  { pose proof (digits2_pos_spec m) as [_ Hd].
    assert (Hle : 2 ^ Zpos (digits2_pos m) <= 2 ^ (n + prec)).
    { apply Z.pow_le_mono_r; [lia|]. pose proof (fexp_ge (Zpos (digits2_pos m) + e)). lia. }
    rewrite Z.pow_add_r in Hle by lia.
    apply (Z.mul_lt_mono_pos_r (2 ^ n)); [assumption|]. lia. }
  destruct (shr_fexp_spec m1 e1 ltac:(lia)) as [Hm2 He2].
  destruct (shr_fexp prec emax m1 e1 loc_Exact) as [mrs2 e2]. cbn [fst snd] in Hm2, He2.
  set (n2 := Z.max (fexp prec emax (Zdigits2 m1 + e1) - e1) 0) in *.
  assert (Hn2 : n2 = 0 \/ n2 = 1).
  { assert (Hd1 : Zdigits2 m1 <= prec + 1).
    { apply Zdigits2_le; [|lia]. rewrite Z.pow_add_r, Z.pow_1_r by lia. lia. }
    pose proof (fexp_ge_emin (Zpos (digits2_pos m) + e)).
    unfold n2, fexp. fold f in H. lia. }
  exists (shr_m mrs2), e2.
  assert (Hm20 : 0 <= shr_m mrs2).
  { rewrite Hm2. apply Z.div_pos; [lia|]. apply Z.pow_pos_nonneg; lia. }
  split.
  { destruct (shr_m mrs2) as [|p|p]; [reflexivity| |lia].
    replace (e2 <=? emax - prec) with true; [reflexivity|].
    symmetry. apply Z.leb_le. lia. }
  split; [assumption|]. split; [lia|].
  rewrite Hue. replace (e2 - e) with (n + n2) by lia.
  rewrite Z.pow_add_r by lia. rewrite Hm2.
  destruct Hn2 as [-> | ->].
  - rewrite Z.pow_0_r, Z.div_1_r, Z.mul_1_r.
    destruct Hm1' as [-> | ->]; [|rewrite Z.mul_add_distr_r]; lia.
  - rewrite Z.pow_1_r.
    pose proof (Z.div_mod m1 2 ltac:(lia)) as Hdm.
    pose proof (Z.mod_pos_bound m1 2 ltac:(lia)) as Hmod.
    set (m2 := m1 / 2) in *. set (r := m1 mod 2) in *.
    assert (Hr : r = 0 \/ r = 1) by lia.
    assert (Hq2 : q = m1 \/ q = m1 - 1) by lia.
    clearbody m1 m2 r q.
    destruct Hq2 as [-> | ->]; destruct Hr as [-> | ->]; subst m1; nia.
Qed.
End IeeeRoundAux.

(** *** Powers of two in the rationals *)

Lemma pow2_pos (e : Z) : (0 < 2 ^ e)%Q.
Proof. apply Qpower_0_lt. reflexivity. Qed.

Lemma pow2_add (a b : Z) : (2 ^ (a + b) == 2 ^ a * 2 ^ b)%Q.
Proof. apply Qpower_plus. intros H. inversion H. Qed.

Lemma pow2_le (a b : Z) : a <= b -> (2 ^ a <= 2 ^ b)%Q.
Proof. intros H. apply Qpower_le_compat_l; [assumption|]. intros H1. inversion H1. Qed.

Lemma pow2_Z (n : Z) : 0 <= n -> (inject_Z (2 ^ n) == 2 ^ n)%Q.
Proof. intros H. apply (Zpower_Qpower 2 n H). Qed.

Lemma pow2_succ (a : Z) : (2 ^ (a + 1) == 2 * 2 ^ a)%Q.
Proof. rewrite pow2_add. change (2 ^ 1)%Q with 2%Q. ring. Qed.

(** The value of a finite float. *)
Lemma value_finite s m e :
  (IEEE.value (S754_finite s m e) == inject_Z (cond_Zopp s (Zpos m)) * 2 ^ e)%Q.
Proof.
  unfold IEEE.value, IEEE.to_Q. destruct e as [|p|p].
  - rewrite Z.pow_0_r, Z.mul_1_r. change (2 ^ 0)%Q with 1%Q. ring.
  - rewrite inject_Z_mult, pow2_Z by lia. reflexivity.
  - rewrite Qmake_Qdiv. unfold Qdiv.
    change (2 ^ Z.neg p)%Q with (/ (2 ^ Z.pos p))%Q.
    rewrite <- pow2_Z by lia. rewrite Pos2Z.inj_pow. reflexivity.
Qed.

(** A mantissa whose number is at most [2^K] has at most [K + 1 - e]
    digits. *)
Lemma digits_bound (m : positive) (e K : Z) :
  (inject_Z (Zpos m) * 2 ^ e <= 2 ^ K)%Q -> Zpos (digits2_pos m) + e <= K + 1.
Proof.
  intros H. pose proof (digits2_pos_spec m) as [Hd _].
  apply (Qpower_le_compat_l_inv 2); [|reflexivity].
  replace (Zpos (digits2_pos m) + e) with ((Zpos (digits2_pos m) - 1 + e) + 1) by lia.
  rewrite !pow2_succ, pow2_add, <- pow2_Z by lia.
  assert (H1 : (inject_Z (2 ^ (Zpos (digits2_pos m) - 1)) * 2 ^ e
                <= inject_Z (Zpos m) * 2 ^ e)%Q).
  { apply Qmult_le_compat_r; [|apply Qlt_le_weak, pow2_pos].
    rewrite <- Zle_Qle. assumption. }
  lra.
Qed.

(** *** Rounding, on the values *)

Section IeeeRoundValue.
Variables prec emax : Z.
Hypothesis prec_pos : 0 < prec.

Lemma value_of_mantissa s (m2 : Z) e2 :
  0 <= m2 ->
  (IEEE.value (match m2 with
          | Z0 => S754_zero s
          | Zpos p => S754_finite s p e2
          | Zneg _ => S754_nan
          end) == inject_Z (cond_Zopp s m2) * 2 ^ e2)%Q
  /\ IEEE.is_finite (match m2 with
                | Z0 => S754_zero s
                | Zpos p => S754_finite s p e2
                | Zneg _ => S754_nan
                end) = true.
Proof.
  intros H. destruct m2 as [|p|p]; [| |lia].
  - split; [|reflexivity].
    destruct s; unfold IEEE.value; cbn [IEEE.to_Q cond_Zopp]; rewrite ?Z.opp_0;
      change (inject_Z 0) with 0%Q; ring.
  - split; [apply value_finite|reflexivity].
Qed.

(** [binary_round_aux_spec] on the values. *)
Lemma round_aux_close s (m : positive) (e U : Z) :
  Z.max e (fexp prec emax (Zpos (digits2_pos m) + e)) <= U ->
  U + 1 <= emax - prec ->
  IEEE.close (U + 1) (binary_round_aux prec emax s (Zpos m) e loc_Exact)
        (inject_Z (cond_Zopp s (Zpos m)) * 2 ^ e)
  /\ IEEE.exp_le (U + 1) (binary_round_aux prec emax s (Zpos m) e loc_Exact).
Proof.
  intros HU Hmax.
  destruct (binary_round_aux_spec prec emax prec_pos s m e ltac:(lia))
    as (m2 & e2 & Hr & Hm2 & He2 & Herr).
  rewrite Hr. clear Hr.
  set (u := Z.max e (fexp prec emax (Zpos (digits2_pos m) + e))) in *.
  destruct (value_of_mantissa s m2 e2 Hm2) as [Hv Hf].
  assert (HQ : (Qabs (inject_Z m2 * 2 ^ e2 - inject_Z (Zpos m) * 2 ^ e) <= 2 ^ (U + 1))%Q).
  { assert (E1 : (inject_Z m2 * 2 ^ e2 == inject_Z (m2 * 2 ^ (e2 - e)) * 2 ^ e)%Q).
    { rewrite inject_Z_mult, pow2_Z by lia. rewrite <- Qmult_assoc, <- pow2_add.
      replace (e2 - e + e) with e2 by lia. reflexivity. }
    rewrite E1.
    assert (E2 : (inject_Z (m2 * 2 ^ (e2 - e)) * 2 ^ e - inject_Z (Zpos m) * 2 ^ e
                  == inject_Z (m2 * 2 ^ (e2 - e) - Zpos m) * 2 ^ e)%Q).
    { unfold Z.sub at 2. rewrite inject_Z_plus, inject_Z_opp. ring. }
    rewrite E2, Qabs_Qmult.
    rewrite (Qabs_pos (2 ^ e)) by (apply Qlt_le_weak, pow2_pos).
    change (Qabs (inject_Z ?z)) with (inject_Z (Z.abs z)).
    apply Qle_trans with (inject_Z (2 * 2 ^ (u - e)) * 2 ^ e)%Q.
    - apply Qmult_le_compat_r; [|apply Qlt_le_weak, pow2_pos].
      rewrite <- Zle_Qle. assumption.
    - rewrite inject_Z_mult, pow2_Z by lia.
      rewrite <- Qmult_assoc, <- pow2_add. replace (u - e + e) with u by lia.
      change (inject_Z 2) with 2%Q. rewrite <- pow2_succ. apply pow2_le. lia. }
  split; [split; [assumption|] |].
  - rewrite Hv. apply Qabs_Qle_condition in HQ. apply Qabs_Qle_condition.
    destruct s; cbn [cond_Zopp]; rewrite ?inject_Z_opp; lra.
  - destruct m2 as [|p|p]; simpl; lia.
Qed.

(** Shifting a mantissa left. *)
Lemma pos_iter_xO (m d : positive) : Zpos (Pos.iter xO m d) = Zpos m * 2 ^ Zpos d.
Proof.
  induction d as [|d IH] using Pos.peano_ind.
  - simpl. rewrite Pos2Z.inj_xO. lia.
  - rewrite Pos.iter_succ, Pos2Z.inj_succ, Z.pow_succ_r, Pos2Z.inj_xO, IH by lia. ring.
Qed.

Lemma shl_align_spec (m : positive) (e e' : Z) :
  snd (shl_align m e e') = Z.min e e'
  /\ Zpos (fst (shl_align m e e')) = Zpos m * 2 ^ (e - Z.min e e').
Proof.
  unfold shl_align. destruct (e' - e) as [|d|d] eqn:E; cbn [fst snd].
  - replace (Z.min e e') with e by lia. rewrite Z.sub_diag. simpl. lia.
  - replace (Z.min e e') with e by lia. rewrite Z.sub_diag. simpl. lia.
  - replace (Z.min e e') with e' by lia. split; [reflexivity|].
    rewrite pos_iter_xO. f_equal. f_equal. lia.
Qed.

(** Aligning a mantissa to a smaller exponent keeps the value. *)
Lemma shl_align_value (m : positive) (e e' : Z) :
  (inject_Z (Zpos (fst (shl_align m e e'))) * 2 ^ snd (shl_align m e e')
   == inject_Z (Zpos m) * 2 ^ e)%Q.
Proof.
  destruct (shl_align_spec m e e') as [-> ->].
  rewrite inject_Z_mult, pow2_Z by lia.
  rewrite <- Qmult_assoc, <- pow2_add.
  replace (e - Z.min e e' + Z.min e e') with e by lia. reflexivity.
Qed.

Section IeeeBounds.
Variables K L : Z.
Hypothesis L_ulp : K + 2 - prec <= L.
Hypothesis L_min : emin prec emax + 1 <= L.
Hypothesis L_max : L <= emax - prec.

Lemma fexp_bound (m : positive) (e : Z) :
  (inject_Z (Zpos m) * 2 ^ e <= 2 ^ K)%Q ->
  fexp prec emax (Zpos (digits2_pos m) + e) <= L - 1.
Proof. intros H. apply digits_bound in H. unfold fexp. lia. Qed.

(** A number of size at most [2^K] rounds to a finite float within [2^L]
    of it whose exponent is at most [L], when [L] is at least
    [K + 2 - prec], above [emin] and at most the largest exponent. *)
Lemma binary_round_close s (m : positive) (e : Z) :
  (inject_Z (Zpos m) * 2 ^ e <= 2 ^ K)%Q ->
  IEEE.close L (binary_round prec emax s m e) (inject_Z (cond_Zopp s (Zpos m)) * 2 ^ e)
  /\ IEEE.exp_le L (binary_round prec emax s m e).
Proof.
  intros H. unfold binary_round.
  pose proof (shl_align_value m e (fexp prec emax (Zpos (digits2_pos m) + e))) as Hv.
  pose proof (shl_align_spec m e (fexp prec emax (Zpos (digits2_pos m) + e))) as [He _].
  destruct (shl_align m e _) as [mz ez]. cbn [fst snd] in Hv, He.
  pose proof (fexp_bound m e H) as Hf.
  assert (Hz : (inject_Z (Zpos mz) * 2 ^ ez <= 2 ^ K)%Q) by (rewrite Hv; assumption).
  pose proof (fexp_bound mz ez Hz) as Hfz.
  destruct (round_aux_close s mz ez (L - 1) ltac:(lia) ltac:(lia)) as [[Hfin Hc] Hx].
  replace (L - 1 + 1) with L in * by lia.
  split; [split; [assumption|] | assumption].
  assert (E : (inject_Z (cond_Zopp s (Zpos m)) * 2 ^ e
               == inject_Z (cond_Zopp s (Zpos mz)) * 2 ^ ez)%Q).
  { destruct s; cbn [cond_Zopp]; rewrite ?inject_Z_opp; lra. }
  rewrite E. assumption.
Qed.

Lemma binary_normalize_close (z e : Z) (sz : bool) :
  (inject_Z (Z.abs z) * 2 ^ e <= 2 ^ K)%Q ->
  IEEE.close L (binary_normalize prec emax z e sz) (inject_Z z * 2 ^ e)
  /\ IEEE.exp_le L (binary_normalize prec emax z e sz).
Proof.
  intros H. destruct z as [|m|m]; cbn [binary_normalize].
  - split; [split; [reflexivity|] | exact I].
    unfold IEEE.value; cbn [IEEE.to_Q]. apply Qabs_Qle_condition.
    pose proof (pow2_pos L). change (inject_Z 0) with 0%Q. lra.
  - apply (binary_round_close false m e H).
  - apply (binary_round_close true m e H).
Qed.

Lemma is_finite_cases (x : spec_float) :
  IEEE.is_finite x = true ->
  (exists s, x = S754_zero s) \/ (exists s m e, x = S754_finite s m e).
Proof. destruct x as [s|s| |s m e]; try discriminate; eauto. Qed.

Lemma value_zero s : IEEE.value (S754_zero s) = 0%Q.
Proof. reflexivity. Qed.

Lemma close_exact (x : spec_float) (v : Q) :
  IEEE.is_finite x = true -> (IEEE.value x == v)%Q -> IEEE.close L x v.
Proof.
  intros Hf Hv. split; [assumption|]. apply Qabs_Qle_condition.
  pose proof (pow2_pos L). lra.
Qed.

Lemma abs_value_finite s m e :
  (Qabs (IEEE.value (S754_finite s m e)) == inject_Z (Zpos m) * 2 ^ e)%Q.
Proof.
  rewrite value_finite, Qabs_Qmult.
  rewrite (Qabs_pos (2 ^ e)) by (apply Qlt_le_weak, pow2_pos).
  change (Qabs (inject_Z ?z)) with (inject_Z (Z.abs z)).
  destruct s; reflexivity.
Qed.

Lemma aligned_value sx mx ex sy my ey :
  (inject_Z (cond_Zopp sx (Zpos (fst (shl_align mx ex (Z.min ex ey))))
             + cond_Zopp sy (Zpos (fst (shl_align my ey (Z.min ex ey))))) * 2 ^ Z.min ex ey
   == IEEE.value (S754_finite sx mx ex) + IEEE.value (S754_finite sy my ey))%Q.
Proof.
  pose proof (shl_align_value mx ex (Z.min ex ey)) as Hx.
  pose proof (shl_align_value my ey (Z.min ex ey)) as Hy.
  destruct (shl_align_spec mx ex (Z.min ex ey)) as [Ex _].
  destruct (shl_align_spec my ey (Z.min ex ey)) as [Ey _].
  rewrite Ex in Hx. rewrite Ey in Hy.
  replace (Z.min ex (Z.min ex ey)) with (Z.min ex ey) in Hx by lia.
  replace (Z.min ey (Z.min ex ey)) with (Z.min ex ey) in Hy by lia.
  rewrite !value_finite, inject_Z_plus.
  destruct sx, sy; cbn [cond_Zopp]; rewrite ?inject_Z_opp; lra.
Qed.

Lemma normalize_sum_close sx mx ex sy my ey :
  (Qabs (IEEE.value (S754_finite sx mx ex) + IEEE.value (S754_finite sy my ey)) <= 2 ^ K)%Q ->
  IEEE.close L (binary_normalize prec emax
             (cond_Zopp sx (Zpos (fst (shl_align mx ex (Z.min ex ey))))
              + cond_Zopp sy (Zpos (fst (shl_align my ey (Z.min ex ey)))))
             (Z.min ex ey) false)
        (IEEE.value (S754_finite sx mx ex) + IEEE.value (S754_finite sy my ey)).
Proof.
  intros H. pose proof (aligned_value sx mx ex sy my ey) as Hv.
  set (M := cond_Zopp sx _ + cond_Zopp sy _) in *.
  destruct (binary_normalize_close M (Z.min ex ey) false) as [[Hf Hc] _].
  - rewrite <- Hv, Qabs_Qmult in H.
    rewrite (Qabs_pos (2 ^ Z.min ex ey)) in H by (apply Qlt_le_weak, pow2_pos).
    exact H.
  - split; [assumption|]. rewrite <- Hv. assumption.
Qed.

(** The sum of two finite floats, when the exact sum is at most [2^K] in
    size, is a finite float within [2^L] of the exact sum. *)
Lemma SFadd_close (x y : spec_float) :
  IEEE.is_finite x = true -> IEEE.is_finite y = true ->
  (Qabs (IEEE.value x + IEEE.value y) <= 2 ^ K)%Q ->
  IEEE.close L (SFadd prec emax x y) (IEEE.value x + IEEE.value y).
Proof.
  intros Hx Hy H.
  destruct (is_finite_cases x Hx) as [[sx ->] | (sx & mx & ex & ->)];
    destruct (is_finite_cases y Hy) as [[sy ->] | (sy & my & ey & ->)].
  - apply close_exact; [destruct sx, sy; reflexivity|].
    destruct sx, sy; rewrite !value_zero; reflexivity.
  - apply close_exact; [reflexivity|]. cbn [SFadd]. rewrite value_zero. ring.
  - apply close_exact; [reflexivity|]. cbn [SFadd]. rewrite value_zero. ring.
  - cbn [SFadd]. apply normalize_sum_close. assumption.
Qed.

Lemma value_opp (x : spec_float) : (IEEE.value (SFopp x) == - IEEE.value x)%Q.
Proof.
  destruct x as [s|s| |s m e]; try reflexivity. cbn [SFopp].
  rewrite !value_finite. destruct s; cbn [negb cond_Zopp]; rewrite ?inject_Z_opp; ring.
Qed.

(** The same for the difference. *)
Lemma SFsub_close (x y : spec_float) :
  IEEE.is_finite x = true -> IEEE.is_finite y = true ->
  (Qabs (IEEE.value x - IEEE.value y) <= 2 ^ K)%Q ->
  IEEE.close L (SFsub prec emax x y) (IEEE.value x - IEEE.value y).
Proof.
  intros Hx Hy H.
  destruct (is_finite_cases x Hx) as [[sx ->] | (sx & mx & ex & ->)];
    destruct (is_finite_cases y Hy) as [[sy ->] | (sy & my & ey & ->)].
  - apply close_exact; [destruct sx, sy; reflexivity|].
    destruct sx, sy; rewrite !value_zero; reflexivity.
  - apply close_exact; [reflexivity|]. cbn [SFsub].
    rewrite (value_opp (S754_finite sy my ey)), value_zero. ring.
  - apply close_exact; [reflexivity|]. cbn [SFsub]. rewrite value_zero. ring.
  - cbn [SFsub].
    assert (E : (IEEE.value (S754_finite sx mx ex) - IEEE.value (S754_finite sy my ey)
                 == IEEE.value (S754_finite sx mx ex) + IEEE.value (S754_finite (negb sy) my ey))%Q).
    { rewrite (value_opp (S754_finite sy my ey)). ring. }
    assert (Em : forall a b, a - cond_Zopp sy b = a + cond_Zopp (negb sy) b).
    { intros a b. destruct sy; cbn [negb cond_Zopp]; lia. }
    rewrite Em. destruct (normalize_sum_close sx mx ex (negb sy) my ey) as [Hf Hc].
    + rewrite <- E. assumption.
    + split; [assumption|]. rewrite E. assumption.
Qed.

(** The same for a conversion to the format. *)
Lemma round_to_close (x : spec_float) :
  IEEE.is_finite x = true ->
  (Qabs (IEEE.value x) <= 2 ^ K)%Q ->
  IEEE.close L (IEEE.round_to prec emax x) (IEEE.value x)
  /\ IEEE.exp_le L (IEEE.round_to prec emax x).
Proof.
  intros Hx H.
  destruct (is_finite_cases x Hx) as [[sx ->] | (sx & mx & ex & ->)].
  - split; [|exact I]. apply close_exact; reflexivity.
  - cbn [IEEE.round_to].
    destruct (binary_normalize_close (cond_Zopp sx (Zpos mx)) ex sx) as [[Hf Hc] He].
    + rewrite abs_value_finite in H.
      replace (Z.abs (cond_Zopp sx (Zpos mx))) with (Zpos mx) by (destruct sx; reflexivity).
      assumption.
    + split; [|assumption]. split; [assumption|]. rewrite value_finite. assumption.
Qed.

(** The same for a product, when the exponents of the factors add up to
    less than [L]. *)
Lemma SFmul_close (x y : spec_float) (a b : Z) :
  IEEE.is_finite x = true -> IEEE.is_finite y = true ->
  IEEE.exp_le a x -> IEEE.exp_le b y -> a + b + 1 <= L ->
  (Qabs (IEEE.value x * IEEE.value y) <= 2 ^ K)%Q ->
  IEEE.close L (SFmul prec emax x y) (IEEE.value x * IEEE.value y).
Proof.
  intros Hx Hy Ha Hb Hab H.
  destruct (is_finite_cases x Hx) as [[sx ->] | (sx & mx & ex & ->)];
    destruct (is_finite_cases y Hy) as [[sy ->] | (sy & my & ey & ->)].
  - apply close_exact; [reflexivity|]. cbn [SFmul]. rewrite !value_zero. ring.
  - apply close_exact; [reflexivity|]. cbn [SFmul]. rewrite !value_zero. ring.
  - apply close_exact; [reflexivity|]. cbn [SFmul]. rewrite !value_zero. ring.
  - cbn [SFmul]. cbn [IEEE.exp_le] in Ha, Hb.
    assert (E : (IEEE.value (S754_finite sx mx ex) * IEEE.value (S754_finite sy my ey)
                 == inject_Z (cond_Zopp (xorb sx sy) (Zpos (mx * my))) * 2 ^ (ex + ey))%Q).
    { rewrite !value_finite, pow2_add, Pos2Z.inj_mul.
      destruct sx, sy; cbn [xorb cond_Zopp];
        rewrite ?inject_Z_opp, ?inject_Z_mult; ring. }
    assert (Hm : (inject_Z (Zpos (mx * my)) * 2 ^ (ex + ey) <= 2 ^ K)%Q).
    { rewrite Qabs_Qmult, !abs_value_finite in H.
      rewrite pow2_add, Pos2Z.inj_mul, inject_Z_mult.
      eapply Qle_trans; [|exact H]. apply Qle_lteq. right. ring. }
    pose proof (fexp_bound (mx * my) (ex + ey) Hm) as Hf.
    destruct (round_aux_close (xorb sx sy) (mx * my) (ex + ey) (L - 1) ltac:(lia) ltac:(lia))
      as [[Hfin Hc] _].
    replace (L - 1 + 1) with L in * by lia.
    split; [assumption|]. rewrite E. assumption.
Qed.
End IeeeBounds.
End IeeeRoundValue.

(** *** The deltas of a spread pass are no larger than the heights *)

(** [WATER_SPREAD], the [double] nearest to 0.25, is 0.25. *)
Lemma ieee_water_spread :
  @WATER_SPREAD IEEE.model = S754_finite false 4503599627370496 (-54).
Proof. reflexivity. Qed.

Lemma value_water_spread :
  (IEEE.value (S754_finite false 4503599627370496 (-54)) == 1 # 4)%Q.
Proof. reflexivity. Qed.

Section IeeeDeltaBound.
Variable E : Z.
Hypothesis E_lo : -128 <= E.
Hypothesis E_hi : E <= 124.

Lemma pow2_E_plus2 : (2 ^ (E + 2) == 4 * 2 ^ E)%Q.
Proof. rewrite pow2_add. change (2 ^ 2)%Q with 4%Q. ring. Qed.

Lemma pow2_E_m20 : (2 ^ (E - 20) == 2 ^ E * (1 # 1048576))%Q.
Proof. unfold Z.sub. rewrite pow2_add. change (2 ^ (- (20)))%Q with (1 # 1048576)%Q. reflexivity. Qed.

Lemma pow2_E_m49 : (2 ^ (E - 49) == 2 ^ E * (1 # 562949953421312))%Q.
Proof. unfold Z.sub. rewrite pow2_add. change (2 ^ (- (49)))%Q with (1 # 562949953421312)%Q. reflexivity. Qed.

Lemma f_sub_close (a b : spec_float) :
  IEEE.is_finite a = true -> IEEE.is_finite b = true ->
  (Qabs (IEEE.value a - IEEE.value b) <= 2 ^ (E + 2))%Q ->
  IEEE.close (E - 20) (SFsub IEEE.prec32 IEEE.emax32 a b) (IEEE.value a - IEEE.value b).
Proof.
  apply (SFsub_close IEEE.prec32 IEEE.emax32 ltac:(reflexivity) (E + 2) (E - 20));
    unfold emin, IEEE.prec32, IEEE.emax32; lia.
Qed.

Lemma f_add_close (a b : spec_float) :
  IEEE.is_finite a = true -> IEEE.is_finite b = true ->
  (Qabs (IEEE.value a + IEEE.value b) <= 2 ^ (E + 2))%Q ->
  IEEE.close (E - 20) (SFadd IEEE.prec32 IEEE.emax32 a b) (IEEE.value a + IEEE.value b).
Proof.
  apply (SFadd_close IEEE.prec32 IEEE.emax32 ltac:(reflexivity) (E + 2) (E - 20));
    unfold emin, IEEE.prec32, IEEE.emax32; lia.
Qed.

Lemma f2d_close (a : spec_float) :
  IEEE.is_finite a = true -> (Qabs (IEEE.value a) <= 2 ^ (E + 2))%Q ->
  IEEE.close (E - 49) (IEEE.round_to IEEE.prec64 IEEE.emax64 a) (IEEE.value a)
  /\ IEEE.exp_le (E - 49) (IEEE.round_to IEEE.prec64 IEEE.emax64 a).
Proof.
  apply (round_to_close IEEE.prec64 IEEE.emax64 ltac:(reflexivity) (E + 2) (E - 49));
    unfold emin, IEEE.prec64, IEEE.emax64; lia.
Qed.

Lemma d2f_close (a : spec_float) :
  IEEE.is_finite a = true -> (Qabs (IEEE.value a) <= 2 ^ (E + 2))%Q ->
  IEEE.close (E - 20) (IEEE.round_to IEEE.prec32 IEEE.emax32 a) (IEEE.value a).
Proof.
  intros Hf H.
  apply (round_to_close IEEE.prec32 IEEE.emax32 ltac:(reflexivity) (E + 2) (E - 20));
    unfold emin, IEEE.prec32, IEEE.emax32; (lia || assumption).
Qed.

Lemma d_mul_spread_close (a : spec_float) :
  IEEE.is_finite a = true -> IEEE.exp_le (E - 49) a -> (Qabs (IEEE.value a) <= 2 ^ (E + 2))%Q ->
  IEEE.close (E - 49) (SFmul IEEE.prec64 IEEE.emax64 (S754_finite false 4503599627370496 (-54)) a)
        ((1 # 4) * IEEE.value a).
Proof.
  intros Hf He H.
  destruct (SFmul_close IEEE.prec64 IEEE.emax64 ltac:(reflexivity) (E + 2) (E - 49)
              ltac:(unfold emin, IEEE.prec64, IEEE.emax64; lia)
              ltac:(unfold emin, IEEE.prec64, IEEE.emax64; lia)
              ltac:(unfold emin, IEEE.prec64, IEEE.emax64; lia)
              (S754_finite false 4503599627370496 (-54)) a (-54) (E - 49))
    as [Hfin Hc]; try assumption; try reflexivity.
  - simpl. lia.
  - lia.
  - rewrite value_water_spread. apply Qabs_Qle_condition in H. apply Qabs_Qle_condition.
    pose proof (pow2_pos (E + 2)). lra.
  - split; [assumption|]. rewrite value_water_spread in Hc. assumption.
Qed.

(** For finite heights of size at most [2^E] the delta
    [WATER_SPREAD * (a - b)], computed as the code does (a [float]
    difference, a [double] product, a conversion to [float]), is finite and
    of size at most [2^E]. *)
Lemma ieee_spread_delta_bound (a b : spec_float) :
  IEEE.is_finite a = true -> IEEE.is_finite b = true ->
  (Qabs (IEEE.value a) <= 2 ^ E)%Q -> (Qabs (IEEE.value b) <= 2 ^ E)%Q ->
  IEEE.is_finite (spread_delta (FM := IEEE.model) a b) = true
  /\ (Qabs (IEEE.value (spread_delta (FM := IEEE.model) a b)) <= 2 ^ E)%Q.
Proof.
  intros Ha Hb Va Vb. unfold spread_delta.
  change (@d2f IEEE.model) with (IEEE.round_to IEEE.prec32 IEEE.emax32).
  change (@f2d IEEE.model) with (IEEE.round_to IEEE.prec64 IEEE.emax64).
  change (@d_mul IEEE.model) with (SFmul IEEE.prec64 IEEE.emax64).
  change (@f_sub IEEE.model) with (SFsub IEEE.prec32 IEEE.emax32).
  rewrite ieee_water_spread.
  pose proof (pow2_pos E) as HB. pose proof pow2_E_plus2 as H4.
  pose proof pow2_E_m20 as H20. pose proof pow2_E_m49 as H49.
  apply Qabs_Qle_condition in Va. apply Qabs_Qle_condition in Vb.
  destruct (f_sub_close a b Ha Hb) as [F1 C1].
  { apply Qabs_Qle_condition. lra. }
  apply Qabs_Qle_condition in C1.
  set (s := SFsub IEEE.prec32 IEEE.emax32 a b) in *.
  destruct (f2d_close s F1) as [[F2 C2] X2].
  { apply Qabs_Qle_condition. lra. }
  apply Qabs_Qle_condition in C2.
  set (d1 := IEEE.round_to IEEE.prec64 IEEE.emax64 s) in *.
  destruct (d_mul_spread_close d1 F2 X2) as [F3 C3].
  { apply Qabs_Qle_condition. lra. }
  apply Qabs_Qle_condition in C3.
  set (d2 := SFmul IEEE.prec64 IEEE.emax64 _ d1) in *.
  destruct (d2f_close d2 F3) as [F4 C4].
  { apply Qabs_Qle_condition. lra. }
  apply Qabs_Qle_condition in C4.
  split; [assumption|]. apply Qabs_Qle_condition. lra.
Qed.
End IeeeDeltaBound.

(** *** The sum of the heights through the second inner loop *)

Section IeeeRealTotal.
Implicit Types (cs : list icol) (c : icol).

Lemma real_total_cons c cs :
  real_total_height (c :: cs)
  = (IEEE.value (@col_height IEEE.model c) + real_total_height cs)%Q.
Proof. reflexivity. Qed.

(** What a change of one cell does to the sum. *)
Lemma real_total_alter (f : icol -> icol) j cs :
  (j < length cs)%nat ->
  (real_total_height (alter f j cs)
   == real_total_height cs - IEEE.value (@col_height IEEE.model (cs !!! j))
      + IEEE.value (@col_height IEEE.model (f (cs !!! j))))%Q.
Proof.
  revert j. induction cs as [|c cs IH]; intros [|j] H; simpl in H; try lia.
  - change (alter f 0%nat (c :: cs)) with (f c :: cs).
    change ((c :: cs) !!! 0%nat) with c. rewrite !real_total_cons. ring.
  - change (alter f (Datatypes.S j) (c :: cs)) with (c :: alter f j cs).
    change ((c :: cs) !!! Datatypes.S j) with (cs !!! j).
    rewrite !real_total_cons, IH by lia. ring.
Qed.

(** What one iteration of the second inner loop adds to the real total. *)
Lemma ieee_apply_cells_total width i cs :
  (i < length cs)%nat ->
  (Z.of_nat i < SizeT.sub width 1 -> (i + 1 < length cs)%nat) ->
  (real_total_height (spread_apply_cells width i cs)
   == real_total_height cs
      + (if (0 <? i)%nat
         then IEEE.value (SFadd IEEE.prec32 IEEE.emax32
                       (@col_height IEEE.model (cs !!! (i - 1)%nat))
                       (@col_ldelta IEEE.model (cs !!! i)))
              - IEEE.value (@col_height IEEE.model (cs !!! (i - 1)%nat))
         else 0)
      + (if Z.of_nat i <? SizeT.sub width 1
         then IEEE.value (SFadd IEEE.prec32 IEEE.emax32
                       (@col_height IEEE.model (cs !!! (i + 1)%nat))
                       (@col_rdelta IEEE.model (cs !!! i)))
              - IEEE.value (@col_height IEEE.model (cs !!! (i + 1)%nat))
         else 0))%Q.
Proof.
  intros Hi Hb. unfold spread_apply_cells.
  destruct (0 <? i)%nat eqn:H0; destruct (Z.of_nat i <? SizeT.sub width 1) eqn:Hm;
    ltb_hyps.
  - rewrite real_total_alter by (rewrite length_alter; lia).
    rewrite real_total_alter by lia.
    rewrite !list_lookup_total_alter_ne by lia.
    unfold add_height. cbn [col_height set_height]. 
    change (@f_add IEEE.model) with (SFadd IEEE.prec32 IEEE.emax32). ring.
  - rewrite real_total_alter by lia.
    unfold add_height. cbn [col_height set_height].
    change (@f_add IEEE.model) with (SFadd IEEE.prec32 IEEE.emax32). ring.
  - rewrite real_total_alter by lia.
    unfold add_height. cbn [col_height set_height].
    change (@f_add IEEE.model) with (SFadd IEEE.prec32 IEEE.emax32). ring.
  - ring.
Qed.

Lemma real_total_heights cs ds :
  heights cs = heights ds -> real_total_height cs = real_total_height ds.
Proof. unfold real_total_height. intros ->. reflexivity. Qed.
End IeeeRealTotal.

Section IeeeApplyLoop.
Variable E : Z.
Hypothesis E_lo : -128 <= E.
Hypothesis E_hi : E <= 124.
Variable width : Z.
Hypothesis width_range : SizeT.in_range width.
Variable cs1 : list icol.
Hypothesis Hlen : length cs1 = Z.to_nat width.
Hypothesis Hh : forall j, (j < length cs1)%nat ->
  IEEE.is_finite (@col_height IEEE.model (cs1 !!! j)) = true
  /\ (Qabs (IEEE.value (@col_height IEEE.model (cs1 !!! j))) <= 2 ^ E)%Q.
Hypothesis HL : forall j, (0 < j < length cs1)%nat ->
  IEEE.is_finite (@col_ldelta IEEE.model (cs1 !!! j)) = true
  /\ (Qabs (IEEE.value (@col_ldelta IEEE.model (cs1 !!! j))) <= 2 ^ E)%Q.
Hypothesis HR : forall j, (j + 1 < length cs1)%nat ->
  IEEE.is_finite (@col_rdelta IEEE.model (cs1 !!! j)) = true
  /\ (Qabs (IEEE.value (@col_rdelta IEEE.model (cs1 !!! j))) <= 2 ^ E)%Q.
Hypothesis HM : forall j, (j + 1 < length cs1)%nat ->
  (IEEE.value (@col_ldelta IEEE.model (cs1 !!! (j + 1)%nat))
   == - IEEE.value (@col_rdelta IEEE.model (cs1 !!! j)))%Q.

Lemma pow2_E_m19 : (2 ^ (E - 19) == 2 * 2 ^ (E - 20))%Q.
Proof. replace (E - 19) with (E - 20 + 1) by lia. apply pow2_succ. Qed.

(** The second inner loop, from an array whose heights and stored deltas
    are finite and of size at most [2^E], and whose deltas are opposite in
    pairs.  After [k] iterations the cells from [k + 1] on are untouched,
    cells [k - 1] and [k] are of size at most [3 * 2^E], every height is
    finite, and the sum of the heights is the initial sum plus the one
    delta added whose opposite is still to come, up to [k] times
    [2^(E-19)]: each of the two additions of an iteration is within
    [2^(E-20)] of the exact sum. *)
Lemma ieee_spread_apply_loop :
  exists cs2, for_loop (Z.to_nat width) (spread_apply_body width) cs1 = Some cs2
    /\ length cs2 = length cs1
    /\ (forall j, (j < length cs1)%nat ->
          IEEE.is_finite (@col_height IEEE.model (cs2 !!! j)) = true)
    /\ (Qabs (real_total_height cs2 - real_total_height cs1)
        <= inject_Z width * 2 ^ (E - 19))%Q.
Proof.
  unfold for_loop. set (n := Z.to_nat width) in *.
  pose proof (pow2_pos E) as HB. pose proof (pow2_E_plus2 E) as H4.
  pose proof (pow2_E_m20 E) as H20. pose proof pow2_E_m19 as H19.
  destruct (for_range_invariant
    (fun k (t : list icol) => length t = n
       /\ (forall j : nat, @col_ldelta IEEE.model (t !!! j) = @col_ldelta IEEE.model (cs1 !!! j))
       /\ (forall j : nat, @col_rdelta IEEE.model (t !!! j) = @col_rdelta IEEE.model (cs1 !!! j))
       /\ (forall j, (j < n)%nat -> IEEE.is_finite (@col_height IEEE.model (t !!! j)) = true)
       /\ (forall j, (k < j < n)%nat ->
             (Qabs (IEEE.value (@col_height IEEE.model (t !!! j))) <= 2 ^ E)%Q)
       /\ (forall j, (j < n)%nat -> (k <= j + 1)%nat ->
             (Qabs (IEEE.value (@col_height IEEE.model (t !!! j))) <= 3 * 2 ^ E)%Q)
       /\ (Qabs (real_total_height t - real_total_height cs1 - pending_delta cs1 k)
           <= inject_Z (Z.of_nat k) * 2 ^ (E - 19))%Q)
    (spread_apply_body width) 0 n cs1) as (cs2 & Hrun & Hl2 & _ & _ & Hfin & _ & _ & Hsum).
  - split; [assumption|]. split; [reflexivity|]. split; [reflexivity|].
    split; [intros j Hj; apply Hh; lia|].
    split; [intros j Hj; apply Hh; lia|].
    split.
    { intros j Hj _. destruct (Hh j ltac:(lia)) as [_ Hv].
      apply Qabs_Qle_condition in Hv. apply Qabs_Qle_condition. lra. }
    unfold pending_delta. rewrite decide_False by lia.
    apply Qabs_Qle_condition. change (inject_Z (Z.of_nat 0)) with 0%Q.
    lra.
  - intros i t Hi (Hl & Hld & Hrd & Hfin & Hlo & Hmid & Hsum).
    assert (Hw : 1 <= width) by lia.
    assert (Hm : SizeT.sub width 1 = width - 1) by (apply sub1_exact; assumption).
    assert (Hcond : Z.of_nat i < SizeT.sub width 1 <-> (i + 1 < n)%nat) by (rewrite Hm; lia).
    assert (Hb : Z.of_nat i < SizeT.sub width 1 -> (i + 1 < length t)%nat) by (rewrite Hl; tauto).
    exists (spread_apply_cells width i t). split.
    { apply spread_apply_body_cells; [lia|assumption]. }
    (* the two additions of the iteration *)
    assert (A1 : (0 < i)%nat ->
      IEEE.close (E - 20) (SFadd IEEE.prec32 IEEE.emax32
                        (@col_height IEEE.model (t !!! (i - 1)%nat))
                        (@col_ldelta IEEE.model (t !!! i)))
            (IEEE.value (@col_height IEEE.model (t !!! (i - 1)%nat))
             + IEEE.value (@col_ldelta IEEE.model (cs1 !!! i)))).
    { intros H0. rewrite Hld. destruct (HL i ltac:(lia)) as [Lf Lv].
      apply (f_add_close E E_lo E_hi); [apply Hfin; lia | assumption |].
      pose proof (Hmid (i - 1)%nat ltac:(lia) ltac:(lia)) as Hv.
      apply Qabs_Qle_condition in Hv. apply Qabs_Qle_condition in Lv.
      apply Qabs_Qle_condition. lra. }
    assert (A2 : (i + 1 < n)%nat ->
      IEEE.close (E - 20) (SFadd IEEE.prec32 IEEE.emax32
                        (@col_height IEEE.model (t !!! (i + 1)%nat))
                        (@col_rdelta IEEE.model (t !!! i)))
            (IEEE.value (@col_height IEEE.model (t !!! (i + 1)%nat))
             + IEEE.value (@col_rdelta IEEE.model (cs1 !!! i)))
      /\ (Qabs (IEEE.value (SFadd IEEE.prec32 IEEE.emax32
                        (@col_height IEEE.model (t !!! (i + 1)%nat))
                        (@col_rdelta IEEE.model (t !!! i)))) <= 3 * 2 ^ E)%Q).
    { intros H1. rewrite Hrd. destruct (HR i ltac:(lia)) as [Rf Rv].
      pose proof (Hlo (i + 1)%nat ltac:(lia)) as Hv.
      apply Qabs_Qle_condition in Hv. apply Qabs_Qle_condition in Rv.
      assert (C : IEEE.close (E - 20) (SFadd IEEE.prec32 IEEE.emax32
                        (@col_height IEEE.model (t !!! (i + 1)%nat))
                        (@col_rdelta IEEE.model (cs1 !!! i)))
            (IEEE.value (@col_height IEEE.model (t !!! (i + 1)%nat))
             + IEEE.value (@col_rdelta IEEE.model (cs1 !!! i)))).
      { apply (f_add_close E E_lo E_hi); [apply Hfin; lia | assumption |].
        apply Qabs_Qle_condition. lra. }
      split; [exact C|]. destruct C as [_ C]. apply Qabs_Qle_condition in C.
      apply Qabs_Qle_condition. lra. }
    split; [rewrite spread_apply_cells_length; assumption|].
    split; [intros j; rewrite apply_cells_ldelta; apply Hld|].
    split; [intros j; rewrite apply_cells_rdelta; apply Hrd|].
    split; [|split; [|split]].
    + intros j Hj. rewrite apply_cells_height by (lia || assumption).
      change (@f_add IEEE.model) with (SFadd IEEE.prec32 IEEE.emax32).
      repeat case_decide.
      * subst i. replace (j + 1 - 1)%nat with j in A1 by lia. apply A1. lia.
      * destruct H0 as [-> H0]. apply A2. lia.
      * apply Hfin. assumption.
    + intros j Hj. rewrite apply_cells_height by (lia || assumption).
      repeat case_decide; try lia. apply Hlo. lia.
    + intros j Hj Hk. rewrite apply_cells_height by (lia || assumption).
      change (@f_add IEEE.model) with (SFadd IEEE.prec32 IEEE.emax32).
      repeat case_decide; try lia.
      * destruct H0 as [-> H0]. apply A2. lia.
      * apply Hmid; lia.
    + rewrite ieee_apply_cells_total by (lia || assumption).
      apply Qabs_Qle_condition in Hsum. apply Qabs_Qle_condition.
      rewrite Nat2Z.inj_succ. unfold Z.succ. rewrite inject_Z_plus.
      change (inject_Z 1) with 1%Q.
      pose proof (pow2_pos (E - 20)) as He.
      unfold pending_delta in *. rewrite Hlen in *. fold n in Hsum |- *.
      destruct (0 <? i)%nat eqn:H0; destruct (Z.of_nat i <? SizeT.sub width 1) eqn:H1;
        ltb_hyps.
      * destruct (A1 H0) as [_ C1]. destruct (A2 ltac:(lia)) as [[_ C2] _].
        apply Qabs_Qle_condition in C1. apply Qabs_Qle_condition in C2.
        pose proof (HM (i - 1)%nat ltac:(lia)) as Hmir.
        replace (i - 1 + 1)%nat with i in Hmir by lia.
        rewrite decide_True in Hsum by lia. rewrite decide_True by lia.
        replace (Datatypes.S i - 1)%nat with i by lia.
        lra.
      * destruct (A1 H0) as [_ C1].
        apply Qabs_Qle_condition in C1.
        pose proof (HM (i - 1)%nat ltac:(lia)) as Hmir.
        replace (i - 1 + 1)%nat with i in Hmir by lia.
        rewrite decide_True in Hsum by lia. rewrite decide_False by lia.
        lra.
      * destruct (A2 ltac:(lia)) as [[_ C2] _].
        apply Qabs_Qle_condition in C2.
        rewrite decide_False in Hsum by lia. rewrite decide_True by lia.
        replace (Datatypes.S i - 1)%nat with i by lia.
        lra.
      * rewrite decide_False in Hsum by lia. rewrite decide_False by lia.
        lra.
  - exists cs2. split; [assumption|]. split; [lia|].
    split; [intros j Hj; apply Hfin; lia|].
    unfold pending_delta in Hsum. rewrite decide_False in Hsum by lia.
    apply Qabs_Qle_condition in Hsum. apply Qabs_Qle_condition.
    simpl in Hsum. unfold n in Hsum. rewrite Z2Nat.id in Hsum by (destruct width_range; lia).
    lra.
Qed.
End IeeeApplyLoop.

(** Opposite floats have opposite values. *)
Lemma value_mirror (x y : spec_float) : IEEE.mirror x y -> (IEEE.value y == - IEEE.value x)%Q.
Proof.
  intros H. unfold IEEE.value. rewrite (to_Q_mirror x y H).
  destruct (IEEE.to_Q x); simpl; reflexivity.
Qed.

(** One spread pass in IEEE arithmetic, on finite heights of size at most
    [2^E]: the pass is defined, the heights stay finite, and the sum of
    the heights moves by at most [width * 2^(E-19)]. *)
Lemma ieee_spread_pass_total E width (cs : list icol) :
  -128 <= E <= 124 ->
  SizeT.in_range width -> length cs = Z.to_nat width ->
  Forall (fun c => IEEE.is_finite (@col_height IEEE.model c) = true
                   /\ (Qabs (IEEE.value (@col_height IEEE.model c)) <= 2 ^ E)%Q) cs ->
  exists cs', spread_pass width cs = Some cs'
    /\ length cs' = length cs
    /\ Forall (fun c => IEEE.is_finite (@col_height IEEE.model c) = true) cs'
    /\ (Qabs (real_total_height cs' - real_total_height cs)
        <= inject_Z width * 2 ^ (E - 19))%Q.
Proof.
  intros [Elo Ehi] Hr Hlen Hall. unfold spread_pass.
  destruct (spread_delta_loop_spec width cs Hlen) as (cs1 & -> & Hl1 & Hh & Hld & Hrd).
  simpl.
  assert (Hcell : forall j, (j < length cs)%nat ->
            IEEE.is_finite (@col_height IEEE.model (cs !!! j)) = true
            /\ (Qabs (IEEE.value (@col_height IEEE.model (cs !!! j))) <= 2 ^ E)%Q).
  { intros j Hj. rewrite Forall_lookup in Hall. apply (Hall j).
    apply list_lookup_lookup_total_lt. assumption. }
  assert (Hsub : forall j, (j + 1 < length cs)%nat -> Z.of_nat j < SizeT.sub width 1).
  { intros j Hj. rewrite sub1_exact by (lia || assumption). lia. }
  destruct (ieee_spread_apply_loop E Elo Ehi width Hr cs1) as (cs2 & -> & Hl2 & Hfin & Hsum).
  - congruence.
  - intros j Hj. rewrite Hh. apply Hcell. lia.
  - intros j Hj. rewrite Hld by lia.
    apply (ieee_spread_delta_bound E Elo Ehi); apply Hcell; lia.
  - intros j Hj. rewrite Hrd by (try apply Hsub; lia).
    apply (ieee_spread_delta_bound E Elo Ehi); apply Hcell; lia.
  - intros j Hj. rewrite Hld by lia. rewrite Hrd by (try apply Hsub; lia).
    replace (j + 1 - 1)%nat with j by lia.
    apply value_mirror, spread_delta_mirror.
  - exists cs2. split; [reflexivity|]. split; [lia|]. split.
    + rewrite Forall_lookup. intros j c Hc.
      pose proof (lookup_lt_Some _ _ _ Hc) as Hj.
      rewrite <- (list_lookup_total_correct _ _ _ Hc). apply Hfin. lia.
    + assert (Heq : heights cs1 = heights cs).
      { apply list_eq. intros j. unfold heights.
        change (map col_height ?l) with (col_height <$> l). rewrite !list_lookup_fmap.
        destruct (decide (j < length cs)%nat) as [Hj|Hj].
        - rewrite (list_lookup_lookup_total_lt cs j Hj).
          rewrite (list_lookup_lookup_total_lt cs1 j ltac:(lia)). simpl. rewrite Hh. reflexivity.
        - rewrite (lookup_ge_None_2 cs j) by lia. rewrite (lookup_ge_None_2 cs1 j) by lia.
          reflexivity. }
      rewrite <- (real_total_heights cs1 cs Heq). assumption.
Qed.

(** X29. In IEEE arithmetic the first inner loop of a spread pass is defined
    on an array of [width] columns, and the delta a column stores for its
    right neighbour and the delta that neighbour stores for it are opposite
    floats (up to the sign of a zero), of opposite rational values. *)
Lemma ieee_spread_deltas_mirror width (cs : list (water_column_t (FM := IEEE.model))) :
  SizeT.in_range width -> length cs = Z.to_nat width ->
  exists cs1, for_loop (Z.to_nat width) (spread_delta_body width) cs = Some cs1
    /\ forall i, (i + 1 < length cs)%nat ->
         IEEE.mirror (@col_rdelta IEEE.model (cs1 !!! i))
                     (@col_ldelta IEEE.model (cs1 !!! (i + 1)%nat))
         /\ IEEE.to_Q (@col_ldelta IEEE.model (cs1 !!! (i + 1)%nat))
            = Qopp <$> IEEE.to_Q (@col_rdelta IEEE.model (cs1 !!! i)).
Proof. apply ieee_delta_loop_mirror. Qed.

(** C2, as the code has it.  In exact arithmetic one spread pass is defined
    on an array of [width] columns and leaves the sum of the heights as it
    was.  In IEEE arithmetic, on heights that are finite floats of size at
    most [2^E] with [-128 <= E <= 124], the pass is defined, the heights
    stay finite, and the sum of the heights, each [float] counted for its
    rational value, moves by at most [width * 2^(E-19)]: the deltas added
    to the heights cancel in pairs, and each addition into a height
    rounds. *)
Theorem spread_pass_conserves_total_height :
  (forall width (cs : list qcol),
      SizeT.in_range width -> length cs = Z.to_nat width ->
      exists cs', spread_pass width cs = Some cs'
                  /\ (total_height cs' == total_height cs)%Q)
  /\ (forall E width (cs : list icol),
        -128 <= E <= 124 ->
        SizeT.in_range width -> length cs = Z.to_nat width ->
        Forall (fun c => IEEE.is_finite (@col_height IEEE.model c) = true
                         /\ (Qabs (IEEE.value (@col_height IEEE.model c)) <= 2 ^ E)%Q) cs ->
        exists cs', spread_pass width cs = Some cs'
          /\ length cs' = length cs
          /\ Forall (fun c => IEEE.is_finite (@col_height IEEE.model c) = true) cs'
          /\ (Qabs (real_total_height cs' - real_total_height cs)
              <= inject_Z width * 2 ^ (E - 19))%Q).
Proof.
  split; [exact exact_spread_pass_total_height | exact ieee_spread_pass_total].
Qed.

(** C2, as stated, fails.  In IEEE arithmetic one spread pass changes the
    sum of the heights, by an amount that grows with the heights, and on
    some states the heights do not stay finite.  Heights 8.1, 135.9 and
    83/7 (as floats): the sum moves by 3/2^20.  Heights 2^25+4 and 1: the
    sum moves from 33554437 to 33554438.  Heights (2^24-1)*2^104 and its
    opposite, of sum 0: their difference overflows and the pass leaves two
    infinite heights, which have no sum. *)
Lemma spread_pass_ieee_sum_drifts :
  let large : list icol := [column_at (z2f 33554436); column_at (z2f 1)] in
  let huge : list icol :=
    [column_at (FM := IEEE.model) (S754_finite false 16777215 104);
     column_at (FM := IEEE.model) (S754_finite true 16777215 104)] in
  let values := fun cs : list icol =>
    map (fun c => IEEE.to_Q (@col_height IEEE.model c)) cs in
  values uneven_3
  = [Some (8493466 # 1048576)%Q; Some (8906342 # 65536)%Q; Some (12433115 # 1048576)%Q]
  /\ values <$> spread_pass 3 uneven_3
     = Some [Some (10498867 # 262144)%Q; Some (9560298 # 131072)%Q;
             Some (11237551 # 262144)%Q]
  /\ (from_option real_total_height 0 (spread_pass 3 uneven_3) - real_total_height uneven_3
      == 3 # 1048576)%Q
  /\ values large = [Some 33554436%Q; Some (8388608 # 8388608)%Q]
  /\ values <$> spread_pass 2 large = Some [Some 25165828%Q; Some 8388610%Q]
  /\ (real_total_height large == 33554437)%Q
  /\ (from_option real_total_height 0 (spread_pass 2 large) == 33554438)%Q
  /\ values huge = [Some (16777215 * 2 ^ 104)%Q; Some (-16777215 * 2 ^ 104)%Q]
  /\ (real_total_height huge == 0)%Q
  /\ map (@col_height IEEE.model) <$> spread_pass 2 huge
     = Some [S754_infinity true; S754_infinity false]
  /\ values <$> spread_pass 2 huge = Some [None; None].
Proof.
  intros large huge values.
  split; [vm_compute; reflexivity|]. split; [vm_compute; reflexivity|].
  split; [vm_compute; reflexivity|].
  split; [vm_compute; reflexivity|]. split; [vm_compute; reflexivity|].
  split; [vm_compute; reflexivity|]. split; [vm_compute; reflexivity|].
  split; [vm_compute; reflexivity|]. split; [vm_compute; reflexivity|].
  split; vm_compute; reflexivity.
Qed.

(** ** The terminal size: how long the resize flag lasts *)

(** X1. A query that succeeds returns 0 and stores the size it reports; it
    sets the flag exactly when that size differs from the stored one.
    Right after it, the same answer from a query that succeeds finds the
    flag cleared, and a query that fails returns -2 and leaves the flag as
    it is. *)
Theorem termsize_update_flag_one_shot (c r : Z) (term : termsize_t) :
  fst (termsize_update (Some (c, r)) term) = 0
  /\ term_width (snd (termsize_update (Some (c, r)) term)) = c
  /\ term_height (snd (termsize_update (Some (c, r)) term)) = r
  /\ term_updated (snd (termsize_update (Some (c, r)) term))
     = negb ((c =? term_width term) && (r =? term_height term))
  /\ termsize_update (Some (c, r)) (snd (termsize_update (Some (c, r)) term))
     = (0, {| term_width := c; term_height := r; term_updated := false |})
  /\ termsize_update None (snd (termsize_update (Some (c, r)) term))
     = (-2, {| term_width := c; term_height := r;
               term_updated := negb ((c =? term_width term) && (r =? term_height term)) |}).
Proof.
  unfold termsize_update.
  destruct (c =? term_width term) eqn:Hc; destruct (r =? term_height term) eqn:Hr;
    simpl; rewrite ?Z.eqb_refl; simpl;
    try apply Z.eqb_eq in Hc; try apply Z.eqb_eq in Hr; subst;
    rewrite ?Z.eqb_refl; simpl; repeat split; reflexivity.
Qed.

(** X2. [termsize_init] returns 0 exactly when the query succeeds.  It then
    holds the reported size, with the flag set unless the terminal is 0 by
    0, whatever the flag held before; when the query fails it returns -2
    with both dimensions 0 and the flag as it was, never written. *)
Theorem termsize_init_result (ws : winsize) (updated0 : bool) :
  match ws with
  | None =>
      termsize_init ws updated0
      = (-2, {| term_width := 0; term_height := 0; term_updated := updated0 |})
  | Some (c, r) =>
      fst (termsize_init ws updated0) = 0
      /\ term_width (snd (termsize_init ws updated0)) = c
      /\ term_height (snd (termsize_init ws updated0)) = r
      /\ term_updated (snd (termsize_init ws updated0)) = negb ((c =? 0) && (r =? 0))
  end.
Proof.
  destruct ws as [[c r]|]; [|reflexivity].
  unfold termsize_init, termsize_update. simpl.
  destruct (c =? 0) eqn:Hc; destruct (r =? 0) eqn:Hr; simpl;
    try apply Z.eqb_eq in Hc; try apply Z.eqb_eq in Hr; subst;
    repeat split; reflexivity.
Qed.

(** ** The pool of drips *)

Section PoolFacts.
Context {FM : FloatModel}.
Implicit Types (ds : list drip_t) (d : drip_t).

Lemma first_inactive_le ds : (first_inactive ds <= length ds)%nat.
Proof. induction ds as [|d ds IH]; simpl; [lia|]. destruct (drip_active d); lia. Qed.

Lemma first_inactive_before ds j d :
  (j < first_inactive ds)%nat -> ds !! j = Some d -> drip_active d = true.
Proof.
  revert j. induction ds as [|e ds IH]; intros j Hj Hd; simpl in *; [lia|].
  destruct (drip_active e) eqn:He; [|lia].
  destruct j as [|j]; simpl in Hd.
  - inversion Hd; subst. assumption.
  - apply (IH j); [lia | assumption].
Qed.

Lemma first_inactive_slot ds :
  (first_inactive ds < length ds)%nat ->
  exists d, ds !! first_inactive ds = Some d /\ drip_active d = false.
Proof.
  induction ds as [|e ds IH]; simpl; [lia|]. intros H.
  destruct (drip_active e) eqn:He.
  - simpl. apply IH. lia.
  - exists e. split; [reflexivity | assumption].
Qed.

Lemma active_count_app ds ds' :
  active_count (ds ++ ds') = (active_count ds + active_count ds')%nat.
Proof. induction ds as [|d ds IH]; simpl; [reflexivity|]. rewrite IH. lia. Qed.

Lemma active_count_insert ds i d e :
  ds !! i = Some d ->
  (active_count (<[i := e]> ds) + (if drip_active d then 1 else 0)
   = active_count ds + (if drip_active e then 1 else 0))%nat.
Proof.
  revert i. induction ds as [|c ds IH]; intros [|i] H; simpl in *; try discriminate.
  - inversion H; subst. lia.
  - specialize (IH i H). lia.
Qed.

Lemma active_count_le ds : (active_count ds <= length ds)%nat.
Proof. induction ds as [|d ds IH]; simpl; [lia|]. destruct (drip_active d); lia. Qed.

(** X4. A call of [drips_generate] that returns 0 puts the new drip in the
    inactive slot of lowest index (every slot before it is active) or, when
    every slot is active, in a slot appended to the pool; every other slot
    is as it was. *)
Theorem drips_generate_lowest_free_slot alloc_ok term ds x ds' :
  drips_generate alloc_ok term ds x = (0, ds') ->
  (forall j d, (j < first_inactive ds)%nat -> ds !! j = Some d -> drip_active d = true)
  /\ ds' !! first_inactive ds = Some (spawned term x)
  /\ (forall j, j <> first_inactive ds -> ds' !! j = ds !! j)
  /\ ((exists d, ds !! first_inactive ds = Some d /\ drip_active d = false
                 /\ length ds' = length ds)
      \/ (first_inactive ds = length ds /\ alloc_ok = true
          /\ ds' = ds ++ [spawned term x])).
Proof.
  intros H. split; [apply first_inactive_before|].
  unfold drips_generate in H. pose proof (first_inactive_le ds) as Hle.
  destruct (first_inactive ds =? length ds)%nat eqn:E.
  - apply Nat.eqb_eq in E. destruct alloc_ok; inversion H; subst. rewrite E.
    split; [|split].
    + rewrite lookup_app_r by lia. rewrite Nat.sub_diag. reflexivity.
    + intros j Hj. destruct (decide (j < length ds)%nat).
      * apply lookup_app_l. assumption.
      * rewrite lookup_ge_None_2 by (rewrite length_app; simpl; lia).
        rewrite lookup_ge_None_2 by lia. reflexivity.
    + right. auto.
  - apply Nat.eqb_neq in E. inversion H; subst.
    split; [|split].
    + apply list_lookup_insert_eq. lia.
    + intros j Hj. apply list_lookup_insert_ne. congruence.
    + left. destruct (first_inactive_slot ds ltac:(lia)) as (d & Hd & Ha).
      exists d. rewrite length_insert. auto.
Qed.

(** X5. [drips_generate] returns 0 or -2.  It returns -2 exactly when every
    slot is active and [realloc] fails, and then leaves the pool as it was;
    when a slot is free [realloc] is not called. *)
Theorem drips_generate_failure alloc_ok term ds x :
  (fst (drips_generate alloc_ok term ds x) = 0
   \/ fst (drips_generate alloc_ok term ds x) = -2)
  /\ (fst (drips_generate alloc_ok term ds x) = -2
      <-> (alloc_ok = false /\ Forall (fun d => drip_active d = true) ds))
  /\ (fst (drips_generate alloc_ok term ds x) = -2 ->
      snd (drips_generate alloc_ok term ds x) = ds)
  /\ ((first_inactive ds < length ds)%nat ->
      drips_generate alloc_ok term ds x = drips_generate true term ds x).
Proof.
  unfold drips_generate. pose proof (first_inactive_le ds) as Hle.
  destruct (first_inactive ds =? length ds)%nat eqn:E.
  - apply Nat.eqb_eq in E.
    assert (Hall : Forall (fun d => drip_active d = true) ds).
    { apply Forall_lookup. intros j d Hd. apply (first_inactive_before ds j d); [|assumption].
      rewrite E. eapply lookup_lt_Some. eassumption. }
    destruct alloc_ok; simpl.
    + split; [left; reflexivity|]. split.
      { split; [discriminate | intros [? _]; discriminate]. }
      split; [discriminate | intros; lia].
    + split; [right; reflexivity|]. split.
      { split; auto. }
      split; [reflexivity | intros; lia].
  - apply Nat.eqb_neq in E. simpl.
    split; [left; reflexivity|]. split.
    { split; [discriminate|]. intros [_ Hall]. exfalso.
      destruct (first_inactive_slot ds ltac:(lia)) as (d & Hd & Ha).
      rewrite Forall_lookup in Hall. specialize (Hall _ _ Hd). simpl in Hall. congruence. }
    split; [discriminate | reflexivity].
Qed.

(** X6. A call of [drips_generate] that returns 0 raises the number of
    active drips by one; the pool never shrinks, and it grows (by one slot)
    exactly when every slot was active. *)
Theorem drips_generate_active_count alloc_ok term ds x ds' :
  drips_generate alloc_ok term ds x = (0, ds') ->
  active_count ds' = Datatypes.S (active_count ds)
  /\ (length ds <= length ds' <= Datatypes.S (length ds))%nat
  /\ (length ds' = Datatypes.S (length ds) <-> active_count ds = length ds).
Proof.
  intros H. unfold drips_generate in H. pose proof (first_inactive_le ds) as Hle.
  pose proof (active_count_le ds) as Hac.
  destruct (first_inactive ds =? length ds)%nat eqn:E.
  - apply Nat.eqb_eq in E. destruct alloc_ok; inversion H; subst.
    rewrite active_count_app, length_app. simpl.
    assert (Hfull : active_count ds = length ds).
    { clear -E. induction ds as [|d ds IH]; simpl in *; [reflexivity|].
      destruct (drip_active d); [|discriminate]. rewrite IH by lia. reflexivity. }
    split; [lia|]. split; [lia|]. split; intros; [assumption | lia].
  - apply Nat.eqb_neq in E. inversion H; subst.
    destruct (first_inactive_slot ds ltac:(lia)) as (d & Hd & Ha).
    pose proof (active_count_insert ds _ d (spawned term x) Hd) as Hins.
    rewrite Ha in Hins. simpl in Hins. rewrite length_insert.
    split; [lia|]. split; [lia|]. split; [lia|]. intros Hfull. exfalso.
    clear -Hd Ha Hfull.
    revert Hd Hfull. generalize (first_inactive ds) as i.
    induction ds as [|c ds IH]; intros [|i] Hd Hfull; simpl in *; try discriminate.
    + inversion Hd; subst. rewrite Ha in Hfull. pose proof (active_count_le ds). lia.
    + pose proof (active_count_le ds). destruct (drip_active c); [|lia].
      apply (IH i); [assumption | lia].
Qed.

End PoolFacts.

(** ** What a call of [drips_update] leaves alone *)

Section DripUpdateFacts.
Context {FM : FloatModel}.
Implicit Types (ds : list drip_t) (d : drip_t) (water : water_t).

Lemma drip_fall_active d d1 : drip_fall d = Some d1 -> drip_active d1 = drip_active d.
Proof.
  unfold drip_fall. intros H.
  destruct (if f_lt _ _ then _ else _) as [y'|]; simpl in H; [|discriminate].
  inversion H. reflexivity.
Qed.

(** One iteration: an inactive slot is skipped; for an active one, the
    pool changes in that slot only and the slot keeps its [x]. *)
Lemma drips_update_body_slot term i ds water ds' water' :
  drips_update_body term i (ds, water) = Some (ds', water') ->
  exists d, ds !! i = Some d
    /\ (drip_active d = false -> ds' = ds /\ water' = water)
    /\ (drip_active d = true -> exists e, ds' = <[i := e]> ds /\ drip_x e = drip_x d).
Proof.
  unfold drips_update_body. intros H.
  destruct (ds !! i) as [d|] eqn:Hd; simpl in H; [|discriminate].
  exists d. split; [reflexivity|].
  destruct (drip_active d) eqn:Ha.
  - split; [discriminate|]. intros _.
    destruct (drip_fall d) as [d1|] eqn:Hf; simpl in H; [|discriminate].
    pose proof (drip_fall_x d d1 Hf) as Hx.
    destruct (<[i:=d1]> ds !! 0%nat) as [d0|]; simpl in H; [|discriminate].
    destruct (cols water !! Z.to_nat (drip_x d0)) as [c|]; simpl in H; [|discriminate].
    destruct (f_le _ _).
    + destruct (upd _ _ (cols water)) as [cs|]; simpl in H; [|discriminate].
      inversion H; subst. exists (set_drip_active false d1).
      rewrite list_insert_insert_eq. split; [reflexivity | exact Hx].
    + inversion H; subst. exists d1. split; [reflexivity | exact Hx].
  - split; [|discriminate]. intros _. inversion H. auto.
Qed.

(** One iteration changes no field of the water but the speed of a column
    and the target height. *)
Lemma drips_update_body_water term i ds water ds' water' :
  drips_update_body term i (ds, water) = Some (ds', water') ->
  heights (cols water') = heights (cols water)
  /\ map col_ldelta (cols water') = map col_ldelta (cols water)
  /\ map col_rdelta (cols water') = map col_rdelta (cols water)
  /\ island_y water' = island_y water.
Proof.
  unfold drips_update_body. intros H.
  destruct (ds !! i) as [d|] eqn:Hd; simpl in H; [|discriminate].
  destruct (drip_active d); [|inversion H; subst; auto].
  destruct (drip_fall d) as [d1|]; simpl in H; [|discriminate].
  destruct (<[i:=d1]> ds !! 0%nat) as [d0|]; simpl in H; [|discriminate].
  destruct (cols water !! Z.to_nat (drip_x d0)) as [c|] eqn:Hc; simpl in H; [|discriminate].
  destruct (f_le _ _); [|inversion H; subst; auto].
  rewrite (upd_Some _ _ _ c Hc) in H. simpl in H. inversion H; subst. clear H.
  assert (Hi : island_y (raise_target term
                 (set_cols (<[Z.to_nat (drip_x d0) :=
                              set_speed (f_add (col_speed c) (drip_speed d1)) c]> (cols water))
                    water)) = island_y water).
  { unfold raise_target. destruct (f_lt _ _); reflexivity. }
  rewrite Hi, raise_target_cols. simpl. unfold heights.
  repeat split; rewrite list_fmap_insert; simpl; apply list_insert_id;
    rewrite list_lookup_fmap, Hc; reflexivity.
Qed.

(** X7. [drips_update] keeps the size of the pool and the [x] of every
    slot, leaves every inactive slot as it was, and activates none. *)
Theorem drips_update_pool_shape term ds water ds' water' :
  drips_update term ds water = Some (ds', water') ->
  length ds' = length ds
  /\ forall i d, ds !! i = Some d ->
       exists d', ds' !! i = Some d'
         /\ drip_x d' = drip_x d
         /\ (drip_active d = false -> d' = d)
         /\ (drip_active d' = true -> drip_active d = true).
Proof.
  intros Hrun. unfold drips_update, for_loop in Hrun.
  pose proof (for_range_preserves
    (fun k (st : list drip_t * water_t) =>
       length (fst st) = length ds
       /\ (forall j, (k <= j)%nat -> fst st !! j = ds !! j)
       /\ forall j d, ds !! j = Some d ->
            exists d', fst st !! j = Some d'
              /\ drip_x d' = drip_x d
              /\ (drip_active d = false -> d' = d)
              /\ (drip_active d' = true -> drip_active d = true))
    (drips_update_body term) 0 (length ds) (ds, water) (ds', water')) as Hinv.
  simpl in Hinv. destruct Hinv as (Hl & _ & Hall); [| |assumption|auto].
  - split; [reflexivity|]. split; [reflexivity|]. intros j d Hd. exists d. auto.
  - intros i [dsi wi] [dsi' wi'] Hi (Hl & Hrest & Hall) Hbody. simpl in *.
    destruct (drips_update_body_slot term i dsi wi dsi' wi' Hbody) as (d & Hd & Hoff & Hon).
    rewrite Hrest in Hd by lia.
    destruct (drip_active d) eqn:Ha.
    + destruct (Hon eq_refl) as (e & -> & Hx).
      split; [rewrite length_insert; assumption|]. split.
      * intros j Hj. rewrite list_lookup_insert_ne by lia. apply Hrest. lia.
      * intros j dj Hdj. destruct (decide (j = i)) as [->|Hne].
        -- rewrite list_lookup_insert_eq by (rewrite Hl; eapply lookup_lt_Some; eassumption).
           assert (dj = d) by congruence. subst dj.
           exists e. split; [reflexivity|]. split; [assumption|].
           split; [congruence | auto].
        -- rewrite list_lookup_insert_ne by congruence. apply Hall. assumption.
    + destruct (Hoff eq_refl) as [-> ->].
      split; [assumption|]. split; [|assumption].
      intros j Hj. apply Hrest. lia.
Qed.

(** X8. In the water, [drips_update] changes speeds of columns and the
    target height only: the number of columns, every height, every stored
    delta and the island row are as they were. *)
Theorem drips_update_changes_speeds_only term ds water ds' water' :
  drips_update term ds water = Some (ds', water') ->
  length (cols water') = length (cols water)
  /\ heights (cols water') = heights (cols water)
  /\ map col_ldelta (cols water') = map col_ldelta (cols water)
  /\ map col_rdelta (cols water') = map col_rdelta (cols water)
  /\ island_y water' = island_y water.
Proof.
  intros Hrun. unfold drips_update, for_loop in Hrun.
  pose proof (for_range_preserves
    (fun _ (st : list drip_t * water_t) =>
       heights (cols (snd st)) = heights (cols water)
       /\ map col_ldelta (cols (snd st)) = map col_ldelta (cols water)
       /\ map col_rdelta (cols (snd st)) = map col_rdelta (cols water)
       /\ island_y (snd st) = island_y water)
    (drips_update_body term) 0 (length ds) (ds, water) (ds', water')) as Hinv.
  simpl in Hinv. destruct Hinv as (Hh & Hl & Hr & Hi); [auto| |assumption|].
  - intros i [dsi wi] [dsi' wi'] _ (Hh & Hl & Hr & Hi) Hbody. simpl in *.
    destruct (drips_update_body_water term i dsi wi dsi' wi' Hbody) as (Hh' & Hl' & Hr' & Hi').
    repeat split; congruence.
  - split; [|auto]. unfold heights in Hh.
    rewrite <- (length_map col_height (cols water')), Hh. apply length_map.
Qed.

(** X9. With no active drip (an empty pool included) [drips_update] is
    defined and changes neither the pool nor the water. *)
Theorem drips_update_idle term ds water :
  Forall (fun d => drip_active d = false) ds ->
  drips_update term ds water = Some (ds, water).
Proof.
  intros Hall. unfold drips_update, for_loop.
  destruct (for_range_invariant (fun _ st => st = (ds, water))
              (drips_update_body term) 0 (length ds) (ds, water) eq_refl)
    as (st & Hrun & ->); [|assumption].
  intros i t Hi ->. exists (ds, water). split; [|reflexivity].
  destruct (lookup_lt_is_Some_2 ds i ltac:(lia)) as [d Hd].
  unfold drips_update_body. rewrite Hd. simpl.
  rewrite Forall_lookup in Hall. rewrite (Hall i d Hd). reflexivity.
Qed.

(** X10. [drips_update] does not compare [drips[0].x] with the number of
    columns: when that [x] is not the index of a column and some drip is
    active, the call reads outside the column array (it is undefined). *)
Theorem drips_update_column_out_of_range term ds water d0 :
  ds !! 0%nat = Some d0 ->
  (length (cols water) <= Z.to_nat (drip_x d0))%nat ->
  Exists (fun d => drip_active d = true) ds ->
  drips_update term ds water = None.
Proof.
  intros H0 Hx Hex.
  apply Exists_exists in Hex as (d' & Hin & Ha').
  destruct (list_find_elem_of (fun d => drip_active d = true) ds d' Hin Ha')
    as [[k d] Hfind].
  apply list_find_Some in Hfind as (Hk & Ha & Hbefore).
  unfold drips_update, for_loop.
  apply (for_range_undefined (fun _ st => st = (ds, water)) (drips_update_body term) k).
  - pose proof (lookup_lt_Some _ _ _ Hk). lia.
  - reflexivity.
  - intros i t Hi ->. exists (ds, water). split; [|reflexivity].
    destruct (lookup_lt_is_Some_2 ds i) as [e He].
    { pose proof (lookup_lt_Some _ _ _ Hk). lia. }
    unfold drips_update_body. rewrite He. simpl.
    destruct (drip_active e) eqn:Hae; [|reflexivity].
    exfalso. apply (Hbefore i e He); [lia | assumption].
  - intros t ->. unfold drips_update_body. rewrite Hk. simpl. rewrite Ha.
    destruct (drip_fall d) as [d1|] eqn:Hf; simpl; [|reflexivity].
    assert (Hs0 : exists d0', <[k := d1]> ds !! 0%nat = Some d0' /\ drip_x d0' = drip_x d0).
    { destruct k as [|k].
      - rewrite list_lookup_insert_eq by (eapply lookup_lt_Some; eassumption).
        exists d1. split; [reflexivity|]. rewrite (drip_fall_x d d1 Hf). congruence.
      - rewrite list_lookup_insert_ne by lia. eauto. }
    destruct Hs0 as (d0' & -> & Hx0). simpl. rewrite Hx0.
    rewrite (lookup_ge_None_2 (cols water)) by assumption. reflexivity.
Qed.

End DripUpdateFacts.

(** ** The cloud in exact arithmetic *)

Section ExactCloud.
Implicit Types (cloud : qcloud) (ds : list qdrip).

Lemma exact_trunc_range (q : Q) (n : Z) :
  (0 <= q)%Q -> (q <= inject_Z n)%Q ->
  exists z, Exact.trunc q = Some z /\ 0 <= z <= n
            /\ (inject_Z z <= q)%Q /\ (q < inject_Z z + 1)%Q.
Proof.
  destruct q as [a b]. unfold Qle, Qlt, Exact.trunc. simpl. intros H0 Hn.
  assert (Ha : 0 <= a) by lia.
  exists (Z.quot a (Zpos b)). split; [reflexivity|].
  rewrite Z.quot_div_nonneg by lia.
  pose proof (Z.mul_div_le a (Zpos b) ltac:(lia)).
  pose proof (Z.mul_succ_div_gt a (Zpos b) ltac:(lia)).
  pose proof (Z.div_pos a (Zpos b) Ha ltac:(lia)).
  assert (a / Zpos b <= n).
  { apply Z.div_le_upper_bound; lia. }
  repeat split; lia.
Qed.

Lemma track_sizes (w : Z) :
  5 <= w <= 65535 ->
  SizeT.mul w 8 = 8 * w /\ SizeT.mul (SizeT.sub w 5) 8 = 8 * (w - 5).
Proof.
  intros H. unfold SizeT.mul, SizeT.sub, SizeT.wrap, SizeT.modulus.
  rewrite (Z.mod_small (w - 5)) by lia.
  rewrite !Z.mod_small by lia. lia.
Qed.

Lemma exact_cloud_speed : (@CLOUD_SPEED Exact.model == 1)%Q.
Proof. reflexivity. Qed.

(** The column under which a drip is let go, for a cloud on its track. *)
Lemma exact_drop_column (p : Q) (w : Z) :
  5 <= w <= 65535 -> (0 <= p)%Q -> (p <= inject_Z (8 * (w - 5)))%Q ->
  exists col, d2int (H := Exact.model) (p / 8)%Q = Some col
    /\ 0 <= col <= w - 5
    /\ (inject_Z (8 * col) <= p)%Q /\ (p < inject_Z (8 * col) + 8)%Q
    /\ SizeT.wrap (col + 2) = col + 2.
Proof.
  intros Hw H0 HL.
  destruct (exact_trunc_range (p / 8)%Q (w - 5)) as (z & Hz & Hr & Hlo & Hhi).
  - apply Qle_shift_div_l; [reflexivity|]. lra.
  - apply Qle_shift_div_r; [reflexivity|].
    rewrite inject_Z_mult in HL. change (inject_Z 8) with 8%Q in HL. lra.
  - exists z. unfold d2int. change (@d2z Exact.model) with Exact.trunc. rewrite Hz. simpl.
    replace (- 2 ^ 31 <=? z) with true by (symmetry; apply Z.leb_le; lia).
    replace (z <? 2 ^ 31) with true by (symmetry; apply Z.ltb_lt; lia).
    split; [reflexivity|]. split; [assumption|].
    rewrite inject_Z_mult. change (inject_Z 8) with 8%Q.
    assert (Hp : (p == 8 * (p / 8))%Q) by (field).
    split; [lra | split; [lra|]].
    unfold SizeT.wrap, SizeT.modulus. apply Z.mod_small. lia.
Qed.



(** Everything a call of [cloud_update] does, for a terminal at least as
    wide as the cloud, in exact arithmetic. *)
Lemma exact_cloud_update rnd alloc_ok term cloud ds :
  5 <= term_width term <= 65535 ->
  exists cloud' ds',
    cloud_update rnd alloc_ok term cloud ds = Some (cloud', ds')
    /\ (0 <= cloud_pos cloud')%Q
    /\ (cloud_pos cloud' <= inject_Z (track_end term))%Q
    /\ drop_delay cloud' = drop_delay cloud
    /\ (if drop_delay cloud <=? SizeT.add (drop_count cloud) 1
        then drop_count cloud' = 0
             /\ exists col, 0 <= col <= term_width term - 5
                  /\ (inject_Z (8 * col) <= cloud_pos cloud')%Q
                  /\ (cloud_pos cloud' < inject_Z (8 * col) + 8)%Q
                  /\ ds' = snd (drips_generate alloc_ok term ds (col + 2))
        else drop_count cloud' = SizeT.add (drop_count cloud) 1 /\ ds' = ds)
    /\ ((cloud_speed cloud == 1 \/ cloud_speed cloud == -1)%Q ->
        (cloud_speed cloud' == 1 \/ cloud_speed cloud' == -1)%Q)
    /\ ((cloud_pos cloud' == 0)%Q -> (cloud_speed cloud' == 1)%Q)
    /\ (5 < term_width term -> (cloud_pos cloud' == inject_Z (track_end term))%Q ->
        (cloud_speed cloud' == -1)%Q)
    /\ (term_updated term = false ->
        forall v : Q,
        v = (if SizeT.wrap rnd mod SizeT.mul (term_width term) 8 =? 0
             then inject_Z (-1) * cloud_speed cloud else cloud_speed cloud)%Q ->
        ((cloud_pos cloud + v <= 0)%Q ->
           (cloud_pos cloud' == 0)%Q /\ (cloud_speed cloud' == 1)%Q)
        /\ (5 < term_width term -> (inject_Z (track_end term) <= cloud_pos cloud + v)%Q ->
            (cloud_pos cloud' == inject_Z (track_end term))%Q
            /\ (cloud_speed cloud' == -1)%Q)
        /\ ((0 < cloud_pos cloud + v)%Q ->
            (cloud_pos cloud + v < inject_Z (track_end term))%Q ->
            (cloud_pos cloud' == cloud_pos cloud + v)%Q
            /\ (cloud_speed cloud' == v)%Q)).
Proof.
  intros Hw. destruct (track_sizes _ Hw) as [Hm HL].
  unfold cloud_update, cloud_limit, track_end. rewrite Hm, HL.
  replace (8 * term_width term =? 0) with false by (symmetry; apply Z.eqb_neq; lia).
  replace (term_width term <? 5) with false by (symmetry; apply Z.ltb_ge; lia).
  assert (HL0 : (0 <= inject_Z (8 * (term_width term - 5)))%Q)
    by (unfold Qle; simpl; lia).
  assert (HL1 : 5 < term_width term -> (0 < inject_Z (8 * (term_width term - 5)))%Q)
    by (intros; unfold Qlt; simpl; lia).
  pose proof exact_cloud_speed as Hcs.
  destruct cloud as [p s dl dc].
  cbn [f_le f_add z2f d2f f2d d_div dlit d_neg f_mul Exact.model].
  change (inject_Z 0) with 0%Q. change (inject_Z (-1)) with (-1 # 1)%Q.
  cloud_cases.
  all: qle_hyps.
  all: lazymatch goal with
       | |- context [d2int (?q / 8)%Q] =>
           let col := fresh "col" in
           destruct (exact_drop_column q (term_width term) Hw ltac:(lra) ltac:(lra))
             as (col & Hcol & ? & ? & ? & Hwrap);
           rewrite Hcol; cbn [mbind option_bind]; rewrite Hwrap
       | |- _ => idtac
       end.
  all: do 2 eexists; split; [reflexivity|].
  all: cbn [cloud_pos cloud_speed drop_delay drop_count
            set_cloud_pos set_cloud_speed set_drop_count fst snd].
  all: split; [lra|]; split; [lra|]; split; [reflexivity|].
  all: split; [first [ split; [reflexivity|]; eexists; split; [eassumption|];
                       split; [assumption|]; split; [assumption|]; reflexivity
                     | split; reflexivity ]|].
  all: set (L := inject_Z (8 * (term_width term - 5))) in *; clearbody L.
  all: revert Hcs; generalize (@CLOUD_SPEED Exact.model); intros cs Hcs.
  all: change (@float Exact.model) with Q in *; change (@double Exact.model) with Q in *.
  all: repeat split; intros; subst; try discriminate;
       try (specialize (HL1 ltac:(assumption)));
       repeat match goal with H : _ \/ _ |- _ => destruct H end;
       first [lra | left; lra | right; lra].
Qed.

(** X12. On a terminal at least 5 columns wide, in exact arithmetic,
    [cloud_update] is defined for every state of the cloud and every value
    of [random()]; it leaves the cloud between 0 and [(width-5)*8], and the
    drip it lets go, if any, is over a column between 2 and [width-3], the
    one two to the right of the cloud's. *)
Theorem cloud_update_stays_on_track rnd alloc_ok term cloud ds :
  5 <= term_width term <= 65535 ->
  exists cloud' ds',
    cloud_update rnd alloc_ok term cloud ds = Some (cloud', ds')
    /\ (0 <= cloud_pos cloud')%Q
    /\ (cloud_pos cloud' <= inject_Z (track_end term))%Q
    /\ (ds' = ds
        \/ exists x, 2 <= x <= term_width term - 3
             /\ (inject_Z (8 * (x - 2)) <= cloud_pos cloud')%Q
             /\ (cloud_pos cloud' < inject_Z (8 * (x - 2)) + 8)%Q
             /\ ds' = snd (drips_generate alloc_ok term ds x)).
Proof.
  intros Hw.
  destruct (exact_cloud_update rnd alloc_ok term cloud ds Hw)
    as (cloud' & ds' & Hrun & H0 & HL & _ & Hdrop & _).
  exists cloud', ds'. repeat (split; [assumption|]).
  destruct (drop_delay cloud <=? SizeT.add (drop_count cloud) 1).
  - destruct Hdrop as (_ & col & Hc & Hlo & Hhi & ->). right.
    exists (col + 2). replace (col + 2 - 2) with col by lia.
    repeat split; try assumption; lia.
  - left. apply Hdrop.
Qed.

(** X13. Without a resize, in exact arithmetic, on a terminal more than 5
    columns wide: the cloud moves by its speed, turned round first when
    [random()] is a multiple of [width*8]; at or beyond an end of the track
    it is put on that end and sent inward with speed 1. *)
Theorem cloud_update_motion rnd alloc_ok term cloud ds (v : Q) :
  5 < term_width term <= 65535 -> term_updated term = false ->
  v = (if SizeT.wrap rnd mod SizeT.mul (term_width term) 8 =? 0
       then inject_Z (-1) * cloud_speed cloud else cloud_speed cloud)%Q ->
  exists cloud' ds',
    cloud_update rnd alloc_ok term cloud ds = Some (cloud', ds')
    /\ ((cloud_pos cloud + v <= 0)%Q ->
          (cloud_pos cloud' == 0)%Q /\ (cloud_speed cloud' == 1)%Q)
    /\ ((inject_Z (track_end term) <= cloud_pos cloud + v)%Q ->
          (cloud_pos cloud' == inject_Z (track_end term))%Q
          /\ (cloud_speed cloud' == -1)%Q)
    /\ ((0 < cloud_pos cloud + v)%Q ->
        (cloud_pos cloud + v < inject_Z (track_end term))%Q ->
          (cloud_pos cloud' == cloud_pos cloud + v)%Q /\ (cloud_speed cloud' == v)%Q).
Proof.
  intros Hw Hu Hv.
  destruct (exact_cloud_update rnd alloc_ok term cloud ds ltac:(lia))
    as (cloud' & ds' & Hrun & _ & _ & _ & _ & _ & _ & _ & Hmove).
  exists cloud', ds'. split; [assumption|].
  destruct (Hmove Hu v Hv) as (Hlo & Hhi & Hmid).
  split; [assumption|]. split; [|assumption].
  apply Hhi. lia.
Qed.

(** X14. In exact arithmetic, on a terminal more than 5 columns wide, a
    speed that is 1 or -1 before a call of [cloud_update] is 1 or -1 after
    it, and the call leaves a cloud at the left end of its track with speed
    1 and a cloud at the right end with speed -1. *)
Theorem cloud_update_turns_at_ends rnd alloc_ok term cloud ds :
  5 < term_width term <= 65535 ->
  exists cloud' ds',
    cloud_update rnd alloc_ok term cloud ds = Some (cloud', ds')
    /\ ((cloud_speed cloud == 1 \/ cloud_speed cloud == -1)%Q ->
        (cloud_speed cloud' == 1 \/ cloud_speed cloud' == -1)%Q)
    /\ ((cloud_pos cloud' == 0)%Q -> (cloud_speed cloud' == 1)%Q)
    /\ ((cloud_pos cloud' == inject_Z (track_end term))%Q ->
        (cloud_speed cloud' == -1)%Q).
Proof.
  intros Hw.
  destruct (exact_cloud_update rnd alloc_ok term cloud ds ltac:(lia))
    as (cloud' & ds' & Hrun & _ & _ & _ & _ & Hunit & Hleft & Hright & _).
  exists cloud', ds'. repeat (split; [assumption|]). apply Hright. lia.
Qed.

Lemma first_inactive_full ds :
  Forall (fun d => drip_active d = true) ds -> first_inactive ds = length ds.
Proof.
  induction 1 as [|d ds Hd _ IH]; simpl; [reflexivity|]. rewrite Hd, IH. reflexivity.
Qed.

(** X15. Successive calls of [cloud_update] on a pool in which no drip
    turns inactive, in exact arithmetic, with [realloc] succeeding: the
    counter counts modulo 30 and one drip is appended each time it wraps.
    After [n] calls from a counter [k] the pool has [(k+n)/30] more drips,
    each as [drips_generate] makes it, over a column between 2 and
    [width-3]. *)
Theorem cloud_steps_drop_schedule rnds term : forall cloud ds,
  5 <= term_width term <= 65535 ->
  drop_delay cloud = 30 -> 0 <= drop_count cloud < 30 ->
  Forall (fun d => drip_active d = true) ds ->
  exists cloud' new,
    cloud_steps rnds true term cloud ds = Some (cloud', ds ++ new)
    /\ drop_delay cloud' = 30
    /\ drop_count cloud' = (drop_count cloud + Z.of_nat (length rnds)) mod 30
    /\ Z.of_nat (length new) = (drop_count cloud + Z.of_nat (length rnds)) / 30
    /\ Forall (fun d => exists x, 2 <= x <= term_width term - 3 /\ d = spawned term x) new.
Proof.
  induction rnds as [|rnd rnds IH]; intros cloud ds Hw Hd Hc Hall.
  - exists cloud, []. rewrite app_nil_r. cbn [cloud_steps length Z.of_nat].
    rewrite Z.add_0_r. rewrite (Z.mod_small (drop_count cloud) 30) by exact Hc.
    rewrite (Z.div_small (drop_count cloud) 30) by exact Hc. repeat split; auto.
  - cbn [cloud_steps length].
    destruct (exact_cloud_update rnd true term cloud ds Hw)
      as (cloud1 & ds1 & -> & _ & _ & Hd1 & Hdrop & _).
    cbn [mbind option_bind fst snd].
    assert (Hadd : SizeT.add (drop_count cloud) 1 = drop_count cloud + 1).
    { unfold SizeT.add, SizeT.wrap, SizeT.modulus. apply Z.mod_small. lia. }
    rewrite Hd, Hadd in Hdrop.
    destruct (30 <=? drop_count cloud + 1) eqn:Hfull.
    + apply Z.leb_le in Hfull.
      destruct Hdrop as (Hc1 & col & Hcol & _ & _ & ->).
      unfold drips_generate. rewrite (first_inactive_full ds Hall), Nat.eqb_refl.
      cbn [snd].
      destruct (IH cloud1 (ds ++ [spawned term (col + 2)]) Hw ltac:(congruence) ltac:(lia))
        as (cloud' & new & Hrun & Hd' & Hc' & Hlen & Hnew).
      { apply Forall_app. split; [assumption|]. repeat constructor. }
      exists cloud', (spawned term (col + 2) :: new).
      rewrite <- app_assoc in Hrun. split; [exact Hrun|]. split; [assumption|].
      rewrite Hc1 in Hc', Hlen. cbn [length]. rewrite !Nat2Z.inj_succ.
      assert (Hc29 : drop_count cloud = 29) by lia. rewrite Hc29.
      replace (29 + Z.succ (Z.of_nat (length rnds)))
        with (Z.of_nat (length rnds) + 1 * 30) by lia.
      rewrite Z.mod_add, Z.div_add by lia. rewrite Z.add_0_l in Hc', Hlen.
      split; [assumption|]. split; [lia|].
      constructor; [|assumption]. exists (col + 2). split; [lia | reflexivity].
    + apply Z.leb_gt in Hfull. destruct Hdrop as (Hc1 & ->).
      destruct (IH cloud1 ds Hw ltac:(congruence) ltac:(lia) Hall)
        as (cloud' & new & Hrun & Hd' & Hc' & Hlen & Hnew).
      exists cloud', new. split; [exact Hrun|]. split; [assumption|].
      rewrite Hc1 in Hc', Hlen. rewrite Nat2Z.inj_succ.
      replace (drop_count cloud + Z.succ (Z.of_nat (length rnds)))
        with (drop_count cloud + 1 + Z.of_nat (length rnds)) by lia.
      auto.
Qed.
End ExactCloud.

(** ** What the renderer prints *)

Section RenderOutput.
Context {FM : FloatModel}.
Implicit Types (ds : list drip_t) (water : water_t) (cloud : cloud_t) (st : rstate).

Lemma cell_op_move (b : bool) y x :
  Forall (cell_op y x) (if b then [MoveCursor (SizeT.add y 1) (SizeT.add x 1)] else []).
Proof. destruct b; repeat constructor. Qed.

Lemma island_stage_ops term water y x st :
  Forall (cell_op y x) (fst (island_stage term water y x st))
  /\ move (snd (island_stage term water y x st)) = move st.
Proof.
  unfold island_stage. destruct (island_colors term water y x); simpl.
  - split; [repeat constructor | reflexivity].
  - destruct (cmode_eqb _ _); simpl; split; try reflexivity; repeat constructor.
Qed.

Lemma drip_stage_ops term ds y x : forall acc,
  Forall (cell_op y x) (fst acc) ->
  Forall (cell_op y x) (fst (fold_left (drip_stage_body term y x) ds acc))
  /\ move (snd (fold_left (drip_stage_body term y x) ds acc)) = move (snd acc).
Proof.
  induction ds as [|d ds IH]; intros [out st] Hacc; cbn [fold_left]; [auto|].
  destruct (IH (drip_stage_body term y x (out, st) d)) as [Hops Hmv].
  - unfold drip_stage_body. destruct (drip_at term y x d); [|assumption]. simpl.
    repeat (apply Forall_app; split); try assumption.
    + destruct (cmode_eqb _ _); repeat constructor.
    + apply cell_op_move.
    + repeat constructor.
  - split; [assumption|]. rewrite Hmv.
    unfold drip_stage_body. destruct (drip_at term y x d); reflexivity.
Qed.

Lemma water_stage_ops term y x c st out st' :
  water_stage term y x c st = Some (out, st') -> Forall (cell_op y x) out.
Proof.
  unfold water_stage. intros H.
  destruct (f_lt _ _).
  - destruct (cmode_eqb _ _); inversion H; subst; [|constructor].
    apply Forall_app. split; [apply cell_op_move | repeat constructor].
  - destruct (f_le _ _).
    + inversion H; subst. apply Forall_app. split; [apply cell_op_move|].
      destruct (cmode_eqb _ _); repeat constructor.
    + destruct (f2int (col_height c)) as [h|]; simpl in H; [|discriminate].
      destruct (Z.rem h 8 <? 0); [discriminate|].
      destruct (_ || _); inversion H; subst;
        (apply Forall_app; split; [apply cell_op_move | repeat constructor]).
Qed.

(** Everything a cell prints is a colour change, a glyph, or the cursor
    moved onto that very cell. *)
Lemma render_cell_ops term water ds cloud y x st out st' :
  render_cell term water ds cloud y x st = Some (out, st') ->
  Forall (cell_op y x) out.
Proof.
  unfold render_cell. intros H.
  destruct (island_stage_ops term water y x st) as [Hisl _].
  destruct (island_stage term water y x st) as [o1 s1]. simpl in Hisl.
  unfold drip_stage in H.
  destruct (drip_stage_ops term ds y x ([], s1) ltac:(constructor)) as [Hdrip _].
  destruct (fold_left (drip_stage_body term y x) ds ([], s1)) as [o2 s2]. simpl in Hdrip.
  destruct (cloud_at cloud y x) as [[|]|]; simpl in H; [| |discriminate].
  - inversion H; subst.
    repeat (apply Forall_app; split); try assumption.
    + apply cell_op_move.
    + destruct (cmode_eqb _ _); repeat constructor.
    + repeat constructor.
  - destruct (cols water !! Z.to_nat x) as [c|]; simpl in H; [|discriminate].
    destruct (water_stage term y x c s2) as [[o3 s3]|] eqn:Hw; simpl in H; [|discriminate].
    inversion H; subst.
    repeat (apply Forall_app; split); try assumption.
    eapply water_stage_ops. eassumption.
Qed.

Lemma render_cells_ops term water ds cloud y n : forall x0 st cells,
  render_cells term water ds cloud y x0 n st = Some cells ->
  Forall (fun o => exists x, (x0 <= x < x0 + n)%nat /\ cell_op y (Z.of_nat x) o)
         (row_output cells).
Proof.
  induction n as [|n IH]; intros x0 st cells H; simpl in H.
  - inversion H; subst. constructor.
  - destruct (render_cell term water ds cloud y (Z.of_nat x0) st) as [[out st1]|] eqn:Hc;
      simpl in H; [|discriminate].
    destruct (render_cells term water ds cloud y (Datatypes.S x0) n st1) as [rest|] eqn:Hr;
      simpl in H; [|discriminate].
    inversion H; subst. unfold row_output. simpl. apply Forall_app. split.
    + eapply Forall_impl; [eapply render_cell_ops; eassumption|].
      intros o Ho. exists x0. split; [lia | assumption].
    + eapply Forall_impl; [apply (IH _ _ _ Hr)|].
      intros o (x & Hx & Ho). exists x. split; [lia | assumption].
Qed.

(** X18. Every cursor move [render] prints addresses a cell of the
    terminal: its row is between 1 and [height], its column between 1 and
    [width]. *)
Theorem render_cursor_on_screen term water ds cloud out r c :
  SizeT.in_range (term_width term) -> SizeT.in_range (term_height term) ->
  render term water ds cloud = Some out ->
  MoveCursor r c ∈ out ->
  1 <= r <= term_height term /\ 1 <= c <= term_width term.
Proof.
  intros [Hw0 Hw] [Hh0 Hh] Hrun Hin. unfold render in Hrun.
  destruct (for_loop _ _ _) as [[out' mv]|] eqn:Hloop; simpl in Hrun; [|discriminate].
  inversion Hrun; subst out'. clear Hrun.
  unfold for_loop in Hloop.
  pose proof (for_range_preserves
    (fun _ (acc : list op * bool) =>
       Forall (fun o => exists y x, (y < Z.to_nat (term_height term))%nat
                          /\ (x < Z.to_nat (term_width term))%nat
                          /\ cell_op (Z.of_nat y) (Z.of_nat x) o) (fst acc))
    (render_body term water ds cloud) 0 (Z.to_nat (term_height term)) ([], true) (out, mv))
    as Hinv.
  simpl in Hinv.
  assert (Hall : Forall (fun o => exists y x, (y < Z.to_nat (term_height term))%nat
                          /\ (x < Z.to_nat (term_width term))%nat
                          /\ cell_op (Z.of_nat y) (Z.of_nat x) o) out).
  { apply Hinv; [constructor | | assumption].
    intros i [acc mvi] [acc' mvi'] Hi Hacc Hbody. unfold render_body in Hbody. simpl in *.
    destruct (render_row term water ds cloud (Z.of_nat i) mvi) as [cells|] eqn:Hrow;
      simpl in Hbody; [|discriminate].
    inversion Hbody; subst. apply Forall_app. split; [assumption|].
    unfold render_row in Hrow.
    eapply Forall_impl; [apply (render_cells_ops _ _ _ _ _ _ _ _ _ Hrow)|].
    intros o (x & Hx & Ho). exists i, x. split; [lia|]. split; [lia | assumption]. }
  rewrite Forall_forall in Hall.
  destruct (Hall _ Hin) as (y & x & Hy & Hx & Hr & Hc).
  unfold SizeT.add, SizeT.wrap in Hr, Hc. unfold SizeT.modulus in *.
  rewrite Z.mod_small in Hr, Hc by lia. lia.
Qed.

(** X19. On a terminal with no column or no row [render] prints nothing. *)
Theorem render_empty_terminal term water ds cloud :
  term_width term = 0 \/ term_height term = 0 ->
  render term water ds cloud = Some [].
Proof.
  intros H. unfold render, for_loop.
  destruct (for_range_invariant (fun _ (acc : list op * bool) => fst acc = [])
              (render_body term water ds cloud) 0 (Z.to_nat (term_height term)) ([], true)
              eq_refl) as ([out mv] & -> & Hout).
  - intros i [acc mvi] Hi Hacc. simpl in Hacc. subst acc.
    destruct H as [Hw | Hh]; [|rewrite Hh in Hi; simpl in Hi; lia].
    unfold render_body, render_row. rewrite Hw. simpl. eauto.
  - simpl in *. subst. reflexivity.
Qed.

(** The drips drawn in a cell. *)
Lemma drip_stage_glyphs term ds y x : forall acc,
  length (List.filter is_drip_glyph (fst (fold_left (drip_stage_body term y x) ds acc)))
  = (length (List.filter is_drip_glyph (fst acc))
     + length (List.filter (drip_at term y x) ds))%nat.
Proof.
  induction ds as [|d ds IH]; intros [out st]; cbn [fold_left List.filter]; [simpl; lia|].
  rewrite IH. unfold drip_stage_body.
  destruct (drip_at term y x d); simpl; [|lia].
  rewrite !List.filter_app, !length_app. simpl.
  destruct (cmode_eqb _ _); destruct (move st); simpl; lia.
Qed.

(** The drips a cell draws. *)
Lemma render_cell_drip_glyphs term water ds cloud y x st out st' :
  render_cell term water ds cloud y x st = Some (out, st') ->
  length (List.filter is_drip_glyph out)
  = length (List.filter (drip_at term y x) ds).
Proof.
  unfold render_cell. intros H.
  assert (Hisl : List.filter is_drip_glyph (fst (island_stage term water y x st)) = []).
  { unfold island_stage. destruct (island_colors term water y x); simpl; [reflexivity|].
    destruct (cmode_eqb _ _); reflexivity. }
  destruct (island_stage term water y x st) as [o1 s1]. simpl in Hisl.
  unfold drip_stage in H.
  pose proof (drip_stage_glyphs term ds y x ([], s1)) as Hdrip.
  destruct (fold_left (drip_stage_body term y x) ds ([], s1)) as [o2 s2].
  simpl in Hdrip.
  destruct (cloud_at cloud y x) as [[|]|]; simpl in H; [| |discriminate].
  - inversion H; subst. rewrite !List.filter_app, !length_app, Hisl, Hdrip. simpl.
    destruct (move s2); destruct (cmode_eqb _ _); simpl; lia.
  - destruct (cols water !! Z.to_nat x) as [c|]; simpl in H; [|discriminate].
    destruct (water_stage term y x c s2) as [[o3 s3]|] eqn:Hw; simpl in H; [|discriminate].
    inversion H; subst. rewrite !List.filter_app, !length_app, Hisl, Hdrip. simpl.
    assert (Ho3 : List.filter is_drip_glyph o3 = []).
    { unfold water_stage in Hw.
      destruct (f_lt _ _).
      - destruct (cmode_eqb _ _); inversion Hw; subst; [|reflexivity].
        destruct (move s2); reflexivity.
      - destruct (f_le _ _).
        + inversion Hw; subst. destruct (move s2); destruct (cmode_eqb _ _); reflexivity.
        + destruct (f2int (col_height c)) as [h|]; simpl in Hw; [|discriminate].
          destruct (Z.rem h 8 <? 0); [discriminate|].
          destruct (_ || _); inversion Hw; subst; destruct (move s2); reflexivity. }
    rewrite Ho3. simpl. lia.
Qed.

(** X20. A cell prints the drip glyph once for every active drip of the
    pool that is in it, and nowhere else. *)
Theorem render_cell_draws_every_drip term water ds cloud y x st out st' :
  render_cell term water ds cloud y x st = Some (out, st') ->
  length (List.filter is_drip_glyph out)
  = length (List.filter (drip_at term y x) ds).
Proof. apply render_cell_drip_glyphs. Qed.

End RenderOutput.

(** ** Unsigned arithmetic in the island's rows *)

Lemma wrap_small (z : Z) : 0 <= z < 2 ^ 64 -> SizeT.wrap z = z.
Proof. intros H. unfold SizeT.wrap, SizeT.modulus. apply Z.mod_small. assumption. Qed.

Lemma wrap_neg (z : Z) : - 2 ^ 64 <= z < 0 -> SizeT.wrap z = z + 2 ^ 64.
Proof.
  intros H. unfold SizeT.wrap, SizeT.modulus.
  replace z with (z + 2 ^ 64 + (-1) * 2 ^ 64) at 1 by lia.
  rewrite Z.mod_add by lia. apply Z.mod_small. lia.
Qed.

(** X24. The rows of the island from [island_y] down: the cells of row [y]
    within [1 + 2*(y - island_y)] columns of the middle column [width/2]
    have the island's colours 34 and 103, provided that many columns exist
    to the left of the middle; when they do not, the left bound wraps round
    in [size_t] and the row has no island cell at all. *)
Theorem island_base_row {FM : FloatModel} (term : termsize_t) (water : water_t) (y x : Z) :
  0 <= term_width term <= 65535 ->
  0 <= island_y water <= y -> y <= 65535 -> 0 <= x <= 65535 ->
  island_colors term water y x
  = if (1 + 2 * (y - island_y water) <=? term_width term / 2)
       && (term_width term / 2 - (1 + 2 * (y - island_y water)) <=? x)
       && (x <=? term_width term / 2 + (1 + 2 * (y - island_y water)))
    then Some [34; 103] else None.
Proof.
  intros Hw Hy Hy' Hx. unfold island_colors.
  set (iy := island_y water) in *. unfold SizeT.div.
  set (half := term_width term / 2).
  assert (Hh : 0 <= half < 32768).
  { unfold half. split; [apply Z.div_pos; lia|].
    apply Z.div_lt_upper_bound; lia. }
  assert (Hsub : forall k, 1 <= k <= 5 -> (y =? SizeT.sub iy k) = false).
  { intros k Hk. apply Z.eqb_neq. unfold SizeT.sub.
    destruct (Z.lt_ge_cases iy k).
    - rewrite wrap_neg by lia. lia.
    - rewrite wrap_small by lia. lia. }
  rewrite !Hsub by lia. cbn [andb orb].
  replace (iy <=? y) with true by (symmetry; apply Z.leb_le; lia).
  unfold SizeT.add, SizeT.sub, SizeT.mul.
  rewrite (wrap_small (y - iy)) by lia.
  rewrite (wrap_small (2 * (y - iy))) by lia.
  rewrite (wrap_small (1 + 2 * (y - iy))) by lia.
  rewrite (wrap_small (half + _)) by lia.
  change (fg 4) with 34. change (bg 11) with 103. cbn [andb].
  destruct (1 + 2 * (y - iy) <=? half) eqn:Hfit.
  - apply Z.leb_le in Hfit. rewrite wrap_small by lia. reflexivity.
  - apply Z.leb_gt in Hfit. rewrite wrap_neg by lia. cbn [andb].
    replace (half - (1 + 2 * (y - iy)) + 2 ^ 64 <=? x) with false
      by (symmetry; apply Z.leb_gt; lia).
    reflexivity.
Qed.

(** ** The renderer in exact arithmetic *)

Section ExactRender.
Implicit Types (c : qcol) (st : rstate) (cloud : qcloud) (water : qwater)
  (ds : list qdrip).

Lemma exact_le_spec (a b : Q) :
  (Qle_bool a b = true /\ (a <= b)%Q) \/ (Qle_bool a b = false /\ (b < a)%Q).
Proof.
  destruct (Qle_bool a b) eqn:E.
  - left. split; [reflexivity|]. apply Qle_bool_iff. assumption.
  - right. split; [reflexivity|]. apply Qnot_le_lt. intros H.
    apply Qle_bool_iff in H. congruence.
Qed.

Lemma glyphs_move (b : bool) (r k : Z) (out : list op) :
  glyphs ((if b then [MoveCursor r k] else []) ++ out) = glyphs out.
Proof. destruct b; reflexivity. Qed.

(** The glyph of a cell that is not the cloud's, by where the top of the
    water column lies. *)
Lemma exact_water_stage_cases term y x c st :
  0 <= y < term_height term -> term_height term <= 65535 ->
  exists out st',
    water_stage term y x c st = Some (out, st')
    /\ ((col_height c < inject_Z (8 * (term_height term - y - 1)))%Q ->
        glyphs out = (if cmode_eqb (color_mode st) CM_ISLAND then [blank] else [])
        /\ color_mode st' = color_mode st)
    /\ ((inject_Z (8 * (term_height term - y)) <= col_height c)%Q ->
        glyphs out = [blank] /\ color_mode st' = CM_WATER_BG /\ move st' = false)
    /\ ((inject_Z (8 * (term_height term - y - 1)) <= col_height c)%Q ->
        (col_height c < inject_Z (8 * (term_height term - y)))%Q ->
        exists l, 0 <= l <= 7
          /\ (inject_Z (8 * (term_height term - y - 1) + l) <= col_height c)%Q
          /\ (col_height c < inject_Z (8 * (term_height term - y - 1) + l) + 1)%Q
          /\ glyphs out = [water_chars l] /\ move st' = false).
Proof.
  intros Hy Hh. unfold water_stage.
  assert (Hm : SizeT.mul (SizeT.sub (term_height term) y) 8 = 8 * (term_height term - y)).
  { unfold SizeT.mul, SizeT.sub. rewrite (wrap_small (_ - _)) by lia.
    rewrite wrap_small by lia. lia. }
  rewrite Hm. cbn [f_lt f_le f_sub z2f Exact.model].
  set (h := @col_height Exact.model c).
  set (k := term_height term - y - 1).
  replace (term_height term - y) with (k + 1) by (unfold k; lia).
  assert (Hk : 0 <= k < 65535) by (unfold k; lia).
  assert (Hdry : (inject_Z (8 * (k + 1)) - inject_Z 8 == inject_Z (8 * k))%Q).
  { unfold Qeq. simpl. lia. }
  assert (Hlt : (inject_Z (8 * k) < inject_Z (8 * (k + 1)))%Q).
  { rewrite <- Zlt_Qlt. lia. }
  assert (H0k : (0 <= inject_Z (8 * k))%Q).
  { change 0%Q with (inject_Z 0). rewrite <- Zle_Qle. lia. }
  destruct (exact_ltb_spec h (inject_Z (8 * (k + 1)) - inject_Z 8)) as [[-> Hc] | [-> Hc]].
  - (* the cell is above the water *)
    rewrite Hdry in Hc.
    destruct (cmode_eqb (color_mode st) CM_ISLAND) eqn:Hisl.
    + do 2 eexists. split; [reflexivity|]. cbn [color_mode move].
      split; [intros _; rewrite glyphs_move; auto|].
      split; intros; exfalso; lra.
    + do 2 eexists. split; [reflexivity|]. cbn [color_mode move].
      split; [auto|]. split; intros; exfalso; lra.
  - rewrite Hdry in Hc.
    destruct (exact_le_spec (inject_Z (8 * (k + 1))) h) as [[-> Hc'] | [-> Hc']].
    + (* the cell is under water *)
      do 2 eexists. split; [reflexivity|]. cbn [color_mode move].
      split; [intros; exfalso; lra|]. split; [|intros; exfalso; lra].
      intros _. rewrite glyphs_move.
      destruct (cmode_eqb (color_mode st) CM_WATER_BG); auto.
    + (* the water line is in the cell *)
      destruct (exact_trunc_range h (8 * (k + 1))) as (z & Hz & Hzr & Hlo & Hhi);
        [lra | lra |].
      assert (Hz1 : 8 * k <= z < 8 * k + 8).
      { split.
        - assert (Hq : (inject_Z (8 * k) < inject_Z (z + 1))%Q)
            by (rewrite inject_Z_plus; change (inject_Z 1) with 1%Q; lra).
          rewrite <- Zlt_Qlt in Hq. lia.
        - assert (Hq : (inject_Z z < inject_Z (8 * (k + 1)))%Q) by lra.
          rewrite <- Zlt_Qlt in Hq. lia. }
      unfold f2int. change (@f2z Exact.model h) with (Exact.trunc h). rewrite Hz.
      cbn [mbind option_bind].
      replace (- 2 ^ 31 <=? z) with true by (symmetry; apply Z.leb_le; lia).
      replace (z <? 2 ^ 31) with true by (symmetry; apply Z.ltb_lt; lia).
      cbn [andb mbind option_bind].
      assert (Hrem : Z.rem z 8 = z - 8 * k).
      { rewrite Z.rem_mod_nonneg by lia.
        replace z with (z - 8 * k + k * 8) at 1 by lia.
        rewrite Z.mod_add by lia. apply Z.mod_small. lia. }
      rewrite Hrem.
      replace (z - 8 * k <? 0) with false by (symmetry; apply Z.ltb_ge; lia).
      assert (Hl : (inject_Z (8 * k + (z - 8 * k)) == inject_Z z)%Q)
        by (apply inject_Z_injective; lia).
      destruct (cmode_eqb (color_mode st) CM_WATER_FG || cmode_eqb (color_mode st) CM_ISLAND).
      * do 2 eexists. split; [reflexivity|]. cbn [color_mode move].
        split; [intros; exfalso; lra|]. split; [intros; exfalso; lra|].
        intros _ _. exists (z - 8 * k). rewrite glyphs_move, Hl.
        split; [lia|]. auto.
      * do 2 eexists. split; [reflexivity|]. cbn [color_mode move].
        split; [intros; exfalso; lra|]. split; [intros; exfalso; lra|].
        intros _ _. exists (z - 8 * k). rewrite glyphs_move, Hl.
        split; [lia|]. auto.
Qed.

(** X22. The glyph of a cell of row [y] that is not the cloud's, in exact
    arithmetic, by the height [h] of its column: below [8*(height-y-1)] the
    cell is above the water and writes nothing, or a blank when the colour
    mode is the island's; from [8*(height-y)] up it is under water and
    writes a blank on the water background; in between it writes the block
    [water_chars[l]] with [l] from 0 to 7 and
    [8*(height-y-1) + l <= h < 8*(height-y-1) + l + 1]. *)
Theorem water_stage_glyph term y x c st :
  0 <= y < term_height term -> term_height term <= 65535 ->
  exists out st',
    water_stage term y x c st = Some (out, st')
    /\ ((col_height c < inject_Z (8 * (term_height term - y - 1)))%Q ->
        glyphs out = (if cmode_eqb (color_mode st) CM_ISLAND then [blank] else [])
        /\ color_mode st' = color_mode st)
    /\ ((inject_Z (8 * (term_height term - y)) <= col_height c)%Q ->
        glyphs out = [blank] /\ color_mode st' = CM_WATER_BG /\ move st' = false)
    /\ ((inject_Z (8 * (term_height term - y - 1)) <= col_height c)%Q ->
        (col_height c < inject_Z (8 * (term_height term - y)))%Q ->
        exists l, 0 <= l <= 7
          /\ (inject_Z (8 * (term_height term - y - 1) + l) <= col_height c)%Q
          /\ (col_height c < inject_Z (8 * (term_height term - y - 1) + l) + 1)%Q
          /\ glyphs out = [water_chars l] /\ move st' = false).
Proof. apply exact_water_stage_cases. Qed.

Lemma exact_trunc_abs (q : Q) (n : Z) :
  (- inject_Z n <= q)%Q -> (q <= inject_Z n)%Q ->
  exists z, Exact.trunc q = Some z /\ - n <= z <= n.
Proof.
  destruct q as [a b]. unfold Qle, Exact.trunc. simpl. intros Hlo Hhi.
  exists (Z.quot a (Zpos b)). split; [reflexivity|].
  destruct (Z.lt_ge_cases a 0) as [Hneg | Hpos].
  - assert (Ho : Z.quot a (Zpos b) = - ((- a) / Zpos b)).
    { rewrite <- Z.quot_div_nonneg by lia. rewrite Z.quot_opp_l by discriminate. lia. }
    pose proof (Z.div_pos (- a) (Zpos b) ltac:(lia) ltac:(lia)).
    assert (- a / Zpos b <= n) by (apply Z.div_le_upper_bound; lia).
    lia.
  - rewrite Z.quot_div_nonneg by lia.
    pose proof (Z.div_pos a (Zpos b) ltac:(lia) ltac:(lia)).
    assert (a / Zpos b <= n) by (apply Z.div_le_upper_bound; lia).
    lia.
Qed.

Lemma exact_cloud_at cloud y x :
  (- inject_Z (2 ^ 31) <= cloud_pos cloud)%Q -> (cloud_pos cloud <= inject_Z (2 ^ 31))%Q ->
  is_Some (cloud_at cloud y x).
Proof.
  intros Hlo Hhi. unfold cloud_at.
  destruct ((0 <=? y) && (y <=? 2)); [|eauto].
  cbn [f_div z2f Exact.model].
  destruct (exact_trunc_abs (cloud_pos cloud / inject_Z 8)%Q (2 ^ 28)) as (z & Hz & Hr).
  - apply Qle_shift_div_l; [reflexivity|].
    change (- inject_Z (2 ^ 28) * inject_Z 8)%Q with (- inject_Z (2 ^ 31))%Q. 
    assumption.
  - apply Qle_shift_div_r; [reflexivity|].
    change (inject_Z (2 ^ 28) * inject_Z 8)%Q with (inject_Z (2 ^ 31))%Q.
    assumption.
  - unfold f2int. change (@f2z Exact.model) with Exact.trunc. rewrite Hz.
    cbn [mbind option_bind].
    replace (- 2 ^ 31 <=? z) with true by (symmetry; apply Z.leb_le; lia).
    replace (z <? 2 ^ 31) with true by (symmetry; apply Z.ltb_lt; lia).
    cbn [andb mbind option_bind]. eauto.
Qed.

Lemma exact_render_cell term water ds cloud y x st :
  0 <= y < term_height term -> term_height term <= 65535 ->
  (Z.to_nat x < length (cols water))%nat ->
  (- inject_Z (2 ^ 31) <= cloud_pos cloud)%Q -> (cloud_pos cloud <= inject_Z (2 ^ 31))%Q ->
  is_Some (render_cell term water ds cloud y x st).
Proof.
  intros Hy Hh Hx Hlo Hhi. unfold render_cell.
  destruct (island_stage term water y x st) as [o1 s1].
  destruct (drip_stage term ds y x s1) as [o2 s2].
  destruct (exact_cloud_at cloud y x Hlo Hhi) as [hit ->]. cbn [mbind option_bind].
  destruct hit; [eauto|].
  destruct (lookup_lt_is_Some_2 (cols water) (Z.to_nat x) Hx) as [c ->].
  cbn [mbind option_bind].
  destruct (exact_water_stage_cases term y x c s2 Hy Hh) as (out & st' & -> & _).
  cbn [mbind option_bind]. eauto.
Qed.

Lemma exact_render_cells term water ds cloud y n : forall x0 st,
  0 <= y < term_height term -> term_height term <= 65535 ->
  (x0 + n <= length (cols water))%nat ->
  (- inject_Z (2 ^ 31) <= cloud_pos cloud)%Q -> (cloud_pos cloud <= inject_Z (2 ^ 31))%Q ->
  is_Some (render_cells term water ds cloud y x0 n st).
Proof.
  induction n as [|n IH]; intros x0 st Hy Hh Hx Hlo Hhi; simpl; [eauto|].
  destruct (exact_render_cell term water ds cloud y (Z.of_nat x0) st Hy Hh) as [r ->];
    [rewrite Nat2Z.id; lia | assumption | assumption |].
  cbn [mbind option_bind].
  destruct (IH (Datatypes.S x0) (snd r) Hy Hh ltac:(lia) Hlo Hhi) as [rest ->].
  cbn [mbind option_bind]. eauto.
Qed.

(** X23. In exact arithmetic [render] is defined whenever the column array
    has [width] cells: it reads no column outside the array, converts no
    value that an [int] cannot hold and indexes [water_chars] from 0 to 7
    only. *)
Theorem render_defined term water ds cloud :
  0 <= term_height term <= 65535 ->
  length (cols water) = Z.to_nat (term_width term) ->
  (- inject_Z (2 ^ 31) <= cloud_pos cloud)%Q -> (cloud_pos cloud <= inject_Z (2 ^ 31))%Q ->
  exists out, render term water ds cloud = Some out.
Proof.
  intros Hh Hlen Hlo Hhi. unfold render, for_loop.
  destruct (for_range_invariant (fun _ _ => True)
              (render_body term water ds cloud) 0 (Z.to_nat (term_height term)) ([], true) I)
    as (r & -> & _).
  - intros i acc Hi _. unfold render_body, render_row.
    destruct (exact_render_cells term water ds cloud (Z.of_nat i)
                (Z.to_nat (term_width term)) 0
                {| move := snd acc; color_mode := CM_UNKNOWN |})
      as [cells ->]; try assumption; try lia.
    cbn [mbind option_bind]. eauto.
  - cbn [mbind option_bind]. eauto.
Qed.

End ExactRender.

(** ** The sums of the heights and of the speeds *)

Section SpreadSpeeds.
Context {FM : FloatModel}.
Implicit Types (cs : list water_column_t).

(** The sum of the deltas stored by iterations [0 .. k-1] reads the cells
    below [k] only. *)
Lemma delta_sum_ext width cs ds k :
  (forall j, (j < k)%nat -> col_ldelta (cs !!! j) = col_ldelta (ds !!! j)
                            /\ col_rdelta (cs !!! j) = col_rdelta (ds !!! j)) ->
  delta_sum width cs k = delta_sum width ds k.
Proof.
  induction k as [|k IH]; intros H; [reflexivity|]. cbn [delta_sum].
  rewrite IH by (intros j Hj; apply H; lia).
  destruct (H k ltac:(lia)) as [-> ->]. reflexivity.
Qed.

(** The second inner loop leaves the speeds alone. *)
Lemma spread_apply_loop_speed width cs :
  length cs = Z.to_nat width ->
  exists cs', for_loop (Z.to_nat width) (spread_apply_body width) cs = Some cs'
    /\ length cs' = length cs
    /\ map col_speed cs' = map col_speed cs.
Proof.
  intros Hlen. unfold for_loop. set (n := Z.to_nat width) in *.
  destruct (for_range_invariant
    (fun _ t => length t = n /\ map col_speed t = map col_speed cs)
    (spread_apply_body width) 0 n cs) as (cs' & Hrun & Hl & Hs).
  - auto.
  - intros i t Hi (Hl & Hs).
    assert (Hb : Z.of_nat i < SizeT.sub width 1 -> (i + 1 < length t)%nat).
    { intros Hm. rewrite Hl. apply sub1_bound; [lia|assumption]. }
    exists (spread_apply_cells width i t). split.
    { apply spread_apply_body_cells; [lia|assumption]. }
    split; [rewrite spread_apply_cells_length; assumption|].
    rewrite <- Hs. apply list_eq. intros j.
    change (map col_speed ?l) with (col_speed <$> l). rewrite !list_lookup_fmap.
    destruct (decide (j < length t)%nat) as [Hj|Hj].
    + rewrite (list_lookup_lookup_total_lt t j Hj).
      rewrite (list_lookup_lookup_total_lt (spread_apply_cells width i t) j)
        by (rewrite spread_apply_cells_length; lia).
      simpl. rewrite apply_cells_speed. reflexivity.
    + rewrite (lookup_ge_None_2 t j) by lia.
      rewrite (lookup_ge_None_2 (spread_apply_cells width i t) j)
        by (rewrite spread_apply_cells_length; lia).
      reflexivity.
  - exists cs'. rewrite Hl, Hlen. auto.
Qed.
End SpreadSpeeds.

Section ExactTotals.
Implicit Types (cs ds : list qcol).

Lemma exact_total_speed_cons (c : qcol) cs :
  total_speed (c :: cs) = (col_speed c + total_speed cs)%Q.
Proof. reflexivity. Qed.

Lemma exact_total_speed_add (d : qfloat) j cs :
  (j < length cs)%nat ->
  (total_speed (alter (add_speed d) j cs) == total_speed cs + d)%Q.
Proof.
  revert j. induction cs as [|c cs IH]; intros [|j] H; simpl in H; try lia.
  - change (alter (add_speed d) 0%nat (c :: cs)) with (add_speed d c :: cs).
    rewrite !exact_total_speed_cons.
    change (@col_speed Exact.model (add_speed d c)) with (col_speed c + d)%Q.
    qring.
  - change (alter (add_speed d) (Datatypes.S j) (c :: cs))
      with (c :: alter (add_speed d) j cs).
    rewrite !exact_total_speed_cons, IH by lia. qring.
Qed.

Lemma total_speed_alter_same (f : qcol -> qcol) j cs :
  (forall c, col_speed (f c) = col_speed c) ->
  total_speed (alter f j cs) = total_speed cs.
Proof.
  intros Hf. revert j. induction cs as [|c cs IH]; intros [|j]; try reflexivity.
  - change (alter f 0%nat (c :: cs)) with (f c :: cs).
    rewrite !exact_total_speed_cons, Hf. reflexivity.
  - change (alter f (Datatypes.S j) (c :: cs)) with (c :: alter f j cs).
    rewrite !exact_total_speed_cons, IH. reflexivity.
Qed.

(** What one iteration of the first inner loop adds to the sum of the
    speeds: the two deltas it stores. *)
Lemma exact_delta_cells_total_speed width i cs :
  (i < length cs)%nat ->
  (Z.of_nat i < SizeT.sub width 1 -> (i + 1 < length cs)%nat) ->
  (total_speed (spread_delta_cells width i cs)
   == total_speed cs
      + (if (0 <? i)%nat
         then @col_ldelta Exact.model (spread_delta_cells width i cs !!! i) else 0)
      + (if Z.of_nat i <? SizeT.sub width 1
         then @col_rdelta Exact.model (spread_delta_cells width i cs !!! i) else 0))%Q.
Proof.
  intros Hi Hb.
  rewrite delta_cells_ldelta, delta_cells_rdelta by assumption.
  unfold spread_delta_cells.
  destruct (0 <? i)%nat eqn:H0; destruct (Z.of_nat i <? SizeT.sub width 1) eqn:Hm;
    ltb_hyps; repeat case_decide; try (exfalso; lia).
  - rewrite exact_total_speed_add by (rewrite !length_alter; lia).
    rewrite (total_speed_alter_same (set_rdelta _)) by reflexivity.
    rewrite exact_total_speed_add by (rewrite !length_alter; lia).
    rewrite (total_speed_alter_same (set_ldelta _)) by reflexivity.
    repeat (rewrite list_lookup_total_alter || rewrite length_alter).
    repeat case_decide; simpl; try (exfalso; lia); reflexivity.
  - rewrite exact_total_speed_add by (rewrite !length_alter; lia).
    rewrite (total_speed_alter_same (set_ldelta _)) by reflexivity.
    qring.
  - rewrite exact_total_speed_add by (rewrite !length_alter; lia).
    rewrite (total_speed_alter_same (set_rdelta _)) by reflexivity.
    qring.
  - qring.
Qed.


(** The first inner loop adds to the sum of the speeds the sum of the deltas
    it stores. *)
Lemma exact_spread_delta_loop_speed width cs :
  length cs = Z.to_nat width ->
  exists cs1, for_loop (Z.to_nat width) (spread_delta_body width) cs = Some cs1
    /\ (total_speed cs1 == total_speed cs + delta_sum width cs1 (Z.to_nat width))%Q.
Proof.
  intros Hlen. unfold for_loop. set (n := Z.to_nat width) in *.
  destruct (for_range_invariant
    (fun k (t : list qcol) => length t = n
       /\ (total_speed t == total_speed cs + delta_sum width t k)%Q)
    (spread_delta_body width) 0 n cs) as (cs1 & Hrun & _ & Hsum).
  - split; [assumption|]. simpl. change (z2f 0) with 0%Q. qring.
  - intros i t Hi (Hl & Hsum).
    assert (Hb : Z.of_nat i < SizeT.sub width 1 -> (i + 1 < length t)%nat).
    { intros Hm. rewrite Hl. apply sub1_bound; [lia|assumption]. }
    exists (spread_delta_cells width i t). split.
    { apply spread_delta_body_cells; [lia|assumption]. }
    split; [rewrite spread_delta_cells_length; assumption|].
    rewrite exact_delta_cells_total_speed by (lia || assumption).
    rewrite Hsum. cbn [delta_sum].
    rewrite (delta_sum_ext width (spread_delta_cells width i t) t i).
    2:{ intros j Hj. rewrite delta_cells_ldelta, delta_cells_rdelta by lia.
        repeat case_decide; try (exfalso; lia). auto. }
    change (z2f 0) with 0%Q. change (@f_add Exact.model) with Qplus.
    destruct (0 <? i)%nat; destruct (Z.of_nat i <? SizeT.sub width 1); qring.
  - exists cs1. split; assumption.
Qed.

Lemma total_speed_map_eq cs ds :
  map col_speed cs = map col_speed ds -> total_speed cs = total_speed ds.
Proof. unfold total_speed. intros ->. reflexivity. Qed.

(** One spread pass keeps the number of columns, the sum of the heights and
    the sum of the speeds. *)
Lemma exact_spread_pass_totals width cs :
  SizeT.in_range width -> length cs = Z.to_nat width ->
  exists cs', spread_pass width cs = Some cs'
    /\ length cs' = length cs
    /\ (total_height cs' == total_height cs)%Q
    /\ (total_speed cs' == total_speed cs)%Q.
Proof.
  intros Hr Hlen. unfold spread_pass.
  destruct (spread_delta_loop_spec width cs Hlen) as (cs1 & Hrun1 & Hl1 & Hh & Hld & Hrd).
  destruct (exact_spread_delta_loop_speed width cs Hlen) as (cs1' & Hrun1' & Hsp).
  assert (cs1' = cs1) by congruence. subst cs1'. rewrite Hrun1. cbn [mbind option_bind].
  destruct (exact_spread_apply_loop width cs1 ltac:(congruence)) as (cs2 & Hrun2 & Hsum).
  destruct (spread_apply_loop_speed width cs1 ltac:(congruence)) as (cs2' & Hrun2' & Hl2 & Hs2).
  assert (cs2' = cs2) by congruence. subst cs2'. rewrite Hrun2.
  exists cs2. split; [reflexivity|]. split; [congruence|].
  pose proof (exact_delta_sum_zero width cs cs1 Hr Hlen Hld Hrd) as Hzero.
  split.
  - rewrite Hsum, Hzero.
    assert (Heq : heights cs1 = heights cs).
    { apply list_eq. intros j. unfold heights.
      change (map col_height ?l) with (col_height <$> l). rewrite !list_lookup_fmap.
      destruct (decide (j < length cs)%nat) as [Hj|Hj].
      - rewrite (list_lookup_lookup_total_lt cs j Hj).
        rewrite (list_lookup_lookup_total_lt cs1 j ltac:(lia)). simpl. rewrite Hh. reflexivity.
      - rewrite (lookup_ge_None_2 cs j) by lia. rewrite (lookup_ge_None_2 cs1 j) by lia.
        reflexivity. }
    unfold total_height. rewrite Heq. qring.
  - rewrite (total_speed_map_eq cs2 cs1 Hs2), Hsp, Hzero. qring.
Qed.

(** X27. In exact arithmetic one spread pass leaves the sum of the speeds of
    all columns as it was: what the first inner loop adds to the speeds of
    the two neighbours of a pair cancels. *)
Theorem spread_pass_conserves_total_speed width cs :
  SizeT.in_range width -> length cs = Z.to_nat width ->
  exists cs', spread_pass width cs = Some cs'
    /\ (total_speed cs' == total_speed cs)%Q.
Proof.
  intros Hr Hlen.
  destruct (exact_spread_pass_totals width cs Hr Hlen) as (cs' & Hrun & _ & _ & Hs).
  exists cs'. split; assumption.
Qed.

(** The restoring pass on the sums: the pair (sum of heights, sum of speeds)
    moves as one column pulled toward [n] times the target height. *)
Lemma exact_restore_totals (T : Q) cs :
  (total_speed (map (restore_col (FM := Exact.model) T) cs)
   == total_speed cs
      + ((25 # 1000) * (inject_Z (Z.of_nat (length cs)) * T - total_height cs)
         - total_speed cs * (25 # 1000)))%Q
  /\ (total_height (map (restore_col (FM := Exact.model) T) cs)
      == total_height cs + total_speed (map (restore_col (FM := Exact.model) T) cs))%Q.
Proof.
  induction cs as [|c cs [IHs IHh]].
  - split; reflexivity.
  - cbn [map length]. rewrite !exact_total_speed_cons, !exact_total_cons.
    rewrite IHh, IHs. rewrite exact_restore_col_height, exact_restore_col_speed.
    rewrite Nat2Z.inj_succ. unfold Z.succ. rewrite inject_Z_plus.
    change (inject_Z 1) with 1%Q.
    split; qring.
Qed.

(** X28. A call of [water_update] without a resize, in exact arithmetic, on
    the sums [H] of the heights and [V] of the speeds of the [n] columns
    with target height [T]: [V' = V + 0.025*(n*T - H) - 0.025*V] and
    [H' = H + V'] (the sums move as one column pulled toward [n*T], the
    spread passes change neither), and [39*V^2 + (H - n*T)^2] is multiplied
    by 39/40. *)
Theorem water_update_mean_level alloc term (water : qwater) :
  SizeT.in_range (term_width term) -> term_updated term = false ->
  length (cols water) = Z.to_nat (term_width term) ->
  exists water',
    water_update alloc term water = Some (0, water')
    /\ (total_speed (cols water')
        == total_speed (cols water)
           + ((25 # 1000) * (inject_Z (term_width term) * target_height water
                             - total_height (cols water))
              - total_speed (cols water) * (25 # 1000)))%Q
    /\ (total_height (cols water')
        == total_height (cols water) + total_speed (cols water'))%Q
    /\ (39 * (total_speed (cols water') * total_speed (cols water'))
        + (total_height (cols water') - inject_Z (term_width term) * target_height water)
          * (total_height (cols water') - inject_Z (term_width term) * target_height water)
        == (39 # 40)
           * (39 * (total_speed (cols water) * total_speed (cols water))
              + (total_height (cols water)
                 - inject_Z (term_width term) * target_height water)
                * (total_height (cols water)
                   - inject_Z (term_width term) * target_height water)))%Q.
Proof.
  intros Hr Hu Hlen. unfold water_update. rewrite Hu.
  rewrite (restore_pass_map term water Hlen). cbn [mbind option_bind].
  set (cs1 := map (restore_col (target_height water)) (cols water)).
  assert (Hl1 : length cs1 = Z.to_nat (term_width term))
    by (unfold cs1; rewrite length_map; assumption).
  unfold spread_passes, for_loop. cbn [cols set_cols].
  destruct (for_range_invariant
    (fun _ (t : list qcol) => length t = Z.to_nat (term_width term)
       /\ (total_height t == total_height cs1)%Q /\ (total_speed t == total_speed cs1)%Q)
    (fun _ => spread_pass (term_width term)) 0 8 cs1) as (cs2 & Hrun & _ & Hh & Hs).
  - split; [assumption|]. split; reflexivity.
  - intros i t _ (Hl & Hh & Hs).
    destruct (exact_spread_pass_totals (term_width term) t Hr Hl) as (t' & Hrun & Hl' & Hh' & Hs').
    exists t'. split; [assumption|]. split; [congruence|].
    split; [rewrite Hh'; assumption | rewrite Hs'; assumption].
  - rewrite Hrun. cbn [mbind option_bind].
    eexists. split; [reflexivity|]. cbn [cols set_cols].
    destruct (exact_restore_totals (target_height water) (cols water)) as [Rs Rh].
    fold cs1 in Rs, Rh.
    assert (Hn : inject_Z (Z.of_nat (length (cols water))) = inject_Z (term_width term)).
    { rewrite Hlen. rewrite Z2Nat.id by (destruct Hr; lia). reflexivity. }
    rewrite Hn in Rs.
    assert (E1 : (total_speed cs2
                  == total_speed (cols water)
                     + ((25 # 1000) * (inject_Z (term_width term) * target_height water
                                       - total_height (cols water))
                        - total_speed (cols water) * (25 # 1000)))%Q)
      by (rewrite Hs; exact Rs).
    assert (E2 : (total_height cs2 == total_height (cols water) + total_speed cs2)%Q)
      by (rewrite Hh, Hs; exact Rh).
    split; [exact E1|]. split; [exact E2|].
    rewrite E2, E1.
    generalize (total_speed (cols water)) (total_height (cols water))
               (inject_Z (term_width term)) (@target_height Exact.model water).
    change (@float Exact.model) with Q. intros V S N T. ring.
Qed.

End ExactTotals.

(** ** The initialisation and the frames of [main] *)

Section MainFacts.
Context {FM : FloatModel}.

(** X3. The initialisation of [main] is always defined.  It fails when the
    terminal query fails, and on a terminal that is not 0 by 0 when
    [realloc] fails.  Otherwise the frame loop starts with an empty pool,
    the cloud of [cloud_init], and a water of [width] columns with target
    height 8; on a 0 by 0 terminal the water has no column and its target
    height and island row are the values the fields held, never written. *)
Theorem boot_outcomes ws alloc updated0 target0 island0 :
  match ws with
  | None => boot ws alloc updated0 target0 island0 = Some BootFailed
  | Some (c, r) =>
      if (c =? 0) && (r =? 0) then
        boot ws alloc updated0 target0 island0
        = Some (Booted
            {| w_term := {| term_width := 0; term_height := 0; term_updated := false |};
               w_drips := [];
               w_cloud := cloud_init
                            {| term_width := 0; term_height := 0; term_updated := false |};
               w_water := {| cols := []; target_height := target0;
                             island_y := island0 |} |})
      else
        match alloc with
        | None => boot ws alloc updated0 target0 island0 = Some BootFailed
        | Some junk =>
            exists w, boot ws alloc updated0 target0 island0 = Some (Booted w)
              /\ w_term w = {| term_width := c; term_height := r; term_updated := true |}
              /\ w_drips w = []
              /\ w_cloud w = cloud_init (w_term w)
              /\ length (cols (w_water w)) = Z.to_nat c
              /\ target_height (w_water w) = z2f 8
              /\ island_y (w_water w) = SizeT.sub (SizeT.div (SizeT.mul r 3) 4) 1
        end
  end.
Proof.
  destruct ws as [[c r]|]; [|reflexivity].
  unfold boot, termsize_init, termsize_update. cbn [term_width term_height].
  destruct ((c =? 0) && (r =? 0)) eqn:Hz.
  - apply andb_true_iff in Hz as [Hc Hr]. rewrite Hc, Hr. reflexivity.
  - assert (Hn : negb (c =? 0) || negb (r =? 0) = true).
    { destruct (c =? 0); destruct (r =? 0); simpl in *; congruence. }
    rewrite Hn. cbn [Z.eqb negb].
    unfold water_init, water_update. cbn [term_updated].
    destruct alloc as [junk|]; [|reflexivity].
    rewrite water_resize_eq. cbn [mbind option_bind term_width term_height].
    set (term := {| term_width := c; term_height := r; term_updated := true |}).
    set (w1 := Build_water_t _ _ _).
    assert (Hl1 : length (cols w1) = Z.to_nat (term_width term)).
    { unfold w1. simpl. rewrite length_map. apply length_resize. }
    destruct (water_physics_total term w1 Hl1) as (w2 & w3 & Hrp & Hsp & Hl3 & Ht & Hi).
    rewrite Hrp. cbn [mbind option_bind]. rewrite Hsp.
    cbn [mbind option_bind fst snd Z.eqb negb].
    eexists. split; [reflexivity|]. cbn [w_term w_drips w_cloud w_water].
    repeat split; assumption.
Qed.

(** The counter of [cloud_update] and the pool, whatever the arithmetic. *)
Lemma cloud_update_drop rnd alloc_ok term (cloud : cloud_t) (ds : list drip_t) cloud' ds' :
  cloud_update rnd alloc_ok term cloud ds = Some (cloud', ds') ->
  drop_delay cloud' = drop_delay cloud
  /\ (if drop_delay cloud <=? SizeT.add (drop_count cloud) 1
      then drop_count cloud' = 0
           /\ exists x, ds' = snd (drips_generate alloc_ok term ds x)
      else drop_count cloud' = SizeT.add (drop_count cloud) 1 /\ ds' = ds).
Proof.
  unfold cloud_update. destruct cloud as [p s dl dc].
  destruct (SizeT.mul (term_width term) 8 =? 0); [discriminate|].
  cloud_cases;
  intros H;
  try (destruct (d2int _) as [col|]; cbn [mbind option_bind] in H; [|discriminate]);
  inversion H; subst; cbn [drop_delay drop_count];
  (split; [reflexivity|]); eauto.
Qed.

Lemma drips_generate_length alloc_ok term (ds : list drip_t) x :
  (length ds <= length (snd (drips_generate alloc_ok term ds x)) <= Datatypes.S (length ds))%nat.
Proof.
  unfold drips_generate.
  destruct (first_inactive ds =? length ds)%nat; [destruct alloc_ok|]; cbn [snd];
    rewrite ?length_app, ?length_insert; simpl; lia.
Qed.

Lemma drips_update_length term (ds ds' : list drip_t) water water' :
  drips_update term ds water = Some (ds', water') -> length ds' = length ds.
Proof.
  intros Hrun. unfold drips_update, for_loop in Hrun.
  pose proof (for_range_preserves
    (fun _ (st : list drip_t * water_t) => length (fst st) = length ds)
    (drips_update_body term) 0 (length ds) (ds, water) (ds', water')) as Hinv.
  simpl in Hinv. apply Hinv; [reflexivity | | assumption].
  intros i [dsi wi] [dsi' wi'] _ Hl Hbody. simpl in *.
  destruct (drips_update_body_slot term i dsi wi dsi' wi' Hbody) as (d & Hd & Hoff & Hon).
  destruct (drip_active d).
  - destruct (Hon eq_refl) as (e & -> & _). rewrite length_insert. assumption.
  - destruct (Hoff eq_refl) as [-> _]. assumption.
Qed.

(** One frame: the counter steps, and the pool grows by one drip when the
    counter wraps and by none otherwise. *)
Lemma frame_drop env (w w' : world) out :
  frame env w = Some (w', out) ->
  drop_delay (w_cloud w') = drop_delay (w_cloud w)
  /\ (if drop_delay (w_cloud w) <=? SizeT.add (drop_count (w_cloud w)) 1
      then drop_count (w_cloud w') = 0
           /\ (length (w_drips w) <= length (w_drips w')
               <= Datatypes.S (length (w_drips w)))%nat
      else drop_count (w_cloud w') = SizeT.add (drop_count (w_cloud w)) 1
           /\ length (w_drips w') = length (w_drips w)).
Proof.
  intros Hf. unfold frame in Hf.
  set (term := snd (termsize_update (env_winsize env) (w_term w))) in *.
  destruct (drips_update term (w_drips w) (w_water w)) as [[ds1 water1]|] eqn:Hd;
    cbn [mbind option_bind] in Hf; [|discriminate].
  destruct (cloud_update _ _ term (w_cloud w) ds1) as [[cloud2 ds2]|] eqn:Hc;
    cbn [mbind option_bind] in Hf; [|discriminate].
  destruct (water_update _ term water1) as [[rc water3]|];
    cbn [mbind option_bind] in Hf; [|discriminate].
  destruct (render term water3 ds2 cloud2);
    cbn [mbind option_bind] in Hf; [|discriminate].
  inversion Hf; subst. cbn [w_cloud w_drips].
  pose proof (drips_update_length _ _ _ _ _ Hd) as Hl1.
  destruct (cloud_update_drop _ _ _ _ _ _ _ Hc) as [Hdl Hdrop].
  split; [assumption|].
  destruct (drop_delay (w_cloud w) <=? SizeT.add (drop_count (w_cloud w)) 1).
  - destruct Hdrop as (Hc0 & x & ->). split; [assumption|].
    pose proof (drips_generate_length (env_drip_alloc env) term ds1 x). lia.
  - destruct Hdrop as (Hc1 & ->). split; [assumption | congruence].
Qed.

(** X16. Along a run of frames of [main] that is defined (no frame has
    undefined behaviour) and starts with a drop delay of 30 and a drop
    counter [k] in 0..29, whatever the arithmetic: the drop delay stays
    30, the drop counter counts the frames modulo 30, the pool never
    shrinks, and after [n] frames it has at most [(k+n)/30] more slots. *)
Theorem run_drop_schedule envs : forall (w w' : world),
  drop_delay (w_cloud w) = 30 -> 0 <= drop_count (w_cloud w) < 30 ->
  run envs w = Some w' ->
  drop_delay (w_cloud w') = 30
  /\ drop_count (w_cloud w')
     = (drop_count (w_cloud w) + Z.of_nat (length envs)) mod 30
  /\ Z.of_nat (length (w_drips w)) <= Z.of_nat (length (w_drips w'))
     <= Z.of_nat (length (w_drips w))
        + (drop_count (w_cloud w) + Z.of_nat (length envs)) / 30.
Proof.
  induction envs as [|env envs IH]; intros w w' Hd Hc Hrun; cbn [run length] in *.
  - inversion Hrun; subst. cbn [Z.of_nat]. rewrite Z.add_0_r.
    rewrite (Z.mod_small _ 30), (Z.div_small _ 30) by exact Hc.
    split; [assumption|]. split; [reflexivity|]. lia.
  - destruct (frame env w) as [[w1 out]|] eqn:Hf; cbn [mbind option_bind fst] in Hrun;
      [|discriminate].
    destruct (frame_drop env w w1 out Hf) as [Hd1 Hdrop].
    assert (Hadd : SizeT.add (drop_count (w_cloud w)) 1 = drop_count (w_cloud w) + 1).
    { unfold SizeT.add, SizeT.wrap, SizeT.modulus. apply Z.mod_small. lia. }
    rewrite Hd, Hadd in Hdrop. rewrite Nat2Z.inj_succ.
    destruct (30 <=? drop_count (w_cloud w) + 1) eqn:Hfull.
    + apply Z.leb_le in Hfull. destruct Hdrop as (Hc1 & Hlen).
      destruct (IH w1 w' ltac:(congruence) ltac:(lia) Hrun) as (Hd' & Hc' & Hl').
      rewrite Hc1, Z.add_0_l in Hc', Hl'.
      assert (Hc29 : drop_count (w_cloud w) = 29) by lia. rewrite Hc29.
      replace (29 + Z.succ (Z.of_nat (length envs)))
        with (Z.of_nat (length envs) + 1 * 30) by lia.
      rewrite Z.mod_add, Z.div_add by lia.
      split; [assumption|]. split; [assumption|]. lia.
    + apply Z.leb_gt in Hfull. destruct Hdrop as (Hc1 & Hlen).
      destruct (IH w1 w' ltac:(congruence) ltac:(lia) Hrun) as (Hd' & Hc' & Hl').
      rewrite Hc1 in Hc', Hl'.
      replace (drop_count (w_cloud w) + Z.succ (Z.of_nat (length envs)))
        with (drop_count (w_cloud w) + 1 + Z.of_nat (length envs)) by lia.
      split; [assumption|]. split; [assumption|]. lia.
Qed.

End MainFacts.

(** ** A falling drip at the bottom *)

Section ExactFall.
Implicit Types (d : qdrip).

(** Truncation toward zero of a negative rational: the least integer not
    below it. *)
Lemma exact_trunc_neg (q : Q) :
  (q < 0)%Q ->
  exists z, Exact.trunc q = Some z /\ z <= 0
            /\ (inject_Z z - 1 < q)%Q /\ (q <= inject_Z z)%Q.
Proof.
  destruct q as [a b]. unfold Qlt, Qle, Exact.trunc. simpl. intros Ha.
  assert (Hneg : a < 0) by lia.
  exists (Z.quot a (Zpos b)). split; [reflexivity|].
  assert (Ho : Z.quot a (Zpos b) = - ((- a) / Zpos b)).
  { rewrite <- Z.quot_div_nonneg by lia. rewrite Z.quot_opp_l by discriminate. lia. }
  rewrite Ho.
  pose proof (Z.div_pos (- a) (Zpos b) ltac:(lia) ltac:(lia)).
  pose proof (Z.mul_div_le (- a) (Zpos b) ltac:(lia)).
  pose proof (Z.mul_succ_div_gt (- a) (Zpos b) ltac:(lia)).
  repeat split; lia.
Qed.

(** X11. The gravity step of a drip whose speed is at most 0.98 (it does
    not move upward after the step) and whose [y] is in the range of
    [size_t], in exact arithmetic.  The test [y < speed] does not hold, so
    [y] is not set to 0 by it.  The step is defined exactly when
    [y + speed] is above -1; the new speed is the old one minus 0.98, and
    the new [y] is [y + speed] truncated toward zero: its integer part
    when it is not negative, and 0 when it is between -1 and 0.  From -1
    down the conversion to [size_t] is undefined. *)
Theorem drip_fall_below_zero d :
  0 <= drip_y d < 2 ^ 64 ->
  (drip_speed d <= 98 # 100)%Q ->
  f_lt (z2f (drip_y d)) (d2f (d_sub (f2d (drip_speed d)) GRAVITY)) = false
  /\ (is_Some (drip_fall d)
      <-> (- 1 < inject_Z (drip_y d) + (drip_speed d - (98 # 100)))%Q)
  /\ forall d1, drip_fall d = Some d1 ->
       (drip_speed d1 == drip_speed d - (98 # 100))%Q
       /\ drip_x d1 = drip_x d /\ drip_active d1 = drip_active d
       /\ ((0 <= inject_Z (drip_y d) + drip_speed d1)%Q ->
           (inject_Z (drip_y d1) <= inject_Z (drip_y d) + drip_speed d1)%Q
           /\ (inject_Z (drip_y d) + drip_speed d1 < inject_Z (drip_y d1) + 1)%Q)
       /\ ((inject_Z (drip_y d) + drip_speed d1 < 0)%Q -> drip_y d1 = 0).
Proof.
  intros Hy Hv.
  pose proof exact_gravity as Hg.
  set (v := d2f (d_sub (f2d (drip_speed d)) GRAVITY)).
  assert (Hv' : (v == drip_speed d - (98 # 100))%Q).
  { unfold v. cbn [d2f d_sub f2d Exact.model]. rewrite Hg. reflexivity. }
  assert (Hy0 : (0 <= inject_Z (drip_y d))%Q).
  { change 0%Q with (inject_Z 0). rewrite <- Zle_Qle. lia. }
  assert (Hguard : f_lt (z2f (drip_y d)) v = false).
  { cbn [f_lt z2f Exact.model].
    destruct (exact_ltb_spec (inject_Z (drip_y d)) v) as [[_ Hlt] | [-> _]]; [|reflexivity].
    exfalso. lra. }
  split; [exact Hguard|].
  unfold drip_fall. fold v. rewrite Hguard. cbn [f_add z2f Exact.model].
  set (q := (inject_Z (drip_y d) + v)%Q).
  assert (Hqv : (q == inject_Z (drip_y d) + (drip_speed d - (98 # 100)))%Q)
    by (unfold q; rewrite Hv'; reflexivity).
  rewrite <- Hqv.
  unfold f2sz. change (@f2z Exact.model q) with (Exact.trunc q).
  assert (Hq : (q <= inject_Z (drip_y d))%Q) by (unfold q; lra).
  destruct (Qlt_le_dec q 0) as [Hneg | Hpos].
  - destruct (exact_trunc_neg q Hneg) as (z & -> & Hz0 & Hlo & Hhi).
    cbn [mbind option_bind].
    destruct (Z.eq_dec z 0) as [-> | Hnz].
    + cbn [Z.leb Z.ltb andb mbind option_bind]. change (inject_Z 0) with 0%Q in Hlo.
      split; [split; [intros _; lra | intros _; eauto]|].
      intros d1 Hd1. inversion Hd1; subst d1. cbn [drip_speed drip_y drip_x drip_active
        set_drip_y set_drip_speed].
      fold v. fold q.
      split; [exact Hv'|]. split; [reflexivity|]. split; [reflexivity|].
      split; [intros; exfalso; lra | reflexivity].
    + replace (0 <=? z) with false by (symmetry; apply Z.leb_gt; lia).
      cbn [andb mbind option_bind].
      assert (Hz1 : (inject_Z z <= -1)%Q).
      { change (-1)%Q with (inject_Z (-1)). rewrite <- Zle_Qle. lia. }
      split; [split; [intros [? Hs]; discriminate | intros; exfalso; lra]|].
      intros d1 Hd1. discriminate.
  - destruct (exact_trunc_range q (drip_y d) Hpos Hq) as (z & -> & Hzr & Hlo & Hhi).
    cbn [mbind option_bind].
    replace (0 <=? z) with true by (symmetry; apply Z.leb_le; lia).
    replace (z <? SizeT.modulus) with true
      by (symmetry; apply Z.ltb_lt; unfold SizeT.modulus; lia).
    cbn [andb mbind option_bind].
    split; [split; [intros _; lra | intros _; eauto]|].
    intros d1 Hd1. inversion Hd1; subst d1. cbn [drip_speed drip_y drip_x drip_active
      set_drip_y set_drip_speed].
    fold v. fold q. split; [exact Hv'|]. split; [reflexivity|]. split; [reflexivity|].
    split; [intros _; split; lra | intros; exfalso; lra].
Qed.
End ExactFall.

(** ** Where things are drawn *)

Section LoopSplit.
Context {S : Type}.

Lemma for_range_app (body : nat -> S -> option S) a b : forall lo s,
  for_range body lo (a + b) s
  = s' ← for_range body lo a s; for_range body (lo + a)%nat b s'.
Proof.
  induction a as [|a IH]; intros lo s; simpl.
  - rewrite Nat.add_0_r. reflexivity.
  - destruct (body lo s) as [t|]; simpl; [|reflexivity].
    rewrite IH. replace (Datatypes.S lo + a)%nat with (lo + Datatypes.S a)%nat by lia.
    reflexivity.
Qed.
End LoopSplit.

Section RenderCells.
Context {FM : FloatModel}.
Implicit Types (ds : list drip_t) (water : water_t) (cloud : cloud_t) (st : rstate).

(** Every cell of a row is rendered, and what it prints is a segment of
    what the row prints. *)
Lemma render_cells_cell term water ds cloud y n : forall x0 st cells k,
  render_cells term water ds cloud y x0 n st = Some cells -> (k < n)%nat ->
  exists stk cell pre post,
    render_cell term water ds cloud y (Z.of_nat (x0 + k)) stk = Some cell
    /\ row_output cells = pre ++ fst cell ++ post.
Proof.
  induction n as [|n IH]; intros x0 st cells k H Hk; [lia|]. simpl in H.
  destruct (render_cell term water ds cloud y (Z.of_nat x0) st) as [cell|] eqn:Hc;
    simpl in H; [|discriminate].
  destruct (render_cells term water ds cloud y (Datatypes.S x0) n (snd cell)) as [rest|] eqn:Hr;
    simpl in H; [|discriminate].
  inversion H; subst cells. unfold row_output. cbn [map concat].
  destruct k as [|k].
  - exists st, cell, [], (concat (map fst rest)).
    rewrite Nat.add_0_r. split; [assumption | reflexivity].
  - destruct (IH (Datatypes.S x0) (snd cell) rest k Hr ltac:(lia))
      as (stk & c & pre & post & Hcell & Hout).
    exists stk, c, (fst cell ++ pre), post.
    replace (x0 + Datatypes.S k)%nat with (Datatypes.S x0 + k)%nat by lia.
    split; [assumption|]. unfold row_output in Hout. rewrite Hout, <- app_assoc.
    reflexivity.
Qed.

Lemma render_body_grows term water ds cloud n : forall lo acc acc',
  for_range (render_body term water ds cloud) lo n acc = Some acc' ->
  exists post, fst acc' = fst acc ++ post.
Proof.
  induction n as [|n IH]; intros lo acc acc' H; simpl in H.
  - inversion H; subst. exists []. rewrite app_nil_r. reflexivity.
  - destruct (render_body term water ds cloud lo acc) as [acc1|] eqn:Hb; simpl in H;
      [|discriminate].
    destruct (IH _ _ _ H) as [post Hpost].
    unfold render_body in Hb.
    destruct (render_row term water ds cloud (Z.of_nat lo) (snd acc)) as [cells|];
      simpl in Hb; [|discriminate].
    inversion Hb; subst acc1. simpl in Hpost.
    exists (row_output cells ++ post). rewrite Hpost, <- app_assoc. reflexivity.
Qed.

(** Every cell of the screen is rendered, and what it prints is a segment
    of what [render] prints. *)
Lemma render_cell_segment term water ds cloud out (y x : nat) :
  render term water ds cloud = Some out ->
  (y < Z.to_nat (term_height term))%nat -> (x < Z.to_nat (term_width term))%nat ->
  exists st cell pre post,
    render_cell term water ds cloud (Z.of_nat y) (Z.of_nat x) st = Some cell
    /\ out = pre ++ fst cell ++ post.
Proof.
  intros Hrun Hy Hx. unfold render, for_loop in Hrun.
  destruct (for_range _ _ _ _) as [r|] eqn:Hloop; simpl in Hrun; [|discriminate].
  inversion Hrun; subst out. clear Hrun.
  replace (Z.to_nat (term_height term))
    with (y + Datatypes.S (Z.to_nat (term_height term) - y - 1))%nat in Hloop by lia.
  rewrite for_range_app in Hloop.
  destruct (for_range (render_body term water ds cloud) 0 y ([], true)) as [acc|];
    simpl in Hloop; [|discriminate].
  destruct (render_body term water ds cloud y acc) as [acc1|] eqn:Hb; simpl in Hloop;
    [|discriminate].
  destruct (render_body_grows _ _ _ _ _ _ _ _ Hloop) as [post Hpost].
  unfold render_body in Hb.
  destruct (render_row term water ds cloud (Z.of_nat y) (snd acc)) as [cells|] eqn:Hrow;
    simpl in Hb; [|discriminate].
  inversion Hb; subst acc1. simpl in Hpost. unfold render_row in Hrow.
  destruct (render_cells_cell _ _ _ _ _ _ _ _ _ x Hrow Hx)
    as (stk & cell & pre' & post' & Hcell & Hout).
  exists stk, cell, (fst acc ++ pre'), (post' ++ post).
  split; [exact Hcell|]. rewrite Hpost, Hout, <- !app_assoc. reflexivity.
Qed.

Lemma spawned_drip_at term (x0 y x : Z) :
  2 <= term_height term <= 65535 -> 0 <= y ->
  drip_at term y x (spawned term x0) = (y =? 2) && (x =? x0).
Proof.
  intros Hh Hy. unfold drip_at, spawned. cbn [drip_active drip_y drip_x andb].
  unfold SizeT.div, SizeT.sub, SizeT.mul.
  rewrite (wrap_small (term_height term - 2)) by lia.
  rewrite (wrap_small (term_height term * 8)) by lia.
  rewrite (wrap_small ((term_height term - 2) * 8)) by lia.
  rewrite wrap_small by lia.
  replace (term_height term * 8 - (term_height term - 2) * 8) with (2 * 8) by lia.
  rewrite Z.div_mul by lia. reflexivity.
Qed.

(** X25. On a terminal of at least 3 rows (and at most 65535, the largest
    [ws_row]), a drip as [drips_generate] makes it over a column
    [0 <= x0 < width] is drawn: whenever [render] is defined,
    what the cell of row 2 and column [x0] prints is a segment of what
    [render] prints, and it contains the drip glyph.  The drip is drawn in
    no other cell: (2, [x0]) is the only cell whose test it passes. *)
Theorem spawned_drip_row term water ds cloud out (x0 : Z) :
  3 <= term_height term <= 65535 -> 0 <= x0 < term_width term ->
  spawned term x0 ∈ ds ->
  render term water ds cloud = Some out ->
  (exists st cell pre post,
      render_cell term water ds cloud 2 x0 st = Some cell
      /\ out = pre ++ fst cell ++ post
      /\ WriteGlyph drip_char ∈ fst cell)
  /\ (forall y x, 0 <= y ->
        drip_at term y x (spawned term x0) = (y =? 2) && (x =? x0)).
Proof.
  intros Hh Hx Hin Hrun. split.
  - destruct (render_cell_segment term water ds cloud out 2 (Z.to_nat x0) Hrun)
      as (st & [o st'] & pre & post & Hcell & Hout); [lia | lia |].
    change (Z.of_nat 2) with 2 in Hcell. rewrite Z2Nat.id in Hcell by lia.
    exists st, (o, st'), pre, post. split; [assumption|]. split; [assumption|].
    pose proof (render_cell_drip_glyphs _ _ _ _ _ _ _ _ _ Hcell) as Hcount.
    assert (Hpos : (0 < length (List.filter (drip_at term 2 x0) ds))%nat).
    { assert (Hf : spawned term x0 ∈ List.filter (drip_at term 2 x0) ds).
      { apply list_elem_of_In, filter_In. split; [apply list_elem_of_In; assumption|].
        rewrite spawned_drip_at by lia. rewrite !Z.eqb_refl. reflexivity. }
      destruct (List.filter (drip_at term 2 x0) ds); [inversion Hf | simpl; lia]. }
    rewrite <- Hcount in Hpos. cbn [fst].
    destruct (List.filter is_drip_glyph o) as [|g l] eqn:Hfl; [simpl in Hpos; lia|].
    assert (Hg : In g (List.filter is_drip_glyph o)) by (rewrite Hfl; left; reflexivity).
    apply filter_In in Hg as [Hgo Hgd].
    destruct g as [| |[| | |]]; try discriminate. apply list_elem_of_In. assumption.
  - intros y x Hy. apply spawned_drip_at; lia.
Qed.
End RenderCells.

Section ExactCloudAt.
Implicit Types (cloud : qcloud).

(** X26. A cloud on its track, in exact arithmetic, is drawn in rows 0 to 2
    in one column, [pos/8] rounded down, which is at most [width-5]: the
    five characters of the cloud fit the screen. *)
Theorem cloud_at_on_track term cloud y x :
  5 <= term_width term <= 65535 -> 0 <= y <= 2 -> 0 <= x < 2 ^ 64 ->
  (0 <= cloud_pos cloud)%Q -> (cloud_pos cloud <= inject_Z (track_end term))%Q ->
  exists col, 0 <= col <= term_width term - 5
    /\ (inject_Z (8 * col) <= cloud_pos cloud)%Q
    /\ (cloud_pos cloud < inject_Z (8 * col) + 8)%Q
    /\ cloud_at cloud y x = Some (x =? col).
Proof.
  intros Hw Hy Hx H0 HL. unfold track_end in HL.
  destruct (exact_drop_column (cloud_pos cloud) (term_width term) Hw H0 HL)
    as (col & Hcol & Hr & Hlo & Hhi & _).
  exists col. repeat (split; [assumption|]).
  unfold cloud_at.
  replace ((0 <=? y) && (y <=? 2)) with true
    by (symmetry; apply andb_true_iff; split; apply Z.leb_le; lia).
  cbn [f_div z2f Exact.model]. change (inject_Z 8) with 8%Q.
  unfold d2int in Hcol. unfold f2int.
  change (@f2z Exact.model) with (@d2z Exact.model). rewrite Hcol.
  cbn [mbind option_bind]. rewrite wrap_small by lia. reflexivity.
Qed.
End ExactCloudAt.

(** ** Colours within a row *)

Section RowColours.
Context {FM : FloatModel}.
Implicit Types (ds : list drip_t) (water : water_t) (cloud : cloud_t) (st : rstate).

Lemma colour_first_app (a b : list op) :
  colour_first (a ++ b) = colour_first a && (existsb is_SetColor a || colour_first b).
Proof.
  induction a as [|[r k|sgr|g] a IH]; simpl; try reflexivity. exact IH.
Qed.

Lemma colour_kept_nil st : colour_kept st [] st.
Proof. split; [reflexivity | left; reflexivity]. Qed.

Lemma colour_kept_app st o1 s1 o2 s2 :
  colour_kept st o1 s1 -> colour_kept s1 o2 s2 -> colour_kept st (o1 ++ o2) s2.
Proof.
  intros [Ha1 Hb1] [Ha2 Hb2]. split.
  - intros Hu. rewrite colour_first_app, (Ha1 Hu). simpl.
    destruct (existsb is_SetColor o1) eqn:E; [reflexivity|]. simpl.
    apply Ha2. destruct Hb1 as [-> | ?]; [assumption | congruence].
  - rewrite existsb_app.
    destruct Hb2 as [-> | ->]; [|right; apply orb_true_r].
    destruct Hb1 as [-> | ->]; [left; reflexivity | right; reflexivity].
Qed.

(** Moving the cursor and then printing: the part is judged by what
    follows the move. *)
Lemma colour_kept_move (b : bool) r k st out st' :
  colour_kept st out st' ->
  colour_kept st ((if b then [MoveCursor r k] else []) ++ out) st'.
Proof. destruct b; [|exact (fun H => H)]. intros [Ha Hb]. split; assumption. Qed.

Lemma island_stage_colour term water y x st :
  colour_kept st (fst (island_stage term water y x st))
                 (snd (island_stage term water y x st)).
Proof.
  unfold island_stage. destruct (island_colors term water y x); simpl.
  - split; [reflexivity | right; reflexivity].
  - destruct (cmode_eqb (color_mode st) CM_ISLAND) eqn:E; simpl.
    + split; [reflexivity | right; reflexivity].
    + apply colour_kept_nil.
Qed.

Lemma drip_stage_colour term ds y x : forall out0 st0,
  exists outs,
    fst (fold_left (drip_stage_body term y x) ds (out0, st0)) = out0 ++ outs
    /\ colour_kept st0 outs (snd (fold_left (drip_stage_body term y x) ds (out0, st0))).
Proof.
  induction ds as [|d ds IH]; intros out0 st0; cbn [fold_left].
  - exists []. rewrite app_nil_r. split; [reflexivity | apply colour_kept_nil].
  - set (o := (if cmode_eqb (color_mode st0) CM_WATER_FG then [] else [SetColor [fg 4]])
              ++ (if move st0 then [MoveCursor (SizeT.add y 1) (SizeT.add x 1)] else [])
              ++ [WriteGlyph drip_char]).
    set (s1 := {| move := move st0; color_mode := CM_WATER_FG |}).
    assert (Hstep : drip_stage_body term y x (out0, st0) d
                    = if drip_at term y x d then (out0 ++ o, s1) else (out0, st0))
      by reflexivity.
    rewrite Hstep. clear Hstep. destruct (drip_at term y x d); [|apply IH].
    destruct (IH (out0 ++ o) s1) as (outs & Hout & Hk).
    exists (o ++ outs). rewrite Hout, app_assoc. split; [reflexivity|].
    apply (colour_kept_app st0 o s1); [|assumption].
    unfold o, s1. destruct st0 as [mv cm]. cbn [color_mode move].
    destruct cm; destruct mv; simpl; split; auto; discriminate.
Qed.

Lemma water_stage_colour term y x c st out st' :
  water_stage term y x c st = Some (out, st') -> colour_kept st out st'.
Proof.
  unfold water_stage. intros H. destruct st as [mv cm]. cbn [color_mode move] in H.
  destruct (f_lt _ _).
  - destruct cm; simpl in H; inversion H; subst;
      try apply colour_kept_nil; try (split; [discriminate | left; reflexivity]);
      split; simpl; auto.
  - destruct (f_le _ _).
    + inversion H; subst. apply colour_kept_move.
      destruct cm; simpl; split; auto; discriminate.
    + destruct (f2int (col_height c)) as [h|]; simpl in H; [|discriminate].
      destruct (Z.rem h 8 <? 0); [discriminate|].
      destruct cm; simpl in H; inversion H; subst; apply colour_kept_move;
        simpl; split; auto; discriminate.
Qed.

Lemma render_cell_colour term water ds cloud y x st out st' :
  render_cell term water ds cloud y x st = Some (out, st') -> colour_kept st out st'.
Proof.
  unfold render_cell. intros H.
  pose proof (island_stage_colour term water y x st) as Hisl.
  destruct (island_stage term water y x st) as [o1 s1]. simpl in Hisl.
  unfold drip_stage in H.
  destruct (drip_stage_colour term ds y x [] s1) as (outs & Hout & Hdrip).
  destruct (fold_left (drip_stage_body term y x) ds ([], s1)) as [o2 s2].
  simpl in Hout, Hdrip. subst o2.
  destruct (cloud_at cloud y x) as [[|]|]; simpl in H; [| |discriminate].
  - inversion H; subst.
    apply (colour_kept_app st o1 s1); [assumption|].
    apply (colour_kept_app s1 outs s2); [assumption|].
    apply colour_kept_move.
    destruct s2 as [mv cm]. destruct cm; simpl; split; auto; discriminate.
  - destruct (cols water !! Z.to_nat x) as [c|]; simpl in H; [|discriminate].
    destruct (water_stage term y x c s2) as [[o3 s3]|] eqn:Hw; simpl in H; [|discriminate].
    inversion H; subst.
    apply (colour_kept_app st o1 s1); [assumption|].
    apply (colour_kept_app s1 outs s2); [assumption|].
    eapply water_stage_colour. eassumption.
Qed.

Lemma render_cells_colour term water ds cloud y n : forall x0 st cells,
  render_cells term water ds cloud y x0 n st = Some cells ->
  exists st', colour_kept st (row_output cells) st'.
Proof.
  induction n as [|n IH]; intros x0 st cells H; simpl in H.
  - inversion H; subst. exists st. apply colour_kept_nil.
  - destruct (render_cell term water ds cloud y (Z.of_nat x0) st) as [[out st1]|] eqn:Hc;
      simpl in H; [|discriminate].
    destruct (render_cells term water ds cloud y (Datatypes.S x0) n st1) as [rest|] eqn:Hr;
      simpl in H; [|discriminate].
    inversion H; subst. unfold row_output. cbn [map concat fst].
    destruct (IH _ _ _ Hr) as [st' Hrest]. exists st'.
    apply (colour_kept_app st out st1); [eapply render_cell_colour; eassumption|].
    exact Hrest.
Qed.

(** X21. In the output of a row no glyph comes before the first colour
    change: the colour mode is unknown when a row starts, and every part of
    a cell that writes a glyph in an unknown mode sets its colours first. *)
Theorem render_row_colour_first term water ds cloud y mv cells :
  render_row term water ds cloud y mv = Some cells ->
  colour_first (row_output cells) = true.
Proof.
  intros Hrow. unfold render_row in Hrow.
  destruct (render_cells_colour _ _ _ _ _ _ _ _ _ Hrow) as [st' [Ha _]].
  apply Ha. reflexivity.
Qed.

End RowColours.

(** ** Water at rest in IEEE arithmetic *)

Section IeeeRest.

(** A finite float minus itself is +0, in any format. *)
Lemma SFsub_diag p em s m e :
  SFsub p em (S754_finite s m e) (S754_finite s m e) = S754_zero false.
Proof.
  cbn [SFsub]. rewrite Z.min_id, Z.sub_diag. reflexivity.
Qed.

Variable T : float (FloatModel := IEEE.model).
Hypothesis T_level : T = S754_zero false \/ exists s m e, T = S754_finite s m e.
Local Abbreviation zero := (S754_zero false : float (FloatModel := IEEE.model)).

(** The four facts of rest for the level [T] and the speed +0. *)
Lemma ieee_finite_restore_rest :
  d2f (d_add (f2d zero)
         (d_sub (d_mul WATER_TENSION (f2d (f_sub T T)))
                (d_mul (f2d zero) WATER_DAMPENING))) = zero.
Proof.
  destruct T_level as [-> | (s & m & e & ->)]; [reflexivity|].
  cbn [d2f d_add f2d d_sub d_mul f_sub IEEE.model].
  rewrite SFsub_diag. reflexivity.
Qed.

Lemma ieee_finite_level_rest : f_add T zero = T.
Proof. destruct T_level as [-> | (s & m & e & ->)]; reflexivity. Qed.

Lemma ieee_finite_delta_rest : spread_delta T T = zero.
Proof.
  destruct T_level as [-> | (s & m & e & ->)]; [reflexivity|].
  unfold spread_delta. cbn [d2f d_mul f2d f_sub IEEE.model].
  rewrite SFsub_diag. reflexivity.
Qed.

Lemma ieee_finite_speed_rest : f_add zero zero = zero.
Proof. reflexivity. Qed.

Lemma ieee_physics_rest term (water : water_t (FM := IEEE.model)) :
  length (cols water) = Z.to_nat (term_width term) ->
  target_height water = T ->
  all_calm T zero (cols water) ->
  exists w2 w3, restore_pass term water = Some w2 /\ spread_passes term w2 = Some w3
    /\ length (cols w3) = Z.to_nat (term_width term) /\ all_calm T zero (cols w3)
    /\ target_height w3 = T /\ island_y w3 = island_y water.
Proof.
  apply (water_physics_calm T zero ieee_finite_restore_rest ieee_finite_level_rest
           ieee_finite_delta_rest ieee_finite_speed_rest).
Qed.
End IeeeRest.

(** X30. In IEEE arithmetic water at rest is a fixed point of
    [water_update], bit for bit: when the terminal was not resized, the
    array has [width] columns, the target height is +0.0 or a finite float
    other than a zero, and every column has that height and the speed
    +0.0, the call returns 0 and every column still has exactly that
    height and the speed +0.0. *)
Theorem water_update_rest_is_fixed alloc term (water : water_t (FM := IEEE.model))
  (T : spec_float) :
  T = S754_zero false \/ (exists s m e, T = S754_finite s m e) ->
  term_updated term = false ->
  length (cols water) = Z.to_nat (term_width term) ->
  target_height water = T ->
  (forall c, c ∈ cols water -> col_height c = T /\ col_speed c = S754_zero false) ->
  exists water',
    water_update alloc term water = Some (0, water')
    /\ length (cols water') = Z.to_nat (term_width term)
    /\ target_height water' = T
    /\ island_y water' = island_y water
    /\ (forall c, c ∈ cols water' -> col_height c = T /\ col_speed c = S754_zero false).
Proof.
  intros HT Hu Hlen Ht Hrest.
  assert (Hcalm : all_calm (FM := IEEE.model) T (S754_zero false) (cols water)).
  { intros j Hj. apply Hrest. apply list_elem_of_lookup_total_2. assumption. }
  destruct (ieee_physics_rest T HT term water Hlen Ht Hcalm)
    as (w2 & w3 & Hr & Hs & Hl3 & Hc3 & Ht3 & Hi3).
  unfold water_update. rewrite Hu, Hr. cbn [mbind option_bind]. rewrite Hs.
  cbn [mbind option_bind].
  exists w3. split; [reflexivity|]. repeat (split; [assumption|]).
  intros c Hin. exact (all_calm_elem_of (FM := IEEE.model) T (S754_zero false) _ c Hc3 Hin).
Qed.

(** * The theorems at concrete inputs *)

Lemma spread_pass_conserves_total_height_witness :
  (SizeT.in_range 3
   /\ length [still_column (FM := Exact.model) 8; still_column 9; still_column 13]
      = Z.to_nat 3
   /\ exists cs',
        spread_pass 3 [still_column (FM := Exact.model) 8; still_column 9; still_column 13]
        = Some cs'
        /\ (total_height cs'
            == total_height [still_column (FM := Exact.model) 8; still_column 9;
                             still_column 13])%Q)
  /\ (-128 <= 8 <= 124
      /\ length uneven_3 = Z.to_nat 3
      /\ Forall (fun c => IEEE.is_finite (@col_height IEEE.model c) = true
                          /\ (Qabs (IEEE.value (@col_height IEEE.model c)) <= 2 ^ 8)%Q)
                uneven_3
      /\ exists cs', spread_pass 3 uneven_3 = Some cs'
           /\ length cs' = length uneven_3
           /\ Forall (fun c => IEEE.is_finite (@col_height IEEE.model c) = true) cs'
           /\ (Qabs (real_total_height cs' - real_total_height uneven_3)
               <= inject_Z 3 * 2 ^ (8 - 19))%Q).
Proof.
  assert (Hr : SizeT.in_range 3) by (unfold SizeT.in_range, SizeT.modulus; lia).
  assert (Hall : Forall (fun c => IEEE.is_finite (@col_height IEEE.model c) = true
                          /\ (Qabs (IEEE.value (@col_height IEEE.model c)) <= 2 ^ 8)%Q)
                   uneven_3).
  { repeat constructor; vm_compute; discriminate. }
  split.
  - split; [exact Hr|]. split; [reflexivity|].
    exact (proj1 spread_pass_conserves_total_height 3
             [still_column (FM := Exact.model) 8; still_column 9; still_column 13]
             Hr eq_refl).
  - split; [lia|]. split; [reflexivity|]. split; [exact Hall|].
    exact (proj2 spread_pass_conserves_total_height 8 3 uneven_3
             ltac:(lia) Hr eq_refl Hall).
Defined.


Lemma water_update_resize_discards_target_witness :
  term_updated {| term_width := 40; term_height := 20; term_updated := true |} = true
  /\ exists water',
       water_update (FM := IEEE.model) (Some (still_column 0))
         {| term_width := 40; term_height := 20; term_updated := true |}
         (still_water 3 50 60 0) = Some (0, water')
       /\ length (cols water') = Z.to_nat 40
       /\ target_height water' = z2f 8
       /\ (forall c, c ∈ cols water' -> col_height c = z2f 8 /\ col_speed c = d2f (dlit 0))
       /\ (forall t0,
             water_update (Some (still_column 0))
               {| term_width := 40; term_height := 20; term_updated := true |}
               (set_target t0 (still_water 3 50 60 0)) = Some (0, water')).
Proof.
  split; [reflexivity|].
  exact (water_update_resize_discards_target (Some (still_column 0))
           {| term_width := 40; term_height := 20; term_updated := true |}
           (still_water 3 50 60 0) eq_refl).
Defined.

Lemma drips_update_first_slot_column_witness :
  let water := still_water (FM := Exact.model) 3 8 8 14 in
  let d0 := @Build_drip_t Exact.model true 2 8 0%Q in
  let c0 : qcol := still_column 8 in
  pool_4 !! 0%nat = Some d0
  /\ cols water !! Z.to_nat (drip_x d0) = Some c0
  /\ Forall (fun d : qdrip => drip_active d = true -> is_Some (drip_fall d)) pool_4
  /\ length (landed (col_height c0) pool_4) = 2%nat
  /\ exists ds' water',
       drips_update term_40x20 pool_4 water = Some (ds', water')
       /\ length ds' = length pool_4
       /\ (forall i d, pool_4 !! i = Some d -> drip_active d = false -> ds' !! i = Some d)
       /\ (forall i d, pool_4 !! i = Some d -> drip_active d = true ->
             exists d1, drip_fall d = Some d1
               /\ ds' !! i = Some (if f_le (z2f (drip_y d1)) (col_height c0)
                                   then set_drip_active false d1 else d1))
       /\ cols water' !! Z.to_nat (drip_x d0)
          = Some (set_speed (fold_left (fun v d1 => f_add v (drip_speed d1))
                               (landed (col_height c0) pool_4) (col_speed c0)) c0)
       /\ (forall j, j <> Z.to_nat (drip_x d0) -> cols water' !! j = cols water !! j)
       /\ (forall i x', (0 < i)%nat ->
             drips_update term_40x20 (alter (set_drip_x x') i pool_4) water
             = Some (alter (set_drip_x x') i ds', water')).
Proof.
  intros water d0 c0.
  assert (H0 : pool_4 !! 0%nat = Some d0) by reflexivity.
  assert (Hc : cols water !! Z.to_nat (drip_x d0) = Some c0) by reflexivity.
  assert (Hfall : Forall (fun d : qdrip => drip_active d = true -> is_Some (drip_fall d))
                    pool_4).
  { repeat constructor; intros _; eexists; reflexivity. }
  split; [exact H0|]. split; [exact Hc|]. split; [exact Hfall|].
  split; [reflexivity|].
  exact (drips_update_first_slot_column term_40x20 pool_4 water d0 c0 H0 Hc Hfall).
Defined.

Lemma drip_free_fall_truncated_witness :
  let water := still_water (FM := Exact.model) 40 8 8 14 in
  let d' := @Build_drip_t Exact.model true 20 129 (- 49000000000 # 10000000000)%Q in
  cols water !! Z.to_nat 20 = Some (still_column 8)
  /\ (0 <= @col_height Exact.model (still_column 8))%Q
  /\ drips_steps term_40x20 5 [spawned term_40x20 20] water = Some ([d'], water)
  /\ [d'] !! 0%nat = Some d' /\ drip_active d' = true
  /\ (@drip_speed Exact.model d' == - (98 # 100) * inject_Z (Z.of_nat 5))%Q
  /\ (free_fall 144 5 - inject_Z (Z.of_nat 5) <= inject_Z (drip_y d'))%Q
  /\ (inject_Z (drip_y d') <= free_fall 144 5)%Q.
Proof.
  intros water d'.
  assert (Hc : cols water !! Z.to_nat 20 = Some (still_column 8)) by reflexivity.
  assert (Hh : (0 <= @col_height Exact.model (still_column 8))%Q) by discriminate.
  assert (Hrun : drips_steps term_40x20 5 [spawned term_40x20 20] water
                 = Some ([d'], water)) by reflexivity.
  split; [exact Hc|]. split; [exact Hh|]. split; [exact Hrun|].
  split; [reflexivity|]. split; [reflexivity|].
  exact (proj2 (proj1 drip_free_fall_truncated term_40x20 20 water (still_column 8)
                  5%nat [d'] water d' Hc Hh Hrun eq_refl eq_refl)).
Defined.

Lemma render_row_color_changes_witness :
  let term := {| term_width := 2; term_height := 20; term_updated := false |} in
  let water := still_water (FM := Exact.model) 2 8 8 14 in
  let cells :=
    [([MoveCursor 20 1; SetColor [44]; WriteGlyph blank],
      {| move := false; color_mode := CM_WATER_BG |});
     ([WriteGlyph blank], {| move := false; color_mode := CM_WATER_BG |})] in
  render_row term water [] (cloud_init term) 19 true = Some cells
  /\ cells !! 0%nat = Some ([MoveCursor 20 1; SetColor [44]; WriteGlyph blank],
                           {| move := false; color_mode := CM_WATER_BG |})
  /\ cells !! 1%nat = Some ([WriteGlyph blank],
                           {| move := false; color_mode := CM_WATER_BG |})
  /\ island_colors term water 19 (Z.of_nat 1) = None
  /\ Forall (fun d : drip_t (FM := Exact.model) =>
               drip_at term 19 (Z.of_nat 1) d = false) []
  /\ Forall (fun o => is_SetColor o = false) [WriteGlyph blank].
Proof.
  intros term water cells.
  assert (Hrow : render_row term water [] (cloud_init term) 19 true = Some cells)
    by reflexivity.
  assert (Hisl : island_colors term water 19 (Z.of_nat 1) = None) by reflexivity.
  assert (Hdrip : Forall (fun d : drip_t (FM := Exact.model) =>
                            drip_at term 19 (Z.of_nat 1) d = false) [])
    by constructor.
  split; [exact Hrow|]. split; [reflexivity|]. split; [reflexivity|].
  split; [exact Hisl|]. split; [exact Hdrip|].
  exact (proj2 (render_row_color_changes term water [] (cloud_init term) 19 true cells
                  0%nat _ _ _ _ Hrow eq_refl eq_refl) Hisl Hdrip eq_refl).
Defined.

Lemma drips_update_target_height_witness :
  let water := still_water (FM := Exact.model) 3 8 8 14 in
  let d0 := @Build_drip_t Exact.model true 2 8 0%Q in
  let c0 : qcol := still_column 8 in
  let water1 := still_water (FM := IEEE.model) 40 8 8 14 in
  let d1 : drip_t (FM := IEEE.model) :=
    {| drip_active := true; drip_x := 20; drip_y := 8; drip_speed := z2f 0 |} in
  let c1 : icol := still_column 8 in
  (pool_1 !! 0%nat = Some d1
   /\ cols water1 !! Z.to_nat (drip_x d1) = Some c1
   /\ Forall (fun d : drip_t (FM := IEEE.model) =>
                drip_active d = true -> is_Some (drip_fall d)) pool_1
   /\ length (landed (col_height c1) pool_1) = 1%nat
   /\ exists ds' water',
        drips_update term_40x20 pool_1 water1 = Some (ds', water')
        /\ target_height water'
           = target_height (Nat.iter (length (landed (col_height c1) pool_1))
                              (raise_target term_40x20) water1)
        /\ (forall w : water_t (FM := IEEE.model),
              target_height (raise_target term_40x20 w)
              = if f_lt (target_height w)
                        (z2f (SizeT.mul (SizeT.sub (term_height term_40x20) 3) 8))
                then d2f (d_add (f2d (target_height w))
                                (d_div (dlit 8) (z2d (term_width term_40x20))))
                else target_height w))
  /\ (0 < term_width term_40x20
      /\ pool_4 !! 0%nat = Some d0
      /\ cols water !! Z.to_nat (drip_x d0) = Some c0
      /\ Forall (fun d : qdrip => drip_active d = true -> is_Some (drip_fall d)) pool_4
      /\ length (landed (col_height c0) pool_4) = 2%nat
      /\ exists ds' water',
           drips_update term_40x20 pool_4 water = Some (ds', water')
           /\ @target_height Exact.model water'
              = Nat.iter (length (landed (@col_height Exact.model c0) pool_4))
                  (target_raise term_40x20) (@target_height Exact.model water)
           /\ (forall t : Q,
                 ((t < target_cap term_40x20)%Q
                  -> target_raise term_40x20 t = (t + target_step term_40x20)%Q)
                 /\ ((target_cap term_40x20 <= t)%Q -> target_raise term_40x20 t = t))
           /\ (@target_height Exact.model water <= @target_height Exact.model water')%Q
           /\ ((@target_height Exact.model water
                < target_cap term_40x20 + target_step term_40x20)%Q ->
               (@target_height Exact.model water'
                < target_cap term_40x20 + target_step term_40x20)%Q)
           /\ ((target_cap term_40x20 <= @target_height Exact.model water)%Q ->
               @target_height Exact.model water' = @target_height Exact.model water)).
Proof.
  intros water d0 c0 water1 d1 c1.
  assert (Hw : 0 < term_width term_40x20) by reflexivity.
  assert (H0 : pool_4 !! 0%nat = Some d0) by reflexivity.
  assert (Hc : cols water !! Z.to_nat (drip_x d0) = Some c0) by reflexivity.
  assert (Hfall : Forall (fun d : qdrip => drip_active d = true -> is_Some (drip_fall d))
                    pool_4).
  { repeat constructor; intros _; eexists; reflexivity. }
  assert (H1 : pool_1 !! 0%nat = Some d1) by reflexivity.
  assert (Hc1 : cols water1 !! Z.to_nat (drip_x d1) = Some c1) by reflexivity.
  assert (Hfall1 : Forall (fun d : drip_t (FM := IEEE.model) =>
                             drip_active d = true -> is_Some (drip_fall d)) pool_1).
  { repeat constructor; intros _; eexists; reflexivity. }
  split.
  - split; [exact H1|]. split; [exact Hc1|]. split; [exact Hfall1|].
    split; [reflexivity|].
    exact (proj1 drips_update_target_height IEEE.model term_40x20 pool_1 water1 d1 c1
             H1 Hc1 Hfall1).
  - split; [exact Hw|]. split; [exact H0|]. split; [exact Hc|]. split; [exact Hfall|].
    split; [reflexivity|].
    exact (proj2 drips_update_target_height term_40x20 pool_4 water d0 c0 Hw H0 Hc Hfall).
Defined.

(** ** The further theorems at concrete inputs *)

Lemma drips_generate_lowest_free_slot_witness :
  let ds' := [@Build_drip_t Exact.model true 3 50 0%Q;
              spawned term_40x20 7;
              @Build_drip_t Exact.model false 9 7 0%Q] in
  drips_generate true term_40x20 pool_3 7 = (0, ds')
  /\ first_inactive pool_3 = 1%nat
  /\ ds' !! first_inactive pool_3 = Some (spawned term_40x20 7)
  /\ (forall j, j <> first_inactive pool_3 -> ds' !! j = pool_3 !! j).
Proof.
  intros ds'.
  assert (H : drips_generate true term_40x20 pool_3 7 = (0, ds')) by reflexivity.
  split; [exact H|]. split; [reflexivity|].
  split.
  - exact (proj1 (proj2 (drips_generate_lowest_free_slot true term_40x20 pool_3 7 ds' H))).
  - exact (proj1 (proj2 (proj2
             (drips_generate_lowest_free_slot true term_40x20 pool_3 7 ds' H)))).
Defined.

Lemma drips_generate_active_count_witness :
  let ds' := [@Build_drip_t Exact.model true 3 50 0%Q;
              spawned term_40x20 7;
              @Build_drip_t Exact.model false 9 7 0%Q] in
  drips_generate true term_40x20 pool_3 7 = (0, ds')
  /\ active_count ds' = Datatypes.S (active_count pool_3)
  /\ (length pool_3 <= length ds' <= Datatypes.S (length pool_3))%nat
  /\ (length ds' = Datatypes.S (length pool_3) <-> active_count pool_3 = length pool_3).
Proof.
  intros ds'.
  assert (H : drips_generate true term_40x20 pool_3 7 = (0, ds')) by reflexivity.
  split; [exact H|].
  exact (drips_generate_active_count true term_40x20 pool_3 7 ds' H).
Defined.

Lemma drips_update_pool_shape_witness :
  drips_update term_40x20 pool_2 (still_water 3 8 8 14) = Some (pool_2_after, water_3_after)
  /\ length pool_2_after = length pool_2
  /\ forall i d, pool_2 !! i = Some d ->
       exists d', pool_2_after !! i = Some d'
         /\ drip_x d' = drip_x d
         /\ (drip_active d = false -> d' = d)
         /\ (drip_active d' = true -> drip_active d = true).
Proof.
  assert (H : drips_update term_40x20 pool_2 (still_water 3 8 8 14)
              = Some (pool_2_after, water_3_after)) by reflexivity.
  split; [exact H|].
  exact (drips_update_pool_shape term_40x20 pool_2 (still_water 3 8 8 14)
           pool_2_after water_3_after H).
Defined.

Lemma drips_update_changes_speeds_only_witness :
  drips_update term_40x20 pool_2 (still_water 3 8 8 14) = Some (pool_2_after, water_3_after)
  /\ length (cols water_3_after) = length (cols (still_water (FM := Exact.model) 3 8 8 14))
  /\ heights (cols water_3_after) = heights (cols (still_water (FM := Exact.model) 3 8 8 14))
  /\ map col_ldelta (cols water_3_after)
     = map col_ldelta (cols (still_water (FM := Exact.model) 3 8 8 14))
  /\ map col_rdelta (cols water_3_after)
     = map col_rdelta (cols (still_water (FM := Exact.model) 3 8 8 14))
  /\ island_y water_3_after = island_y (still_water (FM := Exact.model) 3 8 8 14).
Proof.
  assert (H : drips_update term_40x20 pool_2 (still_water 3 8 8 14)
              = Some (pool_2_after, water_3_after)) by reflexivity.
  split; [exact H|].
  exact (drips_update_changes_speeds_only term_40x20 pool_2 (still_water 3 8 8 14)
           pool_2_after water_3_after H).
Defined.

Lemma drips_update_idle_witness :
  Forall (fun d : qdrip => drip_active d = false) (drop 1 pool_3)
  /\ drips_update term_40x20 (drop 1 pool_3) (still_water (FM := Exact.model) 3 8 8 14)
     = Some (drop 1 pool_3, still_water 3 8 8 14).
Proof.
  assert (H : Forall (fun d : qdrip => drip_active d = false) (drop 1 pool_3))
    by (repeat constructor).
  split; [exact H|].
  exact (drips_update_idle term_40x20 (drop 1 pool_3) (still_water 3 8 8 14) H).
Defined.

Lemma drips_update_column_out_of_range_witness :
  pool_3 !! 0%nat = Some (@Build_drip_t Exact.model true 3 50 0%Q)
  /\ (length (cols (still_water (FM := Exact.model) 3 8 8 14))
      <= Z.to_nat (drip_x (@Build_drip_t Exact.model true 3 50 0%Q)))%nat
  /\ Exists (fun d : qdrip => drip_active d = true) pool_3
  /\ drips_update term_40x20 pool_3 (still_water (FM := Exact.model) 3 8 8 14) = None.
Proof.
  assert (H0 : pool_3 !! 0%nat = Some (@Build_drip_t Exact.model true 3 50 0%Q))
    by reflexivity.
  assert (Hx : (length (cols (still_water (FM := Exact.model) 3 8 8 14))
                <= Z.to_nat (drip_x (@Build_drip_t Exact.model true 3 50 0%Q)))%nat)
    by (simpl; lia).
  assert (He : Exists (fun d : qdrip => drip_active d = true) pool_3)
    by (constructor; reflexivity).
  split; [exact H0|]. split; [exact Hx|]. split; [exact He|].
  exact (drips_update_column_out_of_range term_40x20 pool_3 (still_water 3 8 8 14)
           (@Build_drip_t Exact.model true 3 50 0%Q) H0 Hx He).
Defined.

(** A drip 20 sub-rows up that falls 16 sub-rows a frame. *)
Lemma drip_fall_below_zero_witness :
  let d := @Build_drip_t Exact.model true 0 20 (- 16 # 1)%Q in
  0 <= drip_y d < 2 ^ 64
  /\ (drip_speed d <= 98 # 100)%Q
  /\ f_lt (z2f (drip_y d)) (d2f (d_sub (f2d (drip_speed d)) GRAVITY)) = false
  /\ (is_Some (drip_fall d)
      <-> (- 1 < inject_Z (drip_y d) + (drip_speed d - (98 # 100)))%Q)
  /\ forall d1, drip_fall d = Some d1 ->
       (drip_speed d1 == drip_speed d - (98 # 100))%Q
       /\ drip_x d1 = drip_x d /\ drip_active d1 = drip_active d
       /\ ((0 <= inject_Z (drip_y d) + drip_speed d1)%Q ->
           (inject_Z (drip_y d1) <= inject_Z (drip_y d) + drip_speed d1)%Q
           /\ (inject_Z (drip_y d) + drip_speed d1 < inject_Z (drip_y d1) + 1)%Q)
       /\ ((inject_Z (drip_y d) + drip_speed d1 < 0)%Q -> drip_y d1 = 0).
Proof.
  intros d.
  assert (Hy : 0 <= drip_y d < 2 ^ 64) by (simpl; lia).
  assert (Hv : (drip_speed d <= 98 # 100)%Q) by (vm_compute; discriminate).
  split; [exact Hy|]. split; [exact Hv|].
  exact (drip_fall_below_zero d Hy Hv).
Defined.

Lemma cloud_update_stays_on_track_witness :
  5 <= term_width term_40x20 <= 65535
  /\ exists (cloud' : qcloud) (ds' : list qdrip),
       cloud_update 1 true term_40x20 (cloud_init term_40x20) [] = Some (cloud', ds')
       /\ (0 <= cloud_pos cloud')%Q
       /\ (cloud_pos cloud' <= inject_Z (track_end term_40x20))%Q
       /\ (ds' = []
           \/ exists x, 2 <= x <= term_width term_40x20 - 3
                /\ (inject_Z (8 * (x - 2)) <= cloud_pos cloud')%Q
                /\ (cloud_pos cloud' < inject_Z (8 * (x - 2)) + 8)%Q
                /\ ds' = snd (drips_generate true term_40x20 [] x)).
Proof.
  assert (Hw : 5 <= term_width term_40x20 <= 65535) by (simpl; lia).
  split; [exact Hw|].
  exact (cloud_update_stays_on_track 1 true term_40x20 (cloud_init term_40x20) [] Hw).
Defined.

Lemma cloud_update_motion_witness :
  let cloud : qcloud := cloud_init term_40x20 in
  let v : Q := (if SizeT.wrap 1 mod SizeT.mul (term_width term_40x20) 8 =? 0
                then inject_Z (-1) * cloud_speed cloud else cloud_speed cloud)%Q in
  5 < term_width term_40x20 <= 65535
  /\ term_updated term_40x20 = false
  /\ exists (cloud' : qcloud) (ds' : list qdrip),
       cloud_update 1 true term_40x20 cloud [] = Some (cloud', ds')
       /\ ((cloud_pos cloud + v <= 0)%Q ->
             (cloud_pos cloud' == 0)%Q /\ (cloud_speed cloud' == 1)%Q)
       /\ ((inject_Z (track_end term_40x20) <= cloud_pos cloud + v)%Q ->
             (cloud_pos cloud' == inject_Z (track_end term_40x20))%Q
             /\ (cloud_speed cloud' == -1)%Q)
       /\ ((0 < cloud_pos cloud + v)%Q ->
           (cloud_pos cloud + v < inject_Z (track_end term_40x20))%Q ->
             (cloud_pos cloud' == cloud_pos cloud + v)%Q /\ (cloud_speed cloud' == v)%Q).
Proof.
  intros cloud v.
  assert (Hw : 5 < term_width term_40x20 <= 65535) by (simpl; lia).
  split; [exact Hw|]. split; [reflexivity|].
  exact (cloud_update_motion 1 true term_40x20 cloud [] v Hw eq_refl eq_refl).
Defined.

Lemma cloud_update_turns_at_ends_witness :
  let cloud : qcloud := cloud_init term_40x20 in
  5 < term_width term_40x20 <= 65535
  /\ exists (cloud' : qcloud) (ds' : list qdrip),
       cloud_update 1 true term_40x20 cloud [] = Some (cloud', ds')
       /\ ((cloud_speed cloud == 1 \/ cloud_speed cloud == -1)%Q ->
           (cloud_speed cloud' == 1 \/ cloud_speed cloud' == -1)%Q)
       /\ ((cloud_pos cloud' == 0)%Q -> (cloud_speed cloud' == 1)%Q)
       /\ ((cloud_pos cloud' == inject_Z (track_end term_40x20))%Q ->
           (cloud_speed cloud' == -1)%Q).
Proof.
  intros cloud.
  assert (Hw : 5 < term_width term_40x20 <= 65535) by (simpl; lia).
  split; [exact Hw|].
  exact (cloud_update_turns_at_ends 1 true term_40x20 cloud [] Hw).
Defined.

Lemma cloud_steps_drop_schedule_witness :
  let cloud : qcloud := cloud_init term_40x20 in
  let rnds := [1; 2; 3] in
  5 <= term_width term_40x20 <= 65535
  /\ drop_delay cloud = 30 /\ 0 <= drop_count cloud < 30
  /\ Forall (fun d : qdrip => drip_active d = true) []
  /\ exists (cloud' : qcloud) (new : list qdrip),
       cloud_steps rnds true term_40x20 cloud [] = Some (cloud', [] ++ new)
       /\ drop_delay cloud' = 30
       /\ drop_count cloud' = (drop_count cloud + Z.of_nat (length rnds)) mod 30
       /\ Z.of_nat (length new) = (drop_count cloud + Z.of_nat (length rnds)) / 30
       /\ Forall (fun d => exists x, 2 <= x <= term_width term_40x20 - 3
                                     /\ d = spawned term_40x20 x) new.
Proof.
  intros cloud rnds.
  assert (Hw : 5 <= term_width term_40x20 <= 65535) by (simpl; lia).
  assert (Hc : 0 <= drop_count cloud < 30) by (simpl; lia).
  assert (Ha : Forall (fun d : qdrip => drip_active d = true) []) by constructor.
  split; [exact Hw|]. split; [reflexivity|]. split; [exact Hc|]. split; [exact Ha|].
  exact (cloud_steps_drop_schedule rnds term_40x20 cloud [] Hw eq_refl Hc Ha).
Defined.

Lemma run_drop_schedule_witness :
  drop_delay (w_cloud world_8x8) = 30
  /\ 0 <= drop_count (w_cloud world_8x8) < 30
  /\ exists w',
       run frames_8x8 world_8x8 = Some w'
       /\ length frames_8x8 = 65%nat
       /\ drop_count (w_cloud w') = 5
       /\ length (w_drips w') = 1%nat
       /\ drop_delay (w_cloud w') = 30
       /\ drop_count (w_cloud w')
          = (drop_count (w_cloud world_8x8) + Z.of_nat (length frames_8x8)) mod 30
       /\ Z.of_nat (length (w_drips world_8x8)) <= Z.of_nat (length (w_drips w'))
          <= Z.of_nat (length (w_drips world_8x8))
             + (drop_count (w_cloud world_8x8) + Z.of_nat (length frames_8x8)) / 30.
Proof.
  assert (Hc : 0 <= drop_count (w_cloud world_8x8) < 30) by (simpl; lia).
  split; [reflexivity|]. split; [exact Hc|].
  assert (Hview : (fun w => (drop_count (w_cloud w), length (w_drips w)))
                    <$> run frames_8x8 world_8x8 = Some (5, 1%nat))
    by (vm_compute; reflexivity).
  destruct (run frames_8x8 world_8x8) as [w'|] eqn:Hrun; [|discriminate Hview].
  exists w'. split; [reflexivity|]. split; [reflexivity|].
  split; [inversion Hview; reflexivity|]. split; [inversion Hview; reflexivity|].
  exact (run_drop_schedule frames_8x8 world_8x8 w' eq_refl Hc Hrun).
Defined.

Lemma run_cols_length_witness :
  Forall (fun env : frame_env (FM := IEEE.model) => is_Some (env_water_alloc env))
         frames_resized
  /\ length (cols (w_water world_8x8)) = Z.to_nat (term_width (w_term world_8x8))
  /\ exists w',
       run frames_resized world_8x8 = Some w'
       /\ term_width (w_term w') = 5
       /\ length (w_drips w') = 1%nat
       /\ length (cols (w_water w')) = Z.to_nat (term_width (w_term w')).
Proof.
  assert (Ha : Forall (fun env : frame_env (FM := IEEE.model) =>
                         is_Some (env_water_alloc env)) frames_resized).
  { apply Forall_forall. intros env Hin. unfold frames_resized in Hin.
    apply elem_of_app in Hin as [Hin | Hin].
    - apply elem_of_replicate in Hin as [-> _]. eexists. reflexivity.
    - repeat (apply elem_of_cons in Hin as [-> | Hin]; [eexists; reflexivity|]).
      apply elem_of_nil in Hin. destruct Hin. }
  assert (Hl : length (cols (w_water world_8x8))
               = Z.to_nat (term_width (w_term world_8x8))) by reflexivity.
  split; [exact Ha|]. split; [exact Hl|].
  assert (Hview : (fun w => (term_width (w_term w), length (w_drips w)))
                    <$> run frames_resized world_8x8 = Some (5, 1%nat))
    by (vm_compute; reflexivity).
  destruct (run frames_resized world_8x8) as [w'|] eqn:Hrun; [|discriminate Hview].
  exists w'. split; [reflexivity|].
  split; [inversion Hview; reflexivity|]. split; [inversion Hview; reflexivity|].
  exact (run_cols_length frames_resized world_8x8 w' Ha Hrun Hl).
Defined.

Lemma render_cursor_on_screen_witness :
  let out := [MoveCursor 1 1; SetColor [97; 40]; WriteGlyph (cloud_char 0);
              MoveCursor 1 2; SetColor [44]; WriteGlyph blank] in
  SizeT.in_range (term_width term_2x1) /\ SizeT.in_range (term_height term_2x1)
  /\ render (FM := Exact.model) term_2x1 (still_water 2 8 8 14) [] (cloud_init term_2x1)
     = Some out
  /\ MoveCursor 1 2 ∈ out
  /\ 1 <= 1 <= term_height term_2x1 /\ 1 <= 2 <= term_width term_2x1.
Proof.
  intros out.
  assert (Hw : SizeT.in_range (term_width term_2x1))
    by (unfold SizeT.in_range, SizeT.modulus; simpl; lia).
  assert (Hh : SizeT.in_range (term_height term_2x1))
    by (unfold SizeT.in_range, SizeT.modulus; simpl; lia).
  assert (Hr : render (FM := Exact.model) term_2x1 (still_water 2 8 8 14) []
                 (cloud_init term_2x1) = Some out) by reflexivity.
  assert (Hin : MoveCursor 1 2 ∈ out) by (apply (list_elem_of_lookup_2 out 3); reflexivity).
  split; [exact Hw|]. split; [exact Hh|]. split; [exact Hr|]. split; [exact Hin|].
  exact (render_cursor_on_screen term_2x1 (still_water 2 8 8 14) [] (cloud_init term_2x1)
           out 1 2 Hw Hh Hr Hin).
Defined.

Lemma render_empty_terminal_witness :
  let term := {| term_width := 0; term_height := 20; term_updated := false |} in
  (term_width term = 0 \/ term_height term = 0)
  /\ render (FM := Exact.model) term (still_water 0 8 8 14) [] (cloud_init term) = Some [].
Proof.
  intros term.
  assert (H : term_width term = 0 \/ term_height term = 0) by (left; reflexivity).
  split; [exact H|].
  exact (render_empty_terminal term (still_water 0 8 8 14) [] (cloud_init term) H).
Defined.

Lemma render_cell_draws_every_drip_witness :
  let out := [SetColor [34]; MoveCursor 20 2; WriteGlyph drip_char;
              MoveCursor 20 2; SetColor [44]; WriteGlyph blank] in
  render_cell term_2x20 (still_water 2 8 8 14) pool_row_19 (cloud_init term_2x20) 19 1
    {| move := true; color_mode := CM_UNKNOWN |}
  = Some (out, {| move := false; color_mode := CM_WATER_BG |})
  /\ length (List.filter is_drip_glyph out)
     = length (List.filter (drip_at term_2x20 19 1) pool_row_19).
Proof.
  intros out.
  assert (H : render_cell term_2x20 (still_water 2 8 8 14) pool_row_19
                (cloud_init term_2x20) 19 1 {| move := true; color_mode := CM_UNKNOWN |}
              = Some (out, {| move := false; color_mode := CM_WATER_BG |}))
    by reflexivity.
  split; [exact H|].
  exact (render_cell_draws_every_drip term_2x20 (still_water 2 8 8 14) pool_row_19
           (cloud_init term_2x20) 19 1 _ out _ H).
Defined.

Lemma render_row_colour_first_witness :
  let cells :=
    [([MoveCursor 20 1; SetColor [44]; WriteGlyph blank],
      {| move := false; color_mode := CM_WATER_BG |});
     ([WriteGlyph blank], {| move := false; color_mode := CM_WATER_BG |})] in
  render_row (FM := Exact.model) term_2x20 (still_water 2 8 8 14) []
    (cloud_init term_2x20) 19 true = Some cells
  /\ colour_first (row_output cells) = true.
Proof.
  intros cells.
  assert (H : render_row (FM := Exact.model) term_2x20 (still_water 2 8 8 14) []
                (cloud_init term_2x20) 19 true = Some cells) by reflexivity.
  split; [exact H|].
  exact (render_row_colour_first term_2x20 (still_water 2 8 8 14) []
           (cloud_init term_2x20) 19 true cells H).
Defined.

Lemma water_stage_glyph_witness :
  let c : qcol := @Build_water_column_t Exact.model (107 # 10)%Q 0%Q 0%Q 0%Q in
  let st := {| move := true; color_mode := CM_UNKNOWN |} in
  0 <= 18 < term_height term_40x20 /\ term_height term_40x20 <= 65535
  /\ exists out st',
       water_stage term_40x20 18 5 c st = Some (out, st')
       /\ ((col_height c < inject_Z (8 * (term_height term_40x20 - 18 - 1)))%Q ->
           glyphs out = (if cmode_eqb (color_mode st) CM_ISLAND then [blank] else [])
           /\ color_mode st' = color_mode st)
       /\ ((inject_Z (8 * (term_height term_40x20 - 18)) <= col_height c)%Q ->
           glyphs out = [blank] /\ color_mode st' = CM_WATER_BG /\ move st' = false)
       /\ ((inject_Z (8 * (term_height term_40x20 - 18 - 1)) <= col_height c)%Q ->
           (col_height c < inject_Z (8 * (term_height term_40x20 - 18)))%Q ->
           exists l, 0 <= l <= 7
             /\ (inject_Z (8 * (term_height term_40x20 - 18 - 1) + l) <= col_height c)%Q
             /\ (col_height c < inject_Z (8 * (term_height term_40x20 - 18 - 1) + l) + 1)%Q
             /\ glyphs out = [water_chars l] /\ move st' = false).
Proof.
  intros c st.
  assert (Hy : 0 <= 18 < term_height term_40x20) by (simpl; lia).
  assert (Hh : term_height term_40x20 <= 65535) by (simpl; lia).
  split; [exact Hy|]. split; [exact Hh|].
  exact (water_stage_glyph term_40x20 18 5 c st Hy Hh).
Defined.

Lemma render_defined_witness :
  let water : qwater := still_water 40 8 8 14 in
  let cloud : qcloud := cloud_init term_40x20 in
  0 <= term_height term_40x20 <= 65535
  /\ length (cols water) = Z.to_nat (term_width term_40x20)
  /\ (- inject_Z (2 ^ 31) <= cloud_pos cloud)%Q
  /\ (cloud_pos cloud <= inject_Z (2 ^ 31))%Q
  /\ exists out, render term_40x20 water [] cloud = Some out.
Proof.
  intros water cloud.
  assert (Hh : 0 <= term_height term_40x20 <= 65535) by (simpl; lia).
  assert (Hl : length (cols water) = Z.to_nat (term_width term_40x20)) by reflexivity.
  assert (Hlo : (- inject_Z (2 ^ 31) <= cloud_pos cloud)%Q) by (vm_compute; discriminate).
  assert (Hhi : (cloud_pos cloud <= inject_Z (2 ^ 31))%Q) by (vm_compute; discriminate).
  split; [exact Hh|]. split; [exact Hl|]. split; [exact Hlo|]. split; [exact Hhi|].
  exact (render_defined term_40x20 water [] cloud Hh Hl Hlo Hhi).
Defined.

(** Row 17 of a terminal of 20 columns whose island starts in row 14: the
    base would reach 7 columns to either side of column 10. *)
Lemma island_base_row_witness :
  let term := {| term_width := 20; term_height := 40; term_updated := false |} in
  let water : qwater := still_water 20 8 8 14 in
  0 <= term_width term <= 65535
  /\ 0 <= island_y water <= 17 /\ 17 <= 65535 /\ 0 <= 4 <= 65535
  /\ island_colors term water 17 4
     = if (1 + 2 * (17 - island_y water) <=? term_width term / 2)
          && (term_width term / 2 - (1 + 2 * (17 - island_y water)) <=? 4)
          && (4 <=? term_width term / 2 + (1 + 2 * (17 - island_y water)))
       then Some [34; 103] else None.
Proof.
  intros term water.
  assert (Hw : 0 <= term_width term <= 65535) by (simpl; lia).
  assert (Hy : 0 <= island_y water <= 17) by (simpl; lia).
  assert (Hy' : 17 <= 65535) by lia.
  assert (Hx : 0 <= 4 <= 65535) by lia.
  split; [exact Hw|]. split; [exact Hy|]. split; [exact Hy'|]. split; [exact Hx|].
  exact (island_base_row term water 17 4 Hw Hy Hy' Hx).
Defined.

Lemma spawned_drip_row_witness :
  let water := still_water (FM := Exact.model) 2 8 8 1 in
  let cloud := cloud_init (FM := Exact.model) term_2x3 in
  let ds := [spawned (FM := Exact.model) term_2x3 1] in
  3 <= term_height term_2x3 <= 65535 /\ 0 <= 1 < term_width term_2x3
  /\ spawned term_2x3 1 ∈ ds
  /\ (exists out, render term_2x3 water ds cloud = Some out
       /\ (exists st cell pre post,
             render_cell term_2x3 water ds cloud 2 1 st = Some cell
             /\ out = pre ++ fst cell ++ post
             /\ WriteGlyph drip_char ∈ fst cell)
       /\ (forall y x, 0 <= y ->
             drip_at term_2x3 y x (spawned (FM := Exact.model) term_2x3 1)
             = (y =? 2) && (x =? 1))).
Proof.
  intros water cloud ds.
  assert (Hh : 3 <= term_height term_2x3 <= 65535) by (simpl; lia).
  assert (Hx : 0 <= 1 < term_width term_2x3) by (simpl; lia).
  assert (Hin : spawned term_2x3 1 ∈ ds) by (apply list_elem_of_here).
  split; [exact Hh|]. split; [exact Hx|]. split; [exact Hin|].
  destruct (render term_2x3 water ds cloud) as [out|] eqn:Hrun.
  - exists out. split; [reflexivity|].
    exact (spawned_drip_row term_2x3 water ds cloud out 1 Hh Hx Hin Hrun).
  - exfalso. vm_compute in Hrun. discriminate.
Defined.

Lemma cloud_at_on_track_witness :
  let cloud : qcloud := cloud_init term_40x20 in
  5 <= term_width term_40x20 <= 65535 /\ 0 <= 1 <= 2 /\ 0 <= 19 < 2 ^ 64
  /\ (0 <= cloud_pos cloud)%Q /\ (cloud_pos cloud <= inject_Z (track_end term_40x20))%Q
  /\ exists col, 0 <= col <= term_width term_40x20 - 5
       /\ (inject_Z (8 * col) <= cloud_pos cloud)%Q
       /\ (cloud_pos cloud < inject_Z (8 * col) + 8)%Q
       /\ cloud_at cloud 1 19 = Some (19 =? col).
Proof.
  intros cloud.
  assert (Hw : 5 <= term_width term_40x20 <= 65535) by (simpl; lia).
  assert (Hy : 0 <= 1 <= 2) by lia.
  assert (Hx : 0 <= 19 < 2 ^ 64) by lia.
  assert (H0 : (0 <= cloud_pos cloud)%Q) by (vm_compute; discriminate).
  assert (HL : (cloud_pos cloud <= inject_Z (track_end term_40x20))%Q)
    by (vm_compute; discriminate).
  split; [exact Hw|]. split; [exact Hy|]. split; [exact Hx|].
  split; [exact H0|]. split; [exact HL|].
  exact (cloud_at_on_track term_40x20 cloud 1 19 Hw Hy Hx H0 HL).
Defined.

Lemma spread_pass_conserves_total_speed_witness :
  let cs : list qcol := [still_column 8; still_column 9; still_column 13] in
  SizeT.in_range 3 /\ length cs = Z.to_nat 3
  /\ exists cs', spread_pass 3 cs = Some cs' /\ (total_speed cs' == total_speed cs)%Q.
Proof.
  intros cs.
  assert (Hr : SizeT.in_range 3) by (unfold SizeT.in_range, SizeT.modulus; lia).
  split; [exact Hr|]. split; [reflexivity|].
  exact (spread_pass_conserves_total_speed 3 cs Hr eq_refl).
Defined.

Lemma water_update_mean_level_witness :
  let term := {| term_width := 3; term_height := 20; term_updated := false |} in
  let water : qwater :=
    @Build_water_t Exact.model [still_column 8; still_column 9; still_column 13] 8%Q 14 in
  SizeT.in_range (term_width term) /\ term_updated term = false
  /\ length (cols water) = Z.to_nat (term_width term)
  /\ exists water',
       water_update None term water = Some (0, water')
       /\ (total_speed (cols water')
           == total_speed (cols water)
              + ((25 # 1000) * (inject_Z (term_width term) * target_height water
                                - total_height (cols water))
                 - total_speed (cols water) * (25 # 1000)))%Q
       /\ (total_height (cols water')
           == total_height (cols water) + total_speed (cols water'))%Q
       /\ (39 * (total_speed (cols water') * total_speed (cols water'))
           + (total_height (cols water') - inject_Z (term_width term) * target_height water)
             * (total_height (cols water')
                - inject_Z (term_width term) * target_height water)
           == (39 # 40)
              * (39 * (total_speed (cols water) * total_speed (cols water))
                 + (total_height (cols water)
                    - inject_Z (term_width term) * target_height water)
                   * (total_height (cols water)
                      - inject_Z (term_width term) * target_height water)))%Q.
Proof.
  intros term water.
  assert (Hr : SizeT.in_range (term_width term))
    by (unfold SizeT.in_range, SizeT.modulus; simpl; lia).
  split; [exact Hr|]. split; [reflexivity|]. split; [reflexivity|].
  exact (water_update_mean_level None term water Hr eq_refl eq_refl).
Defined.

Lemma ieee_spread_deltas_mirror_witness :
  let cs : list (water_column_t (FM := IEEE.model)) :=
    [still_column 8; still_column 9; still_column 13] in
  SizeT.in_range 3 /\ length cs = Z.to_nat 3
  /\ exists cs1, for_loop (Z.to_nat 3) (spread_delta_body 3) cs = Some cs1
       /\ forall i, (i + 1 < length cs)%nat ->
            IEEE.mirror (@col_rdelta IEEE.model (cs1 !!! i))
                        (@col_ldelta IEEE.model (cs1 !!! (i + 1)%nat))
            /\ IEEE.to_Q (@col_ldelta IEEE.model (cs1 !!! (i + 1)%nat))
               = Qopp <$> IEEE.to_Q (@col_rdelta IEEE.model (cs1 !!! i)).
Proof.
  intros cs.
  assert (Hr : SizeT.in_range 3) by (unfold SizeT.in_range, SizeT.modulus; lia).
  split; [exact Hr|]. split; [reflexivity|].
  exact (ieee_spread_deltas_mirror 3 cs Hr eq_refl).
Defined.

Lemma water_update_rest_is_fixed_witness :
  let term := {| term_width := 3; term_height := 20; term_updated := false |} in
  let T := S754_finite false 8388608 (-20) in
  let water : water_t (FM := IEEE.model) :=
    {| cols := ieee_level_8; target_height := T; island_y := 14 |} in
  (T = S754_zero false \/ (exists s m e, T = S754_finite s m e))
  /\ term_updated term = false
  /\ length (cols water) = Z.to_nat (term_width term)
  /\ target_height water = T
  /\ (forall c, c ∈ cols water -> col_height c = T /\ col_speed c = S754_zero false)
  /\ exists water',
       water_update None term water = Some (0, water')
       /\ length (cols water') = Z.to_nat (term_width term)
       /\ target_height water' = T
       /\ island_y water' = island_y water
       /\ (forall c, c ∈ cols water' -> col_height c = T /\ col_speed c = S754_zero false).
Proof.
  intros term T water.
  assert (HT : T = S754_zero false \/ (exists s m e, T = S754_finite s m e))
    by (right; unfold T; eauto).
  assert (Hrest : forall c, c ∈ cols water ->
            col_height c = T /\ col_speed c = S754_zero false).
  { intros c Hin. unfold water, ieee_level_8 in Hin. cbn [cols] in Hin.
    repeat (apply elem_of_cons in Hin as [-> | Hin]; [split; vm_compute; reflexivity|]).
    apply elem_of_nil in Hin. destruct Hin. }
  split; [exact HT|]. split; [reflexivity|]. split; [reflexivity|]. split; [reflexivity|].
  split; [exact Hrest|].
  exact (water_update_rest_is_fixed None term water T HT eq_refl eq_refl eq_refl Hrest).
Defined.
